(** * prismarine-viewer: world renderer, mesher worker, world store, LRU cache

    A shallow embedding of
      - viewer/lib/worldrenderer.js  (the coordinator, [WorldRenderer])
      - viewer/lib/worker.js         (the mesher worker)
      - viewer/lib/world.js          (the worker's world replica, [World])
      - viewer/lib/lruCache.js       ([LRUCache])
      - viewer/lib/dispose.js        ([dispose3] and friends)
      - viewer/index.js              (the per-frame [Viewer.update])
      - lib/common.js                ([rateLimit])
      - lib/security/corsConfig.js   ([getCorsOptions], the CORS middleware)
      - lib/security/urlValidator.js ([isPrivateIP], [validateUrl],
                                      [sanitizeProxyHeaders])
      - lib/schemas/socketMessages.js ([validate], [validateMessage],
                                       [withValidation])

    Conventions.  Block coordinates are integers, modelled in [Z]: on
    integers [Math.floor (x / 16)] is [x / 16] (floor division), [x & 15] is
    [Z.land x 15], the remainder operator [%] is [Z.rem] and [floored ()] is
    the identity.  JS objects used as dictionaries with keys that are not
    array indices keep insertion order and are association lists; JS [Set]s
    whose order is never observed are [gset]s.  Mutable objects reached from
    several places (materials, textures, promises) live in explicit stores
    and are named by identifiers. *)

From Stdlib Require Import ZArith QArith List Lia Ascii String DecimalString DecimalZ.
From stdpp Require Import gmap strings list fin_maps sorting.

Open Scope Z_scope.
Set Warnings "-register-all,-clear-no-such-hyp".

(* ===================================================================== *)
(** * Part I: the embedding                                              *)
(* ===================================================================== *)

(** ** JavaScript numbers and strings *)
Module JS.

(** [function mod (x, n) { return ((x % n) + n) % n }] *)
Definition mod' (x n : Z) : Z := Z.rem (Z.rem x n + n) n.

(** [Math.floor (c / 16)] on an integer. *)
Definition floor16 (c : Z) : Z := c / 16.

(** [`${n}`] for an integer [n]: decimal digits, a leading [-] when
    negative. *)
Definition toString (n : Z) : string := NilZero.string_of_int (Z.to_int n).

(** [parseInt (s, 10)] on the strings this program hands to it, which are
    whole decimal integers; [None] stands for [NaN]. *)
Definition parseInt (s : string) : option Z :=
  Z.of_int <$> NilZero.int_of_string s.

(** [s.split (',')] *)
Fixpoint split (s : string) : list string :=
  match s with
  | EmptyString => [EmptyString]
  | String c r =>
      if Ascii.eqb c ","%char then EmptyString :: split r
      else match split r with
           | [] => [String c EmptyString]
           | h :: t => String c h :: t
           end
  end.

(** [a[i]] on an array of strings, [a + ',' + b] with [undefined]
    printed as JS prints it. *)
Definition nth_str (l : list string) (i : nat) : string :=
  default "undefined"%string (l !! i).

(** A [Map], or an object whose keys are not array indices: the entries
    in insertion order, keys unique. *)
Section Dict.
Context {K V : Type} `{EqDecision K}.

Definition dict := list (K * V).

Definition dict_has (m : dict) (k : K) : bool :=
  existsb (fun e => bool_decide (e.1 = k)) m.

Fixpoint dict_get (m : dict) (k : K) : option V :=
  match m with
  | [] => None
  | (k', v) :: r => if decide (k' = k) then Some v else dict_get r k
  end.

Definition dict_delete (m : dict) (k : K) : dict :=
  filter (fun e => e.1 ≠ k) m.

(** [m.set (k, v)], [o[k] = v]: an existing key keeps its place, a new
    key goes to the end. *)
Fixpoint dict_set (m : dict) (k : K) (v : V) : dict :=
  match m with
  | [] => [(k, v)]
  | (k', v') :: r =>
      if decide (k' = k) then (k, v) :: r else (k', v') :: dict_set r k v
  end.
End Dict.
Arguments dict : clear implicits.

End JS.

(** ** vec3 *)
Module Vec3.

Record t := mk { x : Z; y : Z; z : Z }.

#[global] Instance eq_dec : EqDecision t.
Proof. solve_decision. Defined.

(** [offset (dx, dy, dz)] returns a new vector. *)
Definition offset (p : t) (dx dy dz : Z) : t :=
  mk (x p + dx) (y p + dy) (z p + dz).

(** [floored ()] returns a new vector; the identity on integers. *)
Definition floored (p : t) : t := mk (x p) (y p) (z p).

End Vec3.

(** ** viewer/lib/lruCache.js *)
Module LRUCache.
Section Cache.
Context {K V : Type} `{EqDecision K}.

Record t := mk { maxSize : Z; cache : JS.dict K V }.

(** [constructor (maxSize)] *)
Definition new (n : Z) : t := mk n [].

(** [get size ()] *)
Definition size (c : t) : nat := length (cache c).

(** [get (key)]: the value ([None] is [undefined]) and the cache after
    the call. *)
Definition get (c : t) (k : K) : option V * t :=
  if negb (JS.dict_has (cache c) k) then (None, c)
  else
    let value := JS.dict_get (cache c) k in
    let m := JS.dict_delete (cache c) k in
    match value with
    | Some v => (value, mk (maxSize c) (JS.dict_set m k v))
    | None => (None, c)           (* not reached: the key is present *)
    end.

(** [set (key, value)] *)
Definition set (c : t) (k : K) (v : V) : t :=
  let m :=
    if JS.dict_has (cache c) k then JS.dict_delete (cache c) k
    else if (maxSize c <=? Z.of_nat (size c))%Z then
      (* [this.cache.keys ().next ().value], [undefined] on an empty map *)
      match cache c with
      | [] => cache c
      | (firstKey, _) :: _ => JS.dict_delete (cache c) firstKey
      end
    else cache c in
  mk (maxSize c) (JS.dict_set m k v).

Definition has (c : t) (k : K) : bool := JS.dict_has (cache c) k.

(** [delete (key)]: whether the key was present, and the cache after. *)
Definition delete (c : t) (k : K) : bool * t :=
  (JS.dict_has (cache c) k, mk (maxSize c) (JS.dict_delete (cache c) k)).

Definition clear (c : t) : t := mk (maxSize c) [].

(** The keys, least recently touched first. *)
Definition keys (c : t) : list K := (cache c).*1.

End Cache.
Arguments t : clear implicits.
End LRUCache.

(** ** viewer/lib/dispose.js *)
Module Dispose.

(** What the GPU sees, in program order.  Geometries, materials,
    textures and scene objects are named by identifiers. *)
Inductive GpuEvent :=
| GeometryDispose (g : nat)        (* [geometry.dispose ()] *)
| MaterialDispose (m : nat)        (* [material.dispose ()] *)
| TextureDispose (t : nat)         (* [texture.dispose ()] *)
| MapInstall (m t : nat)           (* [material.map = texture] *)
| ObjectDispose (o : nat)          (* [object.dispose ()] *)
| ParentRemove (o : nat).          (* [object.parent.remove (object)] *)

#[global] Instance GpuEvent_eq_dec : EqDecision GpuEvent.
Proof. solve_decision. Defined.

(** The store of materials: for each material, its texture-valued
    properties ([material[prop]]); and the trace of GPU calls. *)
Record Gpu := mkGpu {
  materials : gmap nat (gmap string nat);
  trace : list GpuEvent
}.

Definition emit (e : GpuEvent) (g : Gpu) : Gpu :=
  mkGpu (materials g) (trace g ++ [e]).

Definition slot (g : Gpu) (m : nat) (prop : string) : option nat :=
  default ∅ (materials g !! m) !! prop.

(** [material[prop] = null] *)
Definition clear_slot (m : nat) (prop : string) (g : Gpu) : Gpu :=
  mkGpu (<[m := delete prop (default ∅ (materials g !! m))]> (materials g))
        (trace g).

(** [material[prop] = texture] *)
Definition set_slot (m : nat) (prop : string) (t : nat) (g : Gpu) : Gpu :=
  mkGpu (<[m := <[prop := t]> (default ∅ (materials g !! m))]> (materials g))
        (trace g).

Definition textureProperties : list string :=
  ["map"; "lightMap"; "bumpMap"; "normalMap"; "specularMap"; "envMap";
   "alphaMap"; "aoMap"; "displacementMap"; "emissiveMap"; "gradientMap";
   "metalnessMap"; "roughnessMap"]%string.

(** [disposeMaterial (material)] *)
Definition disposeMaterial (material : option nat) (g : Gpu) : Gpu :=
  match material with
  | None => g
  | Some m =>
      let g :=
        fold_left
          (fun g prop =>
             match slot g m prop with
             | Some t => clear_slot m prop (emit (TextureDispose t) g)
             | None => g
             end)
          textureProperties g in
      emit (MaterialDispose m) g
  end.

(** [object.material]: absent, one material, or an array of them. *)
Inductive MaterialField :=
| NoMaterial
| OneMaterial (m : nat)
| MaterialArray (ms : list nat).

(** A [THREE.Object3D]. *)
Inductive Object3D := mkObject {
  uid : nat;
  geometry : option nat;
  material : MaterialField;
  children : list Object3D;
  hasDisposeMethod : bool;          (* [typeof object.dispose === 'function'] *)
  hasParent : bool                  (* [object.parent] is set *)
}.

(** [object.parent = ...], as [add] and [remove] of the parent set it. *)
Definition with_parent (b : bool) (o : Object3D) : Object3D :=
  mkObject (uid o) (geometry o) (material o) (children o)
           (hasDisposeMethod o) b.

Record Options := mkOptions { disposeTextures : bool; recursive : bool }.

(** [options = {}] *)
Definition defaultOptions : Options := mkOptions true true.

(** [dispose3] on an object that is not null.  [parent] tells whether
    [object.parent] is set when the call is made: a child has been removed
    from its parent by then. *)
Fixpoint dispose3_object (options : Options) (parent : bool)
  (object : Object3D) (g : Gpu) : Gpu :=
  (* children first; each child is detached, then disposed *)
  let g :=
    if recursive options then
      fold_left (fun g child => dispose3_object options false child g)
                (children object) g
    else g in
  let g :=
    match geometry object with
    | Some geo => emit (GeometryDispose geo) g
    | None => g
    end in
  let g :=
    match material object with
    | NoMaterial => g
    | MaterialArray ms =>
        fold_left
          (fun g m =>
             if disposeTextures options then disposeMaterial (Some m) g
             else emit (MaterialDispose m) g)
          ms g
    | OneMaterial m =>
        if disposeTextures options then disposeMaterial (Some m) g
        else emit (MaterialDispose m) g
    end in
  let g :=
    if hasDisposeMethod object then emit (ObjectDispose (uid object)) g
    else g in
  if parent then emit (ParentRemove (uid object)) g else g.

(** [dispose3 (object, options)] *)
Definition dispose3 (object : option Object3D) (options : Options) (g : Gpu)
  : Gpu :=
  match object with
  | None => g
  | Some o => dispose3_object options (hasParent o) o g
  end.

(** [disposeTexture (texture)] *)
Definition disposeTexture (texture : option nat) (g : Gpu) : Gpu :=
  match texture with
  | Some t => emit (TextureDispose t) g
  | None => g
  end.

End Dispose.

(** ** Payloads that the modelled code only passes along *)

(** A JSON document (a chunk dump, the block-state table), kept as text. *)
Definition Json := string.

(** A Minecraft version, such as ["1.16.4"]. *)
Definition Version := string.

(** The content of an [ArrayBuffer]. *)
Definition Buffer := list Byte.byte.

(** What the mesher returns for one section. *)
Record Geometry := mkGeometry {
  positions : Buffer; normals : Buffer; colors : Buffer; uvs : Buffer;
  indices : list Z;
  sx : Z; sy : Z; sz : Z
}.

(** ** viewer/lib/constants.js *)
Module Constants.
Definition SECTION_HEIGHT : Z := 16.
Definition WORLD_HEIGHT : Z := 256.
Definition BLOCK_CACHE_MAX_SIZE : Z := 10000.
Definition DEFAULT_NUM_WORKERS : nat := 4.
End Constants.

(** ** viewer/lib/world.js *)
Module World.

(** A biome of minecraft-data. *)
Record Biome := mkBiome { biome_id : Z; biome_name : string }.

(** A block as prismarine-chunk hands it out, with the fields that
    world.js adds. *)
Record Block := mkBlock {
  stateId : Z;
  shapes : option (list (list Q));
  isCubeField : option bool;
  position : option Vec3.t;
  biome : option Biome
}.

(** The libraries world.js builds on: prismarine-chunk ([Chunks (version)],
    its [fromJson] and the column's methods) and minecraft-data.  A call
    that throws returns the message of the exception on the left. *)
Class Libraries := {
  Column : Type;
  fromJson : Version -> Json -> string + Column;
  col_setBlockStateId : Column -> Vec3.t -> Z -> Column;
  col_getBlockStateId : Column -> Vec3.t -> Z;
  col_getBlock : Column -> Vec3.t -> Block;
  col_getBiome : Column -> Vec3.t -> Z;
  (* [chunk.sections[i]] is there *)
  col_hasSection : Column -> Z -> bool;
  (* [mcData (version).biomes] *)
  mcDataBiomes : Version -> string + gmap Z Biome
}.

Definition columnKey (x z : Z) : string :=
  (JS.toString x +:+ "," +:+ JS.toString z)%string.

(** [posInChunk (pos)] *)
Definition posInChunk (pos : Vec3.t) : Vec3.t :=
  let pos := Vec3.floored pos in
  Vec3.mk (Z.land (Vec3.x pos) 15) (Vec3.y pos) (Z.land (Vec3.z pos) 15).

(** [shape[i] === n] *)
Definition shape_is (shape : list Q) (i : nat) (n : Q) : bool :=
  match shape !! i with
  | Some q => Qeq_bool q n
  | None => false
  end.

(** [isCube (shapes)] *)
Definition isCube (shapes : option (list (list Q))) : bool :=
  match shapes with
  | Some [shape] =>
      shape_is shape 0 0%Q && shape_is shape 1 0%Q && shape_is shape 2 0%Q
      && shape_is shape 3 1%Q && shape_is shape 4 1%Q && shape_is shape 5 1%Q
  | _ => false
  end.

Section WithLibraries.
Context `{Libraries}.

Record t := mk {
  columns : gmap string Column;
  blockCache : LRUCache.t Z Block;
  biomeCache : gmap Z Biome;
  version : Version
}.

(** [constructor (version)] *)
Definition new (v : Version) : string + t :=
  match mcDataBiomes v with
  | inl e => inl e
  | inr biomes =>
      inr (mk ∅ (LRUCache.new Constants.BLOCK_CACHE_MAX_SIZE) biomes v)
  end.

(** [addColumn (x, z, json)] *)
Definition addColumn (w : t) (x z : Z) (json : Json) : string + (Column * t) :=
  match fromJson (version w) json with
  | inl e => inl e
  | inr chunk =>
      inr (chunk,
           mk (<[columnKey x z := chunk]> (columns w)) (blockCache w)
              (biomeCache w) (version w))
  end.

(** [removeColumn (x, z)] *)
Definition removeColumn (w : t) (x z : Z) : t :=
  let key := columnKey x z in
  match columns w !! key with
  | Some _ => mk (delete key (columns w)) (blockCache w) (biomeCache w)
                 (version w)
  | None => w
  end.

(** [getColumn (x, z)] *)
Definition getColumn (w : t) (x z : Z) : option Column :=
  columns w !! columnKey x z.

(** [setBlockStateId (pos, stateId)] *)
Definition setBlockStateId (w : t) (pos : Vec3.t) (sid : Z) : bool * t :=
  let key := columnKey (JS.floor16 (Vec3.x pos) * 16)
                       (JS.floor16 (Vec3.z pos) * 16) in
  match columns w !! key with
  | None => (false, w)
  | Some column =>
      let column' :=
        col_setBlockStateId column (posInChunk (Vec3.floored pos)) sid in
      (true,
       mk (<[key := column']> (columns w)) (blockCache w) (biomeCache w)
          (version w))
  end.

(** The cached block object is the one handed to the caller, so what
    [getBlock] writes into it is seen through the cache too; the entry
    keeps its place. *)
Definition write_through (c : LRUCache.t Z Block) (sid : Z) (b : Block)
  : LRUCache.t Z Block :=
  LRUCache.mk (LRUCache.maxSize c) (JS.dict_set (LRUCache.cache c) sid b).

(** [getBlock (pos)]: the block ([None] is [null]) and the world after
    the call. *)
Definition getBlock (w : t) (pos : Vec3.t) : option Block * t :=
  let key := columnKey (JS.floor16 (Vec3.x pos) * 16)
                       (JS.floor16 (Vec3.z pos) * 16) in
  match columns w !! key with
  | None => (None, w)
  | Some column =>
      let loc := Vec3.floored pos in
      let locInChunk := posInChunk loc in
      let sid := col_getBlockStateId column locInChunk in
      let '(hit, cache1) := LRUCache.get (blockCache w) sid in
      let '(block, cache2) :=
        match hit with
        | Some block => (block, cache1)
        | None =>
            let b := col_getBlock column locInChunk in
            let b := mkBlock (stateId b) (shapes b) (Some (isCube (shapes b)))
                             (position b) (biome b) in
            (b, LRUCache.set cache1 sid b)
        end in
      let bio :=
        match biomeCache w !! col_getBiome column locInChunk with
        | Some bm => Some bm
        | None => biomeCache w !! 1
        end in
      let block := mkBlock (stateId block) (shapes block) (isCubeField block)
                           (Some loc) bio in
      (Some block,
       mk (columns w) (write_through cache2 sid block) (biomeCache w)
          (version w))
  end.

(** [clear ()] *)
Definition clear (w : t) : t :=
  mk ∅ (LRUCache.clear (blockCache w)) (biomeCache w) (version w).

End WithLibraries.
Arguments t {_}.
End World.

(** ** The messages between the coordinator and its workers *)
Module Protocol.

(** Coordinator to worker; the constructor is the [type] field. *)
Inductive Request :=
| MsgReset
| MsgVersion (version : Version)
| MsgBlockStates (json : Json)
| MsgChunk (x z : Z) (chunk : Json)
| MsgUnloadChunk (x z : Z)
| MsgBlockUpdate (pos : Vec3.t) (stateId : Z)
| MsgDirty (x y z : Z) (value : bool).

(** Worker to coordinator. *)
Inductive Reply :=
| MsgGeometry (key : string) (geometry : Geometry)
| MsgSectionFinished (key : string)
| MsgError (key : option string) (error : string).

(** [`${x},${y},${z}`] *)
Definition sectionKey (x y z : Z) : string :=
  (JS.toString x +:+ "," +:+ JS.toString y +:+ "," +:+ JS.toString z)%string.

End Protocol.

(** ** viewer/lib/worker.js *)
Module Worker.
Import Protocol.

Section WithLibraries.
Context `{World.Libraries}.

(** The mesher, [getSectionGeometry (x, y, z, world, blocksStates)] of
    models.js, followed by the reading of the four buffers.  It reads
    blocks through [world.getBlock], which touches the block cache, so it
    returns the world as it leaves it; an exception raised anywhere in the
    [try] block is the message on the left. *)
Variable getSectionGeometry :
  Z -> Z -> Z -> World.t -> Json -> World.t * (string + Geometry).

(** The module's variables, and the messages posted so far. *)
Record t := mk {
  blocksStates : option Json;
  world : option World.t;
  dirtySections : list string;     (* the keys of the object, in order *)
  outbox : list Reply
}.

Definition init : t := mk None None [] [].

Definition postMessage (r : Reply) (s : t) : t :=
  mk (blocksStates s) (world s) (dirtySections s) (outbox s ++ [r]).

Definition with_world (w : option World.t) (s : t) : t :=
  mk (blocksStates s) w (dirtySections s) (outbox s).

Definition with_dirty (d : list string) (s : t) : t :=
  mk (blocksStates s) (world s) d (outbox s).

(** [delete dirtySections[key]] *)
Definition dirty_delete (key : string) (d : list string) : list string :=
  filter (fun k => k ≠ key) d.

(** [dirtySections[key] = value] with a truthy value *)
Definition dirty_set (key : string) (d : list string) : list string :=
  if bool_decide (key ∈ d) then d else d ++ [key].

(** [chunk && chunk.sections[Math.floor (y / 16)]] *)
Definition sectionExists (chunk : option World.Column) (y : Z) : bool :=
  match chunk with
  | Some c => World.col_hasSection c (JS.floor16 y)
  | None => false
  end.

(** [setSectionDirty (pos, value = true)] *)
Definition setSectionDirty (pos : Vec3.t) (value : bool) (s : t) : t :=
  let x := JS.floor16 (Vec3.x pos) * 16 in
  let y := JS.floor16 (Vec3.y pos) * 16 in
  let z := JS.floor16 (Vec3.z pos) * 16 in
  let chunk :=
    match world s with
    | Some w => World.getColumn w x z
    | None => None
    end in
  let key := sectionKey x y z in
  if negb value then
    postMessage (MsgSectionFinished key)
                (with_dirty (dirty_delete key (dirtySections s)) s)
  else if sectionExists chunk y then
    with_dirty (dirty_set key (dirtySections s)) s
  else postMessage (MsgSectionFinished key) s.

(** [clearAllDirtySections ()] *)
Definition clearAllDirtySections (s : t) : t :=
  fold_left (fun s key => with_dirty (dirty_delete key (dirtySections s)) s)
            (dirtySections s) s.

(** The body of the [try] in [handleMessage]: the new state, or the
    message of the exception. *)
Definition handleMessage_try (data : Request) (s : t) : string + t :=
  match data with
  | MsgVersion v =>
      match World.new v with
      | inl e => inl e
      | inr w => inr (with_world (Some w) s)
      end
  | MsgBlockStates json =>
      inr (mk (Some json) (world s) (dirtySections s) (outbox s))
  | MsgDirty x y z value =>
      let loc := Vec3.mk x y z in
      inr (setSectionDirty loc value s)
  | MsgChunk x z chunk =>
      match world s with
      | Some w =>
          match World.addColumn w x z chunk with
          | inl e => inl e
          | inr (_, w') => inr (with_world (Some w') s)
          end
      | None => inr s
      end
  | MsgUnloadChunk x z =>
      match world s with
      | Some w => inr (with_world (Some (World.removeColumn w x z)) s)
      | None => inr s
      end
  | MsgBlockUpdate pos sid =>
      match world s with
      | Some w =>
          let loc :=
            Vec3.floored (Vec3.mk (Vec3.x pos) (Vec3.y pos) (Vec3.z pos)) in
          inr (with_world (Some (World.setBlockStateId w loc sid).2) s)
      | None => inr s
      end
  | MsgReset =>
      inr (clearAllDirtySections (mk None None (dirtySections s) (outbox s)))
  end.

(** [handleMessage (data)] *)
Definition handleMessage (data : Request) (s : t) : t :=
  match handleMessage_try data s with
  | inr s' => s'
  | inl message => postMessage (MsgError None message) s
  end.

(** One turn of the loop of [processDirtySections], for [key]. *)
Definition processSection (blocks : Json) (key : string) (s : t) : t :=
  let parts := JS.split key in
  let x := JS.parseInt (JS.nth_str parts 0) in
  let y := JS.parseInt (JS.nth_str parts 1) in
  let z := JS.parseInt (JS.nth_str parts 2) in
  let s :=
    match world s, x, y, z with
    | Some w, Some x, Some y, Some z =>
        if sectionExists (World.getColumn w x z) y then
          let s := with_dirty (dirty_delete key (dirtySections s)) s in
          match getSectionGeometry x y z w blocks with
          | (w', inr geometry) =>
              postMessage (MsgGeometry key geometry) (with_world (Some w') s)
          | (w', inl message) =>
              postMessage (MsgError (Some key) message)
                          (with_world (Some w') s)
          end
        else s
    | _, _, _, _ => s               (* a coordinate that is [NaN]: no column *)
    end in
  postMessage (MsgSectionFinished key) s.

(** [processDirtySections ()] *)
Definition processDirtySections (s : t) : t :=
  match world s, blocksStates s with
  | Some _, Some blocks =>
      let sections := dirtySections s in
      fold_left (fun s key => processSection blocks key s) sections s
  | _, _ => s
  end.

End WithLibraries.
Arguments t {_}.
End Worker.

(** ** viewer/lib/worldrenderer.js *)
Module WorldRenderer.
Import Protocol Dispose.

(** A section mesh: the [THREE.Mesh] and its [position]. *)
Record Mesh := mkMesh { object : Object3D; mesh_position : Z * Z * Z }.

(** The loads that [updateTexturesData] starts; each completes later. *)
Inductive Load :=
| LoadTexture (url : string)
| LoadJSON (url : string)
| ResolveBlockStates (json : Json).

Record t := mk {
  (* the entries of the object, in insertion order *)
  sectionMeshs : list (string * Mesh);
  active : bool;
  version : option Version;
  (* the objects that the renderer has in the scene *)
  scene : list nat;
  (* the keys set to [true] *)
  loadedChunks : gset string;
  sectionsOutstanding : gset string;
  (* [renderUpdateEmitter]: the ['update'] handlers, one per waiting
     promise, and the calls of [resolve ()], by promise *)
  listeners : list nat;
  resolved : list nat;
  blockStatesData : option Json;
  texturesDataUrl : option string;
  currentTexture : option nat;
  pendingDirtySections : gset string;
  material : option nat;
  (* per worker, the messages posted to it *)
  workers : list (list Request);
  workersActive : bool;
  (* the materials and the trace of GPU calls *)
  gpu : Gpu;
  (* the [loadTexture] and [loadJSON] requests issued *)
  loads : list Load;
  (* the allocators of object and promise identities *)
  nextId : nat;
  nextPromise : nat
}.

(** Field updates, [this.f = v]. *)
Definition set_sectionMeshs (v : list (string * Mesh)) (s : t) : t :=
  mk v (active s) (version s) (scene s) (loadedChunks s)
     (sectionsOutstanding s) (listeners s) (resolved s) (blockStatesData s)
     (texturesDataUrl s) (currentTexture s) (pendingDirtySections s)
     (material s) (workers s) (workersActive s) (gpu s) (loads s) (nextId s)
     (nextPromise s).
Definition set_active (v : bool) (s : t) : t :=
  mk (sectionMeshs s) v (version s) (scene s) (loadedChunks s)
     (sectionsOutstanding s) (listeners s) (resolved s) (blockStatesData s)
     (texturesDataUrl s) (currentTexture s) (pendingDirtySections s)
     (material s) (workers s) (workersActive s) (gpu s) (loads s) (nextId s)
     (nextPromise s).
Definition set_version (v : option Version) (s : t) : t :=
  mk (sectionMeshs s) (active s) v (scene s) (loadedChunks s)
     (sectionsOutstanding s) (listeners s) (resolved s) (blockStatesData s)
     (texturesDataUrl s) (currentTexture s) (pendingDirtySections s)
     (material s) (workers s) (workersActive s) (gpu s) (loads s) (nextId s)
     (nextPromise s).
Definition set_scene (v : list nat) (s : t) : t :=
  mk (sectionMeshs s) (active s) (version s) v (loadedChunks s)
     (sectionsOutstanding s) (listeners s) (resolved s) (blockStatesData s)
     (texturesDataUrl s) (currentTexture s) (pendingDirtySections s)
     (material s) (workers s) (workersActive s) (gpu s) (loads s) (nextId s)
     (nextPromise s).
Definition set_loadedChunks (v : gset string) (s : t) : t :=
  mk (sectionMeshs s) (active s) (version s) (scene s) v
     (sectionsOutstanding s) (listeners s) (resolved s) (blockStatesData s)
     (texturesDataUrl s) (currentTexture s) (pendingDirtySections s)
     (material s) (workers s) (workersActive s) (gpu s) (loads s) (nextId s)
     (nextPromise s).
Definition set_sectionsOutstanding (v : gset string) (s : t) : t :=
  mk (sectionMeshs s) (active s) (version s) (scene s) (loadedChunks s) v
     (listeners s) (resolved s) (blockStatesData s) (texturesDataUrl s)
     (currentTexture s) (pendingDirtySections s) (material s) (workers s)
     (workersActive s) (gpu s) (loads s) (nextId s) (nextPromise s).
Definition set_listeners (v : list nat) (s : t) : t :=
  mk (sectionMeshs s) (active s) (version s) (scene s) (loadedChunks s)
     (sectionsOutstanding s) v (resolved s) (blockStatesData s)
     (texturesDataUrl s) (currentTexture s) (pendingDirtySections s)
     (material s) (workers s) (workersActive s) (gpu s) (loads s) (nextId s)
     (nextPromise s).
Definition set_resolved (v : list nat) (s : t) : t :=
  mk (sectionMeshs s) (active s) (version s) (scene s) (loadedChunks s)
     (sectionsOutstanding s) (listeners s) v (blockStatesData s)
     (texturesDataUrl s) (currentTexture s) (pendingDirtySections s)
     (material s) (workers s) (workersActive s) (gpu s) (loads s) (nextId s)
     (nextPromise s).
Definition set_blockStatesData (v : option Json) (s : t) : t :=
  mk (sectionMeshs s) (active s) (version s) (scene s) (loadedChunks s)
     (sectionsOutstanding s) (listeners s) (resolved s) v (texturesDataUrl
     s) (currentTexture s) (pendingDirtySections s) (material s) (workers s)
     (workersActive s) (gpu s) (loads s) (nextId s) (nextPromise s).
Definition set_texturesDataUrl (v : option string) (s : t) : t :=
  mk (sectionMeshs s) (active s) (version s) (scene s) (loadedChunks s)
     (sectionsOutstanding s) (listeners s) (resolved s) (blockStatesData s)
     v (currentTexture s) (pendingDirtySections s) (material s) (workers s)
     (workersActive s) (gpu s) (loads s) (nextId s) (nextPromise s).
Definition set_currentTexture (v : option nat) (s : t) : t :=
  mk (sectionMeshs s) (active s) (version s) (scene s) (loadedChunks s)
     (sectionsOutstanding s) (listeners s) (resolved s) (blockStatesData s)
     (texturesDataUrl s) v (pendingDirtySections s) (material s) (workers s)
     (workersActive s) (gpu s) (loads s) (nextId s) (nextPromise s).
Definition set_pendingDirtySections (v : gset string) (s : t) : t :=
  mk (sectionMeshs s) (active s) (version s) (scene s) (loadedChunks s)
     (sectionsOutstanding s) (listeners s) (resolved s) (blockStatesData s)
     (texturesDataUrl s) (currentTexture s) v (material s) (workers s)
     (workersActive s) (gpu s) (loads s) (nextId s) (nextPromise s).
Definition set_material (v : option nat) (s : t) : t :=
  mk (sectionMeshs s) (active s) (version s) (scene s) (loadedChunks s)
     (sectionsOutstanding s) (listeners s) (resolved s) (blockStatesData s)
     (texturesDataUrl s) (currentTexture s) (pendingDirtySections s) v
     (workers s) (workersActive s) (gpu s) (loads s) (nextId s) (nextPromise
     s).
Definition set_workers (v : list (list Request)) (s : t) : t :=
  mk (sectionMeshs s) (active s) (version s) (scene s) (loadedChunks s)
     (sectionsOutstanding s) (listeners s) (resolved s) (blockStatesData s)
     (texturesDataUrl s) (currentTexture s) (pendingDirtySections s)
     (material s) v (workersActive s) (gpu s) (loads s) (nextId s)
     (nextPromise s).
Definition set_workersActive (v : bool) (s : t) : t :=
  mk (sectionMeshs s) (active s) (version s) (scene s) (loadedChunks s)
     (sectionsOutstanding s) (listeners s) (resolved s) (blockStatesData s)
     (texturesDataUrl s) (currentTexture s) (pendingDirtySections s)
     (material s) (workers s) v (gpu s) (loads s) (nextId s) (nextPromise
     s).
Definition set_gpu (v : Gpu) (s : t) : t :=
  mk (sectionMeshs s) (active s) (version s) (scene s) (loadedChunks s)
     (sectionsOutstanding s) (listeners s) (resolved s) (blockStatesData s)
     (texturesDataUrl s) (currentTexture s) (pendingDirtySections s)
     (material s) (workers s) (workersActive s) v (loads s) (nextId s)
     (nextPromise s).
Definition set_loads (v : list Load) (s : t) : t :=
  mk (sectionMeshs s) (active s) (version s) (scene s) (loadedChunks s)
     (sectionsOutstanding s) (listeners s) (resolved s) (blockStatesData s)
     (texturesDataUrl s) (currentTexture s) (pendingDirtySections s)
     (material s) (workers s) (workersActive s) (gpu s) v (nextId s)
     (nextPromise s).
Definition set_nextId (v : nat) (s : t) : t :=
  mk (sectionMeshs s) (active s) (version s) (scene s) (loadedChunks s)
     (sectionsOutstanding s) (listeners s) (resolved s) (blockStatesData s)
     (texturesDataUrl s) (currentTexture s) (pendingDirtySections s)
     (material s) (workers s) (workersActive s) (gpu s) (loads s) v
     (nextPromise s).
Definition set_nextPromise (v : nat) (s : t) : t :=
  mk (sectionMeshs s) (active s) (version s) (scene s) (loadedChunks s)
     (sectionsOutstanding s) (listeners s) (resolved s) (blockStatesData s)
     (texturesDataUrl s) (currentTexture s) (pendingDirtySections s)
     (material s) (workers s) (workersActive s) (gpu s) (loads s) (nextId s)
     v.

(** [{ disposeTextures: false }] *)
Definition keepTextures : Options := mkOptions false true.

(** [constructor (scene, numWorkers = DEFAULT_NUM_WORKERS)]; the shared
    material is object 0. *)
Definition new (numWorkers : nat) : t :=
  mk [] false None [] ∅ ∅ [] [] None None None ∅ (Some 0%nat)
     (replicate numWorkers []) true
     (mkGpu {[ 0%nat := ∅ ]} []) [] 1%nat 0%nat.

(** [worker.postMessage (msg)] for every worker. *)
Definition broadcast (msg : Request) (s : t) : t :=
  set_workers (map (fun inbox => inbox ++ [msg]) (workers s)) s.

(** [this.workers[i].postMessage (msg)]; the index is in range wherever
    the program does this. *)
Definition postTo (i : Z) (msg : Request) (s : t) : t :=
  set_workers (alter (fun inbox => inbox ++ [msg]) (Z.to_nat i) (workers s)) s.

(** [this.scene.remove (mesh)] *)
Definition sceneRemove (o : Object3D) (s : t) : Object3D * t :=
  if bool_decide (uid o ∈ scene s) then
    (with_parent false o,
     set_scene (filter (fun u => u ≠ uid o) (scene s)) s)
  else (o, s).

(** [this.scene.add (mesh)] *)
Definition sceneAdd (o : Object3D) (s : t) : Object3D * t :=
  (with_parent true o, set_scene (scene s ++ [uid o]) s).

(** [this.scene.remove (mesh); dispose3 (mesh, { disposeTextures: false })] *)
Definition removeAndDispose (mesh : Mesh) (s : t) : t :=
  let '(o, s) := sceneRemove (object mesh) s in
  set_gpu (dispose3 (Some o) keepTextures (gpu s)) s.

(** [_handleGeometry (data)] *)
Definition handleGeometry (key : string) (geometry : Geometry) (s : t) : t :=
  let s :=
    match JS.dict_get (sectionMeshs s) key with
    | Some mesh =>
        let s := removeAndDispose mesh s in
        set_sectionMeshs (JS.dict_delete (sectionMeshs s) key) s
    | None => s
    end in
  let chunkCoords := JS.split key in
  let column :=
    (JS.nth_str chunkCoords 0 +:+ "," +:+ JS.nth_str chunkCoords 2)%string in
  if negb (bool_decide (column ∈ loadedChunks s)) then s
  else
    let geo := nextId s in
    let id := S (nextId s) in
    let s := set_nextId (S (S (nextId s))) s in
    let o :=
      mkObject id (Some geo)
               (match material s with
                | Some m => OneMaterial m
                | None => NoMaterial
                end)
               [] false false in
    (* the mesh stored under [key] is the object the scene then adopts *)
    let '(o, s) := sceneAdd o s in
    let mesh := mkMesh o (sx geometry, sy geometry, sz geometry) in
    set_sectionMeshs (JS.dict_set (sectionMeshs s) key mesh) s.

(** [resetWorld ()] *)
Definition resetWorld (s : t) : t :=
  let s := set_active false s in
  let s :=
    fold_left
      (fun s '(key, mesh) =>
         let s := removeAndDispose mesh s in
         set_sectionMeshs (JS.dict_delete (sectionMeshs s) key) s)
      (sectionMeshs s) s in
  let s := set_sectionMeshs [] s in
  let s := set_loadedChunks ∅ s in
  let s := set_sectionsOutstanding ∅ s in
  broadcast MsgReset s.

(** [dispose ()] *)
Definition dispose (s : t) : t :=
  let s := set_active false s in
  let s := set_workersActive false s in
  let s :=
    fold_left (fun s '(_, mesh) => removeAndDispose mesh s)
              (sectionMeshs s) s in
  let s := set_sectionMeshs [] s in
  let s :=
    match currentTexture s with
    | Some _ =>
        set_currentTexture None
          (set_gpu (disposeTexture (currentTexture s) (gpu s)) s)
    | None => s
    end in
  let s :=
    match material s with
    | Some m => set_material None (set_gpu (emit (MaterialDispose m) (gpu s)) s)
    | None => s
    end in
  (* every worker is terminated *)
  let s := set_workers [] s in
  let s := set_loadedChunks ∅ s in
  let s := set_sectionsOutstanding ∅ s in
  set_listeners [] s.

(** [this.texturesDataUrl || fallback]: the field when it is truthy, a
    string that is not empty. *)
Definition or_else (field : option string) (fallback : string) : string :=
  match field with
  | Some ((String _ _) as u) => u
  | _ => fallback
  end.

(** [loadBlockStates ()]: the table kept in [blockStatesData] when that
    field is truthy (set, and not empty), the file of the version
    otherwise. *)
Definition loadBlockStates (s : t) : Load :=
  let v := default "undefined"%string (version s) in
  match blockStatesData s with
  | Some ((String _ _) as json) => ResolveBlockStates json
  | _ => LoadJSON ("blocksStates/" +:+ v +:+ ".json")%string
  end.

(** [updateTexturesData ()]: the two loads are started; their
    continuations are [textureLoaded] and [blockStatesLoaded]. *)
Definition updateTexturesData (s : t) : t :=
  let v := default "undefined"%string (version s) in
  let url :=
    or_else (texturesDataUrl s) ("textures/" +:+ v +:+ ".png")%string in
  set_loads (loads s ++ [LoadTexture url; loadBlockStates s]) s.

(** The callback of [loadTexture] in [updateTexturesData]. *)
Definition textureLoaded (texture : nat) (s : t) : t :=
  let s :=
    match currentTexture s with
    | Some _ => set_gpu (disposeTexture (currentTexture s) (gpu s)) s
    | None => s
    end in
  match material s with
  | Some m =>
      let s :=
        set_gpu (emit (MapInstall m texture)
                      (set_slot m "map" texture (gpu s))) s in
      set_currentTexture (Some texture) s
  | None => s                       (* [this.material] is null: TypeError *)
  end.

(** The continuation of [loadBlockStates ()] in [updateTexturesData]. *)
Definition blockStatesLoaded (blockStates : Json) (s : t) : t :=
  broadcast (MsgBlockStates blockStates) s.

(** The section key of [setSectionDirty]. *)
Definition keyOf (pos : Vec3.t) : string :=
  sectionKey (JS.floor16 (Vec3.x pos) * 16) (JS.floor16 (Vec3.y pos) * 16)
             (JS.floor16 (Vec3.z pos) * 16).

(** The worker index of [setSectionDirty]. *)
Definition hashOf (pos : Vec3.t) (numWorkers : nat) : Z :=
  JS.mod' (JS.floor16 (Vec3.x pos) + JS.floor16 (Vec3.y pos)
           + JS.floor16 (Vec3.z pos))
          (Z.of_nat numWorkers).

(** [setSectionDirty (pos, value = true)] *)
Definition setSectionDirty (pos : Vec3.t) (value : bool) (s : t) : t :=
  if negb (active s) || (length (workers s) =? 0)%nat then s
  else
    let key := keyOf pos in
    if value && bool_decide (key ∈ pendingDirtySections s) then s
    else
      let hash := hashOf pos (length (workers s)) in
      let s :=
        postTo hash (MsgDirty (Vec3.x pos) (Vec3.y pos) (Vec3.z pos) value) s in
      if value then
        set_pendingDirtySections ({[key]} ∪ pendingDirtySections s)
          (set_sectionsOutstanding ({[key]} ∪ sectionsOutstanding s) s)
      else
        set_pendingDirtySections (pendingDirtySections s ∖ {[key]})
          (set_sectionsOutstanding (sectionsOutstanding s ∖ {[key]}) s).

(** [setVersion (version)] *)
Definition setVersion (v : Version) (s : t) : t :=
  let s := set_version (Some v) s in
  let s := resetWorld s in
  let s := set_active true s in
  let s := broadcast (MsgVersion v) s in
  updateTexturesData s.

(** The values of [y] in [for (let y = 0; y < WORLD_HEIGHT;
    y += SECTION_HEIGHT)]. *)
Fixpoint ys_from (fuel : nat) (y : Z) : list Z :=
  match fuel with
  | O => []
  | S fuel =>
      if y <? Constants.WORLD_HEIGHT then
        y :: ys_from fuel (y + Constants.SECTION_HEIGHT)
      else []
  end.
Definition section_ys : list Z :=
  ys_from (Z.to_nat Constants.WORLD_HEIGHT) 0.

(** [addColumn (x, z, chunk)] *)
Definition addColumn (x z : Z) (chunk : Json) (s : t) : t :=
  let s :=
    set_loadedChunks ({[ World.columnKey x z ]} ∪ loadedChunks s) s in
  let s := broadcast (MsgChunk x z chunk) s in
  fold_left
    (fun s y =>
       let loc := Vec3.mk x y z in
       let s := setSectionDirty loc true s in
       let s := setSectionDirty (Vec3.offset loc (-16) 0 0) true s in
       let s := setSectionDirty (Vec3.offset loc 16 0 0) true s in
       let s := setSectionDirty (Vec3.offset loc 0 0 (-16)) true s in
       setSectionDirty (Vec3.offset loc 0 0 16) true s)
    section_ys s.

(** [removeColumn (x, z)] *)
Definition removeColumn (x z : Z) (s : t) : t :=
  let s :=
    set_loadedChunks (loadedChunks s ∖ {[ World.columnKey x z ]}) s in
  let s := broadcast (MsgUnloadChunk x z) s in
  fold_left
    (fun s y =>
       let s := setSectionDirty (Vec3.mk x y z) false s in
       let key := sectionKey x y z in
       let s :=
         match JS.dict_get (sectionMeshs s) key with
         | Some mesh => removeAndDispose mesh s
         | None => s
         end in
       set_sectionMeshs (JS.dict_delete (sectionMeshs s) key) s)
    section_ys s.

(** [setBlockStateId (pos, stateId)] *)
Definition setBlockStateId (pos : Vec3.t) (sid : Z) (s : t) : t :=
  let s := broadcast (MsgBlockUpdate pos sid) s in
  let s := setSectionDirty pos true s in
  let s :=
    if Z.land (Vec3.x pos) 15 =? 0
    then setSectionDirty (Vec3.offset pos (-16) 0 0) true s else s in
  let s :=
    if Z.land (Vec3.x pos) 15 =? 15
    then setSectionDirty (Vec3.offset pos 16 0 0) true s else s in
  let s :=
    if Z.land (Vec3.y pos) 15 =? 0
    then setSectionDirty (Vec3.offset pos 0 (-16) 0) true s else s in
  let s :=
    if Z.land (Vec3.y pos) 15 =? 15
    then setSectionDirty (Vec3.offset pos 0 16 0) true s else s in
  let s :=
    if Z.land (Vec3.z pos) 15 =? 0
    then setSectionDirty (Vec3.offset pos 0 0 (-16)) true s else s in
  if Z.land (Vec3.z pos) 15 =? 15
  then setSectionDirty (Vec3.offset pos 0 0 16) true s else s.

(** [clearPendingDirtySections ()] *)
Definition clearPendingDirtySections (s : t) : t :=
  set_pendingDirtySections ∅ s.

(** The [updateHandler] of the promise [p] in [waitForChunksToRender]. *)
Definition updateHandler (p : nat) (s : t) : t :=
  if (size (sectionsOutstanding s) =? 0)%nat then
    let s := set_listeners (filter (fun q => q ≠ p) (listeners s)) s in
    set_resolved (resolved s ++ [p]) s
  else s.

(** [this.renderUpdateEmitter.emit ('update')]: the handlers registered
    when the call starts run in order. *)
Definition emitUpdate (s : t) : t :=
  fold_left (fun s p => updateHandler p s) (listeners s) s.

(** [waitForChunksToRender ()]: the promise and the state after the
    executor has run. *)
Definition waitForChunksToRender (s : t) : nat * t :=
  let p := nextPromise s in
  let s := set_nextPromise (S p) s in
  if (size (sectionsOutstanding s) =? 0)%nat then
    (p, set_resolved (resolved s ++ [p]) s)
  else (p, set_listeners (listeners s ++ [p]) s).

(** [worker.onmessage ({ data })] *)
Definition onmessage (data : Reply) (s : t) : t :=
  if negb (workersActive s) then s
  else
    match data with
    | MsgGeometry key geometry => handleGeometry key geometry s
    | MsgSectionFinished key =>
        emitUpdate
          (set_sectionsOutstanding (sectionsOutstanding s ∖ {[key]}) s)
    | MsgError _ _ => s
    end.

End WorldRenderer.

(** ** viewer/index.js *)
Module Viewer.

(** What [update ()] does to the world renderer: frustum culling only
    writes the [visible] flag of the meshes and two counters, then the
    pending set is cleared. *)
Definition update (w : WorldRenderer.t) : WorldRenderer.t :=
  WorldRenderer.clearPendingDirtySections w.

End Viewer.

(** ** A small instance of the libraries, to run the model on examples *)
Module Toy.

(** A column is a map from local positions to state ids, with the
    sixteen sections of a 256-high world; a chunk dump that is the empty
    text does not parse. *)
Definition libraries : World.Libraries :=
  {| World.Column := gmap (Z * Z * Z) Z;
     World.fromJson := fun _ json =>
       match json with
       | EmptyString => inl "Unexpected end of JSON input"%string
       | _ => inr ∅
       end;
     World.col_setBlockStateId := fun c p v =>
       <[(Vec3.x p, Vec3.y p, Vec3.z p) := v]> c;
     World.col_getBlockStateId := fun c p =>
       default 0 (c !! (Vec3.x p, Vec3.y p, Vec3.z p));
     World.col_getBlock := fun c p =>
       World.mkBlock (default 0 (c !! (Vec3.x p, Vec3.y p, Vec3.z p)))
                     (Some [[0; 0; 0; 1; 1; 1]%Q]) None None None;
     World.col_getBiome := fun _ _ => 1;
     World.col_hasSection := fun _ i => (0 <=? i) && (i <? 16);
     World.mcDataBiomes := fun _ =>
       inr {[ 1 := World.mkBiome 1 "plains" ]} |}.

(** A mesher that fails on the sections at height 64. *)
Definition mesher (x y z : Z) (w : @World.t libraries) (blocks : Json)
  : @World.t libraries * (string + Geometry) :=
  (w, if y =? 64 then inl "no model for block"%string
      else inr (mkGeometry [] [] [] [] [] x y z)).

(** A world of version 1.16.4 with the column at (0, 0) loaded. *)
Definition world : @World.t libraries :=
  World.mk (H := libraries) {[ World.columnKey 0 0 := ∅ ]}
           (LRUCache.new Constants.BLOCK_CACHE_MAX_SIZE)
           {[ 1 := World.mkBiome 1 "plains" ]} "1.16.4".

End Toy.

(* ===================================================================== *)
(** * Part I, continued: the vocabulary of the properties                *)
(* ===================================================================== *)

(** ** Keys *)
Module Keys.

(** No character of [s] is a comma. *)
Fixpoint comma_free (s : string) : bool :=
  match s with
  | EmptyString => true
  | String c r => negb (Ascii.eqb c ",") && comma_free r
  end.

End Keys.

(** ** Marks and dispatches *)
Module Routes.
Import Protocol Dispose WorldRenderer.

(** The [dirty] message of a call [setSectionDirty (pos, value)]. *)
Definition dirtyMsg (pos : Vec3.t) (value : bool) : Request :=
  MsgDirty (Vec3.x pos) (Vec3.y pos) (Vec3.z pos) value.

(** Whether a message asks a worker to mesh the section [k]. *)
Definition marks_section (k : string) (r : Request) : bool :=
  match r with
  | MsgDirty x y z true => bool_decide (keyOf (Vec3.mk x y z) = k)
  | _ => false
  end.

(** How many such messages the workers were sent, all inboxes together. *)
Definition dispatches (k : string) (s : t) : nat :=
  length (filter (fun r => marks_section k r = true) (concat (workers s))).

(** One frame of marks: [setSectionDirty (q, true)] for each [q]. *)
Definition markAll (qs : list Vec3.t) (s : t) : t :=
  fold_left (fun s q => setSectionDirty q true s) qs s.

Definition guard_passes (s : t) : Prop :=
  active s = true /\ workers s <> [].

(** From the specification: a block update dirties the block's own
    section and each face neighbour whose boundary the block touches,
    that is the neighbour below on an axis where the local coordinate
    (true modulo 16) is 0 and the neighbour above where it is 15. *)
Definition dirtied_by_spec (pos : Vec3.t) (k : string) : Prop :=
  let ox := Vec3.x pos / 16 * 16 in
  let oy := Vec3.y pos / 16 * 16 in
  let oz := Vec3.z pos / 16 * 16 in
  k = sectionKey ox oy oz
  \/ (Vec3.x pos mod 16 = 0 /\ k = sectionKey (ox - 16) oy oz)
  \/ (Vec3.x pos mod 16 = 15 /\ k = sectionKey (ox + 16) oy oz)
  \/ (Vec3.y pos mod 16 = 0 /\ k = sectionKey ox (oy - 16) oz)
  \/ (Vec3.y pos mod 16 = 15 /\ k = sectionKey ox (oy + 16) oz)
  \/ (Vec3.z pos mod 16 = 0 /\ k = sectionKey ox oy (oz - 16))
  \/ (Vec3.z pos mod 16 = 15 /\ k = sectionKey ox oy (oz + 16)).

(** The positions that [setBlockStateId] passes to [setSectionDirty]. *)
Definition targets (pos : Vec3.t) : list Vec3.t :=
  [pos]
  ++ (if Z.land (Vec3.x pos) 15 =? 0 then [Vec3.offset pos (-16) 0 0] else [])
  ++ (if Z.land (Vec3.x pos) 15 =? 15 then [Vec3.offset pos 16 0 0] else [])
  ++ (if Z.land (Vec3.y pos) 15 =? 0 then [Vec3.offset pos 0 (-16) 0] else [])
  ++ (if Z.land (Vec3.y pos) 15 =? 15 then [Vec3.offset pos 0 16 0] else [])
  ++ (if Z.land (Vec3.z pos) 15 =? 0 then [Vec3.offset pos 0 0 (-16)] else [])
  ++ (if Z.land (Vec3.z pos) 15 =? 15 then [Vec3.offset pos 0 0 16] else []).

End Routes.

(** ** The outcomes of a drained section *)
Module Drain.
Import Protocol.

(** The three ways a drained section ends. *)
Inductive Outcome :=
| Meshed (geometry : Geometry)
| Failed (message : string)
| Skipped.

(** The message is a completion signal. *)
Definition is_finished (r : Reply) : bool :=
  match r with
  | MsgSectionFinished _ => true
  | _ => false
  end.

(** What the worker posts for a section, by outcome. *)
Definition posted (key : string) (o : Outcome) : list Reply :=
  match o with
  | Meshed geometry => [MsgGeometry key geometry; MsgSectionFinished key]
  | Failed message => [MsgError (Some key) message; MsgSectionFinished key]
  | Skipped => [MsgSectionFinished key]
  end.

Section WithLibraries.
Context `{World.Libraries}.
Variable getSectionGeometry :
  Z -> Z -> Z -> World.t -> Json -> World.t * (string + Geometry).

(** Where [processSection] finds the section of a key, if it does. *)
Definition located (key : string) (s : Worker.t)
  : option (Z * Z * Z * World.t) :=
  let parts := JS.split key in
  match Worker.world s, JS.parseInt (JS.nth_str parts 0),
        JS.parseInt (JS.nth_str parts 1), JS.parseInt (JS.nth_str parts 2) with
  | Some w, Some x, Some y, Some z =>
      if Worker.sectionExists (World.getColumn w x z) y
      then Some (x, y, z, w) else None
  | _, _, _, _ => None
  end.

Definition outcome (blocks : Json) (key : string) (s : Worker.t) : Outcome :=
  match located key s with
  | Some (x, y, z, w) =>
      match (getSectionGeometry x y z w blocks).2 with
      | inr geometry => Meshed geometry
      | inl message => Failed message
      end
  | None => Skipped
  end.

(** The state in which the turn of a key starts: the keys before it in
    the queue have had their turns. *)
Definition turns (blocks : Json) (before : list string) (s : Worker.t)
  : Worker.t :=
  fold_left
    (fun s key => Worker.processSection getSectionGeometry blocks key s)
    before s.

(** The outcomes of the turns of a drain over [keys], each taken in the
    state that its turn starts in. *)
Fixpoint outcomes (blocks : Json) (keys : list string) (s : Worker.t)
  : list Outcome :=
  match keys with
  | [] => []
  | key :: rest =>
      outcome blocks key s
      :: outcomes blocks rest
           (Worker.processSection getSectionGeometry blocks key s)
  end.

End WithLibraries.
End Drain.

(** ** Histories of cache operations *)
Module LRUModel.
Section Ops.
Context {K V : Type} `{EqDecision K}.

(** A call on the cache. *)
Inductive Op :=
| OpGet (k : K)
| OpSet (k : K) (v : V)
| OpHas (k : K)
| OpDelete (k : K)
| OpClear.

Definition step (c : LRUCache.t K V) (o : Op) : LRUCache.t K V :=
  match o with
  | OpGet k => (LRUCache.get c k).2
  | OpSet k v => LRUCache.set c k v
  | OpHas k => c
  | OpDelete k => (LRUCache.delete c k).2
  | OpClear => LRUCache.clear c
  end.

Definition run (c : LRUCache.t K V) (ops : list Op) : LRUCache.t K V :=
  fold_left step ops c.

(** From the specification: [get] and [set] touch their key. *)
Definition touches (o : Op) (k : K) : bool :=
  match o with
  | OpGet k' | OpSet k' _ => bool_decide (k' = k)
  | _ => false
  end.

(** The time of the last touch of each key, the calls of a history being
    numbered from [t] on. *)
Definition touch (t : nat) (o : Op) (st : K -> option nat) : K -> option nat :=
  fun k => if touches o k then Some t else st k.

Fixpoint stamps (t : nat) (st : K -> option nat) (ops : list Op)
  : K -> option nat :=
  match ops with
  | [] => st
  | o :: r => stamps (S t) (touch t o st) r
  end.

Definition last_touch (ops : list Op) (k : K) : option nat :=
  stamps 0 (fun _ => None) ops k.

(** [a] was last touched before [b]. *)
Definition older (st : K -> option nat) (a b : K) : Prop :=
  exists i j, st a = Some i /\ st b = Some j /\ (i < j)%nat.

(** Every key of [l] was last touched before [t]. *)
Definition stamped_before (t : nat) (st : K -> option nat) (l : list K)
  : Prop :=
  forall a, a ∈ l -> exists i, st a = Some i /\ (i < t)%nat.

(** The invariant of a cache of capacity [N] at time [t]: at most [N]
    entries, in the order of their last touch. *)
Record inv (N : Z) (t : nat) (st : K -> option nat) (c : LRUCache.t K V)
  : Prop := mkInv {
  inv_capacity : LRUCache.maxSize c = N;
  inv_size : (Z.of_nat (LRUCache.size c) <= N)%Z;
  inv_sorted : StronglySorted (older st) (LRUCache.keys c);
  inv_stamped : stamped_before t st (LRUCache.keys c)
}.

End Ops.
Arguments Op : clear implicits.
End LRUModel.

(** ** What a disposal releases *)
Module Releases.
Import Protocol Dispose WorldRenderer.

(** The events that release or install a texture. *)
Definition on_texture (e : GpuEvent) : bool :=
  match e with
  | TextureDispose _ | MapInstall _ _ => true
  | _ => false
  end.

(** From [g] to [g'] no texture was disposed or installed, and the
    texture properties of every material are what they were. *)
Definition spares_textures (g g' : Gpu) : Prop :=
  materials g' = materials g
  /\ exists evs, trace g' = trace g ++ evs
                 /\ Forall (fun e => on_texture e = false) evs.

(** The four steps of [dispose3] after the children. *)
Definition geometry_step (geo : option nat) (g : Gpu) : Gpu :=
  match geo with
  | Some geo => emit (GeometryDispose geo) g
  | None => g
  end.

Definition material_step (options : Options) (mat : MaterialField) (g : Gpu)
  : Gpu :=
  match mat with
  | NoMaterial => g
  | MaterialArray ms =>
      fold_left
        (fun g m =>
           if disposeTextures options then disposeMaterial (Some m) g
           else emit (MaterialDispose m) g)
        ms g
  | OneMaterial m =>
      if disposeTextures options then disposeMaterial (Some m) g
      else emit (MaterialDispose m) g
  end.

Definition method_step (u : nat) (hd : bool) (g : Gpu) : Gpu :=
  if hd then emit (ObjectDispose u) g else g.

Definition parent_step (u : nat) (hp : bool) (g : Gpu) : Gpu :=
  if hp then emit (ParentRemove u) g else g.

Definition children_step (options : Options) (ch : list Object3D) (g : Gpu)
  : Gpu :=
  if recursive options then
    fold_left (fun g child => dispose3_object options false child g) ch g
  else g.

(** From [s] to [s'] the coordinator keeps its material and its texture,
    and no texture was disposed or installed. *)
Definition keeps_shared (s s' : t) : Prop :=
  material s' = material s
  /\ currentTexture s' = currentTexture s
  /\ spares_textures (gpu s) (gpu s').

(** In the trace [evs], an event [e1] comes before an event [e2]. *)
Definition happens_before (e1 e2 : GpuEvent) (evs : list GpuEvent) : Prop :=
  exists i j, evs !! i = Some e1 /\ evs !! j = Some e2 /\ (i < j)%nat.

(** A renderer of version 1.16.4 with one worker, the column (0, 0) loaded
    and a mesh installed for the section (0, 0, 0). *)
Definition one_mesh : t :=
  onmessage (MsgGeometry "0,0,0" (mkGeometry [] [] [] [] [] 0 0 0))
            (addColumn 0 0 "{}" (setVersion "1.16.4" (new 1))).

End Releases.

(** ** The coordinator as an event-driven machine *)
Module Timeline.
Import Protocol Dispose WorldRenderer.

(** What can happen to a renderer: a message of a worker, a call of one of
    its methods, the completion of a load. *)
Inductive Event :=
| EvMessage (data : Reply)
| EvSetVersion (v : Version)
| EvResetWorld
| EvDispose
| EvAddColumn (x z : Z) (chunk : Json)
| EvRemoveColumn (x z : Z)
| EvSetBlockStateId (pos : Vec3.t) (stateId : Z)
| EvSetSectionDirty (pos : Vec3.t) (value : bool)
| EvClearPendingDirtySections
| EvTextureLoaded (texture : nat)
| EvBlockStatesLoaded (json : Json)
| EvWaitForChunksToRender.

Definition handle (s : t) (e : Event) : t :=
  match e with
  | EvMessage data => onmessage data s
  | EvSetVersion v => setVersion v s
  | EvResetWorld => resetWorld s
  | EvDispose => dispose s
  | EvAddColumn x z chunk => addColumn x z chunk s
  | EvRemoveColumn x z => removeColumn x z s
  | EvSetBlockStateId pos sid => setBlockStateId pos sid s
  | EvSetSectionDirty pos value => setSectionDirty pos value s
  | EvClearPendingDirtySections => clearPendingDirtySections s
  | EvTextureLoaded texture => textureLoaded texture s
  | EvBlockStatesLoaded json => blockStatesLoaded json s
  | EvWaitForChunksToRender => (waitForChunksToRender s).2
  end.

Definition run (s : t) (evs : list Event) : t := fold_left handle evs s.

(** The completion signal that resolves the waiting promises: a
    [sectionFinished] message, handled while the workers are active, after
    which no section is outstanding.  [signalled s evs] says that one
    occurs in the course of [evs], started in [s]. *)
Definition signalled (s : t) (evs : list Event) : Prop :=
  exists before key after,
    evs = before ++ EvMessage (MsgSectionFinished key) :: after
    /\ workersActive (run s before) = true
    /\ sectionsOutstanding
         (run s (before ++ [EvMessage (MsgSectionFinished key)])) = ∅.

(** The promise identifiers in use are below the allocator, and no
    handler is registered twice. *)
Definition promises_allocated (s : t) : Prop :=
  NoDup (listeners s)
  /\ (forall q, q ∈ listeners s -> (q < nextPromise s)%nat)
  /\ (forall q, q ∈ resolved s -> (q < nextPromise s)%nat).

(** How often the promise [p] was resolved. *)
Definition resolutions (p : nat) (s : t) : nat :=
  length (filter (fun q => q = p) (resolved s)).

(** From [s] to [s'] the promises, their handlers and the activity of the
    workers are unchanged. *)
Definition same_sync (s s' : t) : Prop :=
  listeners s' = listeners s /\ resolved s' = resolved s
  /\ nextPromise s' = nextPromise s /\ workersActive s' = workersActive s.

(** The five effects that an event can have on the promises. *)
Definition flushes (s s' : t) : Prop :=
  listeners s' = [] /\ resolved s' = resolved s ++ listeners s
  /\ nextPromise s' = nextPromise s /\ workersActive s' = workersActive s.

Definition resolves_at_once (s s' : t) : Prop :=
  listeners s' = listeners s /\ resolved s' = resolved s ++ [nextPromise s]
  /\ nextPromise s' = S (nextPromise s) /\ workersActive s' = workersActive s.

Definition registers (s s' : t) : Prop :=
  listeners s' = listeners s ++ [nextPromise s] /\ resolved s' = resolved s
  /\ nextPromise s' = S (nextPromise s) /\ workersActive s' = workersActive s.

Definition drops (s s' : t) : Prop :=
  listeners s' = [] /\ resolved s' = resolved s
  /\ nextPromise s' = nextPromise s /\ workersActive s' = false.

(** The event is the completion signal. *)
Definition qualifies (s : t) (e : Event) : Prop :=
  exists key, e = EvMessage (MsgSectionFinished key)
              /\ workersActive s = true
              /\ sectionsOutstanding (handle s e) = ∅.

(** A renderer of version 1.16.4 with one worker and the section
    (0, 0, 0) outstanding. *)
Definition one_outstanding : t :=
  run (new 1) [EvSetVersion "1.16.4"; EvSetSectionDirty (Vec3.mk 0 0 0) true].

End Timeline.

(** ** The dirty queue of a worker *)
Module Queue.
Import Protocol Drain.

Section WithLibraries.
Context `{World.Libraries}.

(** The test [chunk && chunk.sections[Math.floor (y / 16)]] of
    [setSectionDirty] for the section at (x, y, z), [chunk] being the
    column of the worker's world, if it has a world. *)
Definition has_section (s : Worker.t) (x y z : Z) : bool :=
  Worker.sectionExists
    match Worker.world s with
    | Some w => World.getColumn w x z
    | None => None
    end y.

(** The drain does not find the section of the key. *)
Definition missing (key : string) (s : Worker.t) : bool :=
  match located key s with
  | Some _ => false
  | None => true
  end.

(** A mesher that leaves the columns of the world as they are: it reads
    blocks, which touches the block cache only. *)
Definition reads_only
  (mesher : Z -> Z -> Z -> World.t -> Json -> World.t * (string + Geometry))
  : Prop :=
  forall x y z w blocks,
    World.columns (mesher x y z w blocks).1 = World.columns w.

End WithLibraries.
End Queue.

(** ** The contents of the cache *)
Module LRUContents.
Section Contents.
Context {K V : Type} `{EqDecision K}.

(** The value stored under a key, if there is one. *)
Definition stored (c : LRUCache.t K V) (k : K) : option V :=
  JS.dict_get (LRUCache.cache c) k.

(** The key that [set (k, _)] throws out to make room: the first key of
    the map, when [k] is new and the cache is full. *)
Definition evicted (c : LRUCache.t K V) (k : K) : option K :=
  if LRUCache.has c k then None
  else if (LRUCache.maxSize c <=? Z.of_nat (LRUCache.size c))%Z
       then head (LRUCache.keys c)
       else None.

End Contents.
End LRUContents.

(** ** Histories of calls on a world *)
Module WorldOps.
Section WithLibraries.
Context `{World.Libraries}.

(** A call on the world. *)
Inductive Op :=
| OpAddColumn (x z : Z) (json : Json)
| OpRemoveColumn (x z : Z)
| OpSetBlockStateId (pos : Vec3.t) (stateId : Z)
| OpGetBlock (pos : Vec3.t)
| OpClear.

(** The world after the call; an [addColumn] that throws has not written
    anything. *)
Definition step (w : World.t) (o : Op) : World.t :=
  match o with
  | OpAddColumn x z json =>
      match World.addColumn w x z json with
      | inr (_, w') => w'
      | inl _ => w
      end
  | OpRemoveColumn x z => World.removeColumn w x z
  | OpSetBlockStateId pos sid => (World.setBlockStateId w pos sid).2
  | OpGetBlock pos => (World.getBlock w pos).2
  | OpClear => World.clear w
  end.

Definition run (w : World.t) (ops : list Op) : World.t :=
  fold_left step ops w.

(** The capacity of the block cache is the constant, and the cache holds
    no more than that. *)
Definition bounded (w : World.t) : Prop :=
  LRUCache.maxSize (World.blockCache w) = Constants.BLOCK_CACHE_MAX_SIZE
  /\ Z.of_nat (LRUCache.size (World.blockCache w))
     <= Constants.BLOCK_CACHE_MAX_SIZE.

End WithLibraries.
End WorldOps.

(** ** viewer/lib/dispose.js, continued *)
Module Scene.
Import Dispose.

(** [clearScene (scene)], a scene being its children ([None] is a scene
    that is [null]): the scene and the GPU after the call.  Each child is
    removed from the scene, which clears its [parent], and then disposed
    with the default options. *)
Definition clearScene (scene : option (list Object3D)) (g : Gpu)
  : option (list Object3D) * Gpu :=
  match scene with
  | None => (None, g)
  | Some children =>
      (Some [],
       fold_left
         (fun g child => dispose3 (Some (with_parent false child))
                                  defaultOptions g)
         children g)
  end.

End Scene.

(** ** What a disposal walks through *)
Module Trees.
Import Dispose.

Definition is_geometry (e : GpuEvent) : bool :=
  match e with
  | GeometryDispose _ => true
  | _ => false
  end.

Definition is_detach (e : GpuEvent) : bool :=
  match e with
  | ParentRemove _ => true
  | _ => false
  end.

(** [object.geometry] as a list. *)
Definition own_geometry (o : Object3D) : list nat :=
  match geometry o with
  | Some geo => [geo]
  | None => []
  end.

(** The geometries of an object and of its descendants, those of the
    children before the object's own. *)
Fixpoint geometries (o : Object3D) : list nat :=
  concat (map geometries (children o)) ++ own_geometry o.

(** The geometries that [dispose3] reaches with the given options. *)
Definition reached (options : Options) (o : Object3D) : list nat :=
  if recursive options then geometries o else own_geometry o.

(** One turn of the loop of [disposeMaterial]. *)
Definition release_slot (m : nat) (g : Gpu) (prop : string) : Gpu :=
  match slot g m prop with
  | Some t => clear_slot m prop (emit (TextureDispose t) g)
  | None => g
  end.

(** The events of a trace that satisfy [P], in order. *)
Definition proj (P : GpuEvent -> bool) (g : Gpu) : list GpuEvent :=
  filter (fun e => P e = true) (trace g).

(** [P] holds of no event on a texture or a material. *)
Definition skips_materials (P : GpuEvent -> bool) : Prop :=
  (forall t, P (TextureDispose t) = false)
  /\ (forall m, P (MaterialDispose m) = false).

End Trees.

(** ** The section meshes, the scene and the geometries *)
Module Meshes.
Import Protocol Dispose WorldRenderer Trees.

(** The objects of the meshes in the table, in the order of the table. *)
Definition uids (l : list (string * Mesh)) : list nat :=
  (fun e => uid (object e.2)) <$> l.

(** The geometries that the meshes of the table hold. *)
Definition held (l : list (string * Mesh)) : list nat :=
  concat (map (fun e => geometries (object e.2)) l).

Definition geometry_id (e : GpuEvent) : option nat :=
  match e with
  | GeometryDispose geo => Some geo
  | _ => None
  end.

(** The geometries disposed so far, in order. *)
Definition disposed (g : Gpu) : list nat := omap geometry_id (trace g).

(** The identifiers given to geometries when the allocator stands at [n]:
    it starts at 1 and each mesh takes two identifiers, the first of them
    for its geometry. *)
Definition allocated (n : nat) : list nat :=
  filter (fun i => Nat.odd i = true) (seq 0 n).

(** The table, the scene and the GPU agree. *)
Record consistent (s : t) : Prop := mkConsistent {
  keys_unique : NoDup (sectionMeshs s).*1;
  scene_is_table : scene s = uids (sectionMeshs s);
  scene_unique : NoDup (scene s);
  scene_allocated : forall u, u ∈ scene s -> (u < nextId s)%nat;
  allocator_odd : Nat.odd (nextId s) = true;
  accounted :
    held (sectionMeshs s) ++ disposed (gpu s) ≡ₚ allocated (nextId s)
}.

(** From [s] to [s'] the table, the scene, the allocator and the
    geometries disposed are unchanged. *)
Definition same_meshes (s s' : t) : Prop :=
  sectionMeshs s' = sectionMeshs s /\ scene s' = scene s
  /\ nextId s' = nextId s /\ disposed (gpu s') = disposed (gpu s).

End Meshes.

(** ** The sections of a column *)
Module Columns.
Import Protocol WorldRenderer.

(** The positions that [removeColumn] passes to [setSectionDirty]. *)
Definition column_positions (x z : Z) : list Vec3.t :=
  (fun y => Vec3.mk x y z) <$> section_ys.

(** The keys under which [removeColumn] looks for meshes. *)
Definition column_keys (x z : Z) : list string :=
  (fun y => sectionKey x y z) <$> section_ys.

(** The positions that [addColumn] passes to [setSectionDirty], in the
    order of the calls. *)
Definition column_targets (x z : Z) : list Vec3.t :=
  flat_map
    (fun y =>
       let loc := Vec3.mk x y z in
       [loc; Vec3.offset loc (-16) 0 0; Vec3.offset loc 16 0 0;
        Vec3.offset loc 0 0 (-16); Vec3.offset loc 0 0 16])
    section_ys.

(** The offsets of a column and of its four neighbours. *)
Definition around : list (Z * Z) :=
  [(0, 0); (-16, 0); (16, 0); (0, -16); (0, 16)].

(** One turn of the loop of [removeColumn]. *)
Definition unload_step (x z : Z) (s : t) (y : Z) : t :=
  let s := setSectionDirty (Vec3.mk x y z) false s in
  let key := sectionKey x y z in
  let s :=
    match JS.dict_get (sectionMeshs s) key with
    | Some mesh => removeAndDispose mesh s
    | None => s
    end in
  set_sectionMeshs (JS.dict_delete (sectionMeshs s) key) s.

End Columns.

(** ** lib/common.js: the rate limiter *)
Module RateLimit.

(** What the middleware reads of a request. *)
Record Req := mkReq {
  req_ip : option string;              (* [req.ip] *)
  remoteAddress : option string        (* [req.connection.remoteAddress] *)
}.

(** [req.ip || req.connection.remoteAddress]; [None] is [undefined]. *)
Definition clientKey (req : Req) : option string :=
  match req_ip req with
  | Some EmptyString | None => remoteAddress req
  | Some ip => Some ip
  end.

(** An entry of the [requests] map. *)
Record Entry := mkEntry { count : Z; resetTime : Z }.

(** What the middleware does with the request: [next ()], or the reply
    [429] with [retryAfter] in its body. *)
Inductive Response :=
| Next
| TooManyRequests (retryAfter : Z).

(** [Math.ceil (a / 1000)] on an integer [a]. *)
Definition ceil_seconds (a : Z) : Z := - ((- a) / 1000).

Section Limiter.
(** [const { windowMs = 60000, maxRequests = 100 } = options] *)
Variables (windowMs maxRequests : Z).

Definition Requests := JS.dict (option string) Entry.

(** The middleware, called at the time [now] ([Date.now ()]): its
    response and the map after the call. *)
Definition limiter (now : Z) (req : Req) (requests : Requests)
  : Response * Requests :=
  let ip := clientKey req in
  if negb (JS.dict_has requests ip) then
    (Next, JS.dict_set requests ip (mkEntry 1 (now + windowMs)))
  else
    match JS.dict_get requests ip with
    | Some record =>
        if resetTime record <? now then
          (Next, JS.dict_set requests ip (mkEntry 1 (now + windowMs)))
        else if maxRequests <=? count record then
          (TooManyRequests (ceil_seconds (resetTime record - now)), requests)
        else
          (Next,
           JS.dict_set requests ip
             (mkEntry (count record + 1) (resetTime record)))
    | None => (Next, requests)        (* not reached: the key is present *)
    end.

(** The callback of [setInterval], run at the time [now]. *)
Definition cleanup (now : Z) (requests : Requests) : Requests :=
  filter (fun e => ~ (resetTime e.2 < now)) requests.

(** What happens to a limiter: a request, or a turn of the cleanup. *)
Inductive Event :=
| Request (now : Z) (req : Req)
| Cleanup (now : Z).

(** The responses to the requests of a history, in order, and the map at
    its end. *)
Fixpoint serve (evs : list Event) (requests : Requests)
  : list (option string * Response) * Requests :=
  match evs with
  | [] => ([], requests)
  | Request now req :: evs =>
      let '(response, requests) := limiter now req requests in
      let '(responses, requests) := serve evs requests in
      ((clientKey req, response) :: responses, requests)
  | Cleanup now :: evs => serve evs (cleanup now requests)
  end.

End Limiter.
End RateLimit.

(** ** One client of the rate limiter *)
Module Clients.
Import RateLimit.

(** The times of the requests of the client [k] in a history. *)
Fixpoint times_of (k : option string) (evs : list Event) : list Z :=
  match evs with
  | [] => []
  | Request now req :: evs =>
      if decide (clientKey req = k) then now :: times_of k evs
      else times_of k evs
  | Cleanup _ :: evs => times_of k evs
  end.

(** The responses given to the client [k]. *)
Definition answers (k : option string)
  (responses : list (option string * Response)) : list Response :=
  (filter (fun r => r.1 = k) responses).*2.

Definition time_of (e : Event) : Z :=
  match e with
  | Request now _ | Cleanup now => now
  end.

(** The times of a history do not go back. *)
Definition monotone (evs : list Event) : Prop :=
  StronglySorted Z.le (time_of <$> evs).

Definition is_request (e : Event) : bool :=
  match e with
  | Request _ _ => true
  | Cleanup _ => false
  end.

Section Limiter.
Variables (windowMs maxRequests : Z).

(** The entry of a client, if it has one. *)
Definition view (requests : Requests) (k : option string) : option Entry :=
  JS.dict_get requests k.

(** The middleware, seen from one client: the response and the entry
    after a request of that client. *)
Definition limiter1 (now : Z) (o : option Entry) : Response * option Entry :=
  match o with
  | None => (Next, Some (mkEntry 1 (now + windowMs)))
  | Some record =>
      if resetTime record <? now then
        (Next, Some (mkEntry 1 (now + windowMs)))
      else if maxRequests <=? count record then
        (TooManyRequests (ceil_seconds (resetTime record - now)), Some record)
      else (Next, Some (mkEntry (count record + 1) (resetTime record)))
  end.

(** The cleanup, seen from one client. *)
Definition cleanup1 (now : Z) (o : option Entry) : option Entry :=
  match o with
  | Some record => if decide (resetTime record < now) then None else Some record
  | None => None
  end.

(** A history, seen from the client [k]: the responses to its requests,
    from its entry [o]. *)
Fixpoint serve1 (k : option string) (evs : list Event) (o : option Entry)
  : list Response :=
  match evs with
  | [] => []
  | Request now req :: evs =>
      if decide (clientKey req = k) then
        (limiter1 now o).1 :: serve1 k evs (limiter1 now o).2
      else serve1 k evs o
  | Cleanup now :: evs => serve1 k evs (cleanup1 now o)
  end.

(** The client has no window that is still open at the time [now]. *)
Definition no_window (now : Z) (o : option Entry) : Prop :=
  match o with
  | Some record => resetTime record < now
  | None => True
  end.

(** The entry [o] of a limiter that cleans up stands for the entry [o']
    of one that does not, at the time [now]: they are the same, or [o] is
    gone and the window of [o'] is over. *)
Definition stands_for (now : Z) (o o' : option Entry) : Prop :=
  o = o' \/ (o = None /\ no_window now o').

End Limiter.

End Clients.

(** ** lib/security/corsConfig.js *)
Module Cors.

Definition devOrigins : list string :=
  ["http://localhost:3000"; "http://localhost:8080"; "http://127.0.0.1:3000";
   "http://127.0.0.1:8080"]%string.

(** [[...new Set (l)]]: the elements of [l], each once, in the order of
    their first occurrence. *)
Fixpoint unique_from (seen l : list string) : list string :=
  match l with
  | [] => []
  | x :: r =>
      if bool_decide (x ∈ seen) then unique_from seen r
      else x :: unique_from (x :: seen) r
  end.
Definition unique (l : list string) : list string := unique_from [] l.

(** [const { allowedOrigins = [], development = ... } = options] *)
Record Options := mkOptions {
  allowedOrigins : list string;
  development : bool
}.

(** The list [origins] of [getCorsOptions]. *)
Definition origins (options : Options) : list string :=
  if development options then unique (devOrigins ++ allowedOrigins options)
  else allowedOrigins options.

(** The [origin] function of the options: [true] is
    [callback (null, true)], [false] is [callback (new Error (...))].
    The header is [None] when it is absent. *)
Definition originAllowed (options : Options) (origin : option string) : bool :=
  match origin with
  | None | Some EmptyString => true
  | Some o =>
      if (length (origins options) =? 0)%nat
         || bool_decide (o ∈ origins options)
      then true
      else if development options
              && (String.prefix "http://localhost:" o
                  || String.prefix "http://127.0.0.1:" o)
      then true
      else false
  end.

Definition methods : list string :=
  ["GET"; "POST"; "PUT"; "DELETE"; "OPTIONS"]%string.
Definition allowedHeaders : list string :=
  ["Content-Type"; "Authorization"; "X-Requested-With"]%string.
Definition exposedHeaders : list string := ["Content-Length"]%string.
Definition maxAge : Z := 86400.

(** [l.join (', ')] *)
Fixpoint join (l : list string) : string :=
  match l with
  | [] => ""
  | [x] => x
  | x :: r => x +:+ ", " +:+ join r
  end.

(** What the middleware reads of the request, and what it does to the
    response. *)
Record Req := mkReq { originHeader : option string; method : string }.

Record Res := mkRes {
  status : option Z;                   (* [res.status] or [res.sendStatus] *)
  body : option string;                (* the [error] of the JSON body *)
  headers : list (string * string);    (* the calls of [res.header], in order *)
  nextCalled : bool
}.

(** [corsMiddleware (req, res, next)] of [createCorsMiddleware]. *)
Definition corsMiddleware (options : Options) (req : Req) : Res :=
  let origin := originHeader req in
  if negb (originAllowed options origin) then
    mkRes (Some 403) (Some "CORS not allowed"%string) [] false
  else
    let allowOrigin :=
      match origin with
      | None | Some EmptyString => []
      | Some o => [("Access-Control-Allow-Origin"%string, o)]
      end in
    let hs :=
      allowOrigin
      ++ [("Access-Control-Allow-Credentials", "true");
          ("Access-Control-Allow-Methods", join methods);
          ("Access-Control-Allow-Headers", join allowedHeaders);
          ("Access-Control-Expose-Headers", join exposedHeaders);
          ("Access-Control-Max-Age", JS.toString maxAge)]%string in
    if String.eqb (method req) "OPTIONS" then mkRes (Some 204) None hs false
    else mkRes None None hs true.

End Cors.

(** ** The origins of the CORS policy *)
Module CorsPolicy.
Import Cors.

(** The origins that are let in, when the header is there. *)
Definition admitted (options : Options) (o : string) : Prop :=
  o ∈ allowedOrigins options
  \/ (development options = false /\ allowedOrigins options = [])
  \/ (development options = true
      /\ (String.prefix "http://localhost:" o = true
          \/ String.prefix "http://127.0.0.1:" o = true)).

End CorsPolicy.

(** ** lib/security/urlValidator.js *)
Module UrlValidator.

(** [c.toLowerCase ()] on an ASCII character. *)
Definition lower (c : ascii) : ascii :=
  let n := nat_of_ascii c in
  if (65 <=? n)%nat && (n <=? 90)%nat then ascii_of_nat (n + 32) else c.

(** [s.toLowerCase ()] on ASCII text. *)
Fixpoint toLowerCase (s : string) : string :=
  match s with
  | EmptyString => EmptyString
  | String c r => String (lower c) (toLowerCase r)
  end.

(** [s.endsWith (suffix)] *)
Fixpoint endsWith (s suffix : string) : bool :=
  String.eqb s suffix
  || match s with
     | EmptyString => false
     | String _ r => endsWith r suffix
     end.

(** The character is a digit from [lo] to [hi]: the class [[lo-hi]]. *)
Definition digit_in (lo hi : nat) (c : ascii) : bool :=
  (48 + lo <=? nat_of_ascii c)%nat && (nat_of_ascii c <=? 48 + hi)%nat.

(** [/^172\.(1[6-9]|2[0-9]|3[0-1])\./.test (ip)] *)
Definition class_b (ip : string) : bool :=
  String.prefix "172." ip
  && match String.get 4 ip, String.get 5 ip, String.get 6 ip with
     | Some a, Some b, Some c =>
         ((Ascii.eqb a "1" && digit_in 6 9 b)
          || (Ascii.eqb a "2" && digit_in 0 9 b)
          || (Ascii.eqb a "3" && digit_in 0 1 b))
         && Ascii.eqb c "."
     | _, _, _ => false
     end.

(** The tests of the regular expressions, in the order of the array. *)
Definition PRIVATE_IP_RANGES : list (string -> bool) :=
  [String.prefix "127.";               (* /^127\./ *)
   String.prefix "10.";                (* /^10\./ *)
   class_b;
   String.prefix "192.168.";           (* /^192\.168\./ *)
   String.prefix "169.254.";           (* /^169\.254\./ *)
   String.eqb "::1";                   (* /^::1$/ *)
   String.prefix "fc00:";              (* /^fc00:/ *)
   String.prefix "fe80:";              (* /^fe80:/ *)
   String.prefix "0.";                 (* /^0\./ *)
   String.prefix "224.";               (* /^224\./ *)
   String.prefix "240.";               (* /^240\./ *)
   String.prefix "255."].              (* /^255\./ *)

Definition BLOCKED_HOSTNAMES : list string :=
  ["localhost"; "localhost.localdomain"; "0.0.0.0"; "[::]"; "[::1]"]%string.

(** [isPrivateIP (ip)]; [None] is an [ip] that is [undefined] or
    [null]. *)
Definition isPrivateIP (ip : option string) : bool :=
  match ip with
  | None | Some EmptyString => true
  | Some ip =>
      if bool_decide (toLowerCase ip ∈ BLOCKED_HOSTNAMES) then true
      else existsb (fun range => range ip) PRIVATE_IP_RANGES
  end.

(** What [validateUrl] reads of a [URL]. *)
Record URL := mkURL {
  protocol : string;
  hostname : string;
  username : string;
  password : string
}.

Record Options := mkOptions {
  allowedProtocols : list string;
  allowedDomains : option (list string);
  blockedDomains : list string
}.

(** [options = {}] *)
Definition defaultOptions : Options :=
  mkOptions ["http:"; "https:"]%string None [].

(** [{ valid: true, parsedUrl }] or [{ valid: false, error }] *)
Inductive Result :=
| Valid (parsedUrl : URL)
| Invalid (error : string).

(** [lowerHostname === d.toLowerCase () ||
     lowerHostname.endsWith ('.' + d.toLowerCase ())] *)
Definition domain_matches (lowerHostname domain : string) : bool :=
  String.eqb lowerHostname (toLowerCase domain)
  || endsWith lowerHostname ("." +:+ toLowerCase domain).

(** A string that is truthy. *)
Definition nonempty (s : string) : bool :=
  match s with
  | EmptyString => false
  | _ => true
  end.

Section WithParser.
(** [new URL (targetUrl)]; [None] when it throws. *)
Variable parseURL : string -> option URL.

(** [validateUrl (targetUrl, options)]; [None] is a [targetUrl] that is
    not a string. *)
Definition validateUrl (targetUrl : option string) (options : Options)
  : Result :=
  match targetUrl with
  | None | Some EmptyString => Invalid "URL is required and must be a string"
  | Some targetUrl =>
      match parseURL targetUrl with
      | None => Invalid "Invalid URL format"
      | Some parsedUrl =>
          if negb (bool_decide
                     (protocol parsedUrl ∈ allowedProtocols options)) then
            Invalid ("Protocol " +:+ protocol parsedUrl
                     +:+ " is not allowed. Allowed: "
                     +:+ Cors.join (allowedProtocols options))
          else
            let hostname := hostname parsedUrl in
            if isPrivateIP (Some hostname) then
              Invalid "Access to internal network addresses is not allowed"
            else
              let lowerHostname := toLowerCase hostname in
              if existsb (domain_matches lowerHostname)
                         (blockedDomains options) then
                Invalid ("Domain " +:+ hostname +:+ " is blocked")
              else if match allowedDomains options with
                      | Some ((_ :: _) as allowed) =>
                          negb (existsb (domain_matches lowerHostname) allowed)
                      | _ => false
                      end then
                Invalid ("Domain " +:+ hostname
                         +:+ " is not in the allowed list")
              else if nonempty (username parsedUrl)
                      || nonempty (password parsedUrl) then
                Invalid "URLs with embedded credentials are not allowed"
              else Valid parsedUrl
      end
  end.

End WithParser.

Definition sensitiveHeaders : list string :=
  ["host"; "cookie"; "authorization"; "proxy-authorization";
   "x-forwarded-for"; "x-real-ip"; "x-forwarded-host"; "x-forwarded-proto"]%string.

(** [sanitizeProxyHeaders (headers, targetHost)] *)
Definition sanitizeProxyHeaders (headers : JS.dict string string)
  (targetHost : option string) : JS.dict string string :=
  let sanitized :=
    fold_left
      (fun sanitized header =>
         JS.dict_delete (JS.dict_delete sanitized header) (toLowerCase header))
      sensitiveHeaders headers in
  match targetHost with
  | None | Some EmptyString => sanitized
  | Some host => JS.dict_set sanitized "host"%string host
  end.

End UrlValidator.

(** ** Hosts and domains *)
Module Hosts.
Import UrlValidator.

(** The host is the domain or one of its subdomains, letter case
    aside. *)
Definition within (host domain : string) : Prop :=
  toLowerCase host = toLowerCase domain
  \/ exists label, toLowerCase host = (label +:+ "." +:+ toLowerCase domain)%string.

(** The character of a decimal digit. *)
Definition digit (d : nat) : ascii := ascii_of_nat (48 + d).

(** The prefixes that mark a host as private, apart from 172.16 to
    172.31. *)
Definition private_prefixes : list string :=
  ["127."; "10."; "192.168."; "169.254."; "fc00:"; "fe80:"; "0."; "224.";
   "240."; "255."]%string.

End Hosts.

(** ** lib/schemas/socketMessages.js *)
Module SocketMessages.

(** A JS number: a finite one is a rational, as every double is. *)
Inductive Num :=
| Finite (q : Q)
| NaN
| Infinity (negative : bool).

(** [a < b] on numbers, [b] a finite whole number. *)
Definition lt (a : Num) (b : Z) : bool :=
  match a with
  | Finite q => if Qlt_le_dec q (inject_Z b) then true else false
  | NaN => false
  | Infinity negative => negative
  end.

(** [a > b] on numbers, [b] a finite whole number. *)
Definition gt (a : Num) (b : Z) : bool :=
  match a with
  | Finite q => if Qlt_le_dec (inject_Z b) q then true else false
  | NaN => false
  | Infinity negative => negb negative
  end.

(** [Number.isInteger (a)] *)
Definition isInteger (a : Num) : bool :=
  match a with
  | Finite q => bool_decide (Qden (Qred q) = 1%positive)
  | _ => false
  end.

(** The values a message carries: what JSON gives, [undefined], and the
    numbers that are not finite.  An object is the list of its own
    entries, keys unique. *)
Inductive Val :=
| VUndefined
| VNull
| VBool (b : bool)
| VNum (n : Num)
| VStr (s : string)
| VArr (items : list Val)
| VObj (entries : list (string * Val)).

(** [typeof v] *)
Definition typeof (v : Val) : string :=
  match v with
  | VUndefined => "undefined"
  | VNull | VArr _ | VObj _ => "object"
  | VBool _ => "boolean"
  | VNum _ => "number"
  | VStr _ => "string"
  end.

(** [Array.isArray (v)] *)
Definition isArray (v : Val) : bool :=
  match v with
  | VArr _ => true
  | _ => false
  end.

(** [v === undefined || v === null] *)
Definition absent (v : Val) : bool :=
  match v with
  | VUndefined | VNull => true
  | _ => false
  end.

(** The array index a property name stands for: the decimal numeral of a
    whole number that is not negative, [0] and [17] but not [01] or
    [-1]. *)
Definition index (key : string) : option nat :=
  match JS.parseInt key with
  | Some i =>
      if bool_decide (0 <= i /\ JS.toString i = key) then Some (Z.to_nat i)
      else None
  | None => None
  end.

(** [data[key]] on an object or an array, for a [key] that names no
    method of [Object.prototype] or [Array.prototype]; every other value
    that [validate] reads a field of is an object or an array. *)
Definition get (data : Val) (key : string) : Val :=
  match data with
  | VObj entries => default VUndefined (JS.dict_get entries key)
  | VArr items =>
      if String.eqb key "length" then
        VNum (Finite (inject_Z (Z.of_nat (length items))))
      else match index key with
           | Some i => default VUndefined (items !! i)
           | None => VUndefined
           end
  | _ => VUndefined
  end.

(** The rules of one field of a schema; [None] and [false] are a rule
    that is not written.  The bounds and the lengths of the schemas are
    whole numbers, the values of an [enum] are strings, and a [pattern]
    is the test of its regular expression. *)
Inductive Rules := mkRules {
  type : option string;
  required : bool;
  min : option Z;
  max : option Z;
  integer : bool;
  maxLength : option Z;
  pattern : option (string -> bool);
  maxItems : option Z;
  enum : option (list string);
  properties : option (list (string * Rules))
}.

Definition Schema := list (string * Rules).

(** [{}]: no rule. *)
Definition anything : Rules :=
  mkRules None false None None false None None None None None.

(** [{ valid, errors }] *)
Record Result := mkResult {
  valid : bool;
  errors : list string
}.


(** The UTF-16 code units that a byte of a text in UTF-8 stands for: a
    byte that continues a character stands for none, the first byte of a
    character of four bytes for the two of a surrogate pair, every other
    byte for one. *)
Definition units (c : ascii) : nat :=
  let n := nat_of_ascii c in
  if (n <? 128)%nat then 1%nat
  else if (n <? 192)%nat then 0%nat
  else if (n <? 240)%nat then 1%nat
  else 2%nat.

(** [s.length], the number of UTF-16 code units of the string, which is
    held as its UTF-8 bytes. *)
Fixpoint length16 (s : string) : nat :=
  match s with
  | EmptyString => 0%nat
  | String c r => (units c + length16 r)%nat
  end.

(** [rules.type === t] *)
Definition is_type (rules : Rules) (t : string) : bool :=
  match type rules with
  | Some t' => String.eqb t' t
  | None => false
  end.

(** [rules.enum.includes (value)], the elements being strings. *)
Definition includes (values : list string) (value : Val) : bool :=
  match value with
  | VStr s => bool_decide (s ∈ values)
  | _ => false
  end.

(** The two early returns of [validate] and its last line; [fields] is
    the loop over the entries of the schema, giving the errors it
    pushes. *)
Definition validate_with (fields : Val -> list string) (data : Val) : Result :=
  if absent data then mkResult false ["Data is required"%string]
  else if negb (String.eqb (typeof data) "object") then
    mkResult false ["Data must be an object"%string]
  else
    let errors := fields data in
    mkResult (bool_decide (length errors = 0%nat)) errors.

(** [errors.map (e => `${key}.${e}`)] *)
Definition prefixed (key : string) (errors : list string) : list string :=
  (fun e => key +:+ "." +:+ e)%string <$> errors.

(** One turn of the loop of [validate]: the errors pushed for the entry
    [key, rules] of the schema, [value] being [data[key]]. *)
Fixpoint entry (key : string) (rules : Rules) (value : Val) {struct rules}
  : list string :=
  if absent value then
    (* the two [continue]s *)
    if required rules then ["Field '" +:+ key +:+ "' is required"]%string
    else []
  else
    (* type checking *)
    (match type rules with
     | Some ((String _ _) as t) =>
         let actualType := if isArray value then "array"%string
                           else typeof value in
         if String.eqb t "array" && negb (isArray value) then
           ["Field '" +:+ key +:+ "' must be an array"]%string
         else if negb (String.eqb t "array")
                 && negb (String.eqb actualType t) then
           ["Field '" +:+ key +:+ "' must be of type " +:+ t +:+ ", got "
            +:+ actualType]%string
         else []
     | _ => []
     end)
    (* number range validation *)
    ++ (match value with
        | VNum n =>
            if is_type rules "number" then
              (match min rules with
               | Some m =>
                   if lt n m then
                     ["Field '" +:+ key +:+ "' must be >= "
                      +:+ JS.toString m]%string
                   else []
               | None => []
               end)
              ++ (match max rules with
                  | Some m =>
                      if gt n m then
                        ["Field '" +:+ key +:+ "' must be <= "
                         +:+ JS.toString m]%string
                      else []
                  | None => []
                  end)
              ++ (if integer rules && negb (isInteger n) then
                    ["Field '" +:+ key +:+ "' must be an integer"]%string
                  else [])
            else []
        | _ => []
        end)
    (* string validation *)
    ++ (match value with
        | VStr s =>
            if is_type rules "string" then
              (match maxLength rules with
               | Some m =>
                   if m <? Z.of_nat (length16 s) then
                     ["Field '" +:+ key +:+ "' must be at most "
                      +:+ JS.toString m +:+ " characters"]%string
                   else []
               | None => []
               end)
              ++ (match pattern rules with
                  | Some test =>
                      if negb (test s) then
                        ["Field '" +:+ key
                         +:+ "' does not match required pattern"]%string
                      else []
                  | None => []
                  end)
            else []
        | _ => []
        end)
    (* array validation *)
    ++ (match value with
        | VArr items =>
            if is_type rules "array" then
              match maxItems rules with
              | Some m =>
                  if m <? Z.of_nat (length items) then
                    ["Field '" +:+ key +:+ "' must have at most "
                     +:+ JS.toString m +:+ " items"]%string
                  else []
              | None => []
              end
            else []
        | _ => []
        end)
    (* enum validation *)
    ++ (match enum rules with
        | Some values =>
            if negb (includes values value) then
              ["Field '" +:+ key +:+ "' must be one of: "
               +:+ Cors.join values]%string
            else []
        | None => []
        end)
    (* nested object validation *)
    ++ (match properties rules with
        | Some nested =>
            if String.eqb (typeof value) "object" && negb (isArray value) then
              let nestedResult :=
                validate_with
                  (fun data =>
                     (fix loop (schema : list (string * Rules)) : list string :=
                        match schema with
                        | [] => []
                        | (k, r) :: rest => entry k r (get data k) ++ loop rest
                        end) nested)
                  value in
              if negb (valid nestedResult) then
                prefixed key (errors nestedResult)
              else []
            else []
        | None => []
        end).

(** The loop of [validate] over [Object.entries (schema)]. *)
Fixpoint fields (schema : Schema) (data : Val) : list string :=
  match schema with
  | [] => []
  | (key, rules) :: rest => entry key rules (get data key) ++ fields rest data
  end.

(** [validate (data, schema)] *)
Definition validate (data : Val) (schema : Schema) : Result :=
  validate_with (fields schema) data.

(** A character from [0] to [9]: the class [\d]. *)
Definition is_digit (c : ascii) : bool := UrlValidator.digit_in 0 9 c.

(** What is left of a string after its leading digits. *)
Fixpoint skip_digits (s : string) : string :=
  match s with
  | String c r => if is_digit c then skip_digits r else s
  | EmptyString => EmptyString
  end.

(** What is left of a string after [\d+], which takes every leading
    digit since what follows it in the pattern is no digit; [None] when
    the string starts with no digit. *)
Definition after_digits (s : string) : option string :=
  match s with
  | String c r => if is_digit c then Some (skip_digits r) else None
  | EmptyString => None
  end.

(** [/^\d+\.\d+(\.\d+)?$/.test (s)] *)
Definition version_pattern (s : string) : bool :=
  match after_digits s with
  | Some (String "." r) =>
      match after_digits r with
      | Some EmptyString => true
      | Some (String "." r') =>
          match after_digits r' with
          | Some EmptyString => true
          | _ => false
          end
      | _ => false
      end
  | _ => false
  end.

(** A schema of [schemas]: an object of rules, one per field, or the
    description [{ type: 'string', pattern, maxLength }] of a value that
    is a string. *)
Inductive MessageSchema :=
| Fields (schema : Schema)
| Text (pattern : option (string -> bool)) (maxLength : option Z).

Definition number : Rules :=
  mkRules (Some "number"%string) false None None false None None None None None.

Definition required_number : Rules :=
  mkRules (Some "number"%string) true None None false None None None None None.

Definition required_integer (min max : option Z) : Rules :=
  mkRules (Some "number"%string) true min max true None None None None None.

Definition bounded_number (min max : Z) : Rules :=
  mkRules (Some "number"%string) false (Some min) (Some max) false
          None None None None None.

Definition boolean : Rules :=
  mkRules (Some "boolean"%string) false None None false None None None None None.

Definition text (maxLength : Z) : Rules :=
  mkRules (Some "string"%string) false None None false (Some maxLength)
          None None None None.

Definition object (required : bool) (properties : option Schema) : Rules :=
  mkRules (Some "object"%string) required None None false None None None None
          properties.

Definition vec3Schema : Schema :=
  [("x", required_number); ("y", required_number); ("z", required_number)]%string.

Definition schemas : list (string * MessageSchema) :=
  [("position",
    Fields [("pos", object true (Some vec3Schema));
            ("yaw", number);
            ("pitch", number);
            ("addMesh", boolean)]);
   ("blockClicked",
    Fields [("block", object true None);
            ("face", required_integer (Some 0) (Some 5));
            ("button", required_integer (Some 0) (Some 2))]);
   ("mouseClick",
    Fields [("origin", object true (Some vec3Schema));
            ("direction", object true (Some vec3Schema));
            ("button", required_integer (Some 0) (Some 2))]);
   ("loadChunk",
    Fields [("x", required_integer None None);
            ("z", required_integer None None);
            ("chunk", object true None)]);
   ("unloadChunk",
    Fields [("x", required_integer None None);
            ("z", required_integer None None)]);
   ("blockUpdate",
    Fields [("pos", object true (Some vec3Schema));
            ("stateId", required_integer (Some 0) None)]);
   ("entity",
    Fields [("id", mkRules None true None None false None None None None None);
            ("name", text 100);
            ("pos", object false (Some vec3Schema));
            ("width", bounded_number 0 100);
            ("height", bounded_number 0 100);
            ("username", text 50);
            ("yaw", number);
            ("pitch", number);
            ("delete", boolean)]);
   ("primitive",
    Fields [("id", mkRules None true None None false None None None None None);
            ("type", mkRules (Some "string") false None None false None None
                             None (Some ["line"; "boxgrid"; "points"]) None);
            ("points", mkRules (Some "array") false None None false None None
                               (Some 10000) None None);
            ("color", anything);
            ("size", bounded_number 0 100);
            ("start", object false (Some vec3Schema));
            ("end", object false (Some vec3Schema))]);
   ("version", Text (Some version_pattern) (Some 20))]%string.

(** The names every object inherits from [Object.prototype]. *)
Definition inherited : list string :=
  ["constructor"; "hasOwnProperty"; "isPrototypeOf"; "propertyIsEnumerable";
   "toLocaleString"; "toString"; "valueOf"; "__proto__";
   "__defineGetter__"; "__defineSetter__"; "__lookupGetter__";
   "__lookupSetter__"]%string.

(** [schemas[messageType]].  Under an inherited name it is a function,
    or the prototype itself: a value that is truthy, with no [type] and
    with no entry of its own to enumerate, as a schema with no field
    is. *)
Definition schema_of (messageType : string) : option MessageSchema :=
  match JS.dict_get schemas messageType with
  | Some schema => Some schema
  | None =>
      if bool_decide (messageType ∈ inherited) then Some (Fields []) else None
  end.

(** [validateMessage (messageType, data)].  In a schema of fields,
    [schema.type] is the rules of the field [type] when there is one: an
    object, which is truthy, is not the string ['object'] and is not the
    string [typeof data] either; it is printed as [[object Object]]. *)
Definition validateMessage (messageType : string) (data : Val) : Result :=
  match schema_of messageType with
  | None => mkResult true []
  | Some (Text pattern maxLength) =>
      match data with
      | VStr s =>
          if match pattern with
             | Some test => negb (test s)
             | None => false
             end then
            mkResult false ["Value does not match required pattern"%string]
          else
            match maxLength with
            | Some m =>
                if negb (m =? 0) && (m <? Z.of_nat (length16 s)) then
                  mkResult false
                    ["Value exceeds maximum length of " +:+ JS.toString m]%string
                else mkResult true []
            | None => mkResult true []
            end
      | _ =>
          mkResult false ["Expected string, got " +:+ typeof data]%string
      end
  | Some (Fields schema) =>
      match JS.dict_get schema "type"%string with
      | Some _ =>
          mkResult false
            ["Expected [object Object], got " +:+ typeof data]%string
      | None => validate data schema
      end
  end.

(** [withValidation (messageType, handler)] called on [data]: the
    arguments of [console.warn] when the message is dropped, the result
    of the handler otherwise. *)
Definition withValidation {R : Type} (messageType : string)
  (handler : Val -> R) (data : Val) : (string * list string) + R :=
  let result := validateMessage messageType data in
  if negb (valid result) then
    inl ("Invalid " +:+ messageType +:+ " message:", errors result)%string
  else inr (handler data).

End SocketMessages.

(** ** Version strings *)
Module Versions.

(** Every character of the string is a decimal digit. *)
Definition digits (s : string) : Prop :=
  forall c, In c (list_ascii_of_string s) -> SocketMessages.is_digit c = true.

(** A string of decimal digits, not empty. *)
Definition numeral (s : string) : Prop := s <> ""%string /\ digits s.

(** The string does not go on with a digit. *)
Definition stops (r : string) : Prop :=
  match r with
  | String c _ => SocketMessages.is_digit c = false
  | EmptyString => True
  end.

(** [major.minor] or [major.minor.patch] *)
Definition dotted (s : string) : Prop :=
  exists major minor,
    numeral major /\ numeral minor
    /\ (s = (major +:+ "." +:+ minor)%string
        \/ exists patch,
             numeral patch
             /\ s = (major +:+ "." +:+ minor +:+ "." +:+ patch)%string).

End Versions.

(** ** Marks within a frame *)
Module Frames.
Import Protocol WorldRenderer Routes Timeline Columns.

(** The event takes no mark of the section [k] away: it is not
    [clearPendingDirtySections], and it is not an unmark of [k], by
    [setSectionDirty (pos, false)] in [k] or by the [removeColumn] of a
    column that has the section. *)
Definition keeps_marked (k : string) (e : Event) : bool :=
  match e with
  | EvClearPendingDirtySections => false
  | EvSetSectionDirty pos false => bool_decide (keyOf pos ≠ k)
  | EvRemoveColumn x z => bool_decide (k ∉ keyOf <$> column_positions x z)
  | _ => true
  end.

(** From [s] to [s'] the section [k], if it is pending in [s], stays
    pending and no [dirty] message for it is sent. *)
Definition stays_marked (k : string) (s s' : t) : Prop :=
  k ∈ pendingDirtySections s ->
  k ∈ pendingDirtySections s' /\ dispatches k s' = dispatches k s.

(** A renderer of version 1.16.4 with one worker. *)
Definition started : t := setVersion "1.16.4" (new 1).

End Frames.

(** ** The cleanup of section meshes *)
Module Cleanup.
Import Protocol Dispose WorldRenderer Timeline Trees Meshes Columns.

(** A mesh as [_handleGeometry] builds it and the scene adopts it: one
    geometry, the material [m], no child, no [dispose] method, the scene
    for parent. *)
Definition section_mesh (m : nat) (mesh : Mesh) : Prop :=
  exists u geo,
    object mesh = mkObject u (Some geo) (OneMaterial m) [] false true.

(** The calls that the cleanup of a section mesh makes: [dispose ()] on
    its geometry, then [dispose ()] on the material [m]. *)
Definition cleanup_calls (m : nat) (mesh : Mesh) : list GpuEvent :=
  (GeometryDispose <$> own_geometry (object mesh)) ++ [MaterialDispose m].

(** The meshes that [removeColumn] finds, in the order of its loop. *)
Definition column_meshes (x z : Z) (s : t) : list Mesh :=
  omap (fun key => JS.dict_get (sectionMeshs s) key) (column_keys x z).

(** The table, the scene and the GPU agree, every mesh of the table is a
    section mesh with the material of the constructor, and the
    coordinator still has that material unless it was disposed of, which
    leaves no mesh and no active worker. *)
Definition installed (s : t) : Prop :=
  consistent s
  /\ Forall (fun e => section_mesh 0 e.2) (sectionMeshs s)
  /\ (WorldRenderer.material s = Some 0%nat
      \/ (workersActive s = false /\ sectionMeshs s = [])).

End Cleanup.

(* ===================================================================== *)
(** * Part II: properties                                                *)
(* ===================================================================== *)

(** ** Numbers, strings and keys *)
Module JSFacts.
Import JS Keys.

(** For a positive modulus, [mod] is the mathematical modulo. *)
Lemma mod'_modulo x n : 0 < n -> mod' x n = x mod n.
Proof.
  intros Hn. unfold mod'.
  assert (Hr : - n < Z.rem x n < n).
  { pose proof (Z.rem_bound_abs x n ltac:(lia)) as Hb. lia. }
  assert (Hx : (Z.rem x n + n) mod n = x mod n).
  { rewrite Z.add_mod, Z.mod_same, Z.add_0_r, Z.mod_mod by lia.
    replace (Z.rem x n) with (x - n * (x ÷ n)).
    - replace (x - n * (x ÷ n)) with (x + (- (x ÷ n)) * n) by ring.
      apply Z.mod_add. lia.
    - pose proof (Z.quot_rem' x n). lia. }
  rewrite Z.rem_mod_nonneg by lia. exact Hx.
Qed.

Lemma mod'_range x n : 0 < n -> 0 <= mod' x n < n.
Proof. intros Hn. rewrite mod'_modulo by done. by apply Z.mod_pos_bound. Qed.

(** On integers [x & 15] is the mathematical [x mod 16]. *)
Lemma land_15 x : Z.land x 15 = x mod 16.
Proof. change 15 with (Z.ones 4). rewrite Z.land_ones by lia. reflexivity. Qed.

(** Printing and reading a number. *)
Lemma to_int_proper z : Z.to_int z <> Decimal.Pos Decimal.Nil
                        /\ Z.to_int z <> Decimal.Neg Decimal.Nil.
Proof.
  destruct z as [|p|p]; simpl; split; try discriminate.
  - intros [= Hp]. by apply (DecimalPos.Unsigned.to_uint_nonnil p).
  - intros [= Hp]. by apply (DecimalPos.Unsigned.to_uint_nonnil p).
Qed.

Lemma parseInt_toString z : parseInt (toString z) = Some z.
Proof.
  unfold parseInt, toString.
  destruct (to_int_proper z) as [Hp Hn].
  rewrite NilZero.isi by assumption. simpl. by rewrite DecimalZ.of_to.
Qed.

Lemma toString_inj a b : toString a = toString b -> a = b.
Proof.
  intros Hab. pose proof (parseInt_toString a) as Ha.
  rewrite Hab, parseInt_toString in Ha. congruence.
Qed.

Lemma comma_free_uint d : comma_free (NilEmpty.string_of_uint d) = true.
Proof. induction d; simpl; auto. Qed.

Lemma comma_free_toString z : comma_free (toString z) = true.
Proof.
  unfold toString.
  destruct (Z.to_int z) as [d|d]; simpl;
    destruct d; simpl; auto using comma_free_uint.
Qed.

Lemma split_comma_free s : comma_free s = true -> split s = [s].
Proof.
  induction s as [|c r IH]; simpl; [done|].
  intros [Hc Hr]%andb_true_iff.
  destruct (Ascii.eqb c ","); [done|]. by rewrite IH.
Qed.

Lemma split_app s r :
  comma_free s = true -> split (s +:+ "," +:+ r) = s :: split r.
Proof.
  induction s as [|c s IH]; simpl; [done|].
  intros [Hc Hs]%andb_true_iff.
  destruct (Ascii.eqb c ","); [done|].
  change (String.append s (String.append "," r)) with (s +:+ "," +:+ r).
  by rewrite IH.
Qed.

Lemma split_sectionKey x y z :
  split (Protocol.sectionKey x y z) = [toString x; toString y; toString z].
Proof.
  unfold Protocol.sectionKey.
  rewrite split_app by apply comma_free_toString.
  rewrite split_app by apply comma_free_toString.
  by rewrite split_comma_free by apply comma_free_toString.
Qed.

Lemma sectionKey_inj x y z x' y' z' :
  Protocol.sectionKey x y z = Protocol.sectionKey x' y' z' ->
  x = x' /\ y = y' /\ z = z'.
Proof.
  intros Hk. apply (f_equal split) in Hk.
  rewrite !split_sectionKey in Hk.
  injection Hk as Hx Hy Hz. auto using toString_inj.
Qed.

Lemma split_columnKey x z :
  split (World.columnKey x z) = [toString x; toString z].
Proof.
  unfold World.columnKey.
  rewrite split_app by apply comma_free_toString.
  by rewrite split_comma_free by apply comma_free_toString.
Qed.

Lemma columnKey_inj x z x' z' :
  World.columnKey x z = World.columnKey x' z' -> x = x' /\ z = z'.
Proof.
  intros Hk. apply (f_equal split) in Hk.
  rewrite !split_columnKey in Hk.
  injection Hk as Hx Hz. auto using toString_inj.
Qed.

(** The column that [_handleGeometry] looks up for a section key. *)
Lemma column_of_sectionKey x y z :
  (nth_str (split (Protocol.sectionKey x y z)) 0 +:+ "," +:+
   nth_str (split (Protocol.sectionKey x y z)) 2)%string
  = World.columnKey x z.
Proof. by rewrite split_sectionKey. Qed.

End JSFacts.

(** ** The coordinator: routing and dirty tracking *)
Module RoutingFacts.
Import Protocol Dispose WorldRenderer Routes.

Lemma guard_passes_test s :
  guard_passes s -> negb (active s) || (length (workers s) =? 0)%nat = false.
Proof.
  intros [Ha Hw]. rewrite Ha. simpl.
  destruct (workers s); [done|reflexivity].
Qed.

Lemma guard_fails_test s :
  active s = false \/ workers s = [] ->
  negb (active s) || (length (workers s) =? 0)%nat = true.
Proof.
  intros [Ha | Hw].
  - by rewrite Ha.
  - rewrite Hw. simpl. apply orb_true_r.
Qed.

Lemma hashOf_modulo pos n :
  (0 < n)%nat ->
  hashOf pos n
  = (Vec3.x pos / 16 + Vec3.y pos / 16 + Vec3.z pos / 16) mod Z.of_nat n.
Proof. intros Hn. unfold hashOf, JS.floor16. apply JSFacts.mod'_modulo. lia. Qed.

Lemma hashOf_range pos n :
  (0 < n)%nat -> 0 <= hashOf pos n < Z.of_nat n.
Proof. intros Hn. unfold hashOf. apply JSFacts.mod'_range. lia. Qed.

Lemma hashOf_index pos n :
  (0 < n)%nat -> (Z.to_nat (hashOf pos n) < n)%nat.
Proof. intros Hn. pose proof (hashOf_range pos n Hn). lia. Qed.

(** What a call does when the guard passes. *)
Lemma setSectionDirty_deduped pos s :
  guard_passes s -> keyOf pos ∈ pendingDirtySections s ->
  setSectionDirty pos true s = s.
Proof.
  intros Hg Hk. unfold setSectionDirty.
  rewrite guard_passes_test by done. simpl.
  by rewrite bool_decide_eq_true_2.
Qed.

Lemma setSectionDirty_marked pos s :
  guard_passes s -> keyOf pos ∉ pendingDirtySections s ->
  setSectionDirty pos true s
  = set_pendingDirtySections ({[keyOf pos]} ∪ pendingDirtySections s)
      (set_sectionsOutstanding ({[keyOf pos]} ∪ sectionsOutstanding s)
         (postTo (hashOf pos (length (workers s))) (dirtyMsg pos true) s)).
Proof.
  intros Hg Hk. unfold setSectionDirty.
  rewrite guard_passes_test by done. simpl.
  by rewrite bool_decide_eq_false_2.
Qed.

Lemma setSectionDirty_unmarked pos s :
  guard_passes s ->
  setSectionDirty pos false s
  = set_pendingDirtySections (pendingDirtySections s ∖ {[keyOf pos]})
      (set_sectionsOutstanding (sectionsOutstanding s ∖ {[keyOf pos]})
         (postTo (hashOf pos (length (workers s))) (dirtyMsg pos false) s)).
Proof.
  intros Hg. unfold setSectionDirty.
  by rewrite guard_passes_test by done.
Qed.

Lemma setSectionDirty_blocked pos value s :
  active s = false \/ workers s = [] -> setSectionDirty pos value s = s.
Proof.
  intros Hg. unfold setSectionDirty. by rewrite guard_fails_test.
Qed.

Lemma setSectionDirty_guard pos value s :
  guard_passes s -> guard_passes (setSectionDirty pos value s).
Proof.
  intros Hg. destruct value.
  - destruct (decide (keyOf pos ∈ pendingDirtySections s)).
    + by rewrite setSectionDirty_deduped.
    + rewrite setSectionDirty_marked by done.
      destruct Hg as [Ha Hw]. split; [done|]. simpl.
      intros Hnil. apply Hw. apply (f_equal length) in Hnil.
      rewrite length_alter in Hnil. by destruct (workers s).
  - rewrite setSectionDirty_unmarked by done.
    destruct Hg as [Ha Hw]. split; [done|]. simpl.
    intros Hnil. apply Hw. apply (f_equal length) in Hnil.
    rewrite length_alter in Hnil. by destruct (workers s).
Qed.

Lemma setSectionDirty_pending pos s :
  guard_passes s ->
  pendingDirtySections (setSectionDirty pos true s)
  = {[keyOf pos]} ∪ pendingDirtySections s.
Proof.
  intros Hg. destruct (decide (keyOf pos ∈ pendingDirtySections s)).
  - rewrite setSectionDirty_deduped by done. set_solver.
  - by rewrite setSectionDirty_marked.
Qed.

Lemma setSectionDirty_outstanding pos s :
  guard_passes s ->
  sectionsOutstanding (setSectionDirty pos true s)
  = ({[keyOf pos]} ∖ pendingDirtySections s) ∪ sectionsOutstanding s.
Proof.
  intros Hg. destruct (decide (keyOf pos ∈ pendingDirtySections s)).
  - rewrite setSectionDirty_deduped by done. set_solver.
  - rewrite setSectionDirty_marked by done. simpl. set_solver.
Qed.

(** Counting the messages in the inboxes. *)
Lemma filter_concat_alter (P : Request -> Prop) `{!∀ r, Decision (P r)}
      (m : Request) (i : nat) (ws : list (list Request)) :
  (i < length ws)%nat ->
  length (filter P (concat (alter (fun inbox => inbox ++ [m]) i ws)))
  = (length (filter P (concat ws)) + length (filter P [m]))%nat.
Proof.
  revert i. induction ws as [|w ws IH]; intros i Hi; simpl in Hi; [lia|].
  destruct i as [|i]; simpl.
  - rewrite !filter_app, !length_app. lia.
  - pose proof (IH i ltac:(lia)) as IHi. unfold alter in IHi.
    rewrite !filter_app, !length_app, IHi. lia.
Qed.

Lemma dispatches_postTo k pos value s :
  guard_passes s ->
  dispatches k (postTo (hashOf pos (length (workers s))) (dirtyMsg pos value) s)
  = (dispatches k s
     + if value && bool_decide (keyOf pos = k) then 1 else 0)%nat.
Proof.
  intros [Ha Hw]. unfold dispatches, postTo. simpl.
  rewrite filter_concat_alter.
  - f_equal. destruct pos as [x y z], value; simpl; [|done].
    rewrite filter_cons, filter_nil. simpl.
    destruct (decide (bool_decide (keyOf (Vec3.mk x y z) = k) = true)) as [Hd|Hd];
      destruct (bool_decide (keyOf (Vec3.mk x y z) = k)); done.
  - apply hashOf_index. destruct (workers s); [done|simpl; lia].
Qed.

Lemma dispatches_setSectionDirty k pos s :
  guard_passes s ->
  dispatches k (setSectionDirty pos true s)
  = (dispatches k s
     + if bool_decide (keyOf pos = k ∧ k ∉ pendingDirtySections s)
       then 1 else 0)%nat.
Proof.
  intros Hg. destruct (decide (keyOf pos ∈ pendingDirtySections s)) as [Hp|Hp].
  - rewrite setSectionDirty_deduped by done.
    rewrite bool_decide_eq_false_2; [lia|]. intros [<- ?]. done.
  - rewrite setSectionDirty_marked by done.
    change (dispatches k (set_pendingDirtySections ?a (set_sectionsOutstanding ?b ?s')))
      with (dispatches k s').
    rewrite dispatches_postTo by done. simpl. f_equal.
    destruct (decide (keyOf pos = k)) as [<-|Hne].
    + by rewrite !bool_decide_eq_true_2.
    + rewrite !bool_decide_eq_false_2; [done| |done]. by intros [? ?].
Qed.

Lemma markAll_guard qs s : guard_passes s -> guard_passes (markAll qs s).
Proof.
  revert s. induction qs as [|q qs IH]; intros s Hg; [done|].
  simpl. apply IH. by apply setSectionDirty_guard.
Qed.

Lemma markAll_pending qs s :
  guard_passes s ->
  pendingDirtySections (markAll qs s)
  = list_to_set (keyOf <$> qs) ∪ pendingDirtySections s.
Proof.
  revert s. induction qs as [|q qs IH]; intros s Hg; simpl.
  - set_solver.
  - unfold markAll in IH. rewrite IH by by apply setSectionDirty_guard.
    rewrite setSectionDirty_pending by done. set_solver.
Qed.

Lemma markAll_outstanding qs s :
  guard_passes s ->
  sectionsOutstanding (markAll qs s)
  = (list_to_set (keyOf <$> qs) ∖ pendingDirtySections s)
    ∪ sectionsOutstanding s.
Proof.
  revert s. induction qs as [|q qs IH]; intros s Hg; simpl.
  - set_solver.
  - unfold markAll in IH. rewrite IH by by apply setSectionDirty_guard.
    rewrite setSectionDirty_pending, setSectionDirty_outstanding by done.
    apply set_eq. intros k.
    destruct (decide (k = keyOf q)); set_solver.
Qed.

(** However often a section is marked in a frame, it is dispatched once,
    unless it was pending already. *)
Lemma markAll_dispatches k qs s :
  guard_passes s ->
  dispatches k (markAll qs s)
  = (dispatches k s
     + if bool_decide (k ∈ keyOf <$> qs ∧ k ∉ pendingDirtySections s)
       then 1 else 0)%nat.
Proof.
  revert s. induction qs as [|q qs IH]; intros s Hg.
  - simpl. lia.
  - change (markAll (q :: qs) s) with (markAll qs (setSectionDirty q true s)).
    rewrite fmap_cons, IH by by apply setSectionDirty_guard.
    rewrite dispatches_setSectionDirty by done.
    rewrite setSectionDirty_pending by done.
    rewrite <- Nat.add_assoc. f_equal.
    destruct (decide (k ∈ pendingDirtySections s)) as [Hp|Hp].
    { rewrite !bool_decide_eq_false_2; [done| | |]; set_solver. }
    destruct (decide (keyOf q = k)) as [Hq|Hq].
    + rewrite (bool_decide_eq_true_2 (keyOf q = k ∧ _)) by done.
      rewrite bool_decide_eq_false_2 by set_solver.
      rewrite bool_decide_eq_true_2; [done|]. split; [|done].
      rewrite <- Hq. apply list_elem_of_here.
    + rewrite (bool_decide_eq_false_2 (keyOf q = k ∧ _)) by (intros [? ?]; done).
      simpl. destruct (decide (k ∈ keyOf <$> qs)) as [Hin|Hin].
      * rewrite !bool_decide_eq_true_2; [done| |]; [|set_solver].
        split; [by apply list_elem_of_further|done].
      * rewrite !bool_decide_eq_false_2; [done| |]; [|set_solver].
        intros [Hc _]. apply elem_of_cons in Hc as [Hc|Hc]; congruence.
Qed.

End RoutingFacts.

(** ** The coordinator: frames of the operations *)
Module FrameFacts.
Import Protocol Dispose WorldRenderer.

Lemma fold_left_invariant {A B} (P : A -> Prop) (f : A -> B -> A) l a :
  (forall a b, P a -> P (f a b)) -> P a -> P (fold_left f l a).
Proof.
  intros Hf. revert a. induction l as [|b l IH]; intros a Ha; simpl; auto.
Qed.

Lemma removeAndDispose_active mesh s :
  active (removeAndDispose mesh s) = active s.
Proof.
  unfold removeAndDispose, sceneRemove. by destruct (bool_decide _).
Qed.

Lemma resetWorld_active s : active (resetWorld s) = false.
Proof.
  unfold resetWorld. simpl.
  apply (fold_left_invariant (fun s => active s = false)); [|done].
  intros a [key mesh] Ha. simpl. by rewrite removeAndDispose_active.
Qed.

Lemma dispose_active s : active (dispose s) = false.
Proof.
  unfold dispose. simpl.
  set (s1 := fold_left _ _ _).
  assert (H1 : active s1 = false).
  { apply (fold_left_invariant (fun s => active s = false)); [|done].
    intros a [key mesh] Ha. by rewrite removeAndDispose_active. }
  clearbody s1.
  destruct (currentTexture _); simpl; destruct (material s1); simpl; done.
Qed.

Lemma dispose_workers s : workers (dispose s) = [].
Proof. reflexivity. Qed.

Lemma broadcast_guard m s :
  Routes.guard_passes s -> Routes.guard_passes (broadcast m s).
Proof.
  intros [Ha Hw]. split; [done|]. simpl. by destruct (workers s).
Qed.

Lemma broadcast_dispatches k m s :
  Routes.marks_section k m = false ->
  Routes.dispatches k (broadcast m s) = Routes.dispatches k s.
Proof.
  intros Hm. unfold Routes.dispatches. simpl.
  induction (workers s) as [|w ws IH]; simpl; [done|].
  rewrite !filter_app, !length_app, IH. f_equal.
  rewrite filter_cons, filter_nil.
  destruct (decide _) as [Hd|Hd]; [congruence|]. simpl. lia.
Qed.

End FrameFacts.

(** ** The claims on routing and dirty tracking *)
Module Routing.
Import Protocol Dispose WorldRenderer Routes RoutingFacts.

(** C4.  For block coordinates of either sign and [N > 0] workers, the
    index that [setSectionDirty] computes is the mathematical modulo
    [(floor (x/16) + floor (y/16) + floor (z/16)) mod N], it lies in
    [0, N), and the [dirty] message is posted to the worker at that index
    and to no other: the index depends on the coordinates and on [N]
    alone, whatever the rest of the state. *)
Theorem worker_index_is_true_modulo (pos : Vec3.t) (n : nat) :
  (0 < n)%nat ->
  hashOf pos n
  = (Vec3.x pos / 16 + Vec3.y pos / 16 + Vec3.z pos / 16) mod Z.of_nat n
  /\ 0 <= hashOf pos n < Z.of_nat n
  /\ forall (s : t) (value : bool),
      active s = true -> length (workers s) = n ->
      (value = true -> keyOf pos ∉ pendingDirtySections s) ->
      let s' := setSectionDirty pos value s in
      let i := Z.to_nat (hashOf pos n) in
      (exists inbox, workers s !! i = Some inbox
                     /\ workers s' !! i = Some (inbox ++ [dirtyMsg pos value]))
      /\ forall j, j <> i -> workers s' !! j = workers s !! j.
Proof.
  intros Hn. split; [by apply hashOf_modulo|].
  split; [by apply hashOf_range|].
  intros s value Ha Hlen Hfresh s' i.
  assert (Hg : guard_passes s).
  { split; [done|]. intros Hw. rewrite Hw in Hlen. simpl in Hlen. lia. }
  assert (Hw' : workers s'
                = alter (fun inbox => inbox ++ [dirtyMsg pos value]) i (workers s)).
  { subst s' i. destruct value.
    - rewrite setSectionDirty_marked by auto. simpl. by rewrite Hlen.
    - rewrite setSectionDirty_unmarked by auto. simpl. by rewrite Hlen. }
  rewrite Hw'. split.
  - destruct (lookup_lt_is_Some_2 (workers s) i) as [inbox Hi].
    { rewrite Hlen. by apply hashOf_index. }
    exists inbox. split; [done|].
    by rewrite list_lookup_alter_eq, Hi.
  - intros j Hj. by apply list_lookup_alter_ne.
Qed.

Lemma worker_index_is_true_modulo_witness :
  hashOf (Vec3.mk (-1) 70 (-33)) 4 = 0.
Proof.
  destruct (worker_index_is_true_modulo (Vec3.mk (-1) 70 (-33)) 4 ltac:(lia))
    as [Hm _].
  rewrite Hm. reflexivity.
Defined.

(** C10.  While the renderer is not active, or has no worker,
    [setSectionDirty] changes nothing for any position and flag: no
    message is posted and the outstanding and pending sets stay as they
    are.  The renderer is not active when constructed, after
    [resetWorld] and after [dispose] (which also leaves no worker). *)
Theorem setSectionDirty_noop_when_inactive (s : t) (pos : Vec3.t) (value : bool) :
  (active s = false \/ workers s = [] ->
   let s' := setSectionDirty pos value s in
   workers s' = workers s
   /\ sectionsOutstanding s' = sectionsOutstanding s
   /\ pendingDirtySections s' = pendingDirtySections s
   /\ s' = s)
  /\ (forall n, setSectionDirty pos value (new n) = new n)
  /\ setSectionDirty pos value (resetWorld s) = resetWorld s
  /\ setSectionDirty pos value (dispose s) = dispose s.
Proof.
  split; [|split; [|split]].
  - intros Hg s'. subst s'. by rewrite setSectionDirty_blocked.
  - intros n. apply setSectionDirty_blocked. by left.
  - apply setSectionDirty_blocked. left. apply FrameFacts.resetWorld_active.
  - apply setSectionDirty_blocked. left. apply FrameFacts.dispose_active.
Qed.

Lemma setSectionDirty_noop_when_inactive_witness :
  workers (setSectionDirty (Vec3.mk 5 70 (-3)) true (new 4)) = workers (new 4).
Proof.
  destruct (setSectionDirty_noop_when_inactive (new 4) (Vec3.mk 5 70 (-3)) true)
    as [H _].
  apply H. left. reflexivity.
Defined.

End Routing.

(** ** Neighbour propagation of a block update *)
Module Neighbours.
Import Protocol Dispose WorldRenderer Routes RoutingFacts.

Lemma markAll_app qs qs' s : markAll (qs ++ qs') s = markAll qs' (markAll qs s).
Proof. apply fold_left_app. Qed.

Lemma markAll_cond (c : bool) q s :
  markAll (if c then [q] else []) s
  = if c then setSectionDirty q true s else s.
Proof. by destruct c. Qed.

Lemma markAll_one q s : markAll [q] s = setSectionDirty q true s.
Proof. reflexivity. Qed.

Lemma setBlockStateId_marks pos sid s :
  setBlockStateId pos sid s
  = markAll (targets pos) (broadcast (MsgBlockUpdate pos sid) s).
Proof.
  unfold targets. rewrite !markAll_app, !markAll_cond, markAll_one.
  reflexivity.
Qed.

Lemma floor16_shift c d : (c + 16 * d) / 16 * 16 = c / 16 * 16 + 16 * d.
Proof.
  replace (c + 16 * d) with (c + d * 16) by ring.
  rewrite Z.div_add by lia. ring.
Qed.

Lemma floor16_same c : (c + 0) / 16 * 16 = c / 16 * 16.
Proof. by rewrite Z.add_0_r. Qed.

Lemma floor16_below c : (c + -16) / 16 * 16 = c / 16 * 16 - 16.
Proof.
  replace (c + -16) with (c + 16 * (-1)) by lia. rewrite floor16_shift. lia.
Qed.

Lemma floor16_above c : (c + 16) / 16 * 16 = c / 16 * 16 + 16.
Proof.
  replace (c + 16) with (c + 16 * 1) by lia. rewrite floor16_shift. lia.
Qed.

Ltac neighbour_key :=
  unfold keyOf, JS.floor16, Vec3.offset;
  cbn [Vec3.x Vec3.y Vec3.z];
  rewrite ?floor16_same, ?floor16_below, ?floor16_above;
  reflexivity.

Lemma keyOf_own pos :
  keyOf pos
  = sectionKey (Vec3.x pos / 16 * 16) (Vec3.y pos / 16 * 16)
               (Vec3.z pos / 16 * 16).
Proof. reflexivity. Qed.

Lemma keyOf_west pos :
  keyOf (Vec3.offset pos (-16) 0 0)
  = sectionKey (Vec3.x pos / 16 * 16 - 16) (Vec3.y pos / 16 * 16)
               (Vec3.z pos / 16 * 16).
Proof. neighbour_key. Qed.

Lemma keyOf_east pos :
  keyOf (Vec3.offset pos 16 0 0)
  = sectionKey (Vec3.x pos / 16 * 16 + 16) (Vec3.y pos / 16 * 16)
               (Vec3.z pos / 16 * 16).
Proof. neighbour_key. Qed.

Lemma keyOf_down pos :
  keyOf (Vec3.offset pos 0 (-16) 0)
  = sectionKey (Vec3.x pos / 16 * 16) (Vec3.y pos / 16 * 16 - 16)
               (Vec3.z pos / 16 * 16).
Proof. neighbour_key. Qed.

Lemma keyOf_up pos :
  keyOf (Vec3.offset pos 0 16 0)
  = sectionKey (Vec3.x pos / 16 * 16) (Vec3.y pos / 16 * 16 + 16)
               (Vec3.z pos / 16 * 16).
Proof. neighbour_key. Qed.

Lemma keyOf_north pos :
  keyOf (Vec3.offset pos 0 0 (-16))
  = sectionKey (Vec3.x pos / 16 * 16) (Vec3.y pos / 16 * 16)
               (Vec3.z pos / 16 * 16 - 16).
Proof. neighbour_key. Qed.

Lemma keyOf_south pos :
  keyOf (Vec3.offset pos 0 0 16)
  = sectionKey (Vec3.x pos / 16 * 16) (Vec3.y pos / 16 * 16)
               (Vec3.z pos / 16 * 16 + 16).
Proof. neighbour_key. Qed.

Lemma targets_keys pos k :
  k ∈ keyOf <$> targets pos <-> dirtied_by_spec pos k.
Proof.
  unfold targets, dirtied_by_spec.
  rewrite !JSFacts.land_15.
  repeat match goal with
         | |- context [if ?a =? ?b then _ else _] =>
             destruct (Z.eqb_spec a b)
         end;
    rewrite ?fmap_app, ?fmap_cons, ?fmap_nil;
    rewrite ?keyOf_west, ?keyOf_east, ?keyOf_down, ?keyOf_up, ?keyOf_north,
      ?keyOf_south, keyOf_own;
    rewrite ?elem_of_app, ?list_elem_of_singleton, ?elem_of_nil;
    intuition (congruence || lia).
Qed.

(** C6.  A block update at [pos], on an active renderer with workers,
    marks dirty the block's own section and exactly the face neighbours
    whose boundary the block touches (local coordinate, true modulo 16,
    equal to 0 or 15 on that axis): these are the keys that join the
    pending set, they join the outstanding set unless they were pending
    already, and each of them that was not pending is sent one [dirty]
    message while no other section is sent any.  In particular a block at
    local [x = 15], [z = 0] dirties its own section and the section at
    [x + 16]. *)
Theorem block_update_dirties_touched_sections
  (s : t) (pos : Vec3.t) (sid : Z) :
  active s = true -> workers s <> [] ->
  let s' := setBlockStateId pos sid s in
  let ox := Vec3.x pos / 16 * 16 in
  let oy := Vec3.y pos / 16 * 16 in
  let oz := Vec3.z pos / 16 * 16 in
  (forall k, k ∈ pendingDirtySections s'
             <-> k ∈ pendingDirtySections s \/ dirtied_by_spec pos k)
  /\ (forall k, k ∈ sectionsOutstanding s'
                <-> k ∈ sectionsOutstanding s
                    \/ (dirtied_by_spec pos k /\ k ∉ pendingDirtySections s))
  /\ (forall k, dirtied_by_spec pos k -> k ∉ pendingDirtySections s ->
                dispatches k s' = S (dispatches k s))
  /\ (forall k, ~ dirtied_by_spec pos k \/ k ∈ pendingDirtySections s ->
                dispatches k s' = dispatches k s)
  /\ (Vec3.x pos mod 16 = 15 -> Vec3.z pos mod 16 = 0 ->
      sectionKey ox oy oz ∈ pendingDirtySections s'
      /\ sectionKey (ox + 16) oy oz ∈ pendingDirtySections s').
Proof.
  intros Ha Hw s' ox oy oz.
  assert (Hg : guard_passes (broadcast (MsgBlockUpdate pos sid) s)).
  { apply FrameFacts.broadcast_guard. by split. }
  assert (Hpend : forall k, k ∈ pendingDirtySections s'
                   <-> k ∈ pendingDirtySections s \/ dirtied_by_spec pos k).
  { intros k. unfold s'. rewrite setBlockStateId_marks, markAll_pending by done.
    rewrite elem_of_union, elem_of_list_to_set, targets_keys. simpl. tauto. }
  split; [exact Hpend|]. split; [|split; [|split]].
  - intros k. unfold s'. rewrite setBlockStateId_marks, markAll_outstanding by done.
    rewrite elem_of_union, elem_of_difference, elem_of_list_to_set, targets_keys.
    simpl. tauto.
  - intros k Hk Hfresh. unfold s'.
    rewrite setBlockStateId_marks, markAll_dispatches by done.
    rewrite FrameFacts.broadcast_dispatches by done.
    rewrite bool_decide_eq_true_2; [lia|].
    split; [by apply targets_keys|done].
  - intros k Hk. unfold s'.
    rewrite setBlockStateId_marks, markAll_dispatches by done.
    rewrite FrameFacts.broadcast_dispatches by done.
    rewrite bool_decide_eq_false_2; [lia|].
    intros [Hin Hfresh]. apply targets_keys in Hin. simpl in Hfresh. tauto.
  - intros Hx Hz. split; apply Hpend; right; unfold dirtied_by_spec.
    + by left.
    + right. right. left. by split.
Qed.

Lemma block_update_dirties_touched_sections_witness :
  let s' := setBlockStateId (Vec3.mk 31 70 (-16)) 1 (set_active true (new 4)) in
  sectionKey 16 64 (-16) ∈ pendingDirtySections s'
  /\ sectionKey 32 64 (-16) ∈ pendingDirtySections s'.
Proof.
  intros s'.
  destruct (block_update_dirties_touched_sections
              (set_active true (new 4)) (Vec3.mk 31 70 (-16)) 1)
    as (_ & _ & _ & _ & H).
  - reflexivity.
  - discriminate.
  - apply H; reflexivity.
Defined.

End Neighbours.

(** ** The world replica of a worker *)
Module WorldFacts.
Section WithLibraries.
Context `{World.Libraries}.

Lemma posInChunk_local pos :
  World.posInChunk pos
  = Vec3.mk (Vec3.x pos mod 16) (Vec3.y pos) (Vec3.z pos mod 16).
Proof. unfold World.posInChunk. simpl. by rewrite !JSFacts.land_15. Qed.

(** C9.  When the column that owns [pos] is not loaded, [getBlock]
    returns [null] and [setBlockStateId] returns [false], and the world
    stays as it is.  When it is loaded, [setBlockStateId] returns [true]
    and hands the state id to that column at the local position of
    [pos], leaving every other column and the caches alone; [getBlock]
    then returns a block. *)
Theorem unloaded_column_fails_soft (w : World.t) (pos : Vec3.t) (sid : Z) :
  let key := World.columnKey (Vec3.x pos / 16 * 16) (Vec3.z pos / 16 * 16) in
  let local := Vec3.mk (Vec3.x pos mod 16) (Vec3.y pos) (Vec3.z pos mod 16) in
  (World.columns w !! key = None ->
   World.getBlock w pos = (None, w)
   /\ World.setBlockStateId w pos sid = (false, w))
  /\ (forall column, World.columns w !! key = Some column ->
      (World.setBlockStateId w pos sid).1 = true
      /\ World.columns (World.setBlockStateId w pos sid).2
         = <[key := World.col_setBlockStateId column local sid]>
             (World.columns w)
      /\ World.blockCache (World.setBlockStateId w pos sid).2
         = World.blockCache w
      /\ World.biomeCache (World.setBlockStateId w pos sid).2
         = World.biomeCache w
      /\ is_Some (World.getBlock w pos).1).
Proof.
  intros key local. split.
  - intros Hnone. unfold World.getBlock, World.setBlockStateId, JS.floor16.
    fold key. by rewrite Hnone.
  - intros column Hsome.
    unfold World.getBlock, World.setBlockStateId, JS.floor16.
    fold key. rewrite Hsome. simpl.
    repeat split.
    + f_equal. f_equal. apply posInChunk_local.
    + destruct (LRUCache.get _ _) as [[hit|] cache1]; simpl; eauto.
Qed.

End WithLibraries.

Lemma unloaded_column_fails_soft_witness :
  World.getBlock (H := Toy.libraries) Toy.world (Vec3.mk (-1) 70 5)
  = (None, Toy.world)
  /\ (World.setBlockStateId (H := Toy.libraries) Toy.world (Vec3.mk 3 70 5) 9).1
     = true.
Proof.
  destruct (unloaded_column_fails_soft (H := Toy.libraries) Toy.world
              (Vec3.mk (-1) 70 5) 9) as [Hun _].
  destruct (unloaded_column_fails_soft (H := Toy.libraries) Toy.world
              (Vec3.mk 3 70 5) 9) as [_ Hld].
  split.
  - apply Hun. vm_compute. reflexivity.
  - apply (Hld ∅). vm_compute. reflexivity.
Defined.

End WorldFacts.

(** ** The drain of a worker's dirty queue *)
Module WorkerFacts.
Import Protocol Drain.

Section WithLibraries.
Context `{World.Libraries}.
Variable getSectionGeometry :
  Z -> Z -> Z -> World.t -> Json -> World.t * (string + Geometry).

Abbreviation processSection := (Worker.processSection getSectionGeometry).
Abbreviation processDirtySections := (Worker.processDirtySections getSectionGeometry).
Abbreviation outcome := (Drain.outcome getSectionGeometry).
Abbreviation outcomes := (Drain.outcomes getSectionGeometry).
Abbreviation turns := (Drain.turns getSectionGeometry).

Lemma processSection_outbox blocks key s :
  Worker.outbox (processSection blocks key s)
  = Worker.outbox s ++ posted key (outcome blocks key s).
Proof.
  unfold Worker.processSection, outcome, located.
  destruct (Worker.world s) as [w|]; [|done].
  destruct (JS.parseInt _) as [x|]; [|done].
  destruct (JS.parseInt _) as [y|]; [|done].
  destruct (JS.parseInt _) as [z|]; [|done].
  destruct (Worker.sectionExists _ _); [|done].
  destruct (getSectionGeometry x y z w blocks) as [w' [message|geometry]];
    simpl; by rewrite <- app_assoc.
Qed.

Lemma processSection_world blocks key s :
  is_Some (Worker.world s) -> is_Some (Worker.world (processSection blocks key s)).
Proof.
  intros [w Hw]. unfold Worker.processSection. rewrite Hw.
  destruct (JS.parseInt _) as [x|]; [|simpl; eauto].
  destruct (JS.parseInt _) as [y|]; [|simpl; eauto].
  destruct (JS.parseInt _) as [z|]; [|simpl; eauto].
  destruct (Worker.sectionExists _ _); [|simpl; eauto].
  destruct (getSectionGeometry x y z w blocks) as [w' [message|geometry]];
    simpl; eauto.
Qed.

(** The drain of a list of keys posts, key by key, what the outcome of
    each key asks for. *)
Lemma drain_outbox blocks keys s :
  Worker.outbox (turns blocks keys s)
  = Worker.outbox s ++ concat (zip_with posted keys (outcomes blocks keys s)).
Proof.
  revert s. induction keys as [|key keys IH]; intros s.
  - simpl. by rewrite app_nil_r.
  - change (turns blocks (key :: keys) s)
      with (turns blocks keys (processSection blocks key s)).
    rewrite IH, processSection_outbox. simpl. by rewrite <- app_assoc.
Qed.

Lemma outcomes_length blocks keys s :
  length (outcomes blocks keys s) = length keys.
Proof.
  revert s. induction keys as [|key keys IH]; intros s; [done|].
  simpl. by rewrite IH.
Qed.

Lemma turns_app blocks before after s :
  turns blocks (before ++ after) s = turns blocks after (turns blocks before s).
Proof. apply fold_left_app. Qed.

(** Of the messages of a drain, the completion signals are those of the
    keys, one each. *)
Lemma drain_finished blocks keys s :
  filter (fun r => is_finished r = true)
         (concat (zip_with posted keys (outcomes blocks keys s)))
  = MsgSectionFinished <$> keys.
Proof.
  revert s. induction keys as [|key keys IH]; intros s; [done|].
  cbn [outcomes zip_with concat fmap list_fmap].
  rewrite filter_app, IH. by destruct (Drain.outcome _ _ _ _).
Qed.

(** C8.  A drain ([world] and [blocksStates] set) gives every key of
    the dirty queue its turn, in the order of the queue, and posts in
    each turn the messages of the outcome that the mesher decides: the
    geometry it returned, then [sectionFinished]; an [error] for the key
    with the message of the exception, then [sectionFinished], when it
    threw; [sectionFinished] alone when the column or the sub-chunk of
    the key is not there.  The messages of the drain are those of its
    turns and nothing else, so they hold one [sectionFinished] per key,
    and after a turn in which the mesher threw the turns of the keys
    that follow are taken all the same. *)
Theorem every_drained_section_signals_completion
  (s : Worker.t) (w : World.t) (blocks : Json) :
  Worker.world s = Some w -> Worker.blocksStates s = Some blocks ->
  let keys := Worker.dirtySections s in
  Worker.outbox (processDirtySections s)
  = Worker.outbox s ++ concat (zip_with posted keys (outcomes blocks keys s))
  /\ filter (fun r => is_finished r = true)
            (concat (zip_with posted keys (outcomes blocks keys s)))
     = MsgSectionFinished <$> keys
  /\ (forall before key after,
        keys = before ++ key :: after ->
        let s0 := turns blocks before s in
        let following := outcomes blocks after (processSection blocks key s0) in
        length following = length after
        /\ Worker.outbox (processDirtySections s)
           = Worker.outbox s0
             ++ match located key s0 with
                | Some (x, y, z, w0) =>
                    match (getSectionGeometry x y z w0 blocks).2 with
                    | inr geometry =>
                        [MsgGeometry key geometry; MsgSectionFinished key]
                    | inl message =>
                        [MsgError (Some key) message; MsgSectionFinished key]
                    end
                | None => [MsgSectionFinished key]
                end
             ++ concat (zip_with posted after following)).
Proof.
  intros Hw Hb keys.
  assert (Hdrain : processDirtySections s = turns blocks keys s).
  { unfold Worker.processDirtySections. by rewrite Hw, Hb. }
  split; [|split].
  - rewrite Hdrain. apply drain_outbox.
  - apply drain_finished.
  - intros before key after Hkeys s0 following.
    split; [apply outcomes_length|].
    rewrite Hdrain, Hkeys, turns_app.
    change (turns blocks (key :: after) (turns blocks before s))
      with (turns blocks after (processSection blocks key s0)).
    rewrite drain_outbox, processSection_outbox, <- app_assoc.
    f_equal. f_equal. unfold outcome.
    destruct (located key s0) as [[[[x y] z] w0]|]; [|done].
    by destruct (getSectionGeometry x y z w0 blocks) as [w1 [message|geometry]].
Qed.

End WithLibraries.

(** A queue of three sections: the first meshes, the mesher throws on the
    second, the column of the third is not loaded. *)
Lemma every_drained_section_signals_completion_witness :
  let s := Worker.mk (H := Toy.libraries) (Some "{}"%string) (Some Toy.world)
             [sectionKey 0 0 0; sectionKey 0 64 0; sectionKey 16 0 0] [] in
  Worker.outbox (Worker.processDirtySections Toy.mesher s)
  = [MsgGeometry "0,0,0" (mkGeometry [] [] [] [] [] 0 0 0);
     MsgSectionFinished "0,0,0";
     MsgError (Some "0,64,0"%string) "no model for block";
     MsgSectionFinished "0,64,0";
     MsgSectionFinished "16,0,0"].
Proof.
  intros s.
  destruct (every_drained_section_signals_completion (H := Toy.libraries)
              Toy.mesher s Toy.world "{}"%string eq_refl eq_refl)
    as [Hdrain _].
  rewrite Hdrain. vm_compute. reflexivity.
Defined.

Example drain_of_three :
  Worker.outbox
    (Worker.processDirtySections (H := Toy.libraries) Toy.mesher
       (Worker.mk (H := Toy.libraries) (Some "{}"%string) (Some Toy.world)
          [sectionKey 0 0 0; sectionKey 0 64 0; sectionKey 16 0 0] []))
  = [MsgGeometry "0,0,0" (mkGeometry [] [] [] [] [] 0 0 0);
     MsgSectionFinished "0,0,0";
     MsgError (Some "0,64,0"%string) "no model for block";
     MsgSectionFinished "0,64,0";
     MsgSectionFinished "16,0,0"].
Proof. vm_compute. reflexivity. Qed.

End WorkerFacts.

(** ** The cache keeps at most [maxSize] entries, in order of last touch *)
Module LRUFacts.
Import LRUModel.
Section Facts.
Context {K V : Type} `{EqDecision K}.
Implicit Types (m : JS.dict K V) (c : LRUCache.t K V) (k : K) (v : V).
Implicit Types (st : K -> option nat) (o : Op K V) (l : list K).

Lemma keys_delete m k : (JS.dict_delete m k).*1 = filter (fun a => a ≠ k) m.*1.
Proof.
  unfold JS.dict_delete. induction m as [|[a x] m IH]; [done|].
  rewrite fmap_cons. simpl. destruct (decide (a ≠ k)) as [Hne|Heq].
  - rewrite (filter_cons_True (fun e : K * V => e.1 ≠ k)) by done.
    rewrite (filter_cons_True (fun b : K => b ≠ k)) by done.
    rewrite fmap_cons. simpl. f_equal. exact IH.
  - rewrite (filter_cons_False (fun e : K * V => e.1 ≠ k)) by done.
    rewrite (filter_cons_False (fun b : K => b ≠ k)) by done. exact IH.
Qed.

Lemma has_iff m k : JS.dict_has m k = true <-> k ∈ m.*1.
Proof.
  unfold JS.dict_has. induction m as [|[a x] m IH]; simpl.
  - split; [done|]. by intros ?%elem_of_nil.
  - rewrite orb_true_iff, IH, elem_of_cons, bool_decide_eq_true. simpl.
    intuition congruence.
Qed.

Lemma has_false_iff m k : JS.dict_has m k = false <-> k ∉ m.*1.
Proof.
  rewrite <- has_iff. destruct (JS.dict_has m k); intuition congruence.
Qed.

Lemma keys_set_fresh m k v : k ∉ m.*1 -> (JS.dict_set m k v).*1 = m.*1 ++ [k].
Proof.
  induction m as [|[a x] m IH]; simpl; [done|].
  intros [Hne Hin]%not_elem_of_cons.
  destruct (decide (a = k)); [congruence|].
  rewrite !fmap_cons. simpl. f_equal. by apply IH.
Qed.

Lemma get_present m k : k ∈ m.*1 -> is_Some (JS.dict_get m k).
Proof.
  induction m as [|[a x] m IH]; simpl.
  - by intros ?%elem_of_nil.
  - intros Hin. destruct (decide (a = k)); [eauto|].
    apply IH. apply elem_of_cons in Hin as [Hin|Hin]; [congruence|done].
Qed.

Lemma not_in_delete m k : k ∉ filter (fun a => a ≠ k) m.*1.
Proof. rewrite list_elem_of_filter. tauto. Qed.

(** The keys after a [get] or a [set]. *)
Lemma keys_get_hit c k :
  k ∈ LRUCache.keys c ->
  LRUCache.keys (LRUCache.get c k).2
  = filter (fun a => a ≠ k) (LRUCache.keys c) ++ [k].
Proof.
  intros Hin. unfold LRUCache.get, LRUCache.keys in *.
  rewrite (proj2 (has_iff _ _) Hin). simpl.
  destruct (get_present _ _ Hin) as [v ->]. simpl.
  rewrite keys_set_fresh; rewrite keys_delete; [done|apply not_in_delete].
Qed.

Lemma get_miss c k : k ∉ LRUCache.keys c -> (LRUCache.get c k).2 = c.
Proof.
  intros Hin. unfold LRUCache.get, LRUCache.keys in *.
  by rewrite (proj2 (has_false_iff _ _) Hin).
Qed.

Lemma keys_set_present c k v :
  k ∈ LRUCache.keys c ->
  LRUCache.keys (LRUCache.set c k v)
  = filter (fun a => a ≠ k) (LRUCache.keys c) ++ [k].
Proof.
  intros Hin. unfold LRUCache.set, LRUCache.keys in *.
  rewrite (proj2 (has_iff _ _) Hin). simpl.
  rewrite keys_set_fresh; rewrite keys_delete; [done|apply not_in_delete].
Qed.

Lemma keys_set_room c k v :
  k ∉ LRUCache.keys c ->
  (Z.of_nat (LRUCache.size c) < LRUCache.maxSize c)%Z ->
  LRUCache.keys (LRUCache.set c k v) = LRUCache.keys c ++ [k].
Proof.
  intros Hin Hroom. unfold LRUCache.set, LRUCache.keys in *.
  rewrite (proj2 (has_false_iff _ _) Hin).
  rewrite (proj2 (Z.leb_gt _ _) Hroom). simpl. by apply keys_set_fresh.
Qed.

Lemma keys_set_full c k v :
  k ∉ LRUCache.keys c ->
  (LRUCache.maxSize c <= Z.of_nat (LRUCache.size c))%Z ->
  LRUCache.keys (LRUCache.set c k v)
  = match LRUCache.keys c with
    | [] => [k]
    | firstKey :: _ => filter (fun a => a ≠ firstKey) (LRUCache.keys c) ++ [k]
    end.
Proof.
  intros Hin Hfull. unfold LRUCache.set, LRUCache.keys in *.
  rewrite (proj2 (has_false_iff _ _) Hin).
  rewrite (proj2 (Z.leb_le _ _) Hfull). simpl.
  destruct (LRUCache.cache c) as [|[a x] m] eqn:Hm; [done|].
  rewrite keys_set_fresh; rewrite keys_delete; [done|].
  rewrite list_elem_of_filter. tauto.
Qed.

Lemma sublist_elem_of l' l a : sublist l' l -> a ∈ l' -> a ∈ l.
Proof.
  induction 1 as [|b l1 l2 Hsub IH|b l1 l2 Hsub IH]; intros Ha; [done| |].
  - apply elem_of_cons in Ha as [->|Ha]; [apply list_elem_of_here|].
    apply list_elem_of_further. auto.
  - apply list_elem_of_further. auto.
Qed.

(** Lists in order of last touch. *)
Lemma sorted_sublist st l l' :
  sublist l' l -> StronglySorted (older st) l -> StronglySorted (older st) l'.
Proof.
  induction 1 as [|a l1 l2 Hsub IH|a l1 l2 Hsub IH]; intros Hs.
  - constructor.
  - apply StronglySorted_cons in Hs as [Hall Hs].
    apply StronglySorted_cons. split; [|auto].
    rewrite Forall_forall in *. intros b Hb. apply Hall.
    by eapply sublist_elem_of.
  - apply StronglySorted_cons in Hs as [_ Hs]. auto.
Qed.

Lemma sorted_agree st st' l :
  (forall a, a ∈ l -> st' a = st a) ->
  StronglySorted (older st) l -> StronglySorted (older st') l.
Proof.
  induction l as [|a l IH]; intros Hag Hs; [constructor|].
  apply StronglySorted_cons in Hs as [Hall Hs].
  apply StronglySorted_cons. split.
  - rewrite Forall_forall in *. intros b Hb.
    destruct (Hall b Hb) as (i & j & Hi & Hj & Hij).
    exists i, j. rewrite !Hag; [done|set_solver..].
  - apply IH; [|done]. intros b Hb. apply Hag. set_solver.
Qed.

Lemma sorted_no_dup st l : StronglySorted (older st) l -> NoDup l.
Proof.
  induction l as [|a l IH]; intros Hs; [constructor|].
  apply StronglySorted_cons in Hs as [Hall Hs].
  constructor; [|auto]. intros Hin.
  rewrite Forall_forall in Hall.
  destruct (Hall a Hin) as (i & j & Hi & Hj & Hij). simplify_eq. lia.
Qed.

(** Touching [k] at time [t] puts it behind the other keys. *)
Lemma sorted_touch t st st' l l' k :
  StronglySorted (older st) l -> stamped_before t st l ->
  sublist l' l -> k ∉ l' ->
  st' k = Some t -> (forall a, a ≠ k -> st' a = st a) ->
  StronglySorted (older st') (l' ++ [k])
  /\ stamped_before (S t) st' (l' ++ [k]).
Proof.
  intros Hs Hb Hsub Hk Hst Hag.
  assert (Hold : forall a, a ∈ l' -> exists i, st' a = Some i /\ (i < t)%nat).
  { intros a Ha. destruct (Hb a) as (i & Hi & Hlt).
    - by eapply sublist_elem_of.
    - exists i. rewrite Hag; [done|]. intros ->. done. }
  split.
  - apply StronglySorted_app. split; [|split].
    + intros a b Ha Hb'. apply list_elem_of_singleton in Hb' as ->.
      destruct (Hold a Ha) as (i & Hi & Hlt). by exists i, t.
    + apply (sorted_agree st); [|by eapply sorted_sublist].
      intros a Ha. apply Hag. intros ->. done.
    + repeat constructor.
  - intros a [Ha| ->%list_elem_of_singleton]%elem_of_app.
    + destruct (Hold a Ha) as (i & Hi & Hlt). exists i. split; [done|lia].
    + exists t. split; [done|lia].
Qed.

Lemma touch_same t k st o :
  touches o k = true -> touch t o st k = Some t.
Proof. intros Ht. unfold touch. by rewrite Ht. Qed.

Lemma touch_other t a st o :
  touches o a = false -> touch t o st a = st a.
Proof. intros Ht. unfold touch. by rewrite Ht. Qed.

Lemma size_keys c : LRUCache.size c = length (LRUCache.keys c).
Proof. unfold LRUCache.size, LRUCache.keys. by rewrite length_fmap. Qed.

Lemma length_filter_present l k :
  k ∈ l -> (S (length (filter (fun a => a ≠ k) l)) <= length l)%nat.
Proof.
  induction l as [|a l IH]; [by intros ?%elem_of_nil|].
  intros Hin. rewrite filter_cons. simpl.
  destruct (decide (a ≠ k)) as [Hne|Heq]; simpl.
  - apply elem_of_cons in Hin as [Hin|Hin]; [congruence|].
    specialize (IH Hin). lia.
  - pose proof (length_filter (fun a => a ≠ k) l). lia.
Qed.

Lemma inv_touch_end N t st c c' k o l' :
  inv N t st c ->
  LRUCache.maxSize c' = N ->
  LRUCache.keys c' = l' ++ [k] ->
  sublist l' (LRUCache.keys c) -> k ∉ l' ->
  (Z.of_nat (S (length l')) <= N)%Z ->
  touches o k = true -> (forall a, a ≠ k -> touches o a = false) ->
  inv N (S t) (touch t o st) c'.
Proof.
  intros [Hcap Hsz Hs Hb] Hcap' Hkeys Hsub Hk Hlen Hto Hother.
  destruct (sorted_touch t st (touch t o st) (LRUCache.keys c) l' k)
    as [Hs' Hb']; auto.
  { by apply touch_same. }
  { intros a Ha. apply touch_other. auto. }
  split; [done| |by rewrite Hkeys..].
  rewrite size_keys, Hkeys, length_app. simpl. lia.
Qed.

Lemma inv_step N t st c o :
  (1 <= N)%Z -> inv N t st c -> inv N (S t) (touch t o st) (step c o).
Proof.
  intros HN Hinv. pose proof Hinv as [Hcap Hsz Hs Hb].
  assert (Htouch : forall k (v : option V),
             touches (match v with Some x => OpSet k x | None => OpGet k end) k
             = true
             /\ forall a, a ≠ k ->
                  touches (match v with Some x => OpSet k x | None => OpGet k end) a
                  = false).
  { intros k [x|]; simpl; split; try (by apply bool_decide_eq_true_2);
      intros a Ha; by apply bool_decide_eq_false_2. }
  pose proof (size_keys c) as Hlen.
  destruct o as [k|k v|k|k|]; simpl.
  - (* get *)
    destruct (decide (k ∈ LRUCache.keys c)) as [Hin|Hout].
    + destruct (Htouch k None) as [Ht1 Ht2].
      apply inv_touch_end
        with (c := c) (k := k) (l' := filter (fun a => a ≠ k) (LRUCache.keys c));
        auto.
      * unfold LRUCache.get. rewrite (proj2 (has_iff _ _) Hin). simpl.
        by destruct (JS.dict_get _ _).
      * by apply keys_get_hit.
      * apply sublist_filter.
      * rewrite list_elem_of_filter. tauto.
      * pose proof (length_filter_present _ _ Hin). lia.
    + rewrite get_miss by done. split; [done|done| |].
      * apply (sorted_agree st); [|done]. intros a Ha. apply touch_other.
        simpl. apply bool_decide_eq_false_2. intros ->. done.
      * intros a Ha. destruct (Hb a Ha) as (i & Hi & Hlt). exists i.
        split; [|lia]. rewrite touch_other; [done|].
        simpl. apply bool_decide_eq_false_2. intros ->. done.
  - (* set *)
    destruct (Htouch k (Some v)) as [Ht1 Ht2].
    destruct (decide (k ∈ LRUCache.keys c)) as [Hin|Hout].
    + apply inv_touch_end
        with (c := c) (k := k) (l' := filter (fun a => a ≠ k) (LRUCache.keys c));
        auto.
      * by apply keys_set_present.
      * apply sublist_filter.
      * rewrite list_elem_of_filter. tauto.
      * pose proof (length_filter_present _ _ Hin). lia.
    + destruct (Z_lt_le_dec (Z.of_nat (LRUCache.size c)) (LRUCache.maxSize c))
        as [Hroom|Hfull].
      * apply inv_touch_end with (c := c) (k := k) (l' := LRUCache.keys c); auto.
        -- by apply keys_set_room.
        -- lia.
      * pose proof (keys_set_full c k v Hout Hfull) as Hkeys.
        destruct (LRUCache.keys c) as [|firstKey rest] eqn:Hk.
        { simpl in Hlen. lia. }
        apply inv_touch_end
          with (c := c) (k := k)
               (l' := filter (fun a => a ≠ firstKey) (firstKey :: rest)); auto.
        -- rewrite Hk. apply sublist_filter.
        -- rewrite list_elem_of_filter. tauto.
        -- assert (Hf : firstKey ∈ firstKey :: rest) by apply list_elem_of_here.
           pose proof (length_filter_present _ _ Hf). simpl in *. lia.
  - (* has *)
    split; [done..|].
    intros a Ha. destruct (Hb a Ha) as (i & ? & ?). exists i. split; [done|lia].
  - (* delete *)
    split; [done| | |].
    + rewrite size_keys. unfold LRUCache.keys. simpl. rewrite keys_delete.
      pose proof (length_filter (fun a => a ≠ k) (LRUCache.cache c).*1).
      unfold LRUCache.keys in Hlen. lia.
    + unfold LRUCache.keys. simpl. rewrite keys_delete.
      eapply sorted_sublist; [apply sublist_filter|done].
    + unfold LRUCache.keys. simpl. rewrite keys_delete.
      intros a [_ Ha]%list_elem_of_filter.
      destruct (Hb a Ha) as (i & ? & ?). exists i. split; [done|lia].
  - (* clear *)
    split; [done|unfold LRUCache.size; simpl; lia|constructor|].
    by intros a ?%elem_of_nil.
Qed.

Lemma inv_run N t st c ops :
  (1 <= N)%Z -> inv N t st c ->
  inv N (t + length ops) (stamps t st ops) (run c ops).
Proof.
  intros HN. revert t st c. induction ops as [|o ops IH]; intros t st c Hinv.
  - simpl. by rewrite Nat.add_0_r.
  - simpl. replace (t + S (length ops))%nat with (S t + length ops)%nat by lia.
    apply IH. by apply inv_step.
Qed.

Lemma inv_new N : (0 <= N)%Z -> inv N 0 (fun _ => None) (LRUCache.new N : LRUCache.t K V).
Proof.
  intros HN. split; [done|unfold LRUCache.size; simpl; lia|constructor|].
  by intros a ?%elem_of_nil.
Qed.

Lemma filter_head_no_dup (h : K) rest :
  NoDup (h :: rest) -> filter (fun a => a ≠ h) (h :: rest) = rest.
Proof.
  intros [Hh Hrest]%NoDup_cons.
  rewrite filter_cons_False by (intros Hne; by apply Hne).
  induction rest as [|a rest IH]; [done|].
  apply not_elem_of_cons in Hh as [Hne Hh].
  apply NoDup_cons in Hrest as [_ Hrest].
  rewrite filter_cons_True by done. f_equal. auto.
Qed.

Lemma run_cons c o ops : run c (o :: ops) = run (step c o) ops.
Proof. reflexivity. Qed.

Lemma run_app c ops ops' : run c (ops ++ ops') = run (run c ops) ops'.
Proof. apply fold_left_app. Qed.

(** Setting fresh keys while there is room appends them. *)
Lemma run_sets_room (kvs : list (K * V)) c :
  NoDup (LRUCache.keys c ++ kvs.*1) ->
  (Z.of_nat (LRUCache.size c + length kvs) <= LRUCache.maxSize c)%Z ->
  LRUCache.keys (run c ((fun kv => OpSet kv.1 kv.2) <$> kvs))
  = LRUCache.keys c ++ kvs.*1
  /\ LRUCache.maxSize (run c ((fun kv => OpSet kv.1 kv.2) <$> kvs))
     = LRUCache.maxSize c.
Proof.
  revert c. induction kvs as [|[k v] kvs IH]; intros c Hnd Hroom.
  - simpl. by rewrite app_nil_r.
  - rewrite !fmap_cons in *. cbn [fst snd length] in *.
    rewrite !run_cons. cbn [step].
    assert (Hk : k ∉ LRUCache.keys c).
    { apply NoDup_app in Hnd as (_ & Hdis & _). intros Hin.
      apply (Hdis k Hin). apply list_elem_of_here. }
    assert (Hkeys : LRUCache.keys (LRUCache.set c k v) = LRUCache.keys c ++ [k]).
    { apply keys_set_room; [done|lia]. }
    destruct (IH (LRUCache.set c k v)) as [Hk1 Hk2].
    + rewrite Hkeys, <- app_assoc. done.
    + rewrite size_keys, Hkeys, length_app, <- size_keys. simpl. lia.
    + split; [|done]. rewrite Hk1, Hkeys, <- app_assoc. done.
Qed.

End Facts.

(** C3, for capacities of at least one.  Whatever calls were made on a
    cache created with capacity [N >= 1]: its size is at most [N]; its
    entries are in the order of their last touch by [get] or [set]; a
    [set] of a new key into the full cache evicts the key that was touched
    least recently, and that key alone, and a [set] of a new key into a
    cache with room evicts none; so inserting [N + 1] distinct keys into
    the new cache leaves all of them but the first. *)
Theorem lru_bounded_and_evicts_least_recent
  {K V : Type} `{EqDecision K} (N : Z) (ops : list (Op K V)) :
  (1 <= N)%Z ->
  let c := run (LRUCache.new N) ops in
  (Z.of_nat (LRUCache.size c) <= N)%Z
  /\ StronglySorted (older (last_touch ops)) (LRUCache.keys c)
  /\ (forall k v,
        k ∉ LRUCache.keys c -> Z.of_nat (LRUCache.size c) = N ->
        exists lru rest,
          LRUCache.keys c = lru :: rest
          /\ LRUCache.keys (LRUCache.set c k v) = rest ++ [k]
          /\ Forall (older (last_touch ops) lru) rest)
  /\ (forall k v,
        k ∉ LRUCache.keys c -> (Z.of_nat (LRUCache.size c) < N)%Z ->
        LRUCache.keys (LRUCache.set c k v) = LRUCache.keys c ++ [k])
  /\ (forall kvs : list (K * V),
        NoDup kvs.*1 -> Z.of_nat (length kvs) = (N + 1)%Z ->
        LRUCache.keys (run (LRUCache.new N) ((fun kv => OpSet kv.1 kv.2) <$> kvs))
        = tail kvs.*1).
Proof.
  intros HN c.
  pose proof (inv_run N 0 (fun _ => None) (LRUCache.new N) ops HN
                (inv_new N ltac:(lia))) as [Hcap Hsz Hs Hb].
  fold c in Hcap, Hsz, Hs, Hb. change (stamps 0 (fun _ => None) ops) with (last_touch ops) in *.
  split; [done|]. split; [done|]. split; [|split].
  - intros k v Hk Hfull.
    pose proof (keys_set_full c k v Hk ltac:(lia)) as Hkeys.
    pose proof (size_keys c) as Hlen.
    destruct (LRUCache.keys c) as [|lru rest] eqn:Hc.
    { simpl in Hlen. lia. }
    exists lru, rest. split; [done|]. split.
    + rewrite Hkeys, filter_head_no_dup; [done|]. by eapply sorted_no_dup.
    + by apply StronglySorted_cons in Hs as [Hall _].
  - intros k v Hk Hroom. apply keys_set_room; [done|lia].
  - intros kvs Hnd Hlen.
    destruct (decide (kvs = [])) as [->|Hne]; [simpl in Hlen; lia|].
    destruct (exists_last Hne) as (init & [k v] & ->).
    rewrite fmap_app, run_app. rewrite fmap_app in Hnd. simpl in Hnd.
    rewrite length_app in Hlen. simpl in Hlen.
    destruct (run_sets_room init (LRUCache.new N)) as [Hkeys Hmax].
    { simpl. by apply NoDup_app in Hnd as (? & _ & _). }
    { simpl. unfold LRUCache.size. simpl. lia. }
    simpl in Hkeys, Hmax. simpl.
    set (c1 := run (LRUCache.new N) ((fun kv => OpSet kv.1 kv.2) <$> init)) in *.
    assert (Hk : k ∉ LRUCache.keys c1).
    { rewrite Hkeys. apply NoDup_app in Hnd as (_ & Hdis & _). intros Hin.
      apply (Hdis k Hin). apply list_elem_of_here. }
    assert (Hsize : LRUCache.size c1 = length init).
    { by rewrite size_keys, Hkeys, length_fmap. }
    rewrite (keys_set_full c1 k v Hk) by lia. rewrite Hkeys.
    rewrite fmap_app. simpl.
    destruct init as [|[h x] init]; [simpl in Hlen; lia|].
    rewrite fmap_cons. simpl.
    rewrite filter_head_no_dup; [done|].
    rewrite fmap_cons in Hnd. by apply NoDup_app in Hnd as (? & _ & _).
Qed.

Lemma lru_bounded_and_evicts_least_recent_witness :
  LRUCache.keys
    (run (LRUCache.new 2)
       [OpSet 1%nat "a"%string; OpSet 2%nat "b"%string; OpGet 1%nat;
        OpSet 3%nat "c"%string])
  = [1%nat; 3%nat].
Proof.
  destruct (lru_bounded_and_evicts_least_recent 2
              [OpSet 1%nat "a"%string; OpSet 2%nat "b"%string; OpGet 1%nat]
              ltac:(lia)) as (_ & _ & Hevict & _).
  destruct (Hevict 3%nat "c"%string) as (lru & rest & Hkeys & Hset & _).
  - vm_compute. intros Hin. repeat (apply elem_of_cons in Hin as [Hin|Hin]; [discriminate|]). by apply elem_of_nil in Hin.
  - reflexivity.
  - vm_compute in Hkeys. injection Hkeys as <- <-. exact Hset.
Defined.

(** C3 as stated fails for the capacity 0: the cache holds an entry. *)
Lemma lru_capacity_zero_exceeded :
  ~ (Z.of_nat (LRUCache.size (run (LRUCache.new 0) [OpSet 1%nat "a"%string]))
     <= 0)%Z.
Proof. vm_compute. intros Hle. by apply Hle. Qed.

End LRUFacts.

(** ** Disposal: what is released with a mesh, and what is not *)
Module DisposeFacts.
Import Dispose Releases.

(** Induction on objects, the children under [Forall]. *)
Lemma Object3D_nested_ind (P : Object3D -> Prop) :
  (forall u geo mat ch hd hp, Forall P ch -> P (mkObject u geo mat ch hd hp)) ->
  forall o, P o.
Proof.
  intros step. fix IH 1. intros [u geo mat ch hd hp]. apply step.
  induction ch as [|c ch IHch]; constructor; [apply IH|exact IHch].
Qed.

Lemma spares_refl g : spares_textures g g.
Proof. split; [done|]. exists []. by rewrite app_nil_r. Qed.

Lemma spares_trans g1 g2 g3 :
  spares_textures g1 g2 -> spares_textures g2 g3 -> spares_textures g1 g3.
Proof.
  intros [Hm1 (e1 & Ht1 & Hf1)] [Hm2 (e2 & Ht2 & Hf2)].
  split; [congruence|]. exists (e1 ++ e2).
  split; [by rewrite Ht2, Ht1, app_assoc|]. by apply Forall_app.
Qed.

Lemma spares_emit e g : on_texture e = false -> spares_textures g (emit e g).
Proof. intros He. split; [done|]. exists [e]. split; [done|]. by constructor. Qed.

Lemma spares_fold {A} (f : Gpu -> A -> Gpu) (l : list A) g :
  Forall (fun a => forall g, spares_textures g (f g a)) l ->
  spares_textures g (fold_left f l g).
Proof.
  intros Hall. revert g. induction Hall as [|a l Ha Hall IH]; intros g; simpl.
  - apply spares_refl.
  - eapply spares_trans; [apply Ha|apply IH].
Qed.

Lemma dispose3_object_steps options parent u geo mat ch hd hp g :
  dispose3_object options parent (mkObject u geo mat ch hd hp) g
  = parent_step u parent
      (method_step u hd
         (material_step options mat
            (geometry_step geo (children_step options ch g)))).
Proof. reflexivity. Qed.

Lemma geometry_step_spares geo g : spares_textures g (geometry_step geo g).
Proof. destruct geo; [by apply spares_emit|apply spares_refl]. Qed.

Lemma method_step_spares u hd g : spares_textures g (method_step u hd g).
Proof. destruct hd; [by apply spares_emit|apply spares_refl]. Qed.

Lemma parent_step_spares u hp g : spares_textures g (parent_step u hp g).
Proof. destruct hp; [by apply spares_emit|apply spares_refl]. Qed.

Lemma material_step_spares options mat g :
  disposeTextures options = false ->
  spares_textures g (material_step options mat g).
Proof.
  intros Hopt. unfold material_step. rewrite Hopt.
  destruct mat as [|m|ms]; [apply spares_refl|by apply spares_emit|].
  apply spares_fold. apply Forall_forall. intros m _ g'. by apply spares_emit.
Qed.

Lemma dispose3_object_spares options parent o g :
  disposeTextures options = false ->
  spares_textures g (dispose3_object options parent o g).
Proof.
  intros Hopt. revert parent g.
  induction o as [u geo mat ch hd hp IH] using Object3D_nested_ind.
  intros parent g. rewrite dispose3_object_steps.
  assert (Hch : spares_textures g (children_step options ch g)).
  { unfold children_step. destruct (recursive options); [|apply spares_refl].
    apply spares_fold. eapply Forall_impl; [exact IH|]. auto. }
  eapply spares_trans; [exact Hch|].
  eapply spares_trans; [apply geometry_step_spares|].
  eapply spares_trans; [by apply material_step_spares|].
  eapply spares_trans; [apply method_step_spares|apply parent_step_spares].
Qed.

Lemma spares_trace_mono g g' e :
  spares_textures g g' -> e ∈ trace g -> e ∈ trace g'.
Proof.
  intros [_ (evs & -> & _)] He. apply elem_of_app. by left.
Qed.

(** With textures kept, the material of the object is still disposed. *)
Lemma dispose3_object_material options parent u geo m ch hd hp g :
  disposeTextures options = false ->
  MaterialDispose m
  ∈ trace (dispose3_object options parent
             (mkObject u geo (OneMaterial m) ch hd hp) g).
Proof.
  intros Hopt. rewrite dispose3_object_steps.
  generalize (geometry_step geo (children_step options ch g)). intros g2.
  eapply spares_trace_mono.
  { eapply spares_trans; [apply method_step_spares|apply parent_step_spares]. }
  unfold material_step. rewrite Hopt. unfold emit. cbn [trace].
  apply elem_of_app. right. apply list_elem_of_here.
Qed.

End DisposeFacts.

(** ** The shared material and texture of the coordinator *)
Module SharedFacts.
Import Protocol Dispose WorldRenderer Routes Releases Timeline DisposeFacts.

Ltac fields :=
  cbn [sectionMeshs active version scene loadedChunks sectionsOutstanding
       listeners resolved blockStatesData texturesDataUrl currentTexture
       pendingDirtySections material workers workersActive gpu loads nextId
       nextPromise
       set_sectionMeshs set_active set_version set_scene set_loadedChunks
       set_sectionsOutstanding set_listeners set_resolved set_blockStatesData
       set_texturesDataUrl set_currentTexture set_pendingDirtySections
       set_material set_workers set_workersActive set_gpu set_loads set_nextId
       set_nextPromise broadcast postTo] in *.

Lemma keeps_refl s : keeps_shared s s.
Proof. split; [done|]. split; [done|]. apply spares_refl. Qed.

Lemma keeps_trans s1 s2 s3 :
  keeps_shared s1 s2 -> keeps_shared s2 s3 -> keeps_shared s1 s3.
Proof.
  intros (Hm1 & Ht1 & Hg1) (Hm2 & Ht2 & Hg2).
  split; [congruence|]. split; [congruence|]. by eapply spares_trans.
Qed.

(** A step that leaves the three fields alone. *)
Lemma keeps_same s s' :
  material s' = material s -> currentTexture s' = currentTexture s ->
  gpu s' = gpu s -> keeps_shared s s'.
Proof.
  intros Hm Ht Hg. split; [done|]. split; [done|]. rewrite Hg. apply spares_refl.
Qed.

Lemma keeps_fold {A} (f : t -> A -> t) (l : list A) s :
  (forall s a, keeps_shared s (f s a)) -> keeps_shared s (fold_left f l s).
Proof.
  intros Hf. revert s. induction l as [|a l IH]; intros s; simpl.
  - apply keeps_refl.
  - eapply keeps_trans; [apply Hf|apply IH].
Qed.

Lemma removeAndDispose_keeps mesh s : keeps_shared s (removeAndDispose mesh s).
Proof.
  unfold removeAndDispose, sceneRemove.
  destruct (bool_decide _); fields; (split; [done|split; [done|]]);
    unfold dispose3; by apply dispose3_object_spares.
Qed.

Lemma setSectionDirty_keeps pos value s :
  keeps_shared s (setSectionDirty pos value s).
Proof.
  unfold setSectionDirty.
  destruct (negb (active s) || _); [apply keeps_refl|].
  destruct (value && _); [apply keeps_refl|].
  destruct value; apply keeps_same; reflexivity.
Qed.

Lemma handleGeometry_keeps key geometry s :
  keeps_shared s (handleGeometry key geometry s).
Proof.
  unfold handleGeometry.
  set (s1 := match JS.dict_get (sectionMeshs s) key with
             | Some _ => _ | None => s end).
  assert (H1 : keeps_shared s s1).
  { subst s1. destruct (JS.dict_get _ _) as [mesh|]; [|apply keeps_refl].
    eapply keeps_trans; [apply removeAndDispose_keeps|].
    apply keeps_same; reflexivity. }
  clearbody s1.
  destruct (negb _); [done|].
  eapply keeps_trans; [exact H1|]. apply keeps_same; reflexivity.
Qed.

Lemma resetWorld_keeps s : keeps_shared s (resetWorld s).
Proof.
  unfold resetWorld.
  eapply keeps_trans; [|apply keeps_same; reflexivity].
  eapply keeps_trans; [apply (keeps_same s (set_active false s)); reflexivity|].
  apply keeps_fold. intros s' [key mesh].
  eapply keeps_trans; [apply removeAndDispose_keeps|].
  apply keeps_same; reflexivity.
Qed.

Lemma removeColumn_keeps x z s : keeps_shared s (removeColumn x z s).
Proof.
  unfold removeColumn.
  eapply keeps_trans; [|apply keeps_fold].
  - apply keeps_same; reflexivity.
  - intros s' y. cbv beta zeta.
    pose proof (setSectionDirty_keeps (Vec3.mk x y z) false s') as H1.
    set (s1 := setSectionDirty _ false s') in *. clearbody s1.
    eapply keeps_trans; [exact H1|].
    destruct (JS.dict_get _ _) as [mesh|].
    + eapply keeps_trans; [apply removeAndDispose_keeps|].
      apply keeps_same; reflexivity.
    + apply keeps_same; reflexivity.
Qed.

Lemma setVersion_keeps v s : keeps_shared s (setVersion v s).
Proof.
  unfold setVersion, updateTexturesData.
  eapply keeps_trans; [|apply keeps_same; reflexivity].
  eapply keeps_trans; [|apply resetWorld_keeps].
  apply keeps_same; reflexivity.
Qed.

Lemma markAll_keeps qs s : keeps_shared s (markAll qs s).
Proof. apply keeps_fold. intros. apply setSectionDirty_keeps. Qed.

Lemma addColumn_keeps x z chunk s : keeps_shared s (addColumn x z chunk s).
Proof.
  unfold addColumn.
  eapply keeps_trans; [|apply keeps_fold].
  - apply keeps_same; reflexivity.
  - intros s' y. cbv beta zeta.
    repeat (eapply keeps_trans; [|apply setSectionDirty_keeps]).
    apply keeps_refl.
Qed.

Lemma setBlockStateId_keeps pos sid s :
  keeps_shared s (setBlockStateId pos sid s).
Proof.
  rewrite Neighbours.setBlockStateId_marks.
  eapply keeps_trans; [|apply markAll_keeps]. apply keeps_same; reflexivity.
Qed.

Lemma emitUpdate_keeps s : keeps_shared s (emitUpdate s).
Proof.
  unfold emitUpdate. apply keeps_fold. intros s' p. unfold updateHandler.
  destruct (_ =? _)%nat; [apply keeps_same; reflexivity|apply keeps_refl].
Qed.

Lemma onmessage_keeps data s : keeps_shared s (onmessage data s).
Proof.
  unfold onmessage. destruct (negb _); [apply keeps_refl|].
  destruct data as [key geometry|key|key message].
  - apply handleGeometry_keeps.
  - eapply keeps_trans; [|apply emitUpdate_keeps]. apply keeps_same; reflexivity.
  - apply keeps_refl.
Qed.

Lemma waitForChunksToRender_keeps s :
  keeps_shared s (waitForChunksToRender s).2.
Proof.
  unfold waitForChunksToRender. cbv zeta. fields.
  destruct (_ =? _)%nat; apply keeps_same; reflexivity.
Qed.

(** Every event but [dispose] and the arrival of a texture spares the
    textures. *)
Lemma handle_keeps s e :
  e <> EvDispose -> (forall texture, e <> EvTextureLoaded texture) ->
  keeps_shared s (handle s e).
Proof.
  intros Hd Ht.
  destruct e as [data|v| | |x z chunk|x z|pos sid|pos value| |texture|json| ];
    cbn [handle].
  - apply onmessage_keeps.
  - apply setVersion_keeps.
  - apply resetWorld_keeps.
  - done.
  - apply addColumn_keeps.
  - apply removeColumn_keeps.
  - apply setBlockStateId_keeps.
  - apply setSectionDirty_keeps.
  - apply keeps_same; reflexivity.
  - by destruct (Ht texture).
  - apply keeps_same; reflexivity.
  - apply waitForChunksToRender_keeps.
Qed.

(** C1 as stated fails: replacing the mesh of a section disposes the
    shared material of the coordinator. *)
Lemma shared_material_disposed_with_replaced_mesh :
  material one_mesh = Some 0%nat
  /\ trace (gpu one_mesh) = []
  /\ trace (gpu (onmessage
                   (MsgGeometry "0,0,0" (mkGeometry [] [] [] [] [] 0 0 0))
                   one_mesh))
     = [GeometryDispose 1; MaterialDispose 0]
  /\ ~ (forall e, e ∈ trace (gpu (onmessage
                   (MsgGeometry "0,0,0" (mkGeometry [] [] [] [] [] 0 0 0))
                   one_mesh)) -> e <> MaterialDispose 0).
Proof.
  assert (Htrace : trace (gpu (onmessage
                   (MsgGeometry "0,0,0" (mkGeometry [] [] [] [] [] 0 0 0))
                   one_mesh))
     = [GeometryDispose 1; MaterialDispose 0]) by (vm_compute; reflexivity).
  split; [vm_compute; reflexivity|]. split; [vm_compute; reflexivity|].
  split; [exact Htrace|]. rewrite Htrace. intros Hnone.
  apply (Hnone (MaterialDispose 0)); [|done].
  apply list_elem_of_further, list_elem_of_here.
Qed.

(** C2, as the code has it.  When a texture arrives while another is
    current, the callback first disposes the previous texture and then
    installs the new one as [map] of the shared material and as the current
    texture; nothing else happens on the GPU in between. *)
Theorem texture_swap_disposes_then_installs (s : t) (texture old m : nat) :
  currentTexture s = Some old -> material s = Some m ->
  let s' := textureLoaded texture s in
  trace (gpu s') = trace (gpu s) ++ [TextureDispose old; MapInstall m texture]
  /\ slot (gpu s') m "map" = Some texture
  /\ currentTexture s' = Some texture
  /\ material s' = Some m.
Proof.
  intros Hold Hm s'. subst s'. unfold textureLoaded.
  rewrite Hold. fields. rewrite Hm. fields.
  split; [|split; [|done]].
  - unfold emit, set_slot, disposeTexture. cbn [trace emit].
    by rewrite <- app_assoc.
  - unfold slot, emit, set_slot. cbn [materials].
    rewrite lookup_insert_eq. cbn [default]. apply lookup_insert_eq.
Qed.

Lemma texture_swap_disposes_then_installs_witness :
  trace (gpu (textureLoaded 8 (textureLoaded 7 (new 1))))
  = [MapInstall 0 7; TextureDispose 7; MapInstall 0 8].
Proof.
  destruct (texture_swap_disposes_then_installs
              (textureLoaded 7 (new 1)) 8 7 0) as [Htrace _].
  - reflexivity.
  - reflexivity.
  - exact Htrace.
Defined.

(** C2 as stated fails: the new texture is installed after the previous
    one was disposed, not before. *)
Lemma new_texture_installed_after_old_disposed :
  ~ happens_before (MapInstall 0 8) (TextureDispose 7)
      (trace (gpu (textureLoaded 8 (textureLoaded 7 (new 1))))).
Proof.
  assert (Htrace : trace (gpu (textureLoaded 8 (textureLoaded 7 (new 1))))
                   = [MapInstall 0 7; TextureDispose 7; MapInstall 0 8])
    by (vm_compute; reflexivity).
  rewrite Htrace. intros (i & j & Hi & Hj & Hlt).
  destruct i as [|[|[|i]]]; cbn in Hi; try discriminate.
  destruct j as [|[|[|j]]]; cbn in Hj; try discriminate; lia.
Qed.

End SharedFacts.

(** ** Waiting for the chunks to render *)
Module WaitFacts.
Import Protocol Dispose WorldRenderer Routes Releases Timeline SharedFacts.

Lemma sync_refl s : same_sync s s.
Proof. by repeat split. Qed.

Lemma sync_trans s1 s2 s3 : same_sync s1 s2 -> same_sync s2 s3 -> same_sync s1 s3.
Proof.
  intros (H1 & H2 & H3 & H4) (H5 & H6 & H7 & H8).
  repeat split; congruence.
Qed.

Lemma sync_fold {A} (f : t -> A -> t) (l : list A) s :
  (forall s a, same_sync s (f s a)) -> same_sync s (fold_left f l s).
Proof.
  intros Hf. revert s. induction l as [|a l IH]; intros s; simpl.
  - apply sync_refl.
  - eapply sync_trans; [apply Hf|apply IH].
Qed.

Ltac sync_same := repeat split; reflexivity.

Lemma removeAndDispose_sync mesh s : same_sync s (removeAndDispose mesh s).
Proof.
  unfold removeAndDispose, sceneRemove. destruct (bool_decide _); sync_same.
Qed.

Lemma setSectionDirty_sync pos value s :
  same_sync s (setSectionDirty pos value s).
Proof.
  unfold setSectionDirty.
  destruct (negb (active s) || _); [apply sync_refl|].
  destruct (value && _); [apply sync_refl|].
  destruct value; sync_same.
Qed.

Lemma handleGeometry_sync key geometry s :
  same_sync s (handleGeometry key geometry s).
Proof.
  unfold handleGeometry.
  set (s1 := match JS.dict_get (sectionMeshs s) key with
             | Some _ => _ | None => s end).
  assert (H1 : same_sync s s1).
  { subst s1. destruct (JS.dict_get _ _) as [mesh|]; [|apply sync_refl].
    eapply sync_trans; [apply removeAndDispose_sync|]. sync_same. }
  clearbody s1.
  destruct (negb _); [done|].
  eapply sync_trans; [exact H1|]. sync_same.
Qed.

Lemma resetWorld_sync s : same_sync s (resetWorld s).
Proof.
  unfold resetWorld.
  eapply sync_trans; [|sync_same].
  eapply sync_trans; [apply (sync_refl (set_active false s))|].
  apply sync_fold. intros s' [key mesh].
  eapply sync_trans; [apply removeAndDispose_sync|]. sync_same.
Qed.

Lemma setVersion_sync v s : same_sync s (setVersion v s).
Proof.
  unfold setVersion, updateTexturesData.
  eapply sync_trans; [|sync_same].
  eapply sync_trans; [|apply resetWorld_sync]. sync_same.
Qed.

Lemma markFive_sync x y z s :
  same_sync s
    (setSectionDirty (Vec3.offset (Vec3.mk x y z) 0 0 16) true
       (setSectionDirty (Vec3.offset (Vec3.mk x y z) 0 0 (-16)) true
          (setSectionDirty (Vec3.offset (Vec3.mk x y z) 16 0 0) true
             (setSectionDirty (Vec3.offset (Vec3.mk x y z) (-16) 0 0) true
                (setSectionDirty (Vec3.mk x y z) true s))))).
Proof.
  repeat (eapply sync_trans; [|apply setSectionDirty_sync]). apply sync_refl.
Qed.

Lemma addColumn_sync x z chunk s : same_sync s (addColumn x z chunk s).
Proof.
  unfold addColumn.
  eapply sync_trans; [|apply sync_fold].
  - sync_same.
  - intros s' y. cbv beta zeta. apply markFive_sync.
Qed.

Lemma removeColumn_sync x z s : same_sync s (removeColumn x z s).
Proof.
  unfold removeColumn.
  eapply sync_trans; [|apply sync_fold].
  - sync_same.
  - intros s' y. cbv beta zeta.
    pose proof (setSectionDirty_sync (Vec3.mk x y z) false s') as H1.
    set (s1 := setSectionDirty _ false s') in *. clearbody s1.
    eapply sync_trans; [exact H1|].
    destruct (JS.dict_get _ _) as [mesh|].
    + eapply sync_trans; [apply removeAndDispose_sync|]. sync_same.
    + sync_same.
Qed.

Lemma setBlockStateId_sync pos sid s : same_sync s (setBlockStateId pos sid s).
Proof.
  rewrite Neighbours.setBlockStateId_marks.
  eapply sync_trans; [|apply sync_fold; intros; apply setSectionDirty_sync].
  sync_same.
Qed.

Lemma textureLoaded_sync texture s : same_sync s (textureLoaded texture s).
Proof.
  unfold textureLoaded.
  destruct (currentTexture s); fields; destruct (material s); sync_same.
Qed.

Lemma dispose_sync s :
  listeners (dispose s) = [] /\ resolved (dispose s) = resolved s
  /\ nextPromise (dispose s) = nextPromise s
  /\ workersActive (dispose s) = false.
Proof.
  unfold dispose. cbv zeta.
  set (s1 := set_workersActive false (set_active false s)).
  set (s2 := fold_left _ _ s1).
  assert (H2 : same_sync s1 s2).
  { apply sync_fold. intros s' [key mesh]. apply removeAndDispose_sync. }
  destruct H2 as (H2l & H2r & H2n & H2w). clearbody s2.
  destruct (currentTexture _); fields; destruct (material s2); fields;
    rewrite ?H2r, ?H2n, ?H2w; by repeat split.
Qed.

(** The handlers of an [emit]. *)
Lemma handlers_idle L s :
  size (sectionsOutstanding s) ≠ 0%nat ->
  fold_left (fun s p => updateHandler p s) L s = s.
Proof.
  intros Hsz. induction L as [|p L IH]; [done|]. simpl.
  unfold updateHandler at 2.
  destruct (Nat.eqb_spec (size (sectionsOutstanding s)) 0); [done|]. exact IH.
Qed.

Lemma handlers_flush L s :
  size (sectionsOutstanding s) = 0%nat ->
  let s' := fold_left (fun s p => updateHandler p s) L s in
  resolved s' = resolved s ++ L
  /\ (forall q, q ∈ listeners s' <-> q ∈ listeners s /\ q ∉ L)
  /\ nextPromise s' = nextPromise s
  /\ workersActive s' = workersActive s
  /\ sectionsOutstanding s' = sectionsOutstanding s.
Proof.
  revert s. induction L as [|p L IH]; intros s Hsz; simpl.
  - rewrite app_nil_r. split; [done|]. split; [|done].
    intros q. split; [|tauto]. intros Hq. split; [done|]. apply not_elem_of_nil.
  - assert (Hp : updateHandler p s
                 = set_resolved (resolved s ++ [p])
                     (set_listeners (filter (fun q => q ≠ p) (listeners s)) s)).
    { unfold updateHandler. by rewrite Hsz. }
    rewrite Hp.
    set (s1 := set_resolved (resolved s ++ [p])
                 (set_listeners (filter (fun q => q ≠ p) (listeners s)) s)).
    destruct (IH s1 Hsz) as (Hr & Hl & Hn & Hw & Ho).
    split; [|split; [|split; [|split]]].
    + rewrite Hr. subst s1. fields. by rewrite <- app_assoc.
    + intros q. rewrite Hl. subst s1. fields.
      rewrite list_elem_of_filter, not_elem_of_cons. tauto.
    + rewrite Hn. reflexivity.
    + rewrite Hw. reflexivity.
    + rewrite Ho. reflexivity.
Qed.

Lemma size_zero_empty (X : gset string) : size X = 0%nat -> X = ∅.
Proof. intros Hz. apply leibniz_equiv. by apply size_empty_iff. Qed.

Lemma elements_nil_iff (l : list nat) : (forall q, q ∉ l) -> l = [].
Proof.
  destruct l as [|a l]; [done|]. intros Hl. destruct (Hl a). apply list_elem_of_here.
Qed.

Lemma finished_effect key s :
  workersActive s = true ->
  let s' := handle s (EvMessage (MsgSectionFinished key)) in
  sectionsOutstanding s' = sectionsOutstanding s ∖ {[key]}
  /\ (sectionsOutstanding s' = ∅ -> flushes s s')
  /\ (sectionsOutstanding s' ≠ ∅ -> same_sync s s').
Proof.
  intros Hw. cbn [handle]. unfold onmessage. rewrite Hw. cbn [negb].
  set (s0 := set_sectionsOutstanding (sectionsOutstanding s ∖ {[key]}) s).
  unfold emitUpdate.
  destruct (decide (size (sectionsOutstanding s0) = 0%nat)) as [Hz|Hnz].
  - destruct (handlers_flush (listeners s0) s0 Hz) as (Hr & Hl & Hn & Hwa & Ho).
    split; [exact Ho|]. split.
    + intros _. split; [|split; [|split]]; [|exact Hr|exact Hn|exact Hwa].
      apply elements_nil_iff. intros q Hq. apply Hl in Hq. tauto.
    + intros Hne. destruct Hne. rewrite Ho. by apply size_zero_empty in Hz.
  - rewrite handlers_idle by done.
    split; [done|]. split.
    + intros He. destruct Hnz. rewrite He. apply size_empty.
    + intros _. by repeat split.
Qed.

Lemma wait_effect s :
  let s' := (waitForChunksToRender s).2 in
  (waitForChunksToRender s).1 = nextPromise s
  /\ (sectionsOutstanding s = ∅ -> resolves_at_once s s')
  /\ (sectionsOutstanding s ≠ ∅ -> registers s s').
Proof.
  unfold waitForChunksToRender. cbv zeta. fields.
  destruct (Nat.eqb_spec (size (sectionsOutstanding s)) 0) as [Hz|Hnz].
  - split; [done|]. split.
    + intros _. by repeat split.
    + intros Hne. destruct Hne. by apply size_zero_empty.
  - split; [done|]. split.
    + intros He. destruct Hnz. rewrite He. apply size_empty.
    + intros _. by repeat split.
Qed.

(** Every event has one of the five effects; it flushes exactly when it
    is the completion signal. *)
Lemma handle_effect s e :
  (qualifies s e /\ flushes s (handle s e))
  \/ (~ qualifies s e
      /\ (same_sync s (handle s e) \/ resolves_at_once s (handle s e)
          \/ registers s (handle s e) \/ drops s (handle s e))).
Proof.
  assert (Hother : forall e', (forall key, e' ≠ EvMessage (MsgSectionFinished key)) ->
                              ~ qualifies s e').
  { intros e' Hne (key & -> & _). by apply (Hne key). }
  destruct e as [data|v| | |x z chunk|x z|pos sid|pos value| |texture|json| ].
  - destruct (workersActive s) eqn:Hw.
    + destruct data as [key geometry|key|key message].
      * right. split; [by apply Hother|]. left.
        cbn [handle]. unfold onmessage. rewrite Hw. apply handleGeometry_sync.
      * destruct (finished_effect key s Hw) as (Ho & Hflush & Hsame).
        destruct (decide (sectionsOutstanding
                            (handle s (EvMessage (MsgSectionFinished key))) = ∅))
          as [He|Hne].
        -- left. split; [by exists key|auto].
        -- right. split; [|left; auto].
           intros (key' & [= <-] & _ & He). done.
      * right. split; [by apply Hother|]. left.
        cbn [handle]. unfold onmessage. rewrite Hw. apply sync_refl.
    + right. split.
      * intros (key & _ & Hw' & _). congruence.
      * left. cbn [handle]. unfold onmessage. rewrite Hw. apply sync_refl.
  - right. split; [by apply Hother|]. left. apply setVersion_sync.
  - right. split; [by apply Hother|]. left. apply resetWorld_sync.
  - right. split; [by apply Hother|]. right. right. right. apply dispose_sync.
  - right. split; [by apply Hother|]. left. apply addColumn_sync.
  - right. split; [by apply Hother|]. left. apply removeColumn_sync.
  - right. split; [by apply Hother|]. left. apply setBlockStateId_sync.
  - right. split; [by apply Hother|]. left. apply setSectionDirty_sync.
  - right. split; [by apply Hother|]. left. by repeat split.
  - right. split; [by apply Hother|]. left. apply textureLoaded_sync.
  - right. split; [by apply Hother|]. left. by repeat split.
  - right. split; [by apply Hother|]. right.
    destruct (wait_effect s) as (_ & Hnow & Hreg). cbn [handle].
    destruct (decide (sectionsOutstanding s = ∅)); [left|right; left]; auto.
Qed.

(** The signal, event by event. *)
Lemma signalled_nil s : ~ signalled s [].
Proof. intros (before & key & after & Heq & _). by destruct before. Qed.

Lemma signalled_cons s e evs :
  signalled s (e :: evs) <-> qualifies s e \/ signalled (handle s e) evs.
Proof.
  split.
  - intros (before & key & after & Heq & Hw & Ho).
    destruct before as [|e' before]; simplify_eq/=.
    + left. by exists key.
    + right. by exists before, key, after.
  - intros [(key & -> & Hw & Ho)|(before & key & after & -> & Hw & Ho)].
    + by exists [], key, evs.
    + by exists (e :: before), key, after.
Qed.

Lemma inactive_step s e :
  workersActive s = false -> workersActive (handle s e) = false.
Proof.
  intros Hw.
  destruct (handle_effect s e)
    as [[_ (_ & _ & _ & H)]
       |[_ [(_ & _ & _ & H)|[(_ & _ & _ & H)|[(_ & _ & _ & H)|(_ & _ & _ & H)]]]]];
    congruence.
Qed.

Lemma inactive_never_signalled evs s :
  workersActive s = false -> ~ signalled s evs.
Proof.
  revert s. induction evs as [|e evs IH]; intros s Hw; [apply signalled_nil|].
  rewrite signalled_cons. intros [(key & _ & Hw' & _)|Hs]; [congruence|].
  apply (IH (handle s e)) in Hs; [done|]. by apply inactive_step.
Qed.

Lemma allocated_step s e :
  promises_allocated s -> promises_allocated (handle s e).
Proof.
  intros (Hnd & Hl & Hr).
  destruct (handle_effect s e)
    as [[_ (El & Er & En & _)]
       |[_ [(El & Er & En & _)|[(El & Er & En & _)|[(El & Er & En & _)
                                                   |(El & Er & En & _)]]]]];
    unfold promises_allocated; rewrite El, Er, En.
  - split; [constructor|]. split; [by intros q ?%elem_of_nil|].
    intros q [?|?]%elem_of_app; auto.
  - auto.
  - split; [done|]. split; [intros q Hq; specialize (Hl q Hq); lia|].
    intros q [Hq| ->%list_elem_of_singleton]%elem_of_app; [|lia].
    specialize (Hr q Hq). lia.
  - split; [|split].
    + apply NoDup_app. split; [done|]. split; [|apply NoDup_singleton].
      intros q Hq ->%list_elem_of_singleton. specialize (Hl _ Hq). lia.
    + intros q [Hq| ->%list_elem_of_singleton]%elem_of_app; [|lia].
      specialize (Hl q Hq). lia.
    + intros q Hq. specialize (Hr q Hq). lia.
  - split; [constructor|]. split; [by intros q ?%elem_of_nil|auto].
Qed.

Lemma allocated_run evs s :
  promises_allocated s -> promises_allocated (run s evs).
Proof.
  revert s. induction evs as [|e evs IH]; intros s Hs; [done|].
  apply (IH (handle s e)). by apply allocated_step.
Qed.

Lemma allocated_new n : promises_allocated (new n).
Proof.
  split; [constructor|]. split; intros q Hq; by apply elem_of_nil in Hq.
Qed.

(** Counting the resolutions of a promise. *)
Lemma count_app (p : nat) (l l' : list nat) :
  length (filter (fun q => q = p) (l ++ l'))
  = (length (filter (fun q => q = p) l) + length (filter (fun q => q = p) l'))%nat.
Proof. by rewrite filter_app, length_app. Qed.

Lemma count_absent (p : nat) (l : list nat) :
  p ∉ l -> length (filter (fun q => q = p) l) = 0%nat.
Proof.
  induction l as [|a l IH]; [done|]. intros [Hne Hl]%not_elem_of_cons.
  rewrite filter_cons_False by congruence. auto.
Qed.

Lemma count_once (p : nat) (l : list nat) :
  NoDup l -> p ∈ l -> length (filter (fun q => q = p) l) = 1%nat.
Proof.
  induction l as [|a l IH]; [by intros _ ?%elem_of_nil|].
  intros [Ha Hnd]%NoDup_cons Hin.
  destruct (decide (a = p)) as [->|Hne].
  - rewrite filter_cons_True by done. simpl. by rewrite count_absent.
  - rewrite filter_cons_False by done.
    apply elem_of_cons in Hin as [Hin|Hin]; [congruence|auto].
Qed.

Lemma count_positive (p : nat) (l : list nat) :
  p ∈ l <-> (0 < length (filter (fun q => q = p) l))%nat.
Proof.
  split.
  - intros Hin. destruct (filter (fun q => q = p) l) eqn:Hf; [|simpl; lia].
    assert (Hp : p ∈ filter (fun q => q = p) l) by by apply list_elem_of_filter.
    rewrite Hf in Hp. by apply elem_of_nil in Hp.
  - intros Hlen. destruct (decide (p ∈ l)) as [|Hout]; [done|].
    rewrite count_absent in Hlen by done. lia.
Qed.

(** A promise whose handler is gone is resolved no further. *)
Lemma settled_step p s e :
  promises_allocated s -> p ∉ listeners s -> (p < nextPromise s)%nat ->
  resolutions p (handle s e) = resolutions p s
  /\ (p ∉ listeners (handle s e)) /\ (p < nextPromise (handle s e))%nat.
Proof.
  intros (Hnd & Hl & Hr) Hp Hlt. unfold resolutions.
  destruct (handle_effect s e)
    as [[_ (El & Er & En & _)]
       |[_ [(El & Er & En & _)|[(El & Er & En & _)|[(El & Er & En & _)
                                                   |(El & Er & En & _)]]]]];
    rewrite El, Er, En.
  - rewrite count_app, (count_absent p (listeners s)) by done.
    split; [lia|]. split; [apply not_elem_of_nil|done].
  - done.
  - rewrite count_app, (count_absent p [nextPromise s]).
    + split; [lia|]. split; [done|lia].
    + rewrite list_elem_of_singleton. lia.
  - split; [done|]. split; [|lia].
    rewrite elem_of_app, list_elem_of_singleton. intros [?|?]; [done|lia].
  - split; [done|]. split; [apply not_elem_of_nil|done].
Qed.

Lemma settled_run p evs s :
  promises_allocated s -> p ∉ listeners s -> (p < nextPromise s)%nat ->
  resolutions p (run s evs) = resolutions p s.
Proof.
  revert s. induction evs as [|e evs IH]; intros s Hs Hp Hlt; [done|].
  destruct (settled_step p s e Hs Hp Hlt) as (Hres & Hp' & Hlt').
  change (run s (e :: evs)) with (run (handle s e) evs).
  rewrite IH; auto using allocated_step.
Qed.

(** A promise whose handler is registered is resolved once, by the first
    completion signal, and not before. *)
Lemma waiting_run p evs s :
  promises_allocated s -> p ∈ listeners s -> resolutions p s = 0%nat ->
  (signalled s evs -> resolutions p (run s evs) = 1%nat)
  /\ (~ signalled s evs -> resolutions p (run s evs) = 0%nat).
Proof.
  revert s. induction evs as [|e evs IH]; intros s Hs Hp Hres.
  { split; [by intros ?%signalled_nil|done]. }
  change (run s (e :: evs)) with (run (handle s e) evs).
  rewrite signalled_cons.
  pose proof (allocated_step s e Hs) as Hs'.
  pose proof Hs as (Hnd & Hl & Hr).
  assert (Hlt : (p < nextPromise s)%nat) by auto.
  unfold resolutions in Hres.
  destruct (handle_effect s e)
    as [[Hq (El & Er & En & Ew)]
       |[Hq [(El & Er & En & Ew)|[(El & Er & En & Ew)|[(El & Er & En & Ew)
                                                      |(El & Er & En & Ew)]]]]].
  - (* the completion signal *)
    assert (Hone : resolutions p (run (handle s e) evs) = 1%nat).
    { rewrite settled_run; [| done |rewrite El; apply not_elem_of_nil|congruence].
      unfold resolutions. rewrite Er, count_app, Hres, count_once; done. }
    split; [done|]. intros Hno. destruct Hno. by left.
  - (* nothing for the promises *)
    destruct (IH (handle s e)) as [IH1 IH2]; [done|by rewrite El| |].
    { unfold resolutions. by rewrite Er. }
    split; [intros [?|?]; [done|auto]|]. intros Hno. apply IH2. tauto.
  - (* another promise, resolved at once *)
    destruct (IH (handle s e)) as [IH1 IH2]; [done|by rewrite El| |].
    { unfold resolutions. rewrite Er, count_app, Hres, count_absent; [done|].
      rewrite list_elem_of_singleton. lia. }
    split; [intros [?|?]; [done|auto]|]. intros Hno. apply IH2. tauto.
  - (* another promise, registered *)
    destruct (IH (handle s e)) as [IH1 IH2]; [done| | |].
    { rewrite El, elem_of_app. by left. }
    { unfold resolutions. by rewrite Er. }
    split; [intros [?|?]; [done|auto]|]. intros Hno. apply IH2. tauto.
  - (* the renderer is disposed *)
    assert (Hzero : resolutions p (run (handle s e) evs) = 0%nat).
    { rewrite settled_run; [| done |rewrite El; apply not_elem_of_nil|congruence].
      unfold resolutions. by rewrite Er. }
    split; [|done]. intros [?|Hsig]; [done|].
    by apply inactive_never_signalled in Hsig.
Qed.

(** C7, as the code has it.  [waitForChunksToRender ()] resolves its
    promise at once when no section is outstanding.  Otherwise the promise
    is resolved once, by the first [sectionFinished] message that is
    handled while the workers are active and leaves no section
    outstanding, and is not resolved before such a message, whatever else
    happens; a second caller gets a promise of its own, resolved by the
    same message. *)
Theorem wait_resolves_once_on_completion_signal (s : t) (evs : list Event) :
  promises_allocated s ->
  let p := (waitForChunksToRender s).1 in
  let s1 := (waitForChunksToRender s).2 in
  let p' := (waitForChunksToRender s1).1 in
  let s2 := (waitForChunksToRender s1).2 in
  (sectionsOutstanding s = ∅ ->
   resolved s1 = resolved s ++ [p] /\ listeners s1 = listeners s
   /\ resolutions p (run s1 evs) = 1%nat)
  /\ (sectionsOutstanding s ≠ ∅ ->
      resolutions p s1 = 0%nat
      /\ (signalled s1 evs -> resolutions p (run s1 evs) = 1%nat)
      /\ (~ signalled s1 evs -> resolutions p (run s1 evs) = 0%nat)
      /\ p' ≠ p
      /\ (signalled s2 evs ->
          resolutions p (run s2 evs) = 1%nat
          /\ resolutions p' (run s2 evs) = 1%nat)
      /\ (~ signalled s2 evs ->
          resolutions p (run s2 evs) = 0%nat
          /\ resolutions p' (run s2 evs) = 0%nat)).
Proof.
  intros Hs p s1 p' s2.
  pose proof Hs as (Hnd & Hl & Hr).
  destruct (wait_effect s) as (Hp & Hnow & Hreg). fold p s1 in Hp, Hnow, Hreg.
  assert (Hs1 : promises_allocated s1)
    by apply (allocated_step s EvWaitForChunksToRender Hs).
  assert (Hfresh : resolutions p s = 0%nat).
  { apply count_absent. intros Hin. specialize (Hr p Hin). lia. }
  split.
  - intros He. destruct (Hnow He) as (El & Er & En & _). rewrite <- Hp in Er.
    split; [done|]. split; [done|].
    rewrite settled_run; [|done| |lia].
    + unfold resolutions in *. rewrite Er, count_app, Hfresh.
      rewrite filter_cons_True by done. done.
    + rewrite El. intros Hin. specialize (Hl p Hin). lia.
  - intros Hne. destruct (Hreg Hne) as (El & Er & En & _). rewrite <- Hp in El.
    assert (Hin1 : p ∈ listeners s1).
    { rewrite El, elem_of_app, list_elem_of_singleton. by right. }
    assert (Hres1 : resolutions p s1 = 0%nat).
    { unfold resolutions in *. by rewrite Er. }
    destruct (waiting_run p evs s1 Hs1 Hin1 Hres1) as [Hyes Hno].
    split; [done|]. split; [done|]. split; [done|].
    (* the second caller *)
    destruct (wait_effect s1) as (Hp' & _ & Hreg').
    fold p' s2 in Hp', Hreg'.
    assert (Hne1 : sectionsOutstanding s1 ≠ ∅).
    { unfold s1, waitForChunksToRender. cbv zeta. fields.
      destruct (_ =? _)%nat; exact Hne. }
    destruct (Hreg' Hne1) as (El' & Er' & En' & _). rewrite <- Hp' in El'.
    assert (Hs2 : promises_allocated s2)
      by apply (allocated_step s1 EvWaitForChunksToRender Hs1).
    assert (Hpp : p' ≠ p) by lia.
    assert (Hin2 : p ∈ listeners s2 /\ p' ∈ listeners s2).
    { rewrite El', !elem_of_app. split; [by left|]. right.
      apply list_elem_of_here. }
    assert (Hres2 : resolutions p s2 = 0%nat /\ resolutions p' s2 = 0%nat).
    { unfold resolutions in *. rewrite Er'. split; [done|].
      apply count_absent. intros Hin.
      destruct Hs1 as (_ & _ & Hr1). specialize (Hr1 p' Hin). lia. }
    destruct Hin2 as [Hin2 Hin2']. destruct Hres2 as [Hres2 Hres2'].
    destruct (waiting_run p evs s2 Hs2 Hin2 Hres2) as [Hyes2 Hno2].
    destruct (waiting_run p' evs s2 Hs2 Hin2' Hres2') as [Hyes2' Hno2'].
    split; [done|]. split; auto.
Qed.

Lemma wait_resolves_once_on_completion_signal_witness :
  resolutions (waitForChunksToRender one_outstanding).1
    (run (waitForChunksToRender one_outstanding).2
       [EvMessage (MsgSectionFinished "0,64,0");
        EvSetSectionDirty (Vec3.mk 0 0 0) false;
        EvMessage (MsgSectionFinished "0,0,0");
        EvMessage (MsgSectionFinished "0,0,0")])
  = 1%nat.
Proof.
  destruct (wait_resolves_once_on_completion_signal one_outstanding
              [EvMessage (MsgSectionFinished "0,64,0");
               EvSetSectionDirty (Vec3.mk 0 0 0) false;
               EvMessage (MsgSectionFinished "0,0,0");
               EvMessage (MsgSectionFinished "0,0,0")])
    as [_ Hwaiting].
  - apply allocated_run, allocated_new.
  - destruct Hwaiting as (_ & Hyes & _).
    + vm_compute. discriminate.
    + apply Hyes.
      exists [EvMessage (MsgSectionFinished "0,64,0");
              EvSetSectionDirty (Vec3.mk 0 0 0) false],
             "0,0,0"%string,
             [EvMessage (MsgSectionFinished "0,0,0")].
      split; [reflexivity|]. split; vm_compute; reflexivity.
Defined.

(** C7 as stated fails: [resetWorld] empties the outstanding set, and the
    promise of a waiting caller stays unresolved, its handler still
    registered. *)
Lemma wait_not_resolved_when_reset_empties_outstanding :
  let p := (waitForChunksToRender one_outstanding).1 in
  let s1 := (waitForChunksToRender one_outstanding).2 in
  sectionsOutstanding s1 ≠ ∅
  /\ sectionsOutstanding (resetWorld s1) = ∅
  /\ resolved (resetWorld s1) = []
  /\ listeners (resetWorld s1) = [p]
  /\ ~ (sectionsOutstanding (resetWorld s1) = ∅ -> p ∈ resolved (resetWorld s1)).
Proof.
  intros p s1.
  assert (Hres : resolved (resetWorld s1) = []) by (vm_compute; reflexivity).
  assert (Hout : sectionsOutstanding (resetWorld s1) = ∅)
    by (vm_compute; reflexivity).
  split; [vm_compute; discriminate|]. split; [exact Hout|].
  split; [exact Hres|]. split; [vm_compute; reflexivity|].
  intros Himp. specialize (Himp Hout). rewrite Hres in Himp.
  by apply elem_of_nil in Himp.
Qed.

End WaitFacts.

(** ** Section keys, printed and parsed back *)
Module KeyFacts.
Import Protocol Drain.

(** X1.  The coordinates that [processDirtySections] parses from a key are
    those that [sectionKey] printed, the column that [_handleGeometry]
    derives from the key is the column of the section, and two sections
    have the same key only if they are the same section. *)
Theorem section_key_round_trip (x y z : Z) :
  JS.parseInt (JS.nth_str (JS.split (sectionKey x y z)) 0) = Some x
  /\ JS.parseInt (JS.nth_str (JS.split (sectionKey x y z)) 1) = Some y
  /\ JS.parseInt (JS.nth_str (JS.split (sectionKey x y z)) 2) = Some z
  /\ (JS.nth_str (JS.split (sectionKey x y z)) 0 +:+ "," +:+
      JS.nth_str (JS.split (sectionKey x y z)) 2)%string
     = World.columnKey x z
  /\ (forall x' y' z',
        sectionKey x y z = sectionKey x' y' z' -> x = x' /\ y = y' /\ z = z').
Proof.
  rewrite JSFacts.split_sectionKey. unfold JS.nth_str.
  cbn [lookup list_lookup default from_option id].
  rewrite !JSFacts.parseInt_toString.
  split; [done|]. split; [done|]. split; [done|]. split; [done|].
  intros x' y' z' E. by apply JSFacts.sectionKey_inj in E.
Qed.

Section WithLibraries.
Context `{World.Libraries}.

(** The worker finds the section of a key made by [sectionKey] exactly
    when the column at (x, z) is loaded and has the sub-chunk of [y]. *)
Lemma located_sectionKey (x y z : Z) (s : Worker.t) (w : World.t) :
  Worker.world s = Some w ->
  located (sectionKey x y z) s
  = if Worker.sectionExists (World.getColumn w x z) y
    then Some (x, y, z, w) else None.
Proof.
  intros Hw. unfold located. rewrite Hw, JSFacts.split_sectionKey.
  unfold JS.nth_str. cbn [lookup list_lookup default from_option id].
  by rewrite !JSFacts.parseInt_toString.
Qed.

End WithLibraries.
End KeyFacts.

(** ** Filtered lists *)
Module ListFacts.

Lemma filter_all {A} (P : A -> Prop) `{forall x, Decision (P x)} (l : list A) :
  (forall x, x ∈ l -> P x) -> filter P l = l.
Proof.
  induction l as [|a l IH]; intros Hl; [done|].
  rewrite filter_cons_True by (apply Hl; left).
  f_equal. apply IH. intros x Hx. apply Hl. by right.
Qed.

Lemma filter_none {A} (P : A -> Prop) `{forall x, Decision (P x)} (l : list A) :
  (forall x, x ∈ l -> ~ P x) -> filter P l = [].
Proof.
  induction l as [|a l IH]; intros Hl; [done|].
  rewrite filter_cons_False by (apply Hl; left).
  apply IH. intros x Hx. apply Hl. by right.
Qed.

Lemma filter_ext_in {A} (P Q : A -> Prop) `{forall x, Decision (P x)}
  `{forall x, Decision (Q x)} (l : list A) :
  (forall x, x ∈ l -> P x <-> Q x) -> filter P l = filter Q l.
Proof.
  induction l as [|a l IH]; intros Hl; [done|].
  rewrite !filter_cons.
  assert (Ha : P a <-> Q a) by (apply Hl; left).
  rewrite IH by (intros x Hx; apply Hl; by right).
  destruct (decide (P a)), (decide (Q a)); tauto.
Qed.

End ListFacts.

(** ** The dirty queue of a worker *)
Module QueueFacts.
Import Protocol Drain Queue ListFacts.

Section WithLibraries.
Context `{World.Libraries}.
Variable getSectionGeometry :
  Z -> Z -> Z -> World.t -> Json -> World.t * (string + Geometry).

Abbreviation processSection := (Worker.processSection getSectionGeometry).
Abbreviation processDirtySections := (Worker.processDirtySections getSectionGeometry).

Lemma dirty_delete_elem key k d :
  k ∈ Worker.dirty_delete key d <-> k ∈ d /\ k <> key.
Proof. unfold Worker.dirty_delete. rewrite list_elem_of_filter. tauto. Qed.

Lemma dirty_delete_NoDup key d : NoDup d -> NoDup (Worker.dirty_delete key d).
Proof. apply NoDup_filter. Qed.

Lemma dirty_set_elem key k d :
  k ∈ Worker.dirty_set key d <-> k ∈ d \/ k = key.
Proof.
  unfold Worker.dirty_set. case_bool_decide as Hin.
  - split; [tauto|]. intros [?| ->]; done.
  - rewrite elem_of_app, list_elem_of_singleton. tauto.
Qed.

Lemma dirty_set_NoDup key d : NoDup d -> NoDup (Worker.dirty_set key d).
Proof.
  intros Hd. unfold Worker.dirty_set. case_bool_decide as Hin; [done|].
  apply NoDup_app. split; [done|]. split; [|apply NoDup_singleton].
  intros k Hk ->%list_elem_of_singleton. done.
Qed.

(** X2.  A [dirty] request is never lost by the worker: when the section
    is asked for ([value] true) and its sub-chunk is loaded, the key is in
    the queue afterwards and nothing is posted; in every other case
    exactly one [sectionFinished] for the key is posted at once.  A
    request with [value] false removes the key from the queue.  No other
    key enters or leaves the queue, the queue stays free of duplicates,
    and the world and the block states are not touched. *)
Theorem worker_mark_queues_or_signals (pos : Vec3.t) (value : bool)
  (s : Worker.t) :
  let x := Vec3.x pos / 16 * 16 in
  let y := Vec3.y pos / 16 * 16 in
  let z := Vec3.z pos / 16 * 16 in
  let key := sectionKey x y z in
  let s' := Worker.setSectionDirty pos value s in
  (if value && has_section s x y z
   then key ∈ Worker.dirtySections s' /\ Worker.outbox s' = Worker.outbox s
   else Worker.outbox s' = Worker.outbox s ++ [MsgSectionFinished key])
  /\ (value = false -> key ∉ Worker.dirtySections s')
  /\ (forall k, k <> key ->
        k ∈ Worker.dirtySections s' <-> k ∈ Worker.dirtySections s)
  /\ (NoDup (Worker.dirtySections s) -> NoDup (Worker.dirtySections s'))
  /\ Worker.world s' = Worker.world s
  /\ Worker.blocksStates s' = Worker.blocksStates s.
Proof.
  intros x y z key s'. subst s'. unfold Worker.setSectionDirty, has_section.
  fold (JS.floor16 (Vec3.x pos)) in x. fold (JS.floor16 (Vec3.y pos)) in y.
  fold (JS.floor16 (Vec3.z pos)) in z. fold x y z. fold key.
  destruct value; cbn [negb andb].
  - destruct (Worker.sectionExists _ y) eqn:E; cbn [Worker.dirtySections
      Worker.outbox Worker.world Worker.blocksStates Worker.with_dirty
      Worker.postMessage].
    + split; [split; [apply dirty_set_elem; by right|done]|].
      split; [done|]. split; [intros k Hk; rewrite dirty_set_elem; tauto|].
      split; [apply dirty_set_NoDup|done].
    + split; [done|]. split; [done|]. split; [done|]. done.
  - cbn [Worker.dirtySections Worker.outbox Worker.world Worker.blocksStates
      Worker.with_dirty Worker.postMessage].
    split; [done|].
    split; [intros _ Hin; apply dirty_delete_elem in Hin; tauto|].
    split; [intros k Hk; rewrite dirty_delete_elem; tauto|].
    split; [apply dirty_delete_NoDup|done].
Qed.

Lemma clear_fold keys s :
  Worker.dirtySections
    (fold_left (fun s key =>
                  Worker.with_dirty
                    (Worker.dirty_delete key (Worker.dirtySections s)) s)
               keys s)
  = filter (fun k => k ∉ keys) (Worker.dirtySections s)
  /\ Worker.outbox (fold_left (fun s key =>
                  Worker.with_dirty
                    (Worker.dirty_delete key (Worker.dirtySections s)) s)
               keys s) = Worker.outbox s
  /\ Worker.world (fold_left (fun s key =>
                  Worker.with_dirty
                    (Worker.dirty_delete key (Worker.dirtySections s)) s)
               keys s) = Worker.world s
  /\ Worker.blocksStates (fold_left (fun s key =>
                  Worker.with_dirty
                    (Worker.dirty_delete key (Worker.dirtySections s)) s)
               keys s) = Worker.blocksStates s.
Proof.
  revert s. induction keys as [|key keys IH]; intros s.
  - cbn [fold_left]. split; [|done].
    symmetry. apply filter_all. intros k _. apply not_elem_of_nil.
  - cbn [fold_left].
    destruct (IH (Worker.with_dirty
                    (Worker.dirty_delete key (Worker.dirtySections s)) s))
      as (Hd & Ho & Hw & Hb).
    rewrite Hd, Ho, Hw, Hb. split; [|done].
    cbn [Worker.with_dirty Worker.dirtySections].
    unfold Worker.dirty_delete. rewrite list_filter_filter.
    apply list_filter_iff. intros k. rewrite not_elem_of_cons. tauto.
Qed.

Lemma clearAllDirtySections_spec s :
  Worker.clearAllDirtySections s
  = Worker.mk (Worker.blocksStates s) (Worker.world s) [] (Worker.outbox s).
Proof.
  unfold Worker.clearAllDirtySections.
  destruct (clear_fold (Worker.dirtySections s) s) as (Hd & Ho & Hw & Hb).
  destruct (fold_left _ _ _) as [b w d o].
  cbn [Worker.dirtySections Worker.outbox Worker.world Worker.blocksStates] in *.
  subst. f_equal.
  apply filter_none. intros k Hk Hn. done.
Qed.

(** X3.  A [reset] makes the worker forget everything but the messages
    it has posted: the world, the block states and the whole dirty queue
    are gone.  Until a [version] arrives the worker then ignores chunks,
    unloads and block updates, a drain does nothing, and a [dirty] request
    is answered at once with [sectionFinished]. *)
Theorem reset_forgets_world_and_queue (s : Worker.t) :
  let s' := Worker.handleMessage MsgReset s in
  s' = Worker.mk None None [] (Worker.outbox s)
  /\ processDirtySections s' = s'
  /\ (forall x z chunk, Worker.handleMessage (MsgChunk x z chunk) s' = s')
  /\ (forall x z, Worker.handleMessage (MsgUnloadChunk x z) s' = s')
  /\ (forall pos stateId,
        Worker.handleMessage (MsgBlockUpdate pos stateId) s' = s')
  /\ (forall x y z value,
        Worker.handleMessage (MsgDirty x y z value) s'
        = Worker.postMessage
            (MsgSectionFinished (WorldRenderer.keyOf (Vec3.mk x y z))) s').
Proof.
  intros s'.
  assert (Hs : s' = Worker.mk None None [] (Worker.outbox s)).
  { subst s'. unfold Worker.handleMessage, Worker.handleMessage_try.
    by rewrite clearAllDirtySections_spec. }
  rewrite Hs. split; [done|]. split; [done|]. split; [done|].
  split; [done|]. split; [done|].
  intros x y z value. unfold Worker.handleMessage, Worker.handleMessage_try,
    Worker.setSectionDirty. by destruct value.
Qed.

(** Whether a section is found depends on the columns of the world only. *)
Lemma missing_columns key s1 s2 w1 w2 :
  Worker.world s1 = Some w1 -> Worker.world s2 = Some w2 ->
  World.columns w1 = World.columns w2 ->
  missing key s1 = missing key s2.
Proof.
  intros H1 H2 Hc. unfold missing, located. rewrite H1, H2.
  destruct (JS.parseInt _) as [x|]; [|done].
  destruct (JS.parseInt _) as [y|]; [|done].
  destruct (JS.parseInt _) as [z|]; [|done].
  unfold World.getColumn. rewrite Hc.
  by destruct (Worker.sectionExists _ _).
Qed.

(** One turn of the drain: the key leaves the queue when its section is
    found, nothing else changes in the queue; a mesher that only reads
    leaves the columns as they are. *)
Lemma processSection_queue blocks key s w :
  reads_only getSectionGeometry ->
  Worker.world s = Some w ->
  Worker.dirtySections (processSection blocks key s)
  = (if missing key s then Worker.dirtySections s
     else Worker.dirty_delete key (Worker.dirtySections s))
  /\ exists w', Worker.world (processSection blocks key s) = Some w'
                /\ World.columns w' = World.columns w.
Proof.
  intros Hro Hw. unfold Worker.processSection, missing, located. rewrite Hw.
  destruct (JS.parseInt _) as [x|]; [|split; [done|by exists w]].
  destruct (JS.parseInt _) as [y|]; [|split; [done|by exists w]].
  destruct (JS.parseInt _) as [z|]; [|split; [done|by exists w]].
  destruct (Worker.sectionExists _ _); [|split; [done|by exists w]].
  pose proof (Hro x y z w blocks) as Hc.
  destruct (getSectionGeometry x y z w blocks) as [w' [message|geometry]];
    (split; [done|by exists w']).
Qed.

Lemma drain_queue blocks keys s w :
  reads_only getSectionGeometry ->
  Worker.world s = Some w ->
  Worker.dirtySections
    (fold_left (fun s key => processSection blocks key s) keys s)
  = filter (fun k => k ∉ keys \/ missing k s = true) (Worker.dirtySections s)
  /\ exists w', Worker.world
                  (fold_left (fun s key => processSection blocks key s) keys s)
                = Some w'
                /\ World.columns w' = World.columns w.
Proof.
  intros Hro. revert s w. induction keys as [|key keys IH]; intros s w Hw.
  - cbn [fold_left]. split; [|by exists w].
    symmetry. apply filter_all. intros k _. left. apply not_elem_of_nil.
  - cbn [fold_left].
    destruct (processSection_queue blocks key s w Hro Hw) as (Hq & w1 & Hw1 & Hc1).
    destruct (IH _ w1 Hw1) as (Hd & w2 & Hw2 & Hc2).
    split; [|exists w2; split; [done|congruence]].
    rewrite Hd, Hq.
    assert (Hm : forall k, missing k (processSection blocks key s) = missing k s).
    { intros k. by apply missing_columns with (w1 := w1) (w2 := w). }
    destruct (missing key s) eqn:Ekey.
    + apply list_filter_iff. intros k. rewrite Hm, not_elem_of_cons.
      split; [|tauto]. intros [Hk|Hk]; [|tauto].
      destruct (decide (k = key)) as [->|Hne]; [by right|by left].
    + unfold Worker.dirty_delete. rewrite list_filter_filter.
      apply list_filter_iff. intros k. rewrite Hm, not_elem_of_cons.
      split; [tauto|]. intros [Hk|Hk]; [tauto|].
      split; [by right|]. intros ->. congruence.
Qed.

Lemma drain_blocksStates blocks keys s :
  Worker.blocksStates
    (fold_left (fun s key => processSection blocks key s) keys s)
  = Worker.blocksStates s.
Proof.
  revert s. induction keys as [|key keys IH]; intros s; [done|].
  cbn [fold_left]. rewrite IH. unfold Worker.processSection.
  destruct (Worker.world s) as [w|]; [|done].
  destruct (JS.parseInt _) as [x|]; [|done].
  destruct (JS.parseInt _) as [y|]; [|done].
  destruct (JS.parseInt _) as [z|]; [|done].
  destruct (Worker.sectionExists _ _); [|done].
  by destruct (getSectionGeometry x y z w blocks) as [w' [message|geometry]].
Qed.

Lemma drain_missing_outbox blocks keys s :
  (forall k, k ∈ keys -> missing k s = true) ->
  fold_left (fun s key => processSection blocks key s) keys s
  = Worker.mk (Worker.blocksStates s) (Worker.world s)
      (Worker.dirtySections s)
      (Worker.outbox s ++ (MsgSectionFinished <$> keys)).
Proof.
  revert s. induction keys as [|key keys IH]; intros s Hk.
  - cbn [fold_left fmap list_fmap]. rewrite app_nil_r. by destruct s.
  - cbn [fold_left].
    assert (Hone : processSection blocks key s
                   = Worker.postMessage (MsgSectionFinished key) s).
    { specialize (Hk key (list_elem_of_here _ _)).
      unfold missing, located in Hk. unfold Worker.processSection.
      destruct (Worker.world s) as [w|]; [|done].
      destruct (JS.parseInt _) as [x|]; [|done].
      destruct (JS.parseInt _) as [y|]; [|done].
      destruct (JS.parseInt _) as [z|]; [|done].
      by destruct (Worker.sectionExists _ _). }
    rewrite Hone, IH.
    + cbn [Worker.postMessage Worker.blocksStates Worker.world
           Worker.dirtySections Worker.outbox].
      rewrite fmap_cons, <- app_assoc. done.
    + intros k Hin. specialize (Hk k (list_elem_of_further _ _ _ Hin)).
      by rewrite <- Hk.
Qed.

(** X4.  With a mesher that only reads the world, a drain leaves in the
    queue exactly the keys whose section it did not find (the column or
    the sub-chunk is not loaded), in their order; every other key is
    gone.  The keys left behind are signalled again by the next drain: it
    posts one [sectionFinished] for each of them and changes nothing
    else. *)
Theorem drain_leaves_missing_sections_queued
  (s : Worker.t) (w : World.t) (blocks : Json) :
  reads_only getSectionGeometry ->
  Worker.world s = Some w -> Worker.blocksStates s = Some blocks ->
  let s1 := processDirtySections s in
  Worker.dirtySections s1
  = filter (fun k => missing k s = true) (Worker.dirtySections s)
  /\ Worker.dirtySections (processDirtySections s1) = Worker.dirtySections s1
  /\ Worker.outbox (processDirtySections s1)
     = Worker.outbox s1 ++ (MsgSectionFinished <$> Worker.dirtySections s1).
Proof.
  intros Hro Hw Hb s1.
  assert (H1 : s1 = fold_left (fun s key => processSection blocks key s)
                      (Worker.dirtySections s) s).
  { subst s1. unfold Worker.processDirtySections. by rewrite Hw, Hb. }
  destruct (drain_queue blocks (Worker.dirtySections s) s w Hro Hw)
    as (Hq & w1 & Hw1 & Hc1).
  rewrite <- H1 in Hq, Hw1.
  assert (Hb1 : Worker.blocksStates s1 = Some blocks).
  { rewrite H1, drain_blocksStates. done. }
  assert (Hleft : Worker.dirtySections s1
                  = filter (fun k => missing k s = true) (Worker.dirtySections s)).
  { rewrite Hq. apply filter_ext_in. intros k Hk. tauto. }
  split; [exact Hleft|].
  assert (Hnext : processDirtySections s1
                  = Worker.mk (Worker.blocksStates s1) (Worker.world s1)
                      (Worker.dirtySections s1)
                      (Worker.outbox s1
                       ++ (MsgSectionFinished <$> Worker.dirtySections s1))).
  { transitivity (fold_left (fun s key => processSection blocks key s)
                    (Worker.dirtySections s1) s1).
    { unfold Worker.processDirtySections. by rewrite Hw1, Hb1. }
    apply drain_missing_outbox. intros k Hk.
    rewrite (missing_columns k s1 s w1 w Hw1 Hw Hc1).
    rewrite Hleft in Hk. by apply list_elem_of_filter in Hk as [? _]. }
  by rewrite Hnext.
Qed.

End WithLibraries.

(** A queue of two sections: the column of the first is loaded, the
    column of the second is not. *)
Lemma drain_leaves_missing_sections_queued_witness :
  let s := Worker.mk (H := Toy.libraries) (Some "{}"%string) (Some Toy.world)
             [sectionKey 0 0 0; sectionKey 16 0 0] [] in
  let s1 := Worker.processDirtySections Toy.mesher s in
  Worker.dirtySections s1
  = filter (fun k => missing k s = true) (Worker.dirtySections s)
  /\ Worker.dirtySections (Worker.processDirtySections Toy.mesher s1)
     = Worker.dirtySections s1
  /\ Worker.outbox (Worker.processDirtySections Toy.mesher s1)
     = Worker.outbox s1 ++ (MsgSectionFinished <$> Worker.dirtySections s1).
Proof.
  intros s.
  apply (drain_leaves_missing_sections_queued (H := Toy.libraries)
           Toy.mesher s Toy.world "{}"%string).
  - intros x y z w blocks. reflexivity.
  - reflexivity.
  - reflexivity.
Defined.

Example stale_key_signalled_again :
  let s := Worker.mk (H := Toy.libraries) (Some "{}"%string) (Some Toy.world)
             [sectionKey 0 0 0; sectionKey 16 0 0] [] in
  let s1 := Worker.processDirtySections Toy.mesher s in
  Worker.dirtySections s1 = ["16,0,0"%string]
  /\ Worker.outbox (Worker.processDirtySections Toy.mesher s1)
     = Worker.outbox s1 ++ [MsgSectionFinished "16,0,0"].
Proof. vm_compute. split; reflexivity. Qed.

End QueueFacts.

(** ** The cache as a finite map *)
Module LRUContentsFacts.
Import LRUContents.
Section Facts.
Context {K V : Type} `{EqDecision K}.
Implicit Types (m : JS.dict K V) (c : LRUCache.t K V) (k : K) (v : V).

Lemma get_absent m k : JS.dict_has m k = false -> JS.dict_get m k = None.
Proof.
  induction m as [|[k' v'] m IH]; [done|].
  cbn [JS.dict_has existsb fst JS.dict_get]. intros Hh.
  apply orb_false_iff in Hh as [Hk Hm].
  apply bool_decide_eq_false in Hk. rewrite decide_False by done. by apply IH.
Qed.

Lemma has_get m k : JS.dict_has m k = true -> is_Some (JS.dict_get m k).
Proof.
  induction m as [|[k' v'] m IH]; [done|].
  cbn [JS.dict_has existsb fst JS.dict_get]. intros Hh.
  destruct (decide (k' = k)) as [->|Hne]; [eauto|].
  apply orb_true_iff in Hh as [Hk|Hm]; [|by apply IH].
  by apply bool_decide_eq_true in Hk.
Qed.

Lemma get_delete m k k' :
  JS.dict_get (JS.dict_delete m k) k'
  = if decide (k' = k) then None else JS.dict_get m k'.
Proof.
  unfold JS.dict_delete. induction m as [|[a v'] m IH].
  - by destruct (decide (k' = k)).
  - destruct (decide (a ≠ k)) as [Hne|Heq].
    + rewrite (filter_cons_True (fun e : K * V => e.1 ≠ k)) by done.
      cbn [JS.dict_get].
      destruct (decide (a = k')) as [->|Hk']; [by rewrite decide_False|].
      exact IH.
    + rewrite (filter_cons_False (fun e : K * V => e.1 ≠ k)) by done.
      apply dec_stable in Heq. subst a. cbn [JS.dict_get].
      etrans; [exact IH|].
      destruct (decide (k' = k)) as [->|Hk']; [done|].
      by rewrite decide_False.
Qed.

Lemma get_set m k v k' :
  JS.dict_get (JS.dict_set m k v) k'
  = if decide (k' = k) then Some v else JS.dict_get m k'.
Proof.
  induction m as [|[a v'] m IH].
  - cbn [JS.dict_set JS.dict_get].
    destruct (decide (k = k')) as [->|Hne].
    + by rewrite decide_True.
    + by rewrite decide_False.
  - cbn [JS.dict_set]. destruct (decide (a = k)) as [->|Hne].
    + cbn [JS.dict_get]. destruct (decide (k = k')) as [->|Hk'].
      * by rewrite decide_True.
      * by rewrite decide_False.
    + cbn [JS.dict_get]. rewrite IH.
      destruct (decide (a = k')) as [->|Hk']; [|done].
      by rewrite decide_False.
Qed.

Lemma has_stored c k :
  LRUCache.has c k = true <-> is_Some (stored c k).
Proof.
  unfold LRUCache.has, stored. split; [apply has_get|].
  intros Hs. destruct (JS.dict_has _ _) eqn:E; [done|].
  apply get_absent in E. rewrite E in Hs. by destruct Hs.
Qed.

(** What [get] returns is what is stored. *)
Lemma get_stored c k : (LRUCache.get c k).1 = stored c k.
Proof.
  unfold LRUCache.get, stored.
  destruct (JS.dict_has _ _) eqn:E; cbn [negb].
  - by destruct (JS.dict_get _ _).
  - by rewrite get_absent.
Qed.

Lemma get_none_same c k : (LRUCache.get c k).1 = None -> (LRUCache.get c k).2 = c.
Proof.
  unfold LRUCache.get. destruct (JS.dict_has _ _); cbn [negb]; [|done].
  by destruct (JS.dict_get _ _).
Qed.

(** A read moves its key and changes no stored value. *)
Lemma stored_get c k k' : stored (LRUCache.get c k).2 k' = stored c k'.
Proof.
  unfold LRUCache.get, stored.
  destruct (JS.dict_has _ _) eqn:E; cbn [negb]; [|done].
  destruct (JS.dict_get (LRUCache.cache c) k) as [v|] eqn:Ev; [|done].
  cbn [snd LRUCache.cache]. rewrite get_set, get_delete.
  destruct (decide (k' = k)) as [->|]; done.
Qed.

Lemma stored_set c k v k' :
  stored (LRUCache.set c k v) k'
  = if decide (k' = k) then Some v
    else if decide (evicted c k = Some k') then None
    else stored c k'.
Proof.
  unfold LRUCache.set, stored, evicted, LRUCache.has, LRUCache.keys.
  cbn [LRUCache.cache]. rewrite get_set.
  destruct (decide (k' = k)) as [->|Hne]; [done|].
  destruct (JS.dict_has _ _) eqn:Eh.
  - rewrite get_delete, decide_False by done. by rewrite decide_False.
  - destruct (_ <=? _)%Z; [|by rewrite decide_False].
    destruct (LRUCache.cache c) as [|[first v0] rest] eqn:Ec.
    + by rewrite decide_False.
    + cbn [fmap list_fmap head fst]. rewrite get_delete.
      destruct (decide (k' = first)) as [->|Hf].
      * by rewrite decide_True.
      * rewrite decide_False; [done|]. intros [= ->]. done.
Qed.

Lemma length_delete m k : (length (JS.dict_delete m k) <= length m)%nat.
Proof. unfold JS.dict_delete. apply length_filter. Qed.

Lemma length_delete_present m k :
  JS.dict_has m k = true -> (length (JS.dict_delete m k) < length m)%nat.
Proof.
  intros Hh. unfold JS.dict_has in Hh. apply existsb_exists in Hh as [e [Hin He]].
  apply bool_decide_eq_true in He. unfold JS.dict_delete.
  apply length_filter_lt with (x := e).
  - by apply list_elem_of_In.
  - intros Hne. done.
Qed.

Lemma has_delete_other m k k' :
  k' <> k -> JS.dict_has (JS.dict_delete m k) k' = JS.dict_has m k'.
Proof.
  intros Hne. unfold JS.dict_delete. induction m as [|[a x] m IH]; [done|].
  destruct (decide (a ≠ k)) as [Ha|Ha].
  - rewrite (filter_cons_True (fun e : K * V => e.1 ≠ k)) by done.
    cbn [JS.dict_has existsb fst]. f_equal. exact IH.
  - rewrite (filter_cons_False (fun e : K * V => e.1 ≠ k)) by done.
    apply dec_stable in Ha. subst a.
    cbn [JS.dict_has existsb fst]. rewrite bool_decide_eq_false_2 by done.
    exact IH.
Qed.

Lemma has_delete_same m k : JS.dict_has (JS.dict_delete m k) k = false.
Proof.
  destruct (JS.dict_has (JS.dict_delete m k) k) eqn:E; [|done].
  apply has_get in E. rewrite get_delete, decide_True in E by done.
  by destruct E.
Qed.

Lemma length_set m k v :
  length (JS.dict_set m k v)
  = if JS.dict_has m k then length m else S (length m).
Proof.
  induction m as [|[a x] m IH]; [done|].
  cbn [JS.dict_set JS.dict_has existsb fst].
  destruct (decide (a = k)) as [->|Hne].
  - by rewrite bool_decide_eq_true_2.
  - rewrite bool_decide_eq_false_2 by done. cbn [orb length]. rewrite IH.
    unfold JS.dict_has. by destruct (existsb _ m).
Qed.

Lemma has_set m k v : JS.dict_has (JS.dict_set m k v) k = true.
Proof.
  destruct (JS.dict_has (JS.dict_set m k v) k) eqn:E; [done|].
  apply get_absent in E. rewrite get_set, decide_True in E by done. done.
Qed.

Lemma size_get c k : (LRUCache.size (LRUCache.get c k).2 <= LRUCache.size c)%nat.
Proof.
  unfold LRUCache.get, LRUCache.size.
  destruct (JS.dict_has _ _) eqn:E; cbn [negb]; [|done].
  destruct (JS.dict_get _ _) as [v|]; [|done].
  cbn [snd LRUCache.cache]. rewrite length_set, has_delete_same.
  apply length_delete_present in E. lia.
Qed.

Lemma size_set c k v :
  (1 <= LRUCache.maxSize c)%Z ->
  (Z.of_nat (LRUCache.size (LRUCache.set c k v))
   <= Z.max (Z.of_nat (LRUCache.size c)) (LRUCache.maxSize c))%Z.
Proof.
  intros Hcap. unfold LRUCache.set, LRUCache.size. cbn [LRUCache.cache].
  destruct (JS.dict_has (LRUCache.cache c) k) eqn:E.
  - rewrite length_set, has_delete_same.
    apply length_delete_present in E. lia.
  - destruct (_ <=? _)%Z eqn:Efull.
    + apply Z.leb_le in Efull.
      destruct (LRUCache.cache c) as [|[first v0] rest] eqn:Ec.
      * rewrite length_set. cbn [JS.dict_has existsb length]. lia.
      * assert (Hf : JS.dict_has ((first, v0) :: rest) first = true).
        { cbn [JS.dict_has existsb fst]. by rewrite bool_decide_eq_true_2. }
        apply length_delete_present in Hf. rewrite length_set.
        destruct (JS.dict_has (JS.dict_delete _ _) k); lia.
    + apply Z.leb_gt in Efull. rewrite length_set, E. lia.
Qed.

Lemma has_get_hit c k v :
  (LRUCache.get c k).1 = Some v -> LRUCache.has (LRUCache.get c k).2 k = true.
Proof.
  unfold LRUCache.get, LRUCache.has.
  destruct (JS.dict_has (LRUCache.cache c) k) eqn:E; cbn [negb]; [|done].
  destruct (JS.dict_get _ _) as [v'|]; [|done].
  intros _. cbn [snd LRUCache.cache]. apply has_set.
Qed.

Lemma maxSize_get c k : LRUCache.maxSize (LRUCache.get c k).2 = LRUCache.maxSize c.
Proof.
  unfold LRUCache.get. destruct (JS.dict_has _ _); cbn [negb]; [|done].
  by destruct (JS.dict_get _ _).
Qed.

(** X5.  The cache reads back the last value written under a key, for
    every capacity.  Writing [k] changes what is stored under another
    key only for the one key it evicts: the first key of the map, when
    [k] is new and the cache is full.  A read changes no stored value,
    and a read that misses leaves the cache as it is. *)
Theorem cache_reads_last_write c k v :
  (LRUCache.get (LRUCache.set c k v) k).1 = Some v
  /\ (forall k', k' <> k ->
        (LRUCache.get (LRUCache.set c k v) k').1
        = if decide (evicted c k = Some k') then None
          else (LRUCache.get c k').1)
  /\ (forall k1 k2,
        (LRUCache.get (LRUCache.get c k1).2 k2).1 = (LRUCache.get c k2).1)
  /\ (forall k1, (LRUCache.get c k1).1 = None -> (LRUCache.get c k1).2 = c).
Proof.
  split; [|split; [|split]].
  - by rewrite get_stored, stored_set, decide_True.
  - intros k' Hne. by rewrite !get_stored, stored_set, decide_False.
  - intros k1 k2. by rewrite !get_stored, stored_get.
  - intros k1. apply get_none_same.
Qed.

(** X6.  [delete] reports whether the key was there and removes that key
    only: every other key keeps its value, and deleting an absent key
    leaves the cache as it is.  [clear] empties the cache.  Neither
    changes the capacity. *)
Theorem cache_delete_removes_one_key c k :
  (LRUCache.delete c k).1 = LRUCache.has c k
  /\ LRUCache.has (LRUCache.delete c k).2 k = false
  /\ (forall k', k' <> k ->
        (LRUCache.get (LRUCache.delete c k).2 k').1 = (LRUCache.get c k').1)
  /\ (LRUCache.has c k = false -> (LRUCache.delete c k).2 = c)
  /\ (LRUCache.has c k = true ->
      (LRUCache.size (LRUCache.delete c k).2 < LRUCache.size c)%nat)
  /\ LRUCache.size (LRUCache.clear c) = 0%nat
  /\ (forall k', LRUCache.get (LRUCache.clear c) k' = (None, LRUCache.clear c))
  /\ LRUCache.maxSize (LRUCache.delete c k).2 = LRUCache.maxSize c
  /\ LRUCache.maxSize (LRUCache.clear c) = LRUCache.maxSize c.
Proof.
  split; [done|]. split; [apply has_delete_same|].
  split; [|split; [|split; [|done]]].
  - intros k' Hne. rewrite !get_stored. unfold stored, LRUCache.delete.
    cbn [snd LRUCache.cache]. by rewrite get_delete, decide_False.
  - intros Hh. unfold LRUCache.delete. cbn [snd]. destruct c as [n m].
    cbn [LRUCache.maxSize LRUCache.cache LRUCache.has] in *. f_equal.
    unfold JS.dict_delete. apply ListFacts.filter_all.
    intros [a x] Hin Heq. cbn [fst] in Heq. subst a.
    apply LRUFacts.has_false_iff in Hh. apply Hh.
    apply list_elem_of_fmap. by exists (k, x).
  - intros Hh. by apply length_delete_present.
Qed.

End Facts.
End LRUContentsFacts.

(** ** The columns and the block cache of a world *)
Module WorldStoreFacts.
Import LRUContents LRUContentsFacts WorldOps.
Section WithLibraries.
Context `{World.Libraries}.

(** X7.  A column added at (x, z) is the one [getColumn] finds there, and
    it replaces what was loaded there before; [removeColumn] takes it away
    again.  Neither touches the column of any other (x', z'), nor the
    block cache. *)
Theorem column_store_round_trip
  (w w' : World.t) (x z : Z) (json : Json) (chunk : World.Column) :
  World.addColumn w x z json = inr (chunk, w') ->
  World.fromJson (World.version w) json = inr chunk
  /\ World.getColumn w' x z = Some chunk
  /\ World.getColumn (World.removeColumn w' x z) x z = None
  /\ (forall x' z', (x', z') <> (x, z) ->
        World.getColumn w' x' z' = World.getColumn w x' z'
        /\ World.getColumn (World.removeColumn w' x z) x' z'
           = World.getColumn w x' z')
  /\ World.blockCache w' = World.blockCache w
  /\ World.blockCache (World.removeColumn w' x z) = World.blockCache w.
Proof.
  unfold World.addColumn. destruct (World.fromJson _ _) as [e|c]; [done|].
  intros [= -> <-].
  assert (Hne : forall x' z', (x', z') <> (x, z) ->
                  World.columnKey x z <> World.columnKey x' z').
  { intros x' z' Hd Hk. apply JSFacts.columnKey_inj in Hk as [-> ->]. done. }
  unfold World.removeColumn, World.getColumn. cbn [World.columns].
  rewrite lookup_insert_eq. cbn [World.columns World.blockCache].
  split; [done|]. split; [done|]. split; [apply lookup_delete_eq|].
  split; [|done].
  intros x' z' Hd. specialize (Hne x' z' Hd).
  rewrite lookup_delete_ne, lookup_insert_ne by done. done.
Qed.

(** What [getBlock] does when the column is loaded, step by step. *)
Lemma getBlock_loaded (w : World.t) (pos : Vec3.t) (column : World.Column) :
  World.columns w
    !! World.columnKey (JS.floor16 (Vec3.x pos) * 16)
                       (JS.floor16 (Vec3.z pos) * 16) = Some column ->
  let loc := Vec3.floored pos in
  let local := World.posInChunk loc in
  let sid := World.col_getBlockStateId column local in
  let fresh := World.col_getBlock column local in
  let b0 :=
    match stored (World.blockCache w) sid with
    | Some b => b
    | None => World.mkBlock (World.stateId fresh) (World.shapes fresh)
                (Some (World.isCube (World.shapes fresh)))
                (World.position fresh) (World.biome fresh)
    end in
  let cache0 :=
    match stored (World.blockCache w) sid with
    | Some b => (LRUCache.get (World.blockCache w) sid).2
    | None => LRUCache.set (World.blockCache w) sid b0
    end in
  let bio :=
    match World.biomeCache w !! World.col_getBiome column local with
    | Some bm => Some bm
    | None => World.biomeCache w !! 1
    end in
  let block := World.mkBlock (World.stateId b0) (World.shapes b0)
                 (World.isCubeField b0) (Some loc) bio in
  World.getBlock w pos
  = (Some block,
     World.mk (World.columns w) (World.write_through cache0 sid block)
              (World.biomeCache w) (World.version w)).
Proof.
  intros Hc loc local sid fresh b0 cache0 bio block.
  unfold World.getBlock. rewrite Hc. fold loc local sid.
  pose proof (get_stored (World.blockCache w) sid) as Hg.
  pose proof (get_none_same (World.blockCache w) sid) as Hn.
  subst block cache0 b0.
  destruct (LRUCache.get (World.blockCache w) sid) as [hit cache1] eqn:E.
  cbn [fst snd] in Hg, Hn. rewrite <- Hg.
  destruct hit as [b|]; [done|]. by rewrite Hn.
Qed.

(** X8.  When the column of [pos] is loaded, [getBlock] returns a block
    positioned at [pos], and that block is the entry of the block cache
    under the state id found at [pos].  If the cache already held a block
    for this state id, the block returned has its state id, shapes and
    cube flag, whatever position it was made for, and the column is not
    asked for a block; otherwise the block comes from the column and its
    cube flag is computed from its shapes.  The columns are not
    changed. *)
Theorem getBlock_shares_block_by_state_id
  (w : World.t) (pos : Vec3.t) (column : World.Column) :
  World.columns w
    !! World.columnKey (Vec3.x pos / 16 * 16) (Vec3.z pos / 16 * 16)
  = Some column ->
  let local := Vec3.mk (Vec3.x pos mod 16) (Vec3.y pos) (Vec3.z pos mod 16) in
  let sid := World.col_getBlockStateId column local in
  exists block,
    (World.getBlock w pos).1 = Some block
    /\ World.position block = Some (Vec3.floored pos)
    /\ stored (World.blockCache (World.getBlock w pos).2) sid = Some block
    /\ match stored (World.blockCache w) sid with
       | Some cached =>
           World.stateId block = World.stateId cached
           /\ World.shapes block = World.shapes cached
           /\ World.isCubeField block = World.isCubeField cached
       | None =>
           let fresh := World.col_getBlock column local in
           World.stateId block = World.stateId fresh
           /\ World.shapes block = World.shapes fresh
           /\ World.isCubeField block
              = Some (World.isCube (World.shapes fresh))
       end
    /\ World.columns (World.getBlock w pos).2 = World.columns w.
Proof.
  intros Hc local sid.
  pose proof (getBlock_loaded w pos column Hc) as Hg. cbv zeta in Hg.
  assert (Hl : World.posInChunk (Vec3.floored pos) = local).
  { by rewrite WorldFacts.posInChunk_local. }
  rewrite Hl in Hg. fold sid in Hg. rewrite Hg. eexists. split; [reflexivity|].
  cbn [fst snd World.position World.blockCache World.columns World.stateId
       World.shapes World.isCubeField].
  split; [done|]. split.
  - unfold stored, World.write_through. cbn [LRUCache.cache].
    by rewrite get_set, decide_True.
  - split; [|done]. by destruct (stored (World.blockCache w) sid).
Qed.

Lemma bounded_getBlock w pos : bounded w -> bounded (World.getBlock w pos).2.
Proof.
  intros [Hcap Hsize].
  destruct (World.columns w
              !! World.columnKey (JS.floor16 (Vec3.x pos) * 16)
                                 (JS.floor16 (Vec3.z pos) * 16))
    as [column|] eqn:Hc.
  - rewrite (getBlock_loaded w pos column Hc). cbv zeta.
    set (sid := World.col_getBlockStateId column _).
    unfold bounded, World.write_through, LRUCache.size.
    cbn [snd World.blockCache LRUCache.maxSize LRUCache.cache].
    pose proof (get_stored (World.blockCache w) sid) as Hg.
    destruct (stored (World.blockCache w) sid) as [b|] eqn:Es.
    + rewrite maxSize_get. split; [done|].
      pose proof (has_get_hit _ _ _ Hg) as Hh. unfold LRUCache.has in Hh.
      rewrite length_set, Hh.
      pose proof (size_get (World.blockCache w) sid) as Hle.
      unfold LRUCache.size in Hle. unfold LRUCache.size in Hsize. lia.
    + split; [done|].
      rewrite length_set.
      match goal with
      | |- context [LRUCache.set ?c ?k ?v] =>
          pose proof (size_set c k v) as Hle;
          assert (Hh : JS.dict_has (LRUCache.cache (LRUCache.set c k v)) k = true)
            by apply has_set
      end.
      rewrite Hh. unfold LRUCache.size in Hle, Hsize.
      rewrite Hcap in Hle. unfold Constants.BLOCK_CACHE_MAX_SIZE in *. lia.
  - unfold World.getBlock. by rewrite Hc.
Qed.

Lemma bounded_step w o : bounded w -> bounded (step w o).
Proof.
  intros Hb. destruct o as [x z json|x z|pos sid|pos|]; cbn [step].
  - unfold World.addColumn. by destruct (World.fromJson _ _).
  - unfold World.removeColumn. by destruct (_ !! _).
  - unfold World.setBlockStateId. by destruct (_ !! _).
  - by apply bounded_getBlock.
  - destruct Hb as [Hcap _]. unfold bounded, World.clear, LRUCache.clear,
      LRUCache.size. cbn [World.blockCache LRUCache.maxSize LRUCache.cache length].
    split; [done|]. unfold Constants.BLOCK_CACHE_MAX_SIZE. lia.
Qed.

(** X9.  However a world is used after its construction (columns added
    and removed, blocks written and read, the world cleared), its block
    cache never holds more than [BLOCK_CACHE_MAX_SIZE] entries, and its
    capacity stays at that constant. *)
Theorem block_cache_never_exceeds_max
  (v : Version) (w0 : World.t) (ops : list Op) :
  World.new v = inr w0 ->
  LRUCache.maxSize (World.blockCache (run w0 ops))
  = Constants.BLOCK_CACHE_MAX_SIZE
  /\ Z.of_nat (LRUCache.size (World.blockCache (run w0 ops)))
     <= Constants.BLOCK_CACHE_MAX_SIZE.
Proof.
  intros Hnew.
  assert (H0 : bounded w0).
  { unfold World.new in Hnew. destruct (World.mcDataBiomes v); [done|].
    injection Hnew as <-. split; [done|].
    unfold Constants.BLOCK_CACHE_MAX_SIZE. cbn. lia. }
  clear Hnew. revert w0 H0. unfold run.
  induction ops as [|o ops IH]; intros w0 H0; [exact H0|].
  cbn [fold_left]. apply IH. by apply bounded_step.
Qed.

End WithLibraries.

Lemma column_store_round_trip_witness :
  exists w',
    World.addColumn (H := Toy.libraries) Toy.world 16 0 "{}" = inr (∅, w')
    /\ World.getColumn w' 16 0 = Some ∅
    /\ World.getColumn (World.removeColumn w' 16 0) 16 0 = None.
Proof.
  eexists. split; [reflexivity|].
  destruct (column_store_round_trip (H := Toy.libraries) Toy.world _ 16 0
              "{}"%string ∅ eq_refl) as (_ & Hget & Hrem & _).
  split; [exact Hget|exact Hrem].
Defined.

Lemma getBlock_shares_block_by_state_id_witness :
  exists block,
    (World.getBlock (H := Toy.libraries) Toy.world (Vec3.mk 3 70 5)).1
    = Some block
    /\ World.position block = Some (Vec3.mk 3 70 5).
Proof.
  destruct (getBlock_shares_block_by_state_id (H := Toy.libraries) Toy.world
              (Vec3.mk 3 70 5) ∅) as (block & Hb & Hp & _).
  - vm_compute. reflexivity.
  - exists block. split; [exact Hb|exact Hp].
Defined.

Lemma block_cache_never_exceeds_max_witness :
  exists w0,
    World.new (H := Toy.libraries) "1.16.4" = inr w0
    /\ Z.of_nat (LRUCache.size (World.blockCache
         (run w0
            [OpAddColumn 0 0 "{}"; OpGetBlock (Vec3.mk 3 70 5);
             OpSetBlockStateId (Vec3.mk 3 70 5) 7;
             OpGetBlock (Vec3.mk 3 70 5)])))
       <= Constants.BLOCK_CACHE_MAX_SIZE.
Proof.
  eexists. split; [reflexivity|].
  apply (block_cache_never_exceeds_max (H := Toy.libraries) "1.16.4"%string).
  reflexivity.
Defined.

End WorldStoreFacts.

(** ** Disposal of a material and of a tree of objects *)
Module DisposeTreeFacts.
Import Dispose Releases Trees Scene.

Lemma release_slot_same m g prop : slot (release_slot m g prop) m prop = None.
Proof.
  unfold release_slot. destruct (slot g m prop) as [t|] eqn:E; [|done].
  unfold slot, clear_slot. cbn [materials emit].
  rewrite lookup_insert_eq. cbn. apply lookup_delete_eq.
Qed.

Lemma release_slot_other m g prop q :
  q <> prop -> slot (release_slot m g prop) m q = slot g m q.
Proof.
  intros Hne. unfold release_slot. destruct (slot g m prop) as [t|] eqn:E; [|done].
  unfold slot, clear_slot. cbn [materials emit].
  rewrite lookup_insert_eq. cbn. by apply lookup_delete_ne.
Qed.

Lemma release_slot_material m g prop m' q :
  m' <> m -> slot (release_slot m g prop) m' q = slot g m' q.
Proof.
  intros Hne. unfold release_slot. destruct (slot g m prop) as [t|] eqn:E; [|done].
  unfold slot, clear_slot. cbn [materials emit].
  by rewrite lookup_insert_ne.
Qed.

Lemma release_slot_trace m g prop :
  trace (release_slot m g prop)
  = trace g ++ (TextureDispose <$> option_list (slot g m prop)).
Proof.
  unfold release_slot. destruct (slot g m prop) as [t|]; cbn.
  - done.
  - by rewrite app_nil_r.
Qed.

Lemma release_all m props g :
  NoDup props ->
  trace (fold_left (release_slot m) props g)
  = trace g ++ (TextureDispose <$> omap (slot g m) props)
  /\ (forall q, slot (fold_left (release_slot m) props g) m q
                = if bool_decide (q ∈ props) then None else slot g m q)
  /\ (forall m' q, m' <> m ->
        slot (fold_left (release_slot m) props g) m' q = slot g m' q).
Proof.
  intros Hnd. revert g. induction Hnd as [|p props Hp Hnd IH]; intros g.
  - cbn [fold_left omap list_omap fmap list_fmap]. rewrite app_nil_r.
    split; [done|]. split; [|done]. intros q.
    by rewrite bool_decide_eq_false_2 by apply not_elem_of_nil.
  - cbn [fold_left]. destruct (IH (release_slot m g p)) as (Ht & Hs & Ho).
    split; [|split].
    + rewrite Ht, release_slot_trace, <- app_assoc. f_equal.
      assert (Hsame : omap (slot (release_slot m g p) m) props
                      = omap (slot g m) props).
      { apply list_omap_ext. apply Forall2_same_length_lookup_2; [done|].
        intros i q q' Hq Hq'. rewrite Hq in Hq'. injection Hq' as <-.
        apply release_slot_other. intros ->.
        apply Hp. by eapply list_elem_of_lookup_2. }
      rewrite Hsame. cbn [omap list_omap].
      destruct (slot g m p); reflexivity.
    + intros q. rewrite Hs. destruct (decide (q = p)) as [->|Hne].
      * rewrite (bool_decide_eq_true_2 (p ∈ p :: props)) by left.
        rewrite release_slot_same. by destruct (bool_decide _).
      * rewrite release_slot_other by done.
        destruct (bool_decide (q ∈ props)) eqn:E.
        -- apply bool_decide_eq_true in E.
           by rewrite bool_decide_eq_true_2 by (by right).
        -- apply bool_decide_eq_false in E.
           rewrite bool_decide_eq_false_2; [done|].
           rewrite not_elem_of_cons. done.
    + intros m' q Hne. rewrite Ho by done. by apply release_slot_material.
Qed.

Lemma textureProperties_NoDup : NoDup textureProperties.
Proof. apply (bool_decide_unpack (NoDup textureProperties)). vm_compute. exact I. Qed.

(** X10.  [disposeMaterial] releases every texture of the material: each
    texture found in one of the thirteen texture properties is disposed,
    in the order of the properties, then the material; afterwards all
    thirteen properties are empty.  The other properties of the material
    and all properties of every other material are as they were. *)
Theorem disposeMaterial_releases_every_texture (m : nat) (g : Gpu) :
  let g' := disposeMaterial (Some m) g in
  trace g'
  = trace g ++ (TextureDispose <$> omap (slot g m) textureProperties)
            ++ [MaterialDispose m]
  /\ (forall prop, prop ∈ textureProperties -> slot g' m prop = None)
  /\ (forall prop, prop ∉ textureProperties -> slot g' m prop = slot g m prop)
  /\ (forall m' prop, m' <> m -> slot g' m' prop = slot g m' prop).
Proof.
  intros g'.
  destruct (release_all m textureProperties g textureProperties_NoDup)
    as (Ht & Hs & Ho).
  assert (Hg : g' = emit (MaterialDispose m)
                      (fold_left (release_slot m) textureProperties g))
    by reflexivity.
  rewrite Hg. unfold emit at 1. cbn [trace]. unfold slot at 1 3 5.
  cbn [materials]. fold (slot (fold_left (release_slot m) textureProperties g)).
  split; [by rewrite Ht, <- app_assoc|].
  split; [|split].
  - intros prop Hin. etrans; [apply Hs|]. by rewrite bool_decide_eq_true_2.
  - intros prop Hin. etrans; [apply Hs|]. by rewrite bool_decide_eq_false_2.
  - intros m' prop Hne. by apply Ho.
Qed.

Lemma disposeMaterial_trace m g :
  trace (disposeMaterial (Some m) g)
  = trace g ++ (TextureDispose <$> omap (slot g m) textureProperties)
            ++ [MaterialDispose m].
Proof.
  destruct (release_all m textureProperties g textureProperties_NoDup)
    as (Ht & _).
  change (disposeMaterial (Some m) g)
    with (emit (MaterialDispose m)
            (fold_left (release_slot m) textureProperties g)).
  unfold emit. cbn [trace]. by rewrite Ht, <- app_assoc.
Qed.

Lemma proj_emit P e g :
  proj P (emit e g) = proj P g ++ (if P e then [e] else []).
Proof.
  unfold proj, emit. cbn [trace]. rewrite filter_app. f_equal.
  destruct (P e) eqn:E.
  - by rewrite (filter_cons_True (fun e => P e = true)).
  - rewrite (filter_cons_False (fun e => P e = true)); [done|congruence].
Qed.

Lemma proj_emit_skip P e g : P e = false -> proj P (emit e g) = proj P g.
Proof. intros E. by rewrite proj_emit, E, app_nil_r. Qed.

Lemma proj_disposeMaterial P m g :
  skips_materials P -> proj P (disposeMaterial (Some m) g) = proj P g.
Proof.
  intros [Ht Hm]. unfold proj. rewrite disposeMaterial_trace, !filter_app.
  rewrite (filter_cons_False (fun e => P e = true)) by (rewrite Hm; done).
  rewrite filter_nil, app_nil_r.
  rewrite (ListFacts.filter_none (fun e => P e = true) (TextureDispose <$> _));
    [by rewrite app_nil_r|].
  intros e [t [-> _]]%list_elem_of_fmap. by rewrite Ht.
Qed.

Lemma proj_material_step P options mat g :
  skips_materials P -> proj P (material_step options mat g) = proj P g.
Proof.
  intros HP.
  assert (Hone : forall m g,
    proj P (if disposeTextures options then disposeMaterial (Some m) g
            else emit (MaterialDispose m) g) = proj P g).
  { intros m g0. destruct (disposeTextures options).
    - by apply proj_disposeMaterial.
    - apply proj_emit_skip. apply HP. }
  destruct mat as [|m|ms]; cbn [material_step]; [done|apply Hone|].
  revert g. induction ms as [|m ms IH]; intros g; [done|].
  cbn [fold_left]. by rewrite IH, Hone.
Qed.

Lemma proj_children options ch g P (f : Object3D -> list GpuEvent) :
  Forall (fun c => forall g, proj P (dispose3_object options false c g)
                             = proj P g ++ f c) ch ->
  proj P (fold_left (fun g child => dispose3_object options false child g) ch g)
  = proj P g ++ concat (map f ch).
Proof.
  intros Hall. revert g. induction Hall as [|c ch Hc Hall IH]; intros g.
  - cbn. by rewrite app_nil_r.
  - cbn [fold_left map concat]. by rewrite IH, Hc, <- app_assoc.
Qed.

Lemma geometries_unfold u geo mat ch hd hp :
  geometries (mkObject u geo mat ch hd hp)
  = concat (map geometries ch) ++ own_geometry (mkObject u geo mat ch hd hp).
Proof. reflexivity. Qed.

Lemma concat_map_fmap {A B C} (f : B -> C) (h : A -> list B) (l : list A) :
  concat (map (fun a => f <$> h a) l) = f <$> concat (map h l).
Proof.
  induction l as [|a l IH]; [done|].
  cbn [map concat]. by rewrite fmap_app, IH.
Qed.

Lemma dispose3_object_geometries options parent o g :
  proj is_geometry (dispose3_object options parent o g)
  = proj is_geometry g ++ (GeometryDispose <$> reached options o).
Proof.
  assert (Hskip : skips_materials is_geometry) by (split; done).
  revert parent g.
  induction o as [u geo mat ch hd hp IH] using DisposeFacts.Object3D_nested_ind.
  intros parent g. rewrite DisposeFacts.dispose3_object_steps.
  unfold parent_step, method_step.
  assert (Htail : forall g0,
    proj is_geometry
      (if parent then emit (ParentRemove u)
                        (if hd then emit (ObjectDispose u) g0 else g0)
       else if hd then emit (ObjectDispose u) g0 else g0)
    = proj is_geometry g0).
  { intros g0. destruct parent, hd; by rewrite ?proj_emit_skip. }
  rewrite Htail, proj_material_step by done.
  unfold geometry_step, reached, children_step.
  assert (Hown : forall g0,
    proj is_geometry match geo with
                     | Some geo0 => emit (GeometryDispose geo0) g0
                     | None => g0
                     end
    = proj is_geometry g0
      ++ (GeometryDispose <$> own_geometry (mkObject u geo mat ch hd hp))).
  { intros g0. unfold own_geometry. cbn [geometry]. destruct geo as [geo|].
    - by rewrite proj_emit.
    - by rewrite app_nil_r. }
  rewrite Hown. destruct (recursive options) eqn:Hrec; [|done].
  rewrite geometries_unfold, fmap_app, app_assoc. f_equal.
  rewrite (proj_children options ch g is_geometry
             (fun c => GeometryDispose <$> geometries c)).
  - by rewrite concat_map_fmap.
  - eapply Forall_impl; [exact IH|]. intros c Hc g0.
    rewrite (Hc false g0). unfold reached. by rewrite Hrec.
Qed.

Lemma dispose3_object_detaches options parent o g :
  proj is_detach (dispose3_object options parent o g)
  = proj is_detach g ++ (if parent then [ParentRemove (uid o)] else []).
Proof.
  assert (Hskip : skips_materials is_detach) by (split; done).
  revert parent g.
  induction o as [u geo mat ch hd hp IH] using DisposeFacts.Object3D_nested_ind.
  intros parent g. rewrite DisposeFacts.dispose3_object_steps.
  assert (Hinner : proj is_detach
                     (method_step u hd
                        (material_step options mat
                           (geometry_step geo (children_step options ch g))))
                   = proj is_detach g).
  { unfold method_step.
    assert (Hm : forall g0, proj is_detach (if hd then emit (ObjectDispose u) g0 else g0)
                            = proj is_detach g0).
    { intros g0. destruct hd; by rewrite ?proj_emit_skip. }
    rewrite Hm, proj_material_step by done.
    unfold geometry_step.
    assert (Hg : forall g0, proj is_detach match geo with
                                           | Some geo0 => emit (GeometryDispose geo0) g0
                                           | None => g0
                                           end = proj is_detach g0).
    { intros g0. destruct geo; by rewrite ?proj_emit_skip. }
    rewrite Hg. unfold children_step. destruct (recursive options); [|done].
    rewrite (proj_children options ch g is_detach (fun _ => [])).
    - assert (Hnil : concat (map (fun _ : Object3D => @nil GpuEvent) ch) = []).
      { clear. induction ch as [|c ch IH]; [done|]. exact IH. }
      by rewrite Hnil, app_nil_r.
    - eapply Forall_impl; [exact IH|]. intros c Hc g0. by rewrite (Hc false g0). }
  unfold parent_step. cbn [uid]. destruct parent.
  - by rewrite proj_emit, Hinner.
  - by rewrite Hinner, app_nil_r.
Qed.

(** X11.  [dispose3] disposes the geometry of the object and, unless
    [recursive] is off, of every descendant, once for each object that has one and those
    of the children before the object's own.  It detaches the object
    from its parent when it has one; the descendants are taken off their
    parents before they are disposed, so nothing else is detached that
    way. *)
Theorem dispose3_releases_tree_children_first
  (options : Options) (o : Object3D) (g : Gpu) :
  let g' := dispose3 (Some o) options g in
  proj is_geometry g'
  = proj is_geometry g ++ (GeometryDispose <$> reached options o)
  /\ proj is_detach g'
     = proj is_detach g
       ++ (if hasParent o then [ParentRemove (uid o)] else []).
Proof.
  split.
  - apply dispose3_object_geometries.
  - apply dispose3_object_detaches.
Qed.

Lemma geometries_with_parent b o : geometries (with_parent b o) = geometries o.
Proof. by destruct o. Qed.

(** X12.  [clearScene] empties the scene and disposes the geometry of
    every object below it, child by child and each child's descendants
    first.  The children are removed from the scene before they are
    disposed, so no object is detached a second time.  A scene that is
    null is left alone. *)
Theorem clearScene_disposes_every_descendant
  (children : list Object3D) (g : Gpu) :
  (clearScene (Some children) g).1 = Some []
  /\ proj is_geometry (clearScene (Some children) g).2
     = proj is_geometry g
       ++ (GeometryDispose <$> concat (map geometries children))
  /\ proj is_detach (clearScene (Some children) g).2 = proj is_detach g
  /\ clearScene None g = (None, g).
Proof.
  split; [done|]. split; [|split; [|done]].
  - cbn [clearScene snd]. revert g.
    induction children as [|c children IH]; intros g.
    + cbn. by rewrite app_nil_r.
    + cbn [fold_left map concat]. rewrite IH. unfold dispose3.
      rewrite dispose3_object_geometries. unfold reached.
      cbn [recursive defaultOptions]. rewrite geometries_with_parent.
      by rewrite fmap_app, app_assoc.
  - cbn [clearScene snd]. revert g.
    induction children as [|c children IH]; intros g; [done|].
    cbn [fold_left]. rewrite IH. unfold dispose3.
    rewrite dispose3_object_detaches.
    destruct c. cbn [with_parent hasParent]. by rewrite app_nil_r.
Qed.

End DisposeTreeFacts.

(** ** The section meshes, the scene and the geometries *)
Module MeshFacts.
Import Protocol Dispose WorldRenderer Routes Releases Timeline Trees Meshes.
Import DisposeTreeFacts.

Ltac fields := SharedFacts.fields.

Lemma same_refl s : same_meshes s s.
Proof. by repeat split. Qed.

Lemma same_trans s1 s2 s3 :
  same_meshes s1 s2 -> same_meshes s2 s3 -> same_meshes s1 s3.
Proof.
  intros (A1 & B1 & C1 & D1) (A2 & B2 & C2 & D2).
  split; [congruence|]. split; [congruence|]. split; congruence.
Qed.

Lemma same_fold {A} (f : t -> A -> t) (l : list A) s :
  (forall s a, same_meshes s (f s a)) -> same_meshes s (fold_left f l s).
Proof.
  intros Hf. revert s. induction l as [|a l IH]; intros s; cbn [fold_left].
  - apply same_refl.
  - eapply same_trans; [apply Hf|apply IH].
Qed.

Lemma same_consistent s s' : same_meshes s s' -> consistent s -> consistent s'.
Proof.
  intros (A & B & C & D) [I1 I2 I3 I4 I5 I6].
  split; rewrite ?A, ?B, ?C, ?D; done.
Qed.

Lemma setSectionDirty_same pos value s :
  same_meshes s (setSectionDirty pos value s).
Proof.
  unfold setSectionDirty.
  destruct (negb (active s) || _); [apply same_refl|].
  destruct (value && _); [apply same_refl|].
  destruct value; by repeat split.
Qed.

Lemma markAll_same qs s : same_meshes s (markAll qs s).
Proof. apply same_fold. intros. apply setSectionDirty_same. Qed.

Lemma addColumn_same x z chunk s : same_meshes s (addColumn x z chunk s).
Proof.
  unfold addColumn.
  eapply same_trans; [|apply same_fold].
  - by repeat split.
  - intros s' y. cbv beta zeta.
    repeat (eapply same_trans; [|apply setSectionDirty_same]).
    apply same_refl.
Qed.

Lemma setBlockStateId_same pos sid s :
  same_meshes s (setBlockStateId pos sid s).
Proof.
  rewrite Neighbours.setBlockStateId_marks.
  eapply same_trans; [|apply markAll_same]. by repeat split.
Qed.

Lemma emitUpdate_same s : same_meshes s (emitUpdate s).
Proof.
  unfold emitUpdate. apply same_fold. intros s' p. unfold updateHandler.
  destruct (_ =? _)%nat; by repeat split.
Qed.

Lemma waitForChunksToRender_same s :
  same_meshes s (waitForChunksToRender s).2.
Proof.
  unfold waitForChunksToRender. cbv zeta. fields.
  destruct (_ =? _)%nat; by repeat split.
Qed.

Lemma disposed_emit e g :
  disposed (emit e g) = disposed g ++ option_list (geometry_id e).
Proof.
  unfold disposed, emit. cbn [trace]. rewrite omap_app.
  cbn [omap list_omap]. by destruct (geometry_id e).
Qed.

Lemma disposed_set_slot m prop t g : disposed (set_slot m prop t g) = disposed g.
Proof. reflexivity. Qed.

Lemma textureLoaded_same texture s : same_meshes s (textureLoaded texture s).
Proof.
  unfold textureLoaded.
  set (s1 := match currentTexture s with Some _ => _ | None => s end).
  assert (H1 : same_meshes s s1).
  { subst s1. destruct (currentTexture s) as [old|]; [|apply same_refl].
    split; [done|]. split; [done|]. split; [done|].
    cbn [gpu set_gpu disposeTexture]. rewrite disposed_emit.
    cbn [geometry_id option_list]. by rewrite app_nil_r. }
  clearbody s1. destruct (material s1) as [m|]; [|done].
  eapply same_trans; [exact H1|].
  split; [done|]. split; [done|]. split; [done|].
  cbn [gpu set_gpu set_currentTexture]. rewrite disposed_emit, disposed_set_slot.
  cbn [geometry_id option_list]. by rewrite app_nil_r.
Qed.

Lemma omap_geometry_id_filter (evs : list GpuEvent) :
  omap geometry_id evs
  = omap geometry_id (filter (fun e => is_geometry e = true) evs).
Proof.
  induction evs as [|e evs IH]; [done|].
  destruct e; cbn [omap list_omap geometry_id];
    first [ rewrite (filter_cons_True (fun e => is_geometry e = true)) by done;
            cbn [omap list_omap geometry_id]; by f_equal
          | rewrite (filter_cons_False (fun e => is_geometry e = true)) by done;
            exact IH ].
Qed.

Lemma omap_geometry_id_fmap (l : list nat) : omap geometry_id (GeometryDispose <$> l) = l.
Proof. induction l as [|a l IH]; [done|]. rewrite fmap_cons. cbn. by f_equal. Qed.

Lemma disposed_proj g g' l :
  proj is_geometry g' = proj is_geometry g ++ (GeometryDispose <$> l) ->
  disposed g' = disposed g ++ l.
Proof.
  unfold disposed, proj. intros Hp.
  rewrite (omap_geometry_id_filter (trace g')), Hp, omap_app.
  by rewrite <- omap_geometry_id_filter, omap_geometry_id_fmap.
Qed.

Lemma removeAndDispose_effect mesh s :
  sectionMeshs (removeAndDispose mesh s) = sectionMeshs s
  /\ scene (removeAndDispose mesh s)
     = filter (fun u => u ≠ uid (object mesh)) (scene s)
  /\ nextId (removeAndDispose mesh s) = nextId s
  /\ disposed (gpu (removeAndDispose mesh s))
     = disposed (gpu s) ++ geometries (object mesh).
Proof.
  unfold removeAndDispose, sceneRemove.
  case_bool_decide as Hin.
  - split; [done|]. split; [done|]. split; [done|].
    cbn [gpu set_gpu set_scene]. apply disposed_proj. unfold dispose3.
    rewrite dispose3_object_geometries. unfold reached.
    cbn [recursive keepTextures]. by rewrite geometries_with_parent.
  - split; [done|]. split.
    { cbn [scene set_gpu]. symmetry. apply ListFacts.filter_all.
      intros u Hu ->. done. }
    split; [done|].
    cbn [gpu set_gpu]. apply disposed_proj. unfold dispose3.
    rewrite dispose3_object_geometries. unfold reached.
    by cbn [recursive keepTextures].
Qed.

(** An entry of a table with unique keys splits the table. *)
Lemma table_split (l : list (string * Mesh)) key mesh :
  NoDup l.*1 -> JS.dict_get l key = Some mesh ->
  exists l1 l2, l = l1 ++ (key, mesh) :: l2
                /\ JS.dict_delete l key = l1 ++ l2.
Proof.
  induction l as [|[k m] l IH]; [done|].
  rewrite fmap_cons. cbn [fst JS.dict_get]. intros Hnd Hget.
  apply NoDup_cons in Hnd as [Hk Hnd].
  destruct (decide (k = key)) as [->|Hne].
  - injection Hget as ->. exists [], l. split; [done|].
    unfold JS.dict_delete.
    rewrite (filter_cons_False (fun e : string * Mesh => e.1 ≠ key))
      by (cbn; intros Hn; by apply Hn).
    apply ListFacts.filter_all. intros [k' m'] Hin. cbn [fst]. intros ->.
    apply Hk. apply list_elem_of_fmap. by exists (key, m').
  - destruct (IH Hnd Hget) as (l1 & l2 & -> & Hdel).
    exists ((k, m) :: l1), l2. split; [done|].
    unfold JS.dict_delete in *.
    rewrite (filter_cons_True (fun e : string * Mesh => e.1 ≠ key)) by done.
    cbn [app]. f_equal. exact Hdel.
Qed.

Lemma get_none_delete (l : list (string * Mesh)) key :
  JS.dict_get l key = None -> JS.dict_delete l key = l.
Proof.
  intros Hget. unfold JS.dict_delete. apply ListFacts.filter_all.
  intros [k m] Hin. cbn [fst]. intros ->.
  assert (Hh : JS.dict_has l key = true).
  { apply LRUFacts.has_iff. apply list_elem_of_fmap. by exists (key, m). }
  apply LRUContentsFacts.has_get in Hh. rewrite Hget in Hh. by destruct Hh.
Qed.

Lemma get_none_keys (l : list (string * Mesh)) key :
  JS.dict_get l key = None -> key ∉ l.*1.
Proof.
  intros Hget Hin. apply LRUFacts.has_iff in Hin.
  apply LRUContentsFacts.has_get in Hin. rewrite Hget in Hin. by destruct Hin.
Qed.

Lemma set_fresh (l : list (string * Mesh)) key mesh :
  key ∉ l.*1 -> JS.dict_set l key mesh = l ++ [(key, mesh)].
Proof.
  induction l as [|[k m] l IH]; [done|].
  rewrite fmap_cons, not_elem_of_cons. cbn [fst]. intros [Hne Hin].
  cbn [JS.dict_set]. rewrite decide_False by done. cbn [app]. f_equal.
  by apply IH.
Qed.

Lemma uids_app l1 l2 : uids (l1 ++ l2) = uids l1 ++ uids l2.
Proof. unfold uids. apply fmap_app. Qed.

Lemma held_app l1 l2 : held (l1 ++ l2) = held l1 ++ held l2.
Proof. unfold held. by rewrite map_app, concat_app. Qed.

(** The mesh under [key] is taken out of the scene and disposed, and its
    entry is deleted. *)
Lemma remove_entry key mesh s :
  consistent s -> JS.dict_get (sectionMeshs s) key = Some mesh ->
  consistent
    (set_sectionMeshs
       (JS.dict_delete (sectionMeshs (removeAndDispose mesh s)) key)
       (removeAndDispose mesh s)).
Proof.
  intros [I1 I2 I3 I4 I5 I6] Hget.
  destruct (removeAndDispose_effect mesh s) as (Em & Es & En & Ed).
  destruct (table_split _ key mesh I1 Hget) as (l1 & l2 & Hl & Hdel).
  set (s1 := removeAndDispose mesh s) in *. clearbody s1.
  rewrite Em, Hdel.
  rewrite Hl, uids_app in I2. cbn [uids fmap list_fmap snd] in I2.
  fold (uids l2) in I2.
  assert (Hu : filter (fun u => u ≠ uid (object mesh)) (scene s)
               = uids l1 ++ uids l2).
  { rewrite I2 in I3 |- *. apply NoDup_app in I3 as (N1 & N12 & N2).
    apply NoDup_cons in N2 as [N2 N3].
    rewrite filter_app.
    rewrite (filter_cons_False (fun u => u ≠ uid (object mesh)))
      by (intros Hn; by apply Hn).
    f_equal; apply ListFacts.filter_all; intros u Hu ->.
    - apply (N12 _ Hu). left.
    - done. }
  split; fields.
  - rewrite Hl, fmap_app, fmap_cons in I1. rewrite fmap_app.
    apply NoDup_app in I1 as (N1 & N12 & N2).
    apply NoDup_cons in N2 as [N2 N3].
    apply NoDup_app. split; [done|]. split; [|done].
    intros k Hk Hk2. apply (N12 k Hk). by right.
  - by rewrite Es, Hu, uids_app.
  - rewrite Es. by apply NoDup_filter.
  - rewrite Es, En. intros u Hu'. apply list_elem_of_filter in Hu' as [_ Hu'].
    by apply I4.
  - by rewrite En.
  - rewrite En, Ed, <- I6, Hl, !held_app.
    cbn [held map concat snd]. fold (held l2).
    rewrite <- !app_assoc. apply Permutation_app_head.
    rewrite (app_assoc (held l2)). apply Permutation_app_comm.
Qed.

Lemma allocated_next n :
  Nat.odd n = true -> allocated (S (S n)) = allocated n ++ [n].
Proof.
  intros Hodd. unfold allocated.
  rewrite !seq_S, !filter_app. cbn [Nat.add].
  rewrite (filter_cons_True (fun i => Nat.odd i = true) n) by done.
  rewrite (filter_cons_False (fun i => Nat.odd i = true) (S n)).
  - by rewrite !filter_nil, app_nil_r.
  - rewrite Nat.odd_succ, <- Nat.negb_odd, Hodd. done.
Qed.

(** The table after [_handleGeometry] has dealt with the old mesh. *)
Lemma replace_entry key s :
  consistent s ->
  let s1 :=
    match JS.dict_get (sectionMeshs s) key with
    | Some mesh =>
        set_sectionMeshs
          (JS.dict_delete (sectionMeshs (removeAndDispose mesh s)) key)
          (removeAndDispose mesh s)
    | None => s
    end in
  consistent s1 /\ key ∉ (sectionMeshs s1).*1.
Proof.
  intros Hc. destruct (JS.dict_get (sectionMeshs s) key) as [mesh|] eqn:Hget;
    cbv zeta.
  - split; [by apply remove_entry|].
    destruct (removeAndDispose_effect mesh s) as (Em & _).
    cbn [sectionMeshs set_sectionMeshs]. rewrite Em, LRUFacts.keys_delete.
    apply LRUFacts.not_in_delete.
  - split; [done|]. by apply get_none_keys.
Qed.

Lemma handleGeometry_consistent key geometry s :
  consistent s -> consistent (handleGeometry key geometry s).
Proof.
  intros Hc. unfold handleGeometry.
  destruct (replace_entry key s Hc) as [Hc1 Hk]. cbv zeta in Hc1, Hk.
  set (s1 := match JS.dict_get (sectionMeshs s) key with
             | Some _ => _ | None => s end) in *.
  clearbody s1. cbv zeta.
  destruct (negb _); [done|].
  destruct Hc1 as [I1 I2 I3 I4 I5 I6].
  unfold sceneAdd. fields. rewrite set_fresh by done.
  split; fields; cbn [uid with_parent].
  - rewrite fmap_app. cbn [fmap list_fmap fst]. apply NoDup_app.
    split; [done|]. split; [|apply NoDup_singleton].
    intros k Hin ->%list_elem_of_singleton. done.
  - rewrite uids_app, I2. done.
  - apply NoDup_app. split; [done|]. split; [|apply NoDup_singleton].
    intros u Hu ->%list_elem_of_singleton. apply I4 in Hu. lia.
  - intros u [Hu| ->%list_elem_of_singleton]%elem_of_app; [apply I4 in Hu|]; lia.
  - by rewrite Nat.odd_succ, Nat.even_succ.
  - rewrite allocated_next by done. rewrite held_app, <- I6.
    cbn [held map concat snd object with_parent geometries children
         own_geometry Dispose.geometry app].
    rewrite <- !app_assoc. apply Permutation_app_head.
    apply Permutation_app_comm.
Qed.

Lemma removeColumn_consistent x z s :
  consistent s -> consistent (removeColumn x z s).
Proof.
  intros Hc. unfold removeColumn.
  apply (FrameFacts.fold_left_invariant consistent).
  - intros s' y Hs'. cbv beta zeta.
    pose proof (setSectionDirty_same (Vec3.mk x y z) false s') as H1.
    apply (same_consistent _ _ H1) in Hs'.
    set (s1 := setSectionDirty _ false s') in *. clearbody s1.
    destruct (JS.dict_get (sectionMeshs s1) (sectionKey x y z)) as [mesh|] eqn:Hg.
    + by apply remove_entry.
    + rewrite get_none_delete by done. by destruct s1.
  - eapply same_consistent; [|exact Hc]. by repeat split.
Qed.

(** A loop that takes meshes out of the scene and disposes them. *)
Lemma fold_removals (f : t -> string * Mesh -> t) l s :
  (forall s e, scene (f s e) = filter (fun u => u ≠ uid (object e.2)) (scene s)
               /\ nextId (f s e) = nextId s
               /\ disposed (gpu (f s e))
                  = disposed (gpu s) ++ geometries (object e.2)) ->
  scene (fold_left f l s) = filter (fun u => u ∉ uids l) (scene s)
  /\ nextId (fold_left f l s) = nextId s
  /\ disposed (gpu (fold_left f l s)) = disposed (gpu s) ++ held l.
Proof.
  intros Hf. revert s. induction l as [|e l IH]; intros s.
  - cbn [fold_left held map concat]. rewrite app_nil_r. split; [|done].
    symmetry. apply ListFacts.filter_all. intros u _. apply not_elem_of_nil.
  - cbn [fold_left]. destruct (IH (f s e)) as (Es & En & Ed).
    destruct (Hf s e) as (Fs & Fn & Fd).
    rewrite Es, En, Ed, Fs, Fn, Fd. split; [|split; [done|]].
    + rewrite list_filter_filter. apply list_filter_iff. intros u.
      cbn [uids fmap list_fmap]. rewrite not_elem_of_cons. tauto.
    + cbn [held map concat]. by rewrite <- app_assoc.
Qed.

(** The state after such a loop, the table emptied. *)
Lemma emptied_consistent s s' :
  consistent s ->
  sectionMeshs s' = [] ->
  scene s' = filter (fun u => u ∉ uids (sectionMeshs s)) (scene s) ->
  nextId s' = nextId s ->
  disposed (gpu s') = disposed (gpu s) ++ held (sectionMeshs s) ->
  consistent s'.
Proof.
  intros [I1 I2 I3 I4 I5 I6] Em Es En Ed.
  assert (Hnil : scene s' = []).
  { rewrite Es. apply ListFacts.filter_none. intros u Hu Hn. apply Hn.
    by rewrite <- I2. }
  split; rewrite ?Em, ?Hnil, ?En, ?Ed.
  - apply NoDup_nil_2.
  - done.
  - apply NoDup_nil_2.
  - intros u Hu. by apply elem_of_nil in Hu.
  - done.
  - cbn [held map concat app]. rewrite <- I6. apply Permutation_app_comm.
Qed.

Lemma resetWorld_effect s :
  sectionMeshs (resetWorld s) = []
  /\ scene (resetWorld s)
     = filter (fun u => u ∉ uids (sectionMeshs s)) (scene s)
  /\ nextId (resetWorld s) = nextId s
  /\ disposed (gpu (resetWorld s))
     = disposed (gpu s) ++ held (sectionMeshs s).
Proof.
  unfold resetWorld. cbv zeta. fields. split; [done|].
  match goal with
  | |- context [fold_left ?f ?l ?s0] =>
      destruct (fold_removals f l s0) as (Es & En & Ed)
  end.
  - intros s' [key mesh]. cbn [snd].
    destruct (removeAndDispose_effect mesh s') as (_ & Fs & Fn & Fd).
    by fields.
  - fields. by rewrite Es, En, Ed.
Qed.

Lemma resetWorld_consistent s : consistent s -> consistent (resetWorld s).
Proof.
  intros Hc. destruct (resetWorld_effect s) as (Em & Es & En & Ed).
  by apply (emptied_consistent s).
Qed.

Lemma dispose_effect s :
  sectionMeshs (dispose s) = []
  /\ scene (dispose s) = filter (fun u => u ∉ uids (sectionMeshs s)) (scene s)
  /\ nextId (dispose s) = nextId s
  /\ disposed (gpu (dispose s)) = disposed (gpu s) ++ held (sectionMeshs s).
Proof.
  unfold dispose. cbv zeta.
  set (s0 := set_workersActive false (set_active false s)).
  destruct (fold_removals (fun s '(_, mesh) => removeAndDispose mesh s)
              (sectionMeshs s0) s0) as (Es & En & Ed).
  { intros s' [key mesh]. cbn [snd].
    destruct (removeAndDispose_effect mesh s') as (_ & Fs & Fn & Fd). done. }
  set (s1 := fold_left _ (sectionMeshs s0) s0) in *. clearbody s1.
  set (s2 := set_sectionMeshs [] s1).
  set (s3 := match currentTexture s2 with Some _ => _ | None => s2 end).
  assert (H3 : same_meshes s2 s3).
  { subst s3. destruct (currentTexture s2) as [old|]; [|apply same_refl].
    split; [done|]. split; [done|]. split; [done|].
    cbn [gpu set_gpu set_currentTexture disposeTexture]. rewrite disposed_emit.
    cbn [geometry_id option_list]. by rewrite app_nil_r. }
  clearbody s3.
  set (s4 := match material s3 with Some _ => _ | None => s3 end).
  assert (H4 : same_meshes s3 s4).
  { subst s4. destruct (material s3) as [m|]; [|apply same_refl].
    split; [done|]. split; [done|]. split; [done|].
    cbn [gpu set_gpu set_material]. rewrite disposed_emit.
    cbn [geometry_id option_list]. by rewrite app_nil_r. }
  clearbody s4.
  destruct (same_trans _ _ _ H3 H4) as (A & B & C & D).
  fields. rewrite A, B, C, D. subst s2 s0. fields. by rewrite Es, En, Ed.
Qed.

Lemma dispose_consistent s : consistent s -> consistent (dispose s).
Proof.
  intros Hc. destruct (dispose_effect s) as (Em & Es & En & Ed).
  by apply (emptied_consistent s).
Qed.

Lemma setVersion_consistent v s : consistent s -> consistent (setVersion v s).
Proof.
  intros Hc. unfold setVersion, updateTexturesData. cbv zeta.
  eapply same_consistent; [|apply resetWorld_consistent].
  - by repeat split.
  - eapply same_consistent; [|exact Hc]. by repeat split.
Qed.

Lemma onmessage_consistent data s :
  consistent s -> consistent (onmessage data s).
Proof.
  intros Hc. unfold onmessage. destruct (negb _); [done|].
  destruct data as [key geometry|key|key message]; [|
    |done].
  - by apply handleGeometry_consistent.
  - eapply same_consistent; [apply emitUpdate_same|].
    eapply same_consistent; [|exact Hc]. by repeat split.
Qed.

Lemma handle_consistent s e : consistent s -> consistent (handle s e).
Proof.
  intros Hc. destruct e; cbn [handle].
  - by apply onmessage_consistent.
  - by apply setVersion_consistent.
  - by apply resetWorld_consistent.
  - by apply dispose_consistent.
  - eapply same_consistent; [apply addColumn_same|done].
  - by apply removeColumn_consistent.
  - eapply same_consistent; [apply setBlockStateId_same|done].
  - eapply same_consistent; [apply setSectionDirty_same|done].
  - eapply same_consistent; [|exact Hc]. by repeat split.
  - eapply same_consistent; [apply textureLoaded_same|done].
  - eapply same_consistent; [|exact Hc]. by repeat split.
  - eapply same_consistent; [apply waitForChunksToRender_same|done].
Qed.

Lemma new_consistent n : consistent (new n).
Proof.
  split; cbn.
  - apply NoDup_nil_2.
  - done.
  - apply NoDup_nil_2.
  - intros u Hu. by apply elem_of_nil in Hu.
  - done.
  - done.
Qed.

Lemma run_consistent n evs : consistent (run (new n) evs).
Proof.
  unfold run. apply FrameFacts.fold_left_invariant.
  - intros s e. apply handle_consistent.
  - apply new_consistent.
Qed.

Lemma allocated_NoDup n : NoDup (allocated n).
Proof. unfold allocated. apply NoDup_filter, NoDup_seq. Qed.


(** X14.  No geometry leaks and none is disposed twice: whatever happens
    to a renderer after its construction, every geometry it has created
    is either held by exactly one mesh of the section table or has been
    disposed exactly once, and not both. *)
Theorem every_geometry_held_or_disposed_once
  (numWorkers : nat) (evs : list Event) :
  let s := run (new numWorkers) evs in
  held (sectionMeshs s) ++ disposed (gpu s) ≡ₚ allocated (nextId s)
  /\ NoDup (held (sectionMeshs s) ++ disposed (gpu s)).
Proof.
  intros s. destruct (run_consistent numWorkers evs) as [I1 I2 I3 I4 I5 I6].
  split; [done|]. fold s in I6. rewrite I6. apply allocated_NoDup.
Qed.

End MeshFacts.

(** ** The coordinator: meshes as they arrive, teardown, version changes *)
Module LifecycleFacts.
Import Protocol Dispose WorldRenderer Routes Releases Timeline Trees Meshes.
Import DisposeTreeFacts MeshFacts.

(** [removeAndDispose] writes the scene and the GPU only. *)
Lemma removeAndDispose_shape mesh s :
  exists sc g, removeAndDispose mesh s = set_gpu g (set_scene sc s).
Proof.
  unfold removeAndDispose, sceneRemove. case_bool_decide.
  - by eexists _, _.
  - exists (scene s), (dispose3 (Some (object mesh)) keepTextures (gpu s)).
    by destruct s.
Qed.

(** The first half of [_handleGeometry]: the mesh under the key, if
    there is one, leaves the scene and the table and is disposed. *)
Lemma old_mesh_removed key s :
  let s1 :=
    match JS.dict_get (sectionMeshs s) key with
    | Some mesh =>
        set_sectionMeshs
          (JS.dict_delete (sectionMeshs (removeAndDispose mesh s)) key)
          (removeAndDispose mesh s)
    | None => s
    end in
  exists sc g,
    s1 = set_sectionMeshs (JS.dict_delete (sectionMeshs s) key)
           (set_gpu g (set_scene sc s))
    /\ disposed g
       = disposed (gpu s)
         ++ match JS.dict_get (sectionMeshs s) key with
            | Some mesh => geometries (object mesh)
            | None => []
            end.
Proof.
  destruct (JS.dict_get (sectionMeshs s) key) as [mesh|] eqn:Hget; cbv zeta.
  - destruct (removeAndDispose_shape mesh s) as (sc & g & Hs).
    destruct (removeAndDispose_effect mesh s) as (_ & _ & _ & Hd).
    rewrite Hs in Hd |- *. exists sc, g. split; [done|]. exact Hd.
  - exists (scene s), (gpu s). rewrite get_none_delete by done.
    split; [by destruct s|]. by rewrite app_nil_r.
Qed.

(** X15.  A geometry that arrives for the section (x, y, z) replaces the
    mesh of that section: the old mesh, if there is one, is disposed and
    leaves the table.  A new mesh is installed under the key, at the
    position given with the geometry, with a fresh geometry and the
    shared material, and is added to the scene, only if the column
    (x, z) is loaded; a result that arrives after its column was unloaded
    installs nothing.  The meshes of the other sections, the loaded
    columns and the outstanding sections are not touched. *)
Theorem geometry_installed_only_for_loaded_column
  (x y z : Z) (geometry : Geometry) (s : t) :
  let key := sectionKey x y z in
  let s' := handleGeometry key geometry s in
  (if bool_decide (World.columnKey x z ∈ loadedChunks s)
   then exists mesh,
          JS.dict_get (sectionMeshs s') key = Some mesh
          /\ mesh_position mesh = (sx geometry, sy geometry, sz geometry)
          /\ Dispose.geometry (object mesh) = Some (nextId s)
          /\ Dispose.material (object mesh)
             = match material s with
               | Some m => OneMaterial m
               | None => NoMaterial
               end
          /\ uid (object mesh) ∈ scene s'
   else JS.dict_get (sectionMeshs s') key = None /\ nextId s' = nextId s)
  /\ (forall k, k <> key ->
        JS.dict_get (sectionMeshs s') k = JS.dict_get (sectionMeshs s) k)
  /\ disposed (gpu s')
     = disposed (gpu s)
       ++ match JS.dict_get (sectionMeshs s) key with
          | Some old => geometries (object old)
          | None => []
          end
  /\ sectionsOutstanding s' = sectionsOutstanding s
  /\ loadedChunks s' = loadedChunks s.
Proof.
  intros key s'. subst s'. unfold handleGeometry.
  destruct (old_mesh_removed key s) as (sc & g & Hs1 & Hd). cbv zeta in Hs1.
  rewrite Hs1. clear Hs1. cbv zeta. subst key.
  rewrite JSFacts.column_of_sectionKey.
  cbn [loadedChunks set_sectionMeshs set_gpu set_scene].
  case_bool_decide as Hin; cbn [negb].
  - unfold sceneAdd. SharedFacts.fields.
    split; [|split; [|split; [done|done]]].
    + eexists. split; [by rewrite LRUContentsFacts.get_set, decide_True|].
      cbn [mesh_position object with_parent Dispose.geometry Dispose.material uid].
      split; [done|]. split; [done|]. split; [done|].
      apply elem_of_app. right. apply list_elem_of_here.
    + intros k Hne. rewrite LRUContentsFacts.get_set, decide_False by done.
      by rewrite LRUContentsFacts.get_delete, decide_False.
  - SharedFacts.fields. split; [|split; [|split; [done|done]]].
    + split; [|done]. by rewrite LRUContentsFacts.get_delete, decide_True.
    + intros k Hne. by rewrite LRUContentsFacts.get_delete, decide_False.
Qed.

Lemma removals_shape (l : list (string * Mesh)) s :
  exists sc g,
    fold_left (fun s '(_, mesh) => removeAndDispose mesh s) l s
    = set_gpu g (set_scene sc s).
Proof.
  revert s. induction l as [|[k mesh] l IH]; intros s.
  - exists (scene s), (gpu s). by destruct s.
  - cbn [fold_left]. destruct (removeAndDispose_shape mesh s) as (sc & g & ->).
    destruct (IH (set_gpu g (set_scene sc s))) as (sc' & g' & ->).
    by exists sc', g'.
Qed.

(** The state that [dispose] leaves. *)
Lemma dispose_shape s :
  exists sc g,
    dispose s
    = mk [] false (version s) sc ∅ ∅ [] (resolved s) (blockStatesData s)
         (texturesDataUrl s) None (pendingDirtySections s) None [] false
         (match material s with
          | Some m => emit (MaterialDispose m)
          | None => fun g => g
          end (disposeTexture (currentTexture s) g))
         (loads s) (nextId s) (nextPromise s).
Proof.
  unfold dispose. cbv zeta.
  destruct (removals_shape
              (sectionMeshs (set_workersActive false (set_active false s)))
              (set_workersActive false (set_active false s)))
    as (sc & g & ->).
  exists sc, g.
  destruct s as [sm ac ve scn lc so li re bs tu ct pd ma wo wa gp lo ni np].
  by destruct ct, ma.
Qed.

(** X16.  [dispose] tears the renderer down: no mesh, no worker, no
    loaded column, no outstanding section and no update handler is left;
    the geometries of all meshes, the texture and the material are
    disposed, the material last.  Afterwards the renderer ignores every
    message of a worker and every dirty mark, and a second [dispose]
    changes nothing and releases nothing again. *)
Theorem dispose_tears_down_and_goes_quiet (s : t) :
  let s' := dispose s in
  (sectionMeshs s' = [] /\ workers s' = [] /\ loadedChunks s' = ∅
   /\ sectionsOutstanding s' = ∅ /\ listeners s' = []
   /\ material s' = None /\ currentTexture s' = None
   /\ active s' = false /\ workersActive s' = false)
  /\ disposed (gpu s') = disposed (gpu s) ++ held (sectionMeshs s)
  /\ (forall t, currentTexture s = Some t ->
        TextureDispose t ∈ trace (gpu s'))
  /\ (forall m, material s = Some m ->
        last (trace (gpu s')) = Some (MaterialDispose m))
  /\ (forall data, onmessage data s' = s')
  /\ (forall pos value, setSectionDirty pos value s' = s')
  /\ dispose s' = s'.
Proof.
  intros s'. destruct (dispose_effect s) as (_ & _ & _ & Hd).
  fold s' in Hd. destruct (dispose_shape s) as (sc & g & Hs). fold s' in Hs.
  split; [by rewrite Hs|]. split; [exact Hd|]. clear Hd. rewrite Hs.
  split; [|split; [|split; [done|split; [done|done]]]].
  - intros t Ht. rewrite Ht. cbn [gpu disposeTexture].
    destruct (material s) as [m|]; cbn [emit trace]; set_solver.
  - intros m Hm. rewrite Hm. cbn [gpu emit trace]. apply last_snoc.
Qed.

Lemma reset_removals_shape (l : list (string * Mesh)) s :
  exists m sc g,
    fold_left
      (fun s '(key, mesh) =>
         let s := removeAndDispose mesh s in
         set_sectionMeshs (JS.dict_delete (sectionMeshs s) key) s) l s
    = set_sectionMeshs m (set_gpu g (set_scene sc s)).
Proof.
  set (f := fun (s : t) '(key, mesh) =>
              let s := removeAndDispose mesh s in
              set_sectionMeshs (JS.dict_delete (sectionMeshs s) key) s).
  revert s. induction l as [|[k mesh] l IH]; intros s.
  - exists (sectionMeshs s), (scene s), (gpu s). by destruct s.
  - cbn [fold_left]. destruct (IH (f s (k, mesh))) as (m' & sc' & g' & ->).
    subst f. cbv beta iota zeta.
    destruct (removeAndDispose_shape mesh s) as (sc & g & ->).
    by exists m', sc', g'.
Qed.

(** The state that [resetWorld] leaves. *)
Lemma resetWorld_shape s :
  exists sc g,
    resetWorld s
    = mk [] false (version s) sc ∅ ∅ (listeners s) (resolved s)
         (blockStatesData s) (texturesDataUrl s) (currentTexture s)
         (pendingDirtySections s) (material s)
         (map (fun inbox => inbox ++ [MsgReset]) (workers s))
         (workersActive s) g (loads s) (nextId s) (nextPromise s).
Proof.
  assert (Hr : resetWorld s
    = broadcast MsgReset
        (set_sectionsOutstanding ∅
           (set_loadedChunks ∅
              (set_sectionMeshs []
                 (fold_left
                    (fun s '(key, mesh) =>
                       let s := removeAndDispose mesh s in
                       set_sectionMeshs (JS.dict_delete (sectionMeshs s) key) s)
                    (sectionMeshs (set_active false s))
                    (set_active false s)))))) by reflexivity.
  rewrite Hr.
  destruct (reset_removals_shape (sectionMeshs (set_active false s))
              (set_active false s)) as (m & sc & g & ->).
  exists sc, g. by destruct s.
Qed.

(** X17.  [setVersion] starts the world over: the renderer is active
    with the new version, has no mesh, no loaded column and no outstanding
    section, every worker is sent [reset] and then the version, and the
    texture and the block states are requested: the texture from
    [texturesDataUrl] when that is set and not empty, from
    [textures/<version>.png] otherwise; the block states from
    [blockStatesData] when that is set and not empty, from
    [blocksStates/<version>.json] otherwise.  The set
    of sections pending in the current frame is not cleared: a section
    that was marked earlier in the frame is not dispatched again when it
    is marked after the version change, and does not become outstanding,
    until the frame ends. *)
Theorem setVersion_starts_over_but_keeps_pending (v : Version) (s : t) :
  let s' := setVersion v s in
  (active s' = true /\ version s' = Some v /\ sectionMeshs s' = []
   /\ loadedChunks s' = ∅ /\ sectionsOutstanding s' = ∅)
  /\ workers s' = map (fun inbox => inbox ++ [MsgReset; MsgVersion v]) (workers s)
  /\ loads s'
     = loads s
       ++ [LoadTexture
             match texturesDataUrl s with
             | None | Some EmptyString => ("textures/" +:+ v +:+ ".png")%string
             | Some url => url
             end;
           match blockStatesData s with
           | None | Some EmptyString =>
               LoadJSON ("blocksStates/" +:+ v +:+ ".json")%string
           | Some json => ResolveBlockStates json
           end]
  /\ pendingDirtySections s' = pendingDirtySections s
  /\ (forall pos, keyOf pos ∈ pendingDirtySections s ->
        setSectionDirty pos true s' = s').
Proof.
  intros s'.
  assert (Hs : exists sc g,
    s' = mk [] true (Some v) sc ∅ ∅ (listeners s) (resolved s)
            (blockStatesData s) (texturesDataUrl s) (currentTexture s)
            (pendingDirtySections s) (material s)
            (map (fun inbox => inbox ++ [MsgReset; MsgVersion v]) (workers s))
            (workersActive s) g
            (loads s
             ++ [LoadTexture
                   match texturesDataUrl s with
                   | None | Some EmptyString =>
                       ("textures/" +:+ v +:+ ".png")%string
                   | Some url => url
                   end;
                 match blockStatesData s with
                 | None | Some EmptyString =>
                     LoadJSON ("blocksStates/" +:+ v +:+ ".json")%string
                 | Some json => ResolveBlockStates json
                 end])
            (nextId s) (nextPromise s)).
  { subst s'. unfold setVersion. cbv zeta.
    destruct (resetWorld_shape (set_version (Some v) s)) as (sc & g & ->).
    exists sc, g.
    unfold updateTexturesData, loadBlockStates, or_else, broadcast.
    SharedFacts.fields. rewrite map_map.
    assert (Hw : map (fun x => (x ++ [MsgReset]) ++ [MsgVersion v]) (workers s)
                 = map (fun inbox => inbox ++ [MsgReset; MsgVersion v]) (workers s)).
    { apply map_ext. intros inbox. by rewrite <- app_assoc. }
    rewrite Hw.
    by destruct (texturesDataUrl s) as [[|? ?]|],
                (blockStatesData s) as [[|? ?]|]. }
  destruct Hs as (sc & g & Hs). rewrite Hs.
  split; [done|]. split; [done|]. split; [done|]. split; [done|].
  intros pos Hp. unfold setSectionDirty. SharedFacts.fields.
  destruct (workers s) as [|inbox ws]; [done|].
  cbn [map length Nat.eqb negb orb].
  by rewrite bool_decide_eq_true_2.
Qed.

End LifecycleFacts.

(** ** The coordinator: loading and unloading a column *)
Module ColumnFacts.
Import Protocol Dispose WorldRenderer Routes RoutingFacts Releases Trees Meshes.
Import Columns MeshFacts LifecycleFacts.

Lemma section_ys_list :
  section_ys = [0; 16; 32; 48; 64; 80; 96; 112; 128; 144; 160; 176; 192; 208;
                224; 240].
Proof. vm_compute. reflexivity. Qed.

Lemma section_ys_aligned y : y ∈ section_ys -> y / 16 * 16 = y.
Proof.
  rewrite section_ys_list. intros Hy.
  repeat (apply elem_of_cons in Hy as [->|Hy]; [reflexivity|]).
  by apply elem_of_nil in Hy.
Qed.

Lemma aligned_floor c : c mod 16 = 0 -> c / 16 * 16 = c.
Proof. intros Hc. pose proof (Z.div_mod c 16). lia. Qed.

Lemma unload_step_shape x z s y :
  exists sc g,
    unload_step x z s y
    = set_sectionMeshs
        (JS.dict_delete (sectionMeshs s) (sectionKey x y z))
        (set_gpu g (set_scene sc (setSectionDirty (Vec3.mk x y z) false s))).
Proof.
  unfold unload_step. cbv zeta.
  destruct (setSectionDirty_same (Vec3.mk x y z) false s) as (Hm & _).
  set (s1 := setSectionDirty _ false s) in *. clearbody s1. rewrite <- Hm.
  destruct (JS.dict_get _ _) as [mesh|].
  - destruct (removeAndDispose_shape mesh s1) as (sc & g & ->).
    by exists sc, g.
  - exists (scene s1), (gpu s1). by destruct s1.
Qed.

Lemma removeColumn_fold x z s :
  removeColumn x z s
  = fold_left (unload_step x z) section_ys
      (broadcast (MsgUnloadChunk x z)
         (set_loadedChunks (loadedChunks s ∖ {[ World.columnKey x z ]}) s)).
Proof. reflexivity. Qed.

Lemma unload_fold_frame x z ys s :
  loadedChunks (fold_left (unload_step x z) ys s) = loadedChunks s
  /\ (forall k,
        JS.dict_get (sectionMeshs (fold_left (unload_step x z) ys s)) k
        = if bool_decide (k ∈ (fun y => sectionKey x y z) <$> ys) then None
          else JS.dict_get (sectionMeshs s) k).
Proof.
  revert s. induction ys as [|y ys IH]; intros s.
  - cbn [fold_left fmap list_fmap]. split; [done|]. intros k.
    by rewrite bool_decide_eq_false_2 by apply not_elem_of_nil.
  - cbn [fold_left]. destruct (IH (unload_step x z s y)) as (Hl & Hm).
    destruct (unload_step_shape x z s y) as (sc & g & Hs).
    rewrite Hs in Hl, Hm |- *. rewrite Hl. split.
    + cbn [loadedChunks set_sectionMeshs set_gpu set_scene].
      unfold setSectionDirty. destruct (negb (active s) || _); [done|].
      by destruct (false && _).
    + intros k. rewrite Hm. cbn [sectionMeshs set_sectionMeshs].
      rewrite LRUContentsFacts.get_delete, fmap_cons.
      destruct (decide (k = sectionKey x y z)) as [->|Hne].
      * rewrite (bool_decide_eq_true_2 (_ ∈ _ :: _)) by left.
        by destruct (bool_decide _).
      * destruct (bool_decide (k ∈ _ <$> ys)) eqn:E.
        -- apply bool_decide_eq_true in E.
           by rewrite bool_decide_eq_true_2 by (by right).
        -- apply bool_decide_eq_false in E.
           rewrite bool_decide_eq_false_2; [done|].
           rewrite not_elem_of_cons. done.
Qed.

Lemma unload_step_marks x z s y :
  active (unload_step x z s y) = active (setSectionDirty (Vec3.mk x y z) false s)
  /\ workers (unload_step x z s y)
     = workers (setSectionDirty (Vec3.mk x y z) false s)
  /\ sectionsOutstanding (unload_step x z s y)
     = sectionsOutstanding (setSectionDirty (Vec3.mk x y z) false s)
  /\ pendingDirtySections (unload_step x z s y)
     = pendingDirtySections (setSectionDirty (Vec3.mk x y z) false s).
Proof. destruct (unload_step_shape x z s y) as (sc & g & ->). done. Qed.

Lemma unload_fold_guard x z ys s :
  guard_passes s ->
  (forall k, k ∈ sectionsOutstanding (fold_left (unload_step x z) ys s)
             <-> k ∈ sectionsOutstanding s
                 /\ k ∉ keyOf <$> ((fun y => Vec3.mk x y z) <$> ys))
  /\ (forall k, k ∈ pendingDirtySections (fold_left (unload_step x z) ys s)
                <-> k ∈ pendingDirtySections s
                    /\ k ∉ keyOf <$> ((fun y => Vec3.mk x y z) <$> ys)).
Proof.
  revert s. induction ys as [|y ys IH]; intros s Hg.
  - cbn [fold_left fmap list_fmap]. split; intros k; split; try tauto;
      (intros Hk; split; [done|apply not_elem_of_nil]).
  - cbn [fold_left]. destruct (unload_step_marks x z s y) as (Ha & Hw & Ho & Hp).
    assert (Hg' : guard_passes (unload_step x z s y)).
    { pose proof (setSectionDirty_guard (Vec3.mk x y z) false s Hg) as [G1 G2].
      split; [by rewrite Ha|by rewrite Hw]. }
    destruct (IH _ Hg') as (IHo & IHp).
    rewrite setSectionDirty_unmarked in Ho, Hp by done.
    cbn [sectionsOutstanding pendingDirtySections set_pendingDirtySections
         set_sectionsOutstanding postTo set_workers] in Ho, Hp.
    rewrite !fmap_cons.
    split; intros k; [rewrite IHo, Ho|rewrite IHp, Hp];
      rewrite elem_of_difference, elem_of_singleton, not_elem_of_cons; tauto.
Qed.

Lemma unload_fold_blocked x z ys s :
  active s = false \/ workers s = [] ->
  sectionsOutstanding (fold_left (unload_step x z) ys s) = sectionsOutstanding s
  /\ pendingDirtySections (fold_left (unload_step x z) ys s)
     = pendingDirtySections s.
Proof.
  revert s. induction ys as [|y ys IH]; intros s Hb; [done|].
  cbn [fold_left]. destruct (unload_step_marks x z s y) as (Ha & Hw & Ho & Hp).
  rewrite setSectionDirty_blocked in Ha, Hw, Ho, Hp by done.
  destruct (IH (unload_step x z s y)) as (IHo & IHp).
  { destruct Hb as [Hb|Hb]; [left|right]; congruence. }
  split; congruence.
Qed.

(** A message posted to a worker stays in its inbox. *)
Lemma setSectionDirty_inboxes (m : Request) pos value s :
  Forall (fun inbox => m ∈ inbox) (workers s) ->
  Forall (fun inbox => m ∈ inbox) (workers (setSectionDirty pos value s)).
Proof.
  intros Hall. unfold setSectionDirty.
  destruct (negb (active s) || _); [done|].
  destruct (value && _); [done|].
  assert (Hpost : Forall (fun inbox => m ∈ inbox)
            (workers (postTo (hashOf pos (length (workers s)))
               (MsgDirty (Vec3.x pos) (Vec3.y pos) (Vec3.z pos) value) s))).
  { cbn [postTo workers set_workers]. apply Forall_alter; [done|].
    intros inbox _ Hin. apply elem_of_app. by left. }
  by destruct value.
Qed.

Lemma broadcast_inboxes (m : Request) s :
  Forall (fun inbox => m ∈ inbox) (workers (broadcast m s)).
Proof.
  cbn [broadcast workers set_workers]. apply Forall_forall.
  intros inbox Hin. apply list_elem_of_In, in_map_iff in Hin as (old & <- & _).
  apply elem_of_app. right. apply list_elem_of_here.
Qed.

(** X18.  [removeColumn] forgets the column (x, z): it is no longer
    loaded, every worker is told to unload it, and no mesh is left under
    the key of any of its sixteen sections, while every other mesh stays.
    When the renderer is active and has workers, the sections of the
    column are no longer outstanding nor pending; otherwise these two
    sets are left as they are.  The keys of the meshes are made from x
    and z as given, those of the dirty marks from x and z rounded down to
    a multiple of 16; they are the same keys when x and z are multiples
    of 16. *)
Theorem removeColumn_clears_the_sections_of_the_column (x z : Z) (s : t) :
  let s' := removeColumn x z s in
  loadedChunks s' = loadedChunks s ∖ {[ World.columnKey x z ]}
  /\ Forall (fun inbox => MsgUnloadChunk x z ∈ inbox) (workers s')
  /\ (forall k,
        JS.dict_get (sectionMeshs s') k
        = if bool_decide (k ∈ column_keys x z) then None
          else JS.dict_get (sectionMeshs s) k)
  /\ (guard_passes s ->
      forall k,
        (k ∈ sectionsOutstanding s'
         <-> k ∈ sectionsOutstanding s /\ k ∉ keyOf <$> column_positions x z)
        /\ (k ∈ pendingDirtySections s'
            <-> k ∈ pendingDirtySections s
                /\ k ∉ keyOf <$> column_positions x z))
  /\ (active s = false \/ workers s = [] ->
      sectionsOutstanding s' = sectionsOutstanding s
      /\ pendingDirtySections s' = pendingDirtySections s)
  /\ (x mod 16 = 0 -> z mod 16 = 0 ->
      keyOf <$> column_positions x z = column_keys x z).
Proof.
  intros s'. subst s'. rewrite removeColumn_fold.
  set (s0 := broadcast _ _).
  destruct (unload_fold_frame x z section_ys s0) as (Hl & Hm).
  split; [by rewrite Hl|]. split; [|split; [exact Hm|split; [|split]]].
  - apply (FrameFacts.fold_left_invariant
             (fun s => Forall (fun inbox => MsgUnloadChunk x z ∈ inbox) (workers s))).
    + intros s1 y Hs1. destruct (unload_step_marks x z s1 y) as (_ & -> & _).
      by apply setSectionDirty_inboxes.
    + apply broadcast_inboxes.
  - intros Hg k.
    assert (Hg0 : guard_passes s0) by by apply FrameFacts.broadcast_guard.
    destruct (unload_fold_guard x z section_ys s0 Hg0) as (Ho & Hp).
    split; [apply Ho|apply Hp].
  - intros Hb.
    destruct (unload_fold_blocked x z section_ys s0) as [Ho Hp].
    { subst s0. destruct Hb as [Hb|Hb]; [by left|right].
      cbn [broadcast workers set_workers set_loadedChunks]. by rewrite Hb. }
    split; [exact Ho|exact Hp].
  - intros Hx Hz. unfold column_positions, column_keys.
    rewrite <- list_fmap_compose. apply list_fmap_ext.
    intros i y Hy. cbn [compose]. unfold keyOf, JS.floor16. cbn [Vec3.x Vec3.y Vec3.z].
    rewrite (aligned_floor x), (aligned_floor z) by done.
    rewrite section_ys_aligned; [done|]. by eapply list_elem_of_lookup_2.
Qed.



Lemma markAll_flat_map {A} (f : A -> list Vec3.t) (l : list A) s :
  fold_left (fun s a => markAll (f a) s) l s = markAll (flat_map f l) s.
Proof.
  revert s. induction l as [|a l IH]; intros s; [done|].
  cbn [fold_left flat_map]. by rewrite IH, Neighbours.markAll_app.
Qed.

Lemma addColumn_marks x z chunk s :
  addColumn x z chunk s
  = markAll (column_targets x z)
      (broadcast (MsgChunk x z chunk)
         (set_loadedChunks ({[ World.columnKey x z ]} ∪ loadedChunks s) s)).
Proof. unfold column_targets. by rewrite <- markAll_flat_map. Qed.

Lemma markAll_loadedChunks qs s : loadedChunks (markAll qs s) = loadedChunks s.
Proof.
  apply (FrameFacts.fold_left_invariant
           (fun s' => loadedChunks s' = loadedChunks s)); [|done].
  intros s' q <-. unfold setSectionDirty.
  destruct (negb (active s') || _); [done|].
  destruct (true && _); done.
Qed.

Lemma markAll_inboxes (m : Request) qs s :
  Forall (fun inbox => m ∈ inbox) (workers s) ->
  Forall (fun inbox => m ∈ inbox) (workers (markAll qs s)).
Proof.
  apply (FrameFacts.fold_left_invariant
           (fun s => Forall (fun inbox => m ∈ inbox) (workers s))).
  intros s' q. apply setSectionDirty_inboxes.
Qed.

Lemma column_targets_keys x z k :
  k ∈ keyOf <$> column_targets x z
  <-> exists y dx dz,
        y ∈ section_ys /\ (dx, dz) ∈ around
        /\ k = sectionKey (x / 16 * 16 + dx) y (z / 16 * 16 + dz).
Proof.
  unfold column_targets. rewrite list_elem_of_fmap. split.
  - intros (q & -> & Hq). apply list_elem_of_In, in_flat_map in Hq as (y & Hy & Hq).
    apply list_elem_of_In in Hy, Hq. pose proof (section_ys_aligned y Hy) as Ha.
    cbv zeta in Hq. exists y.
    repeat (apply elem_of_cons in Hq as [->|Hq]).
    + exists 0, 0. split; [done|]. split; [set_solver|].
      unfold keyOf, JS.floor16. cbn [Vec3.x Vec3.y Vec3.z]. rewrite Ha.
      by rewrite !Z.add_0_r.
    + exists (-16), 0. split; [done|]. split; [set_solver|].
      rewrite Neighbours.keyOf_west. cbn [Vec3.x Vec3.y Vec3.z]. rewrite Ha.
      by rewrite Z.add_0_r.
    + exists 16, 0. split; [done|]. split; [set_solver|].
      rewrite Neighbours.keyOf_east. cbn [Vec3.x Vec3.y Vec3.z]. rewrite Ha.
      by rewrite Z.add_0_r.
    + exists 0, (-16). split; [done|]. split; [set_solver|].
      rewrite Neighbours.keyOf_north. cbn [Vec3.x Vec3.y Vec3.z]. rewrite Ha.
      by rewrite Z.add_0_r.
    + exists 0, 16. split; [done|]. split; [set_solver|].
      rewrite Neighbours.keyOf_south. cbn [Vec3.x Vec3.y Vec3.z]. rewrite Ha.
      by rewrite Z.add_0_r.
    + by apply elem_of_nil in Hq.
  - intros (y & dx & dz & Hy & Hd & ->).
    pose proof (section_ys_aligned y Hy) as Ha.
    assert (Hq : forall q,
      q ∈ [Vec3.mk x y z; Vec3.offset (Vec3.mk x y z) (-16) 0 0;
           Vec3.offset (Vec3.mk x y z) 16 0 0;
           Vec3.offset (Vec3.mk x y z) 0 0 (-16);
           Vec3.offset (Vec3.mk x y z) 0 0 16] ->
      q ∈ flat_map
            (fun y =>
               let loc := Vec3.mk x y z in
               [loc; Vec3.offset loc (-16) 0 0; Vec3.offset loc 16 0 0;
                Vec3.offset loc 0 0 (-16); Vec3.offset loc 0 0 16])
            section_ys).
    { intros q Hin. apply list_elem_of_In, in_flat_map. exists y.
      split; by apply list_elem_of_In. }
    unfold around in Hd.
    repeat (apply elem_of_cons in Hd as [[= -> ->]|Hd]);
      [| | | | |by apply elem_of_nil in Hd].
    + exists (Vec3.mk x y z). split; [|apply Hq; left].
      unfold keyOf, JS.floor16. cbn [Vec3.x Vec3.y Vec3.z].
      by rewrite Ha, !Z.add_0_r.
    + exists (Vec3.offset (Vec3.mk x y z) (-16) 0 0).
      split; [|apply Hq; right; left].
      rewrite Neighbours.keyOf_west. cbn [Vec3.x Vec3.y Vec3.z].
      by rewrite Ha, Z.add_0_r.
    + exists (Vec3.offset (Vec3.mk x y z) 16 0 0).
      split; [|apply Hq; do 2 right; left].
      rewrite Neighbours.keyOf_east. cbn [Vec3.x Vec3.y Vec3.z].
      by rewrite Ha, Z.add_0_r.
    + exists (Vec3.offset (Vec3.mk x y z) 0 0 (-16)).
      split; [|apply Hq; do 3 right; left].
      rewrite Neighbours.keyOf_north. cbn [Vec3.x Vec3.y Vec3.z].
      by rewrite Ha, Z.add_0_r.
    + exists (Vec3.offset (Vec3.mk x y z) 0 0 16).
      split; [|apply Hq; do 4 right; left].
      rewrite Neighbours.keyOf_south. cbn [Vec3.x Vec3.y Vec3.z].
      by rewrite Ha, Z.add_0_r.
Qed.

(** X19.  [addColumn] records the column (x, z) as loaded, sends the
    chunk to every worker, and marks dirty the sixteen sections of the
    column and of its four neighbours in x and z.  Each of these eighty
    sections becomes pending; those that were not pending already become
    outstanding and are dispatched exactly once, and no other section is
    dispatched. *)
Theorem addColumn_marks_column_and_four_neighbours
  (x z : Z) (chunk : Json) (s : t) :
  guard_passes s ->
  let s' := addColumn x z chunk s in
  let marked (k : string) :=
    exists y dx dz,
      y ∈ section_ys /\ (dx, dz) ∈ around
      /\ k = sectionKey (x / 16 * 16 + dx) y (z / 16 * 16 + dz) in
  loadedChunks s' = {[ World.columnKey x z ]} ∪ loadedChunks s
  /\ Forall (fun inbox => MsgChunk x z chunk ∈ inbox) (workers s')
  /\ (forall k, k ∈ pendingDirtySections s'
                <-> marked k \/ k ∈ pendingDirtySections s)
  /\ (forall k, k ∈ sectionsOutstanding s'
                <-> (marked k /\ k ∉ pendingDirtySections s)
                    \/ k ∈ sectionsOutstanding s)
  /\ (forall k, marked k -> k ∉ pendingDirtySections s ->
                dispatches k s' = S (dispatches k s))
  /\ (forall k, ~ marked k \/ k ∈ pendingDirtySections s ->
                dispatches k s' = dispatches k s)
  /\ length (column_targets x z) = 80%nat.
Proof.
  intros Hg s' marked. subst s'. rewrite addColumn_marks.
  set (s0 := broadcast _ _).
  assert (Hg0 : guard_passes s0) by by apply FrameFacts.broadcast_guard.
  assert (Hd0 : forall k, dispatches k s0 = dispatches k s).
  { intros k. subst s0. by rewrite FrameFacts.broadcast_dispatches. }
  assert (Hmk : forall k, marked k <-> k ∈ keyOf <$> column_targets x z).
  { intros k. symmetry. apply column_targets_keys. }
  split; [by rewrite markAll_loadedChunks|].
  split; [apply markAll_inboxes, broadcast_inboxes|].
  split; [|split; [|split; [|split]]].
  - intros k. rewrite markAll_pending by done.
    rewrite elem_of_union, elem_of_list_to_set, Hmk. done.
  - intros k. rewrite markAll_outstanding by done.
    rewrite elem_of_union, elem_of_difference, elem_of_list_to_set, Hmk. done.
  - intros k Hk Hp. rewrite markAll_dispatches by done.
    rewrite bool_decide_eq_true_2 by (split; [by apply Hmk|done]).
    rewrite Hd0. lia.
  - intros k Hk. rewrite markAll_dispatches by done.
    rewrite bool_decide_eq_false_2.
    + rewrite Hd0. lia.
    + intros [Hin Hnp]. apply Hmk in Hin. destruct Hk; done.
  - unfold column_targets. rewrite section_ys_list. reflexivity.
Qed.

Lemma addColumn_marks_column_and_four_neighbours_witness :
  let s := set_active true (new 4) in
  dispatches (sectionKey (-16) 32 0) (addColumn 0 0 "{}" s)
  = S (dispatches (sectionKey (-16) 32 0) s).
Proof.
  intros s.
  assert (Hgs : guard_passes s) by (split; [reflexivity|discriminate]).
  destruct (addColumn_marks_column_and_four_neighbours 0 0 "{}"%string s Hgs)
    as (_ & _ & _ & _ & Hd & _).
  apply Hd.
  - exists 32, (-16), 0. split; [|split; [|reflexivity]].
    + by apply list_elem_of_lookup_2 with 2%nat.
    + by apply list_elem_of_lookup_2 with 1%nat.
  - apply not_elem_of_empty.
Defined.

Lemma removeColumn_clears_the_sections_of_the_column_witness :
  let s := set_active true (new 1) in
  JS.dict_get (sectionMeshs (removeColumn 0 0 s)) "0,0,0" = None
  /\ "0,0,0"%string ∉ sectionsOutstanding (removeColumn 0 0 s).
Proof.
  intros s.
  destruct (removeColumn_clears_the_sections_of_the_column 0 0 s)
    as (_ & _ & Hm & Hg & _ & _).
  split.
  - rewrite Hm. by destruct (bool_decide _).
  - assert (Hgs : guard_passes s) by (split; [reflexivity|discriminate]).
    destruct (Hg Hgs "0,0,0"%string) as [Ho _].
    intros Hin. apply Ho in Hin as [Hin _]. by apply elem_of_empty in Hin.
Defined.

End ColumnFacts.

(** ** A dirty section, from the coordinator to a worker and back *)
Module RoundTripFacts.
Import Protocol Dispose WorldRenderer Routes RoutingFacts Drain Queue.
Import Meshes MeshFacts LifecycleFacts.

(** The mesh that [_handleGeometry] installs when the column is loaded. *)
Lemma handleGeometry_loaded x y z geometry s :
  World.columnKey x z ∈ loadedChunks s ->
  let s' := handleGeometry (sectionKey x y z) geometry s in
  (exists mesh,
     JS.dict_get (sectionMeshs s') (sectionKey x y z) = Some mesh
     /\ mesh_position mesh = (sx geometry, sy geometry, sz geometry))
  /\ sectionsOutstanding s' = sectionsOutstanding s
  /\ workersActive s' = workersActive s.
Proof.
  intros Hin s'. subst s'. unfold handleGeometry.
  destruct (old_mesh_removed (sectionKey x y z) s) as (sc & g & Hs1 & _).
  cbv zeta in Hs1. rewrite Hs1. clear Hs1. cbv zeta.
  rewrite JSFacts.column_of_sectionKey.
  cbn [loadedChunks set_sectionMeshs set_gpu set_scene].
  rewrite bool_decide_eq_true_2 by done. cbn [negb].
  unfold sceneAdd. SharedFacts.fields. split; [|done].
  eexists. split; [by rewrite LRUContentsFacts.get_set, decide_True|done].
Qed.

Section WithLibraries.
Context `{World.Libraries}.
Variable getSectionGeometry :
  Z -> Z -> Z -> World.t -> Json -> World.t * (string + Geometry).

(** One turn of the drain on a section that is found and meshed. *)
Lemma processSection_meshed blocks x y z s w w' geometry :
  Worker.world s = Some w ->
  Worker.sectionExists (World.getColumn w x z) y = true ->
  getSectionGeometry x y z w blocks = (w', inr geometry) ->
  Worker.processSection getSectionGeometry blocks (sectionKey x y z) s
  = Worker.postMessage (MsgSectionFinished (sectionKey x y z))
      (Worker.postMessage (MsgGeometry (sectionKey x y z) geometry)
         (Worker.with_world (Some w')
            (Worker.with_dirty
               (Worker.dirty_delete (sectionKey x y z) (Worker.dirtySections s))
               s))).
Proof.
  intros Hw Hex Hgeo. unfold Worker.processSection.
  rewrite JSFacts.split_sectionKey. unfold JS.nth_str.
  cbn [lookup list_lookup default from_option id].
  rewrite !JSFacts.parseInt_toString. cbv zeta. rewrite Hw, Hex, Hgeo. done.
Qed.

(** X20.  A section marked dirty makes the round trip.  The coordinator
    sends the mark to the worker chosen by the position and holds the
    section outstanding.  The worker, which has the sub-chunk loaded and
    an empty queue, queues the section; its next drain meshes it and
    answers with the geometry and then [sectionFinished], leaving the
    queue empty.  When the coordinator, which still has the column
    loaded, handles the two answers, the section has a mesh at the
    position given with the geometry and is no longer outstanding. *)
Theorem dirty_section_round_trip
  (pos : Vec3.t) (cs : WorldRenderer.t) (ws : Worker.t) (w w' : World.t)
  (blocks : Json) (geometry : Geometry) :
  let x := Vec3.x pos / 16 * 16 in
  let y := Vec3.y pos / 16 * 16 in
  let z := Vec3.z pos / 16 * 16 in
  let key := sectionKey x y z in
  let i := Z.to_nat (hashOf pos (length (workers cs))) in
  guard_passes cs -> workersActive cs = true ->
  (key ∉ pendingDirtySections cs) ->
  (World.columnKey x z ∈ loadedChunks cs) ->
  Worker.world ws = Some w -> Worker.blocksStates ws = Some blocks ->
  Worker.dirtySections ws = [] ->
  has_section ws x y z = true ->
  getSectionGeometry x y z w blocks = (w', inr geometry) ->
  let cs1 := setSectionDirty pos true cs in
  let ws1 := Worker.handleMessage (dirtyMsg pos true) ws in
  let ws2 := Worker.processDirtySections getSectionGeometry ws1 in
  let cs2 :=
    onmessage (MsgSectionFinished key)
      (onmessage (MsgGeometry key geometry) cs1) in
  (exists inbox, workers cs !! i = Some inbox
                 /\ workers cs1 !! i = Some (inbox ++ [dirtyMsg pos true]))
  /\ key ∈ sectionsOutstanding cs1
  /\ Worker.dirtySections ws1 = [key]
  /\ Worker.outbox ws2
     = Worker.outbox ws ++ [MsgGeometry key geometry; MsgSectionFinished key]
  /\ Worker.dirtySections ws2 = []
  /\ (key ∉ sectionsOutstanding cs2)
  /\ (exists mesh,
        JS.dict_get (sectionMeshs cs2) key = Some mesh
        /\ mesh_position mesh = (sx geometry, sy geometry, sz geometry)).
Proof.
  intros x y z key i Hg Hwa Hnp Hcol Hw Hb Hq Hsec Hgeo cs1 ws1 ws2 cs2.
  assert (Hkey : keyOf pos = key) by reflexivity.
  (* the coordinator marks *)
  assert (Hcs1 : cs1
    = set_pendingDirtySections ({[key]} ∪ pendingDirtySections cs)
        (set_sectionsOutstanding ({[key]} ∪ sectionsOutstanding cs)
           (postTo (hashOf pos (length (workers cs))) (dirtyMsg pos true) cs))).
  { subst cs1. rewrite setSectionDirty_marked by (rewrite ?Hkey; done).
    by rewrite Hkey. }
  (* the worker queues *)
  assert (Hws1 : ws1 = Worker.with_dirty [key] ws).
  { subst ws1. unfold Worker.handleMessage, Worker.handleMessage_try, dirtyMsg.
    unfold Worker.setSectionDirty. cbn [negb Vec3.x Vec3.y Vec3.z].
    unfold has_section in Hsec. unfold JS.floor16. fold x y z. fold key.
    rewrite Hsec, Hq. reflexivity. }
  (* the worker drains *)
  assert (Hex : Worker.sectionExists (World.getColumn w x z) y = true).
  { unfold has_section in Hsec. by rewrite Hw in Hsec. }
  assert (Hws2 : ws2
    = Worker.postMessage (MsgSectionFinished key)
        (Worker.postMessage (MsgGeometry key geometry)
           (Worker.with_world (Some w')
              (Worker.with_dirty (Worker.dirty_delete key [key]) ws1)))).
  { subst ws2. unfold Worker.processDirtySections. rewrite Hws1.
    cbn [Worker.world Worker.blocksStates Worker.with_dirty
         Worker.dirtySections]. rewrite Hw, Hb. cbn [fold_left].
    by apply processSection_meshed with (w := w). }
  (* the coordinator handles the answers *)
  assert (Hwa1 : workersActive cs1 = true) by (by rewrite Hcs1).
  assert (Hcol1 : World.columnKey x z ∈ loadedChunks cs1) by (by rewrite Hcs1).
  destruct (handleGeometry_loaded x y z geometry cs1 Hcol1)
    as ((mesh & Hmesh & Hpos) & Hout & Hact).
  fold key in Hmesh, Hout, Hact.
  set (cs' := handleGeometry key geometry cs1) in *.
  assert (Hgeo1 : onmessage (MsgGeometry key geometry) cs1 = cs').
  { unfold onmessage. by rewrite Hwa1. }
  assert (Hwa' : workersActive cs' = true) by congruence.
  destruct (WaitFacts.finished_effect key cs' Hwa') as (Hfin & _).
  cbn [Timeline.handle] in Hfin.
  assert (Hm2 : sectionMeshs cs2 = sectionMeshs cs').
  { subst cs2. rewrite Hgeo1. unfold onmessage. rewrite Hwa'. cbn [negb].
    by destruct (emitUpdate_same
                   (set_sectionsOutstanding (sectionsOutstanding cs' ∖ {[key]}) cs'))
      as (-> & _). }
  split; [|split; [|split; [|split; [|split; [|split]]]]].
  - pose proof (hashOf_index pos (length (workers cs))) as Hi.
    destruct Hg as [_ Hne].
    assert (Hlen : (0 < length (workers cs))%nat) by (destruct (workers cs); [done|cbn; lia]).
    specialize (Hi Hlen). fold i in Hi.
    destruct (lookup_lt_is_Some_2 (workers cs) i Hi) as [inbox Hin].
    exists inbox. split; [done|]. rewrite Hcs1.
    cbn [workers set_pendingDirtySections set_sectionsOutstanding postTo
         set_workers]. fold i.
    by rewrite list_lookup_alter, decide_True, Hin.
  - rewrite Hcs1. cbn [sectionsOutstanding set_pendingDirtySections
                       set_sectionsOutstanding]. set_solver.
  - by rewrite Hws1.
  - rewrite Hws2, Hws1. cbn [Worker.outbox Worker.postMessage Worker.with_world
                             Worker.with_dirty]. by rewrite <- app_assoc.
  - rewrite Hws2. cbn [Worker.dirtySections Worker.postMessage
                       Worker.with_world Worker.with_dirty].
    unfold Worker.dirty_delete.
    by rewrite (filter_cons_False (fun k => k ≠ key)) by (intros Hn; by apply Hn).
  - subst cs2. rewrite Hgeo1, Hfin. set_solver.
  - exists mesh. by rewrite Hm2.
Qed.

End WithLibraries.

(** One worker with the column (0, 0) loaded on both sides; the block at
    (3, 5, 7) lies in the section (0, 0, 0). *)
Lemma dirty_section_round_trip_witness :
  let cs := set_loadedChunks {[ World.columnKey 0 0 ]} (set_active true (new 1)) in
  let ws := Worker.mk (H := Toy.libraries) (Some "{}"%string) (Some Toy.world)
              [] [] in
  let pos := Vec3.mk 3 5 7 in
  let key := sectionKey 0 0 0 in
  let geometry := mkGeometry [] [] [] [] [] 0 0 0 in
  let cs2 :=
    onmessage (MsgSectionFinished key)
      (onmessage (MsgGeometry key geometry) (setSectionDirty pos true cs)) in
  (key ∉ sectionsOutstanding cs2)
  /\ exists mesh,
       JS.dict_get (sectionMeshs cs2) key = Some mesh
       /\ mesh_position mesh = (0, 0, 0).
Proof.
  intros cs ws pos key geometry cs2.
  destruct (dirty_section_round_trip (H := Toy.libraries) Toy.mesher pos cs ws
              Toy.world Toy.world "{}"%string geometry)
    as (_ & _ & _ & _ & _ & Hout & Hmesh).
  - split; [reflexivity|discriminate].
  - reflexivity.
  - apply not_elem_of_empty.
  - change (World.columnKey 0 0 ∈ ({[ World.columnKey 0 0 ]} : gset string)).
    by apply elem_of_singleton_2.
  - reflexivity.
  - reflexivity.
  - reflexivity.
  - vm_compute. reflexivity.
  - reflexivity.
  - split; [exact Hout|exact Hmesh].
Defined.

End RoundTripFacts.

(** ** The rate limiter *)
Module RateLimitFacts.
Import RateLimit Clients.

Section Limiter.
Variables (windowMs maxRequests : Z).

Abbreviation limiter := (RateLimit.limiter windowMs maxRequests).
Abbreviation limiter1 := (Clients.limiter1 windowMs maxRequests).
Abbreviation serve := (RateLimit.serve windowMs maxRequests).

(** A request, seen from its client. *)
Lemma limiter_own now req st :
  (limiter now req st).1 = (limiter1 now (view st (clientKey req))).1
  /\ view (limiter now req st).2 (clientKey req)
     = (limiter1 now (view st (clientKey req))).2.
Proof.
  unfold RateLimit.limiter, Clients.limiter1, view. cbv zeta.
  destruct (JS.dict_has st (clientKey req)) eqn:Eh; cbn [negb].
  - apply LRUContentsFacts.has_get in Eh as [record Eg]. rewrite Eg.
    destruct (resetTime record <? now).
    + cbn [fst snd]. by rewrite LRUContentsFacts.get_set, decide_True.
    + destruct (maxRequests <=? count record); cbn [fst snd]; [done|].
      by rewrite LRUContentsFacts.get_set, decide_True.
  - rewrite (LRUContentsFacts.get_absent _ _ Eh). cbn [fst snd].
    by rewrite LRUContentsFacts.get_set, decide_True.
Qed.

(** A request, seen from another client. *)
Lemma limiter_other now req st k :
  clientKey req <> k -> view (limiter now req st).2 k = view st k.
Proof.
  intros Hne. unfold RateLimit.limiter, view. cbv zeta.
  destruct (JS.dict_has st (clientKey req)) eqn:Eh; cbn [negb].
  - destruct (JS.dict_get st (clientKey req)) as [record|]; [|done].
    destruct (resetTime record <? now).
    + cbn [snd]. rewrite LRUContentsFacts.get_set, decide_False; done.
    + destruct (maxRequests <=? count record); cbn [snd]; [done|].
      rewrite LRUContentsFacts.get_set, decide_False; done.
  - cbn [snd]. rewrite LRUContentsFacts.get_set, decide_False; done.
Qed.

Lemma set_keys (st : Requests) k e :
  (JS.dict_set st k e).*1
  = if JS.dict_has st k then st.*1 else st.*1 ++ [k].
Proof.
  induction st as [|[a x] st IH]; [done|].
  cbn [JS.dict_set JS.dict_has existsb fst].
  destruct (decide (a = k)) as [->|Hne].
  - by rewrite bool_decide_eq_true_2.
  - rewrite bool_decide_eq_false_2 by done. cbn [orb].
    rewrite !fmap_cons, IH. cbn [fst]. unfold JS.dict_has.
    by destruct (existsb _ st).
Qed.

Lemma set_keys_NoDup (st : Requests) k e :
  NoDup st.*1 -> NoDup (JS.dict_set st k e).*1.
Proof.
  intros Hnd. rewrite set_keys. destruct (JS.dict_has st k) eqn:Eh; [done|].
  apply LRUFacts.has_false_iff in Eh.
  apply NoDup_app. split; [done|]. split; [|apply NoDup_singleton].
  intros a Ha ->%list_elem_of_singleton. done.
Qed.

Lemma limiter_NoDup now req st :
  NoDup st.*1 -> NoDup (limiter now req st).2.*1.
Proof.
  intros Hnd. unfold RateLimit.limiter. cbv zeta.
  destruct (negb _); [by apply set_keys_NoDup|].
  destruct (JS.dict_get _ _) as [record|]; [|done].
  destruct (_ <? _); [by apply set_keys_NoDup|].
  destruct (_ <=? _); [done|by apply set_keys_NoDup].
Qed.

Lemma cleanup_cons now (a : option string) (x : Entry) (st : Requests) :
  cleanup now ((a, x) :: st)
  = if decide (resetTime x < now) then cleanup now st
    else (a, x) :: cleanup now st.
Proof.
  unfold cleanup. destruct (decide (resetTime x < now)) as [Hx|Hx].
  - by rewrite (filter_cons_False
                  (fun e : option string * Entry => ~ resetTime e.2 < now))
      by (cbn; tauto).
  - by rewrite (filter_cons_True
                  (fun e : option string * Entry => ~ resetTime e.2 < now)).
Qed.

Lemma cleanup_keys now (st : Requests) k : k ∈ (cleanup now st).*1 -> k ∈ st.*1.
Proof.
  induction st as [|[a x] st IH]; [done|].
  rewrite cleanup_cons, fmap_cons. cbn [fst].
  destruct (decide _).
  - intros Hin. right. by apply IH.
  - rewrite fmap_cons. cbn [fst]. intros [->|Hin]%elem_of_cons; [left|right].
    by apply IH.
Qed.

Lemma cleanup_NoDup now (st : Requests) :
  NoDup st.*1 -> NoDup (cleanup now st).*1.
Proof.
  induction st as [|[a x] st IH]; [done|].
  rewrite fmap_cons. intros [Ha Hnd]%NoDup_cons. rewrite cleanup_cons.
  destruct (decide _); [by apply IH|].
  rewrite fmap_cons. apply NoDup_cons. split; [|by apply IH].
  cbn [fst] in *. intros Hin. apply Ha. by eapply cleanup_keys.
Qed.

(** The cleanup, seen from a client. *)
Lemma cleanup_view now (st : Requests) k :
  NoDup st.*1 -> view (cleanup now st) k = cleanup1 now (view st k).
Proof.
  unfold view, cleanup1. induction st as [|[a x] st IH]; [done|].
  rewrite fmap_cons. intros [Ha Hnd]%NoDup_cons. cbn [fst] in Ha.
  rewrite cleanup_cons. cbn [JS.dict_get].
  destruct (decide (a = k)) as [->|Hne].
  - destruct (decide (resetTime x < now)) as [Hk|Hk].
    + assert (Hno : JS.dict_get st k = None).
      { apply LRUContentsFacts.get_absent. by apply LRUFacts.has_false_iff. }
      rewrite IH, Hno by done. done.
    + cbn [JS.dict_get]. by rewrite decide_True.
  - destruct (decide (resetTime x < now)) as [Hk|Hk].
    + by apply IH.
    + cbn [JS.dict_get]. rewrite decide_False by done. by apply IH.
Qed.

Abbreviation serve1 := (Clients.serve1 windowMs maxRequests).

(** The responses to a client are those of the limiter seen from that
    client. *)
Lemma answers_serve k evs (st : Requests) :
  NoDup st.*1 -> answers k (serve evs st).1 = serve1 k evs (view st k).
Proof.
  revert st. induction evs as [|[now req|now] evs IH]; intros st Hnd.
  - done.
  - cbn [RateLimit.serve Clients.serve1].
    destruct (RateLimit.limiter windowMs maxRequests now req st)
      as [response st'] eqn:El.
    pose proof (limiter_NoDup now req st Hnd) as Hnd'.
    pose proof (limiter_own now req st) as [Hr Hv].
    pose proof (limiter_other now req st k) as Ho.
    rewrite El in Hnd', Hr, Hv, Ho. cbn [fst snd] in Hnd', Hr, Hv, Ho.
    specialize (IH st' Hnd').
    destruct (RateLimit.serve windowMs maxRequests evs st') as [responses st''].
    cbn [fst] in *. unfold answers in *.
    destruct (decide (clientKey req = k)) as [Hk|Hk].
    + rewrite (filter_cons_True (fun r : option string * Response => r.1 = k))
        by done.
      rewrite fmap_cons. cbn [snd]. rewrite IH. subst k. by rewrite Hr, Hv.
    + rewrite (filter_cons_False (fun r : option string * Response => r.1 = k))
        by done.
      rewrite IH. by rewrite Ho.
  - cbn [RateLimit.serve Clients.serve1].
    rewrite IH by by apply cleanup_NoDup. by rewrite cleanup_view.
Qed.

(** In an open window with [c] requests counted, the client gets
    through until the count reaches [maxRequests]. *)
Lemma serve1_in_window k evs c R :
  (forall e, e ∈ evs -> time_of e <= R) ->
  serve1 k evs (Some (mkEntry c R))
  = replicate (min (length (times_of k evs)) (Z.to_nat (maxRequests - c))) Next
    ++ ((fun t => TooManyRequests (ceil_seconds (R - t)))
          <$> drop (Z.to_nat (maxRequests - c)) (times_of k evs)).
Proof.
  revert c. induction evs as [|[now req|now] evs IH]; intros c Hin.
  - cbn. by rewrite drop_nil.
  - assert (Hnow : now <= R) by (apply (Hin (Request now req)); left).
    assert (Hrest : forall e, e ∈ evs -> time_of e <= R)
      by (intros e He; apply Hin; by right).
    cbn [Clients.serve1 times_of].
    destruct (decide (clientKey req = k)) as [Hk|Hk]; [|by apply IH].
    unfold Clients.limiter1. cbn [resetTime count].
    rewrite (proj2 (Z.ltb_ge R now)) by done.
    destruct (maxRequests <=? c) eqn:Em.
    + apply Z.leb_le in Em. cbn [fst snd]. rewrite IH by done.
      replace (Z.to_nat (maxRequests - c)) with 0%nat by lia.
      rewrite !Nat.min_0_r, !drop_0. cbn [replicate app]. by rewrite fmap_cons.
    + apply Z.leb_gt in Em. cbn [fst snd]. rewrite IH by done.
      replace (Z.to_nat (maxRequests - c))
        with (S (Z.to_nat (maxRequests - (c + 1)))) by lia.
      cbn [length Nat.min replicate app drop]. done.
  - assert (Hnow : now <= R) by (apply (Hin (Cleanup now)); left).
    cbn [Clients.serve1 times_of cleanup1 resetTime].
    rewrite decide_False by lia. apply IH. intros e He. apply Hin. by right.
Qed.

(** Until its first request, a client without an open window stays
    without one; the first request opens a window. *)
Lemma serve1_opens_window k evs o t0 rest :
  times_of k evs = t0 :: rest ->
  no_window t0 o ->
  (forall e, e ∈ evs -> time_of e <= t0 + windowMs) ->
  serve1 k evs o
  = Next :: replicate (min (length rest) (Z.to_nat (maxRequests - 1))) Next
    ++ ((fun t => TooManyRequests (ceil_seconds (t0 + windowMs - t)))
          <$> drop (Z.to_nat (maxRequests - 1)) rest).
Proof.
  revert o. induction evs as [|[now req|now] evs IH]; intros o Ht Hno Hin.
  - done.
  - cbn [times_of] in Ht. cbn [Clients.serve1].
    assert (Hrest : forall e, e ∈ evs -> time_of e <= t0 + windowMs)
      by (intros e He; apply Hin; by right).
    destruct (decide (clientKey req = k)) as [Hk|Hk]; [|by apply IH].
    injection Ht as -> Ht.
    assert (Hopen : Clients.limiter1 windowMs maxRequests t0 o
                    = (Next, Some (mkEntry 1 (t0 + windowMs)))).
    { unfold Clients.limiter1. destruct o as [record|]; [|done].
      cbn [no_window] in Hno. by rewrite (proj2 (Z.ltb_lt _ _) Hno). }
    rewrite Hopen. cbn [fst snd]. f_equal.
    rewrite serve1_in_window by done. by rewrite Ht.
  - cbn [times_of] in Ht. cbn [Clients.serve1]. apply IH; [done| |].
    + destruct o as [record|]; [|done]. cbn [cleanup1].
      by destruct (decide _).
    + intros e He. apply Hin. by right.
Qed.

(** X21.  Within one window a client gets through exactly
    max (1, maxRequests) times, whatever the other clients do.  If the
    first request of a client in a history finds no open window for it,
    and the history ends before that request's window does, then this
    request passes, the next [maxRequests - 1] requests of the client
    pass, and every further one is answered 429 with the time to the end
    of the window in seconds, rounded up.  The requests of other clients
    and the turns of the cleanup do not change this. *)
Theorem window_admits_max_requests
  (k : option string) (evs : list Event) (st : Requests) (t0 : Z)
  (rest : list Z) :
  NoDup st.*1 ->
  times_of k evs = t0 :: rest ->
  no_window t0 (view st k) ->
  (forall e, e ∈ evs -> time_of e <= t0 + windowMs) ->
  answers k (serve evs st).1
  = Next :: replicate (min (length rest) (Z.to_nat (maxRequests - 1))) Next
    ++ ((fun t => TooManyRequests (ceil_seconds (t0 + windowMs - t)))
          <$> drop (Z.to_nat (maxRequests - 1)) rest).
Proof.
  intros Hnd Ht Hno Hin. rewrite answers_serve by done.
  by apply serve1_opens_window.
Qed.

Lemma ceil_seconds_bounds a :
  1000 * (ceil_seconds a - 1) < a <= 1000 * ceil_seconds a.
Proof.
  unfold ceil_seconds.
  pose proof (Z.div_mod (- a) 1000 ltac:(lia)) as Hd.
  pose proof (Z.mod_pos_bound (- a) 1000 ltac:(lia)) as Hm. lia.
Qed.

Lemma ceil_seconds_mono a b : a <= b -> ceil_seconds a <= ceil_seconds b.
Proof.
  intros Hab. unfold ceil_seconds.
  pose proof (Z.div_le_mono (- b) (- a) 1000 ltac:(lia) ltac:(lia)). lia.
Qed.

(** X22.  A request is answered 429 only while the window of its client
    is open and full, and the answer changes nothing in the map.  The
    [retryAfter] it carries is the time to the end of the window in
    seconds, rounded up, and is not negative.  The client is refused
    again at every later time up to and including the end of the window
    (so also after waiting [retryAfter] seconds, when that is the end of
    the window to the millisecond), and passes at every time after it. *)
Theorem too_many_requests_until_window_ends
  (now : Z) (req : Req) (st : Requests) (r : Z) :
  (limiter now req st).1 = TooManyRequests r ->
  exists record,
    view st (clientKey req) = Some record
    /\ now <= resetTime record /\ maxRequests <= count record
    /\ (limiter now req st).2 = st
    /\ 0 <= r /\ 1000 * (r - 1) < resetTime record - now <= 1000 * r
    /\ (forall later, now <= later <= resetTime record ->
          exists r', (limiter later req st).1 = TooManyRequests r'
                     /\ 0 <= r' <= r)
    /\ (forall later, resetTime record < later ->
          (limiter later req st).1 = Next).
Proof.
  intros Hr.
  assert (Hstep : forall t, (limiter t req st).1
                            = (limiter1 t (view st (clientKey req))).1).
  { intros t. apply limiter_own. }
  assert (Hsame : (limiter now req st).2 = st).
  { revert Hr. unfold RateLimit.limiter. cbv zeta.
    destruct (negb _); [done|].
    destruct (JS.dict_get _ _) as [record|]; [|done].
    destruct (_ <? _); [done|]. by destruct (_ <=? _). }
  rewrite Hstep in Hr. unfold Clients.limiter1 in Hr.
  destruct (view st (clientKey req)) as [record|] eqn:Ev; [|done].
  destruct (resetTime record <? now) eqn:Et; [done|].
  destruct (maxRequests <=? count record) eqn:Em; [|done].
  apply Z.ltb_ge in Et. apply Z.leb_le in Em.
  injection Hr as <-. exists record.
  pose proof (ceil_seconds_bounds (resetTime record - now)) as Hb.
  split; [done|]. split; [done|]. split; [done|]. split; [done|].
  split; [lia|]. split; [done|]. split.
  - intros later [Hl1 Hl2]. rewrite Hstep. unfold Clients.limiter1.
    rewrite (proj2 (Z.ltb_ge _ _) Hl2), (proj2 (Z.leb_le _ _) Em).
    eexists. split; [reflexivity|].
    pose proof (ceil_seconds_bounds (resetTime record - later)) as Hb'.
    split; [lia|]. apply ceil_seconds_mono. lia.
  - intros later Hl. rewrite Hstep. unfold Clients.limiter1.
    by rewrite (proj2 (Z.ltb_lt _ _) Hl).
Qed.

Lemma stands_for_later t t' o o' :
  t <= t' -> stands_for t o o' -> stands_for t' o o'.
Proof.
  intros Ht [->|[-> Hno]]; [by left|]. right. split; [done|].
  destruct o' as [record|]; [|done]. cbn [no_window] in *. lia.
Qed.

Lemma stands_for_limiter1 t o o' :
  stands_for t o o' ->
  (limiter1 t o).1 = (limiter1 t o').1
  /\ (limiter1 t o).2 = (limiter1 t o').2.
Proof.
  intros [->|[-> Hno]]; [done|].
  destruct o' as [record|]; [|done]. cbn [no_window] in Hno.
  unfold Clients.limiter1. by rewrite (proj2 (Z.ltb_lt _ _) Hno).
Qed.

Lemma stands_for_cleanup1 t o o' :
  stands_for t o o' -> stands_for t (cleanup1 t o) o'.
Proof.
  intros [->|[-> Hno]]; [|by right].
  destruct o' as [record|]; [|by left]. cbn [cleanup1].
  destruct (decide _); [by right|by left].
Qed.

(** A limiter that cleans up answers as one that does not. *)
Lemma serve_cleanup_free evs (st st' : Requests) t :
  NoDup st.*1 ->
  StronglySorted Z.le (t :: (time_of <$> evs)) ->
  (forall k, stands_for t (view st k) (view st' k)) ->
  (serve evs st).1
  = (serve (filter (fun e => is_request e = true) evs) st').1.
Proof.
  revert st st' t. induction evs as [|[now req|now] evs IH];
    intros st st' t Hnd Hsorted Hst.
  - done.
  - rewrite (filter_cons_True (fun e => is_request e = true)) by done.
    cbn [RateLimit.serve].
    apply StronglySorted_inv in Hsorted as [Hsorted Hle].
    rewrite fmap_cons in Hsorted, Hle. cbn [time_of] in Hsorted, Hle.
    assert (Htn : t <= now) by (by apply Forall_cons_1 in Hle as [? _]).
    pose proof (limiter_own now req st) as [Hr Hv].
    pose proof (limiter_own now req st') as [Hr' Hv'].
    pose proof (limiter_NoDup now req st Hnd) as Hnd1.
    assert (Hst1 : forall k, stands_for now
                     (view (limiter now req st).2 k)
                     (view (limiter now req st').2 k)).
    { intros k. destruct (decide (clientKey req = k)) as [<-|Hk].
      - rewrite Hv, Hv'.
        destruct (stands_for_limiter1 now _ _
                    (stands_for_later _ _ _ _ Htn (Hst (clientKey req))))
          as [_ ->]. by left.
      - rewrite !limiter_other by done.
        by apply stands_for_later with t. }
    assert (Hresp : (limiter now req st).1 = (limiter now req st').1).
    { rewrite Hr, Hr'.
      by destruct (stands_for_limiter1 now _ _
                     (stands_for_later _ _ _ _ Htn (Hst (clientKey req)))). }
    destruct (RateLimit.limiter windowMs maxRequests now req st)
      as [response st1].
    destruct (RateLimit.limiter windowMs maxRequests now req st')
      as [response' st1'].
    cbn [fst snd] in *. subst response'.
    specialize (IH st1 st1' now Hnd1 Hsorted Hst1).
    destruct (RateLimit.serve windowMs maxRequests evs st1) as [rs st2].
    destruct (RateLimit.serve windowMs maxRequests _ st1') as [rs' st2'].
    cbn [fst] in *. by rewrite IH, <- Hresp.
  - rewrite (filter_cons_False (fun e => is_request e = true)) by done.
    cbn [RateLimit.serve].
    apply StronglySorted_inv in Hsorted as [Hsorted Hle].
    rewrite fmap_cons in Hsorted, Hle. cbn [time_of] in Hsorted, Hle.
    assert (Htn : t <= now) by (by apply Forall_cons_1 in Hle as [? _]).
    apply (IH _ _ now); [by apply cleanup_NoDup|done|].
    intros k. rewrite cleanup_view by done.
    apply stands_for_cleanup1. by apply stands_for_later with t.
Qed.

(** X23.  The periodic cleanup is invisible: as long as time does not go
    back, a limiter answers every request of a history as it would if
    the turns of the cleanup were left out. *)
Theorem cleanup_changes_no_response (evs : list Event) (st : Requests) :
  NoDup st.*1 -> monotone evs ->
  (serve evs st).1
  = (serve (filter (fun e => is_request e = true) evs) st).1.
Proof.
  intros Hnd Hmono. destruct evs as [|e evs]; [done|].
  apply (serve_cleanup_free (e :: evs) st st (time_of e)); [done| |by left].
  unfold monotone in Hmono. rewrite fmap_cons in Hmono |- *.
  apply SSorted_cons; [done|].
  apply StronglySorted_inv in Hmono as [_ Hle].
  apply Forall_cons. split; [lia|done].
Qed.

End Limiter.

(** Two clients of a limiter of two requests per minute. *)
Lemma window_admits_max_requests_witness :
  let a := mkReq (Some "10.1.1.1"%string) None in
  let b := mkReq None (Some "10.1.1.2"%string) in
  answers (Some "10.1.1.1"%string)
    (RateLimit.serve 60000 2
       [Request 0 a; Request 10 b; Request 20 a; Cleanup 30; Request 40 a]
       []).1
  = [Next; Next; TooManyRequests 60].
Proof.
  intros a b.
  apply (window_admits_max_requests 60000 2 (Some "10.1.1.1"%string)
           [Request 0 a; Request 10 b; Request 20 a; Cleanup 30; Request 40 a]
           [] 0 [20; 40]).
  - apply NoDup_nil_2.
  - reflexivity.
  - exact I.
  - apply Forall_forall. repeat (apply List.Forall_cons; [cbn; lia|]).
    apply List.Forall_nil.
Defined.

Lemma too_many_requests_until_window_ends_witness :
  let req := mkReq (Some "10.1.1.1"%string) None in
  let st := [(Some "10.1.1.1"%string, mkEntry 2 60000)] in
  exists record,
    view st (clientKey req) = Some record
    /\ 1000 <= resetTime record /\ 2 <= count record.
Proof.
  intros req st.
  destruct (too_many_requests_until_window_ends 60000 2 1000 req st 59)
    as (record & Hv & Ht & Hc & _).
  - reflexivity.
  - exists record. split; [exact Hv|]. split; [exact Ht|exact Hc].
Defined.

Lemma cleanup_changes_no_response_witness :
  let a := mkReq (Some "10.1.1.1"%string) None in
  (RateLimit.serve 60000 2
     [Request 0 a; Cleanup 70000; Request 70001 a] []).1
  = (RateLimit.serve 60000 2 [Request 0 a; Request 70001 a] []).1.
Proof.
  intros a.
  apply (cleanup_changes_no_response 60000 2
           [Request 0 a; Cleanup 70000; Request 70001 a] []).
  - apply NoDup_nil_2.
  - unfold monotone. cbn [fmap list_fmap time_of].
    repeat (first [ apply SSorted_nil | apply SSorted_cons
                  | apply List.Forall_nil | apply List.Forall_cons | lia ]).
Defined.

End RateLimitFacts.

(** ** The CORS policy *)
Module CorsFacts.
Import Cors CorsPolicy.

Lemma unique_from_elem seen l x :
  x ∈ unique_from seen l <-> x ∈ l /\ x ∉ seen.
Proof.
  revert seen. induction l as [|a l IH]; intros seen; cbn [unique_from].
  - split; [by intros ?%elem_of_nil|by intros [?%elem_of_nil _]].
  - case_bool_decide as Ha.
    + rewrite IH, elem_of_cons. split; [tauto|].
      intros [[->|Hx] Hn]; [done|tauto].
    + rewrite !elem_of_cons, IH, not_elem_of_cons.
      destruct (decide (x = a)) as [->|Hne]; tauto.
Qed.

Lemma unique_elem l x : x ∈ unique l <-> x ∈ l.
Proof.
  unfold unique. rewrite unique_from_elem. split; [tauto|].
  intros Hx. split; [done|apply not_elem_of_nil].
Qed.

Lemma devOrigins_local o :
  o ∈ devOrigins ->
  String.prefix "http://localhost:" o || String.prefix "http://127.0.0.1:" o
  = true.
Proof.
  unfold devOrigins. intros Ho.
  repeat (apply elem_of_cons in Ho as [->|Ho]; [reflexivity|]).
  by apply elem_of_nil in Ho.
Qed.

Lemma originAllowed_iff (options : Options) (o : string) :
  o <> ""%string ->
  originAllowed options (Some o) = true <-> admitted options o.
Proof.
  intros Hne. unfold admitted.
  destruct o as [|c o]; [done|]. cbn [originAllowed].
  set (origin := String c o) in *. unfold origins.
  destruct options as [allowed dev]. cbn [development allowedOrigins].
  destruct dev; cbn [andb].
  - destruct (_ || bool_decide _) eqn:E.
    + split; [|done]. intros _.
      apply orb_true_iff in E as [E|E].
      * apply Nat.eqb_eq, length_zero_iff_nil in E.
        assert (Hin : "http://localhost:3000"%string
                      ∈ unique (devOrigins ++ allowed)).
        { apply unique_elem, elem_of_app. left. left. }
        rewrite E in Hin. by apply elem_of_nil in Hin.
      * apply bool_decide_eq_true in E.
        apply unique_elem, elem_of_app in E as [E|E]; [|by left].
        right. right. split; [done|].
        apply devOrigins_local, orb_true_iff in E. done.
    + apply orb_false_iff in E as [_ E]. apply bool_decide_eq_false in E.
      rewrite unique_elem, elem_of_app in E.
      destruct (String.prefix "http://localhost:" origin
                || String.prefix "http://127.0.0.1:" origin) eqn:Ep.
      * split; [|done]. intros _. right. right. split; [done|].
        by apply orb_true_iff in Ep.
      * apply orb_false_iff in Ep as [Ep1 Ep2]. split; [done|].
        intros [Hin|[[Hd _]|[_ [Hp|Hp]]]]; [tauto|done|congruence|congruence].
  - destruct (_ || bool_decide _) eqn:E.
    + split; [|done]. intros _. apply orb_true_iff in E as [E|E].
      * apply Nat.eqb_eq, length_zero_iff_nil in E. right. left. done.
      * apply bool_decide_eq_true in E. by left.
    + apply orb_false_iff in E as [E1 E2].
      apply bool_decide_eq_false in E2. apply Nat.eqb_neq in E1.
      split; [done|].
      intros [Hin|[[_ Hnil]|[Hd _]]]; [done| |done].
      by rewrite Hnil in E1.
Qed.

(** X24.  Which origins the CORS policy lets in.  A request without an
    [Origin] header is always let in.  In production an origin is let in
    when it is in [allowedOrigins], and every origin is let in when that
    list is empty.  In development an origin is let in when it is in
    [allowedOrigins] or starts with [http://localhost:] or
    [http://127.0.0.1:]; the four built-in development origins add
    nothing to that. *)
Theorem cors_origin_policy (options : Options) (o : string) :
  originAllowed options None = true
  /\ originAllowed options (Some ""%string) = true
  /\ (o <> ""%string ->
      (originAllowed options (Some o) = true
       <-> o ∈ allowedOrigins options
           \/ (development options = false /\ allowedOrigins options = [])
           \/ (development options = true
               /\ (String.prefix "http://localhost:" o = true
                   \/ String.prefix "http://127.0.0.1:" o = true)))).
Proof.
  split; [done|]. split; [done|]. apply originAllowed_iff.
Qed.

(** X25.  What the CORS middleware answers.  The response carries
    [Access-Control-Allow-Origin] exactly when the request has an origin
    that the policy lets in, and then with that very origin as its value
    (never a wildcard), next to [Access-Control-Allow-Credentials: true].
    A request whose origin is not let in is answered 403, with no CORS
    header, and is not passed on; a request that is let in is passed on
    unless its method is OPTIONS, which is answered 204. *)
Theorem cors_middleware_echoes_admitted_origin (options : Options) (req : Req) :
  let res := corsMiddleware options req in
  let refused :=
    exists o, originHeader req = Some o /\ o <> ""%string
              /\ ~ admitted options o in
  (forall name v,
     (name, v) ∈ headers res -> name = "Access-Control-Allow-Origin"%string ->
     originHeader req = Some v /\ v <> ""%string /\ admitted options v)
  /\ (forall o, originHeader req = Some o -> o <> ""%string ->
        admitted options o ->
        headers res !! 0%nat = Some ("Access-Control-Allow-Origin"%string, o)
        /\ headers res !! 1%nat
           = Some ("Access-Control-Allow-Credentials", "true")%string)
  /\ (refused ->
      status res = Some 403 /\ headers res = [] /\ nextCalled res = false)
  /\ (~ refused ->
      nextCalled res = negb (String.eqb (method req) "OPTIONS")
      /\ status res = if String.eqb (method req) "OPTIONS" then Some 204
                      else None).
Proof.
  intros res refused. subst res refused. unfold corsMiddleware. cbv zeta.
  assert (Hfixed : forall v,
    ("Access-Control-Allow-Origin"%string, v)
    ∉ [("Access-Control-Allow-Credentials", "true");
       ("Access-Control-Allow-Methods", join methods);
       ("Access-Control-Allow-Headers", join allowedHeaders);
       ("Access-Control-Expose-Headers", join exposedHeaders);
       ("Access-Control-Max-Age", JS.toString maxAge)]%string).
  { intros v Hin. repeat (apply elem_of_cons in Hin as [[=]|Hin]).
    by apply elem_of_nil in Hin. }
  destruct (originHeader req) as [[|c o]|] eqn:Eo.
  - (* the empty header *)
    cbn [originAllowed negb app].
    split; [|split; [|split]].
    + intros name v Hin ->. exfalso. apply (Hfixed v).
      by destruct (String.eqb _ _).
    + intros o' [= <-] Hne. done.
    + intros (o' & [= <-] & Hne & _). done.
    + intros _. by destruct (String.eqb _ _).
  - (* an origin *)
    set (origin := String c o) in *.
    pose proof (originAllowed_iff options origin ltac:(done)) as Hiff.
    destruct (originAllowed options (Some origin)) eqn:Ea; cbn [negb app].
    + assert (Had : admitted options origin) by by apply Hiff.
      split; [|split; [|split]].
      * intros name v Hin ->.
        assert (Hv : ("Access-Control-Allow-Origin"%string, v)
                     ∈ ("Access-Control-Allow-Origin"%string, origin)
                       :: [("Access-Control-Allow-Credentials", "true");
                           ("Access-Control-Allow-Methods", join methods);
                           ("Access-Control-Allow-Headers", join allowedHeaders);
                           ("Access-Control-Expose-Headers", join exposedHeaders);
                           ("Access-Control-Max-Age", JS.toString maxAge)]%string)
          by (by destruct (String.eqb _ _)).
        apply elem_of_cons in Hv as [[= ->]|Hv]; [done|].
        by apply Hfixed in Hv.
      * intros o' [= <-] _ _. by destruct (String.eqb _ _).
      * intros (o' & [= <-] & _ & Hn). done.
      * intros _. by destruct (String.eqb _ _).
    + assert (Hnot : ~ admitted options origin).
      { intros Had. apply Hiff in Had. congruence. }
      split; [|split; [|split]].
      * intros name v Hin _. cbn [headers] in Hin. by apply elem_of_nil in Hin.
      * intros o' [= <-] _ Had. done.
      * done.
      * intros Hr. exfalso. apply Hr. exists origin. done.
  - (* no header *)
    cbn [originAllowed negb app].
    split; [|split; [|split]].
    + intros name v Hin ->. exfalso. apply (Hfixed v).
      by destruct (String.eqb _ _).
    + intros o' [=].
    + intros (o' & [=] & _).
    + intros _. by destruct (String.eqb _ _).
Qed.

End CorsFacts.

(** ** The URL validator *)
Module UrlFacts.
Import UrlValidator Hosts.

Lemma endsWith_iff s suffix :
  endsWith s suffix = true <-> exists p, s = (p +:+ suffix)%string.
Proof.
  induction s as [|c s IH]; cbn [endsWith].
  - rewrite orb_false_r, String.eqb_eq. split.
    + intros <-. by exists ""%string.
    + intros [[|x p] Hp]; [done|discriminate].
  - rewrite orb_true_iff, String.eqb_eq, IH. split.
    + intros [<-|[p ->]]; [by exists ""%string|by exists (String c p)].
    + intros [[|x p] Hp]; [by left|]. right. injection Hp as -> ->. by exists p.
Qed.

Lemma domain_matches_iff host domain :
  domain_matches (toLowerCase host) domain = true <-> within host domain.
Proof.
  unfold domain_matches, within.
  rewrite orb_true_iff, String.eqb_eq, endsWith_iff. done.
Qed.

Lemma some_domain_matches host domains :
  existsb (domain_matches (toLowerCase host)) domains = true
  <-> exists d, d ∈ domains /\ within host d.
Proof.
  rewrite existsb_exists. split.
  - intros (d & Hin & Hd). exists d. split; [by apply list_elem_of_In|].
    by apply domain_matches_iff.
  - intros (d & Hin & Hd). exists d. split; [by apply list_elem_of_In|].
    by apply domain_matches_iff.
Qed.

(** A blocked host name starts with [l], [0] or [[], letter case aside. *)
Lemma blocked_head c r :
  toLowerCase (String c r) ∈ BLOCKED_HOSTNAMES ->
  lower c = "l"%char \/ lower c = "0"%char \/ lower c = "["%char.
Proof.
  unfold BLOCKED_HOSTNAMES. cbn [toLowerCase]. intros Hin.
  repeat (apply elem_of_cons in Hin as [[= -> _]|Hin]; [tauto|]).
  by apply elem_of_nil in Hin.
Qed.

Lemma prefix_append p s : String.prefix p (p +:+ s) = true.
Proof.
  induction p as [|c p IH]; [by destruct s|].
  cbv [append]. fold append. cbn [String.prefix].
  destruct (ascii_dec c c); [exact IH|done].
Qed.

Lemma private_prefix p s :
  p ∈ private_prefixes -> isPrivateIP (Some (p +:+ s)%string) = true.
Proof.
  intros Hp.
  assert (Hrange : existsb (fun range => range (p +:+ s)%string)
                     PRIVATE_IP_RANGES = true).
  { apply existsb_exists. exists (String.prefix p).
    split; [|apply prefix_append].
    unfold private_prefixes in Hp.
    repeat (apply elem_of_cons in Hp as [->|Hp];
            [unfold PRIVATE_IP_RANGES;
             repeat (first [left; reflexivity|right])|]).
    by apply elem_of_nil in Hp. }
  unfold isPrivateIP. destruct (p +:+ s)%string; [done|].
  by destruct (bool_decide _).
Qed.

Lemma class_b_range d1 d2 s :
  (d1 < 10)%nat -> (d2 < 10)%nat ->
  isPrivateIP
    (Some ("172." +:+ String (digit d1) (String (digit d2) ("." +:+ s)))%string)
  = true
  <-> (16 <= 10 * d1 + d2 <= 31)%nat.
Proof.
  intros H1 H2. unfold isPrivateIP. cbn [append].
  rewrite bool_decide_eq_false_2.
  2:{ intros Hin. apply blocked_head in Hin. vm_compute in Hin.
      destruct Hin as [[=]|[[=]|[=]]]. }
  do 10 (destruct d1 as [|d1]; [
    do 10 (destruct d2 as [|d2]; [vm_compute; split; [try discriminate|]; lia|]);
    lia|]).
  lia.
Qed.

Lemma bracketed_host s :
  isPrivateIP (Some ("[" +:+ s)%string) = true
  <-> toLowerCase s = "::]"%string \/ toLowerCase s = "::1]"%string.
Proof.
  unfold isPrivateIP. cbv [append].
  assert (Hranges : existsb (fun range => range (String "[" s))
                      PRIVATE_IP_RANGES = false) by reflexivity.
  rewrite Hranges.
  case_bool_decide as Hin.
  - split; [|done]. intros _. unfold BLOCKED_HOSTNAMES in Hin.
    cbn [toLowerCase] in Hin.
    repeat (apply elem_of_cons in Hin as [Hin|Hin];
            [try discriminate Hin|]).
    + injection Hin as Hin. by left.
    + injection Hin as Hin. by right.
    + by apply elem_of_nil in Hin.
  - split; [done|].
    intros [Hs|Hs]; exfalso; apply Hin; unfold BLOCKED_HOSTNAMES;
      cbn [toLowerCase]; rewrite Hs.
    + do 3 right. left.
    + do 4 right. left.
Qed.

(** X26.  Which hosts [isPrivateIP] takes for private.  A missing or
    empty host is private.  So is every host that starts with one of the
    prefixes 127., 10., 192.168., 169.254., fc00:, fe80:, 0., 224., 240.
    or 255., whatever follows the prefix.  A host that starts with 172.,
    two digits and a dot is private exactly when the two digits read 16
    to 31.  A host in square brackets, which is how a [URL] gives an IPv6
    address, is private only if it is [[::]] or [[::1]]: the tests for
    fc00: and fe80: never apply to it. *)
Theorem private_hosts_recognised (s : string) :
  isPrivateIP None = true
  /\ isPrivateIP (Some ""%string) = true
  /\ (forall p, p ∈ private_prefixes ->
        isPrivateIP (Some (p +:+ s)%string) = true)
  /\ (forall d1 d2, (d1 < 10)%nat -> (d2 < 10)%nat ->
        isPrivateIP
          (Some ("172." +:+ String (digit d1) (String (digit d2) ("." +:+ s)))%string)
        = true
        <-> (16 <= 10 * d1 + d2 <= 31)%nat)
  /\ (isPrivateIP (Some ("[" +:+ s)%string) = true
      <-> toLowerCase s = "::]"%string \/ toLowerCase s = "::1]"%string).
Proof.
  split; [done|]. split; [done|].
  split; [intros p; apply private_prefix|].
  split; [intros d1 d2; apply class_b_range|apply bracketed_host].
Qed.

Lemma nonempty_false s : nonempty s = false <-> s = ""%string.
Proof. by destruct s. Qed.

Section WithParser.
Variable parseURL : string -> option URL.

(** X27.  [validateUrl] accepts a URL exactly when it is a non-empty
    string that parses, its protocol is one of the allowed protocols, its
    host is not private, the host is neither a blocked domain nor a
    subdomain of one, the host is an allowed domain or a subdomain of one
    when a non-empty list of allowed domains is given, and it carries no
    user name and no password; the URL returned is the parsed one.
    Domains are compared without regard to letter case, and a subdomain
    is told by the dot before the domain: [evilexample.com] is not
    within [example.com]. *)
Theorem validateUrl_accepts_exactly_safe_urls
  (targetUrl : string) (options : Options) (u : URL) :
  validateUrl parseURL (Some targetUrl) options = Valid u
  <-> targetUrl <> ""%string
      /\ parseURL targetUrl = Some u
      /\ protocol u ∈ allowedProtocols options
      /\ isPrivateIP (Some (hostname u)) = false
      /\ (forall d, d ∈ blockedDomains options -> ~ within (hostname u) d)
      /\ (forall allowed, allowedDomains options = Some allowed ->
            allowed <> [] -> exists d, d ∈ allowed /\ within (hostname u) d)
      /\ username u = ""%string /\ password u = ""%string.
Proof.
  unfold validateUrl. destruct targetUrl as [|c r].
  { split; [done|]. intros [Hne _]. done. }
  set (url := String c r).
  destruct (parseURL url) as [parsed|] eqn:Ep.
  2:{ split; [done|]. intros (_ & [=] & _). }
  cbv zeta.
  case_bool_decide as Hproto; cbn [negb].
  2:{ split; [done|]. intros (_ & [= <-] & Hp & _). done. }
  destruct (isPrivateIP (Some (hostname parsed))) eqn:Hpriv.
  { split; [done|]. intros (_ & [= <-] & _ & Hp & _). congruence. }
  destruct (existsb _ (blockedDomains options)) eqn:Hblocked.
  { split; [done|]. intros (_ & [= <-] & _ & _ & Hb & _).
    apply some_domain_matches in Hblocked as (d & Hd & Hw).
    exfalso. by apply (Hb d). }
  assert (Hnb : forall d, d ∈ blockedDomains options ->
                          ~ within (hostname parsed) d).
  { intros d Hd Hw.
    assert (Hex : existsb (domain_matches (toLowerCase (hostname parsed)))
                    (blockedDomains options) = true).
    { apply some_domain_matches. by exists d. }
    congruence. }
  destruct (match allowedDomains options with
            | Some ((_ :: _) as allowed) => _
            | _ => false
            end) eqn:Hallowed.
  { split; [done|]. intros (_ & [= <-] & _ & _ & _ & Ha & _).
    destruct (allowedDomains options) as [[|a allowed]|]; [done| |done].
    apply negb_true_iff in Hallowed.
    destruct (Ha (a :: allowed) eq_refl ltac:(done)) as (d & Hd & Hw).
    assert (Hex : existsb (domain_matches (toLowerCase (hostname parsed)))
                    (a :: allowed) = true).
    { apply some_domain_matches. by exists d. }
    congruence. }
  assert (Hal : forall allowed, allowedDomains options = Some allowed ->
                  allowed <> [] ->
                  exists d, d ∈ allowed /\ within (hostname parsed) d).
  { intros allowed Ha Hne. rewrite Ha in Hallowed.
    destruct allowed as [|a allowed]; [done|].
    apply negb_false_iff in Hallowed. by apply some_domain_matches. }
  destruct (nonempty (username parsed) || nonempty (password parsed)) eqn:Hc.
  { split; [done|]. intros (_ & [= <-] & _ & _ & _ & _ & Hu & Hp).
    rewrite Hu, Hp in Hc. done. }
  apply orb_false_iff in Hc as [Hu Hp].
  apply nonempty_false in Hu, Hp.
  split.
  - intros [= <-]. done.
  - intros (_ & [= <-] & _). done.
Qed.

End WithParser.

Lemma lower_sensitive :
  toLowerCase <$> sensitiveHeaders = sensitiveHeaders.
Proof. reflexivity. Qed.

Lemma get_sanitized (headers : JS.dict string string) (names : list string) k :
  JS.dict_get
    (fold_left
       (fun sanitized header =>
          JS.dict_delete (JS.dict_delete sanitized header) (toLowerCase header))
       names headers) k
  = if bool_decide (k ∈ names \/ k ∈ toLowerCase <$> names) then None
    else JS.dict_get headers k.
Proof.
  revert headers. induction names as [|n names IH]; intros headers.
  - cbn [fold_left fmap list_fmap]. rewrite bool_decide_eq_false_2; [done|].
    intros [H|H]; by apply elem_of_nil in H.
  - cbn [fold_left]. rewrite IH, fmap_cons, !LRUContentsFacts.get_delete.
    destruct (decide (k = toLowerCase n)) as [->|Hl].
    { rewrite (bool_decide_eq_true_2 (_ ∨ _ ∈ _ :: _)) by (right; left).
      by destruct (bool_decide _). }
    destruct (decide (k = n)) as [->|Hn].
    { rewrite (bool_decide_eq_true_2 (_ ∈ _ :: _ ∨ _)) by (left; left).
      by destruct (bool_decide _). }
    erewrite (bool_decide_ext (_ ∨ _ ∈ _ <$> names)); [reflexivity|].
    rewrite !elem_of_cons. tauto.
Qed.

(** X28.  [sanitizeProxyHeaders] removes the eight sensitive headers
    (host, cookie, authorization, proxy-authorization and the four
    forwarding headers), under these lower-case names only, and keeps
    every other header with its value.  The result has a [host] header
    exactly when a non-empty target host is given, and its value is the
    target host. *)
Theorem sanitizeProxyHeaders_drops_sensitive_headers
  (headers : JS.dict string string) (targetHost : option string) (k : string) :
  JS.dict_get (sanitizeProxyHeaders headers targetHost) k
  = if decide (k = "host"%string) then
      match targetHost with
      | None | Some EmptyString => None
      | Some host => Some host
      end
    else if bool_decide (k ∈ sensitiveHeaders) then None
    else JS.dict_get headers k.
Proof.
  unfold sanitizeProxyHeaders. cbv zeta.
  assert (Hs : forall k',
    JS.dict_get
      (fold_left
         (fun sanitized header =>
            JS.dict_delete (JS.dict_delete sanitized header)
                           (toLowerCase header))
         sensitiveHeaders headers) k'
    = if bool_decide (k' ∈ sensitiveHeaders) then None
      else JS.dict_get headers k').
  { intros k'. rewrite get_sanitized, lower_sensitive.
    erewrite bool_decide_ext; [reflexivity|]. tauto. }
  assert (Hhost : bool_decide ("host"%string ∈ sensitiveHeaders) = true).
  { apply bool_decide_eq_true. left. }
  destruct targetHost as [[|c r]|].
  - rewrite Hs. destruct (decide (k = "host"%string)) as [->|]; [|done].
    by rewrite Hhost.
  - rewrite LRUContentsFacts.get_set.
    destruct (decide (k = "host"%string)) as [->|]; [done|]. apply Hs.
  - rewrite Hs. destruct (decide (k = "host"%string)) as [->|]; [|done].
    by rewrite Hhost.
Qed.

Example isPrivateIP_examples :
  isPrivateIP (Some "127.0.0.1"%string) = true
  /\ isPrivateIP (Some "172.16.0.1"%string) = true
  /\ isPrivateIP (Some "172.31.255.1"%string) = true
  /\ isPrivateIP (Some "172.15.0.1"%string) = false
  /\ isPrivateIP (Some "172.32.0.1"%string) = false
  /\ isPrivateIP (Some "LocalHost"%string) = true
  /\ isPrivateIP (Some "example.com"%string) = false
  /\ isPrivateIP (Some "::1"%string) = true
  /\ isPrivateIP (Some "[fc00::1]"%string) = false.
Proof. vm_compute. repeat split. Qed.

End UrlFacts.

(** ** Socket messages *)
Module SocketFacts.
Import SocketMessages Versions.

(** *** The loop over a schema *)

Lemma validate_valid data schema :
  valid (validate data schema) = true
  <-> absent data = false /\ typeof data = "object"%string
      /\ fields schema data = [].
Proof.
  unfold validate, validate_with.
  destruct (absent data); [by split; [|intros [? _]]|].
  destruct (String.eqb_spec (typeof data) "object") as [Ht|Ht]; cbn [negb valid].
  - rewrite bool_decide_eq_true, length_zero_iff_nil. tauto.
  - split; [done|]. intros (_ & Ht' & _). done.
Qed.

Lemma fields_cons key rules rest data :
  fields ((key, rules) :: rest) data = []
  <-> entry key rules (get data key) = [] /\ fields rest data = [].
Proof. cbn [fields]. apply app_nil. Qed.

(** *** Whole numbers *)

Lemma Qden_Qred_whole n : Qden (Qred (inject_Z n)) = 1%positive.
Proof.
  unfold Qred, inject_Z.
  pose proof (Z.ggcd_gcd n 1) as Hg.
  pose proof (Z.ggcd_correct_divisors n 1) as Hd.
  destruct (Z.ggcd n 1) as [g [aa bb]]. cbn [fst] in Hg.
  rewrite Z.gcd_1_r in Hg. subst g. destruct Hd as [_ Hb].
  cbn [Qden]. assert (bb = 1) as -> by lia. reflexivity.
Qed.

Lemma isInteger_iff q :
  isInteger (Finite q) = true <-> exists n : Z, (q == inject_Z n)%Q.
Proof.
  cbn [isInteger]. rewrite bool_decide_eq_true. split.
  - intros Hd. exists (Qnum (Qred q)).
    rewrite <- (Qred_correct q) at 1.
    destruct (Qred q) as [a b]. cbn [Qden Qnum] in *. subst b. reflexivity.
  - intros [n Hn]. apply Qred_complete in Hn. rewrite Hn.
    apply Qden_Qred_whole.
Qed.

Lemma not_negative q n :
  (q == inject_Z n)%Q -> lt (Finite q) 0 = false <-> 0 <= n.
Proof.
  intros Hn. cbn [lt]. destruct (Qlt_le_dec q (inject_Z 0)) as [Hlt|Hle].
  - split; [done|]. intros H0. rewrite Hn in Hlt.
    apply Qlt_not_le in Hlt. exfalso. apply Hlt. by rewrite <- Zle_Qle.
  - split; [|done]. intros _. rewrite Hn in Hle. by rewrite Zle_Qle.
Qed.

(** *** The rules of the schemas *)

Lemma entry_required_number key value :
  entry key required_number value = [] <-> exists n, value = VNum n.
Proof.
  destruct value; cbn; (split; [intros ?|intros [? ?]]); try done.
  by eexists.
Qed.

Lemma entry_vec3 key value :
  entry key (object true (Some vec3Schema)) value = []
  <-> exists entries x y z,
        value = VObj entries
        /\ get value "x" = VNum x /\ get value "y" = VNum y
        /\ get value "z" = VNum z.
Proof.
  destruct value as [| | | | |items|entries];
    try (cbn; split; [done|intros (? & ? & ? & ? & ? & _); done]).
  set (v := VObj entries).
  assert (Hn : valid (validate v vec3Schema) = true
               <-> exists x y z, get v "x" = VNum x /\ get v "y" = VNum y
                                 /\ get v "z" = VNum z).
  { rewrite validate_valid. unfold vec3Schema.
    rewrite !fields_cons, !entry_required_number. cbn [fields].
    split.
    - intros (_ & _ & [x Hx] & [y Hy] & [z Hz] & _). by exists x, y, z.
    - intros (x & y & z & Hx & Hy & Hz). repeat split; try done; by eexists. }
  transitivity (valid (validate v vec3Schema) = true).
  - change (entry key (object true (Some vec3Schema)) v)
      with (if negb (valid (validate v vec3Schema))
            then prefixed key (errors (validate v vec3Schema)) else []).
    destruct (valid (validate v vec3Schema)) eqn:Hv; cbn [negb]; [done|].
    split; [|done]. intros He.
    unfold prefixed in He. apply fmap_nil_inv in He.
    unfold validate, validate_with in Hv, He. cbn in Hv, He.
    rewrite He in Hv. done.
  - rewrite Hn. split.
    + intros (x & y & z & H). by exists entries, x, y, z.
    + intros (e & x & y & z & _ & H). by exists x, y, z.
Qed.

Lemma entry_state_id key value :
  entry key (required_integer (Some 0) None) value = []
  <-> exists q n, value = VNum (Finite q) /\ (q == inject_Z n)%Q /\ 0 <= n.
Proof.
  destruct value as [| | |[q| |negative]| | |];
    try (cbn; split; [done|intros (? & ? & ? & _); done]).
  - cbn.
    change (bool_decide (Qden (Qred q) = 1%positive))
      with (isInteger (Finite q)).
    change (if Qlt_le_dec q (inject_Z 0) then true else false)
      with (lt (Finite q) 0).
    rewrite !app_nil. split.
    + intros ((Hlt & Hint) & _).
      destruct (isInteger (Finite q)) eqn:Hi; [|done].
      apply isInteger_iff in Hi as [n Hn]. exists q, n.
      repeat split; [done|]. apply (not_negative q n Hn).
      by destruct (lt (Finite q) 0).
    + intros (q' & n & [= <-] & Hn & H0).
      apply (not_negative q n Hn) in H0. rewrite H0.
      assert (Hi : isInteger (Finite q) = true)
        by (apply isInteger_iff; by exists n).
      by rewrite Hi.
  - cbn. split; [by destruct negative|]. intros (? & ? & ? & _). done.
Qed.

(** X29.  A [blockUpdate] message is accepted exactly when its [pos] is an
    object, not an array, whose [x], [y] and [z] are numbers, and its
    [stateId] is a whole number that is not negative.  The coordinates
    may be any number, also one that is not finite; other fields are not
    looked at. *)
Theorem blockUpdate_accepted_iff (data : Val) :
  valid (validateMessage "blockUpdate" data) = true
  <-> exists pos x y z q stateId,
        get data "pos" = VObj pos
        /\ get (VObj pos) "x" = VNum x
        /\ get (VObj pos) "y" = VNum y
        /\ get (VObj pos) "z" = VNum z
        /\ get data "stateId" = VNum (Finite q)
        /\ (q == inject_Z stateId)%Q /\ 0 <= stateId.
Proof.
  change (validateMessage "blockUpdate" data)
    with (validate data [("pos", object true (Some vec3Schema));
                         ("stateId", required_integer (Some 0) None)]%string).
  rewrite validate_valid, !fields_cons, entry_vec3, entry_state_id.
  cbn [fields]. split.
  - intros (_ & _ & (pos & x & y & z & Hp & Hx & Hy & Hz) & (q & n & Hq & Hn & H0) & _).
    rewrite Hp in Hx, Hy, Hz. by exists pos, x, y, z, q, n.
  - intros (pos & x & y & z & q & n & Hp & Hx & Hy & Hz & Hq & Hn & H0).
    assert (Hobj : absent data = false /\ typeof data = "object"%string).
    { destruct data; try done. }
    destruct Hobj as [Ha Ht]. repeat split; try done.
    + exists pos, x, y, z. by rewrite Hp.
    + by exists q, n.
Qed.

(** *** Version strings *)

Lemma append_cons c a r : (String c a +:+ r = String c (a +:+ r))%string.
Proof. reflexivity. Qed.

Lemma append_empty r : ("" +:+ r = r)%string.
Proof. reflexivity. Qed.

Lemma skip_digits_append a r :
  digits a -> stops r -> skip_digits (a +:+ r) = r.
Proof.
  intros Ha Hr. induction a as [|c a IH].
  - rewrite append_empty. destruct r as [|c r]; [done|].
    cbn [skip_digits]. cbn [stops] in Hr. by rewrite Hr.
  - rewrite append_cons. cbn [skip_digits].
    rewrite (Ha c) by (by left). apply IH.
    intros c' Hc'. apply Ha. by right.
Qed.

Lemma skip_digits_split s :
  exists a, digits a /\ s = (a +:+ skip_digits s)%string
            /\ stops (skip_digits s).
Proof.
  induction s as [|c s (a & Ha & Hs & Hr)].
  - exists ""%string. split; [by intros ? []|done].
  - cbn [skip_digits]. destruct (is_digit c) eqn:Hc.
    + exists (String c a). split; [|split; [|done]].
      * intros c' [<-|Hc']; [done|by apply Ha].
      * rewrite append_cons. by f_equal.
    + exists ""%string. split; [by intros ? []|]. split; [done|]. exact Hc.
Qed.

Lemma after_digits_append a r :
  numeral a -> stops r -> after_digits (a +:+ r) = Some r.
Proof.
  intros [Hne Ha] Hr. destruct a as [|c a]; [done|].
  rewrite append_cons. cbn [after_digits].
  rewrite (Ha c) by (by left). f_equal.
  apply skip_digits_append; [|done]. intros c' Hc'. apply Ha. by right.
Qed.

Lemma after_digits_split s r :
  after_digits s = Some r ->
  exists a, numeral a /\ s = (a +:+ r)%string /\ stops r.
Proof.
  destruct s as [|c s]; [done|]. cbn [after_digits].
  destruct (is_digit c) eqn:Hc; [|done]. intros [= <-].
  destruct (skip_digits_split s) as (a & Ha & Hs & Hr).
  exists (String c a). split; [split; [done|]|split; [|done]].
  - intros c' [<-|Hc']; [done|by apply Ha].
  - rewrite append_cons. by f_equal.
Qed.

Lemma append_empty_r s : (s +:+ "" = s)%string.
Proof. induction s as [|c s IH]; [done|]. rewrite append_cons. by f_equal. Qed.

Lemma version_pattern_iff s : version_pattern s = true <-> dotted s.
Proof.
  split.
  - unfold version_pattern.
    destruct (after_digits s) as [[|c r]|] eqn:E1; try done.
    destruct (Ascii.eqb_spec c ".") as [->|Hc].
    2:{ by destruct c as [[] [] [] [] [] [] [] []]. }
    apply after_digits_split in E1 as (major & Hmajor & -> & _).
    destruct (after_digits r) as [[|c r']|] eqn:E2; try done.
    + intros _. apply after_digits_split in E2 as (minor & Hminor & -> & _).
      exists major, minor. repeat split; try apply Hmajor; try apply Hminor.
      left. by rewrite append_empty_r.
    + destruct (Ascii.eqb_spec c ".") as [->|Hc].
      2:{ by destruct c as [[] [] [] [] [] [] [] []]. }
      apply after_digits_split in E2 as (minor & Hminor & -> & _).
      destruct (after_digits r') as [[|c r'']|] eqn:E3; try done. intros _.
      apply after_digits_split in E3 as (patch & Hpatch & -> & _).
      exists major, minor. split; [done|]. split; [done|]. right.
      exists patch. split; [done|]. by rewrite append_empty_r.
  - intros (major & minor & Hmajor & Hminor & [->|(patch & Hpatch & ->)]);
      unfold version_pattern.
    + rewrite (after_digits_append major) by done.
      change ("." +:+ minor)%string with (String "." minor).
      rewrite <- (append_empty_r minor) at 1.
      by rewrite (after_digits_append minor).
    + rewrite (after_digits_append major) by done.
      change ("." +:+ minor +:+ "." +:+ patch)%string
        with (String "." (minor +:+ String "." patch)).
      cbv beta iota. rewrite (after_digits_append minor) by done.
      cbv beta iota.
      rewrite <- (append_empty_r patch) at 1.
      by rewrite (after_digits_append patch).
Qed.

(** A version string is plain ASCII: it has as many code units as
    bytes. *)
Lemma length16_append a b :
  length16 (a +:+ b) = (length16 a + length16 b)%nat.
Proof.
  induction a as [|c a IH]; [done|].
  rewrite append_cons. cbn [length16]. rewrite IH. lia.
Qed.

Lemma length_append a b :
  String.length (a +:+ b) = (String.length a + String.length b)%nat.
Proof.
  induction a as [|c a IH]; [done|].
  rewrite append_cons. cbn [String.length]. by rewrite IH.
Qed.

Lemma units_digit c : is_digit c = true -> units c = 1%nat.
Proof.
  unfold is_digit, UrlValidator.digit_in, units. intros Hd.
  apply andb_true_iff in Hd as [_ Hd]. apply Nat.leb_le in Hd.
  destruct (Nat.ltb_spec (nat_of_ascii c) 128); [done|lia].
Qed.

Lemma digits_length16 a : digits a -> length16 a = String.length a.
Proof.
  induction a as [|c a IH]; [done|]. intros Ha.
  cbn [length16 String.length]. rewrite (units_digit c) by (apply Ha; by left).
  rewrite IH; [done|]. intros c' Hc'. apply Ha. by right.
Qed.

Lemma dotted_length16 s : dotted s -> length16 s = String.length s.
Proof.
  intros (major & minor & [_ Hmajor] & [_ Hminor] & Hs).
  destruct Hs as [->|(patch & [_ Hpatch] & ->)];
    rewrite !length16_append, !length_append;
    rewrite (digits_length16 major), (digits_length16 minor) by done;
    [|rewrite (digits_length16 patch) by done]; reflexivity.
Qed.

Example length16_examples :
  length16 "zombie" = 6%nat /\ length16 "é" = 1%nat /\ length16 "😀" = 2%nat
  /\ String.length "é" = 2%nat.
Proof. repeat split; reflexivity. Qed.

(** X30.  A handler wrapped by [withValidation] is called on every
    message of a type that has no schema; under [version] it is called
    exactly on the strings [major.minor] and [major.minor.patch] of
    decimal digits that are at most 20 characters long; under
    [primitive] it is never called, whatever the message: the schema has
    a field named [type], whose rules are taken for the type of the
    whole message. *)
Theorem withValidation_by_message_type
  {R : Type} (handler : Val -> R) (data : Val) :
  (forall messageType,
      messageType ∉ schemas.*1 -> messageType ∉ inherited ->
      withValidation messageType handler data = inr (handler data))
  /\ (withValidation "version" handler data = inr (handler data)
      <-> exists s, data = VStr s /\ dotted s /\ (String.length s <= 20)%nat)
  /\ withValidation "primitive" handler data
     = inl ("Invalid primitive message:",
            ["Expected [object Object], got " +:+ typeof data])%string.
Proof.
  split; [|split].
  - intros messageType Hs Hi. unfold withValidation, validateMessage, schema_of.
    destruct (JS.dict_get schemas messageType) as [schema|] eqn:Hg.
    { exfalso. apply Hs. clear -Hg.
      induction schemas as [|[k v] l IH]; [done|]. cbn [JS.dict_get] in Hg.
      destruct (decide (k = messageType)) as [->|]; [left|right; auto]. }
    by rewrite bool_decide_eq_false_2.
  - unfold withValidation.
    change (validateMessage "version" data)
      with (match data with
            | VStr s =>
                if negb (version_pattern s) then
                  mkResult false ["Value does not match required pattern"%string]
                else if negb (20 =? 0) && (20 <? Z.of_nat (length16 s)) then
                  mkResult false
                    ["Value exceeds maximum length of " +:+ JS.toString 20]%string
                else mkResult true []
            | _ => mkResult false ["Expected string, got " +:+ typeof data]%string
            end).
    destruct data as [| | | |s| |];
      try (cbn; split; [done|intros (? & ? & _); done]).
    destruct (version_pattern s) eqn:Hp; cbn [negb].
    + apply version_pattern_iff in Hp.
      rewrite (dotted_length16 s Hp).
      destruct (Z.ltb_spec 20 (Z.of_nat (String.length s))) as [Hl|Hl];
        cbn [andb Z.eqb negb valid].
      * split; [done|]. intros (s' & [= <-] & _ & Hle). lia.
      * split; [|done]. intros _. exists s. repeat split; [done|lia].
    + split; [done|]. intros (s' & [= <-] & Hd & _).
      apply version_pattern_iff in Hd. congruence.
  - reflexivity.
Qed.

(** The messages of the unit tests. *)
Example validateMessage_examples :
  let num (q : Q) := VNum (Finite q) in
  let vec (x y z : Q) := VObj [("x", num x); ("y", num y); ("z", num z)]%string in
  valid (validateMessage "position"
           (VObj [("pos", vec (1.5)%Q (64)%Q (-3.2)%Q); ("yaw", num (1.57)%Q);
                  ("addMesh", VBool true)]%string)) = true
  /\ valid (validateMessage "position"
              (VObj [("pos", VObj [("x", VStr "invalid"); ("y", num (64)%Q);
                                   ("z", num (-3.2)%Q)]);
                     ("yaw", num (1.57)%Q)]%string)) = false
  /\ valid (validateMessage "position"
              (VObj [("pos", VObj [("x", num (1.5)%Q); ("y", num (64)%Q)]);
                     ("yaw", num (1.57)%Q)]%string)) = false
  /\ valid (validateMessage "position"
              (VObj [("pos", vec (1.5)%Q (64)%Q (-3.2)%Q);
                     ("yaw", VStr "invalid")]%string)) = false
  /\ valid (validateMessage "blockClicked"
              (VObj [("block", VObj [("name", VStr "stone")]);
                     ("face", num (1)%Q); ("button", num (0)%Q)]%string)) = true
  /\ valid (validateMessage "blockClicked"
              (VObj [("block", VObj [("name", VStr "stone")]);
                     ("face", VStr "up"); ("button", num (0)%Q)]%string)) = false
  /\ valid (validateMessage "loadChunk"
              (VObj [("x", num (0)%Q); ("z", num (16)%Q);
                     ("chunk", VObj [("sections", VArr [])])]%string)) = true
  /\ valid (validateMessage "loadChunk"
              (VObj [("x", num (0.5)%Q); ("z", num (16)%Q);
                     ("chunk", VObj [])]%string)) = false
  /\ valid (validateMessage "entity"
              (VObj [("id", num (123)%Q); ("name", VStr "zombie");
                     ("pos", vec (100)%Q (64)%Q (-50)%Q); ("width", num (0.6)%Q);
                     ("height", num (1.95)%Q)]%string)) = true
  /\ valid (validateMessage "entity"
              (VObj [("id", num (123)%Q); ("delete", VBool true)]%string)) = true
  /\ valid (validateMessage "primitive"
              (VObj [("type", VStr "invalid"); ("id", VStr "test-1")]%string))
     = false
  /\ valid (validateMessage "unknownType"
              (VObj [("data", VStr "test")]%string)) = true
  /\ errors (validateMessage "position"
               (VObj [("pos", VObj [("x", num (1.5)%Q); ("y", num (64)%Q)]);
                      ("yaw", VStr "invalid")]%string))
     = ["pos.Field 'z' is required";
        "Field 'yaw' must be of type number, got string"]%string.
Proof. vm_compute. repeat split; reflexivity. Qed.

End SocketFacts.

(** ** The coordinator: one dispatch per section and frame *)
Module FrameDedup.
Import Protocol Dispose WorldRenderer Routes RoutingFacts Timeline Columns.
Import Frames LifecycleFacts ColumnFacts.

Ltac fields := SharedFacts.fields.

Lemma stays_refl k s : stays_marked k s s.
Proof. by intros Hk. Qed.

Lemma stays_trans k s1 s2 s3 :
  stays_marked k s1 s2 -> stays_marked k s2 s3 -> stays_marked k s1 s3.
Proof.
  intros H12 H23 Hk. destruct (H12 Hk) as [Hk2 Hd2].
  destruct (H23 Hk2) as [Hk3 Hd3]. split; [done|congruence].
Qed.

Lemma stays_same k s s' :
  pendingDirtySections s' = pendingDirtySections s ->
  workers s' = workers s -> stays_marked k s s'.
Proof. intros Hp Hw Hk. unfold dispatches. by rewrite Hp, Hw. Qed.

Lemma stays_fold {A} k (f : t -> A -> t) (l : list A) s :
  (forall s a, a ∈ l -> stays_marked k s (f s a)) ->
  stays_marked k s (fold_left f l s).
Proof.
  revert s. induction l as [|a l IH]; intros s Hf; simpl.
  - apply stays_refl.
  - eapply stays_trans; [apply Hf; left|].
    apply IH. intros s' a' Ha'. apply Hf. by right.
Qed.

Lemma guard_dec s : guard_passes s \/ (active s = false \/ workers s = []).
Proof.
  unfold guard_passes. destruct (active s); [|by right; left].
  destruct (workers s); [by right; right|by left].
Qed.

Lemma broadcast_stays k m s :
  marks_section k m = false -> stays_marked k s (broadcast m s).
Proof.
  intros Hm Hk. split; [done|]. by apply FrameFacts.broadcast_dispatches.
Qed.

(** A mark, of any section, when [k] is pending. *)
Lemma mark_stays k pos s : stays_marked k s (setSectionDirty pos true s).
Proof.
  intros Hk. destruct (guard_dec s) as [Hg|Hg].
  2:{ by rewrite setSectionDirty_blocked. }
  split.
  - rewrite setSectionDirty_pending by done. by apply elem_of_union_r.
  - rewrite dispatches_setSectionDirty by done.
    rewrite bool_decide_eq_false_2 by (intros [_ ?]; done). lia.
Qed.

(** An unmark of another section. *)
Lemma unmark_stays k pos s :
  keyOf pos <> k -> stays_marked k s (setSectionDirty pos false s).
Proof.
  intros Hne Hk. destruct (guard_dec s) as [Hg|Hg].
  2:{ by rewrite setSectionDirty_blocked. }
  rewrite setSectionDirty_unmarked by done. split.
  - fields. apply elem_of_difference. split; [done|].
    intros Hin. apply elem_of_singleton in Hin. congruence.
  - transitivity
      (dispatches k
         (postTo (hashOf pos (length (workers s))) (dirtyMsg pos false) s));
      [reflexivity|].
    rewrite dispatches_postTo by done. cbn [andb]. lia.
Qed.

Lemma markAll_stays k qs s : stays_marked k s (markAll qs s).
Proof. apply stays_fold. intros. apply mark_stays. Qed.

Lemma removeAndDispose_stays k mesh s :
  stays_marked k s (removeAndDispose mesh s).
Proof.
  destruct (removeAndDispose_shape mesh s) as (sc & g & ->).
  by apply stays_same.
Qed.

Lemma handleGeometry_stays k key geometry s :
  stays_marked k s (handleGeometry key geometry s).
Proof.
  unfold handleGeometry.
  set (s1 := match JS.dict_get (sectionMeshs s) key with
             | Some _ => _ | None => s end).
  assert (H1 : stays_marked k s s1).
  { subst s1. destruct (JS.dict_get _ _) as [mesh|]; [|apply stays_refl].
    eapply stays_trans; [apply removeAndDispose_stays|].
    by apply stays_same. }
  clearbody s1.
  destruct (negb _); [done|].
  eapply stays_trans; [exact H1|]. by apply stays_same.
Qed.

Lemma emitUpdate_stays k s : stays_marked k s (emitUpdate s).
Proof.
  unfold emitUpdate. apply stays_fold. intros s' p _. unfold updateHandler.
  destruct (_ =? _)%nat; [by apply stays_same|apply stays_refl].
Qed.

Lemma onmessage_stays k data s : stays_marked k s (onmessage data s).
Proof.
  unfold onmessage. destruct (negb _); [apply stays_refl|].
  destruct data as [key geometry|key|key message].
  - apply handleGeometry_stays.
  - eapply stays_trans; [|apply emitUpdate_stays]. by apply stays_same.
  - apply stays_refl.
Qed.

Lemma resetWorld_stays k s : stays_marked k s (resetWorld s).
Proof.
  destruct (resetWorld_shape s) as (sc & g & ->).
  eapply stays_trans; [apply (broadcast_stays k MsgReset); reflexivity|].
  by apply stays_same.
Qed.

Lemma setVersion_stays k v s : stays_marked k s (setVersion v s).
Proof.
  unfold setVersion, updateTexturesData. cbv zeta.
  eapply stays_trans; [|by apply stays_same].
  eapply stays_trans; [|apply (broadcast_stays k (MsgVersion v)); reflexivity].
  eapply stays_trans; [|by apply stays_same].
  eapply stays_trans; [|apply resetWorld_stays].
  by apply stays_same.
Qed.

Lemma addColumn_stays k x z chunk s : stays_marked k s (addColumn x z chunk s).
Proof.
  rewrite addColumn_marks.
  eapply stays_trans; [|apply markAll_stays].
  eapply stays_trans; [|apply (broadcast_stays k (MsgChunk x z chunk));
                        reflexivity].
  by apply stays_same.
Qed.

Lemma setBlockStateId_stays k pos sid s :
  stays_marked k s (setBlockStateId pos sid s).
Proof.
  rewrite Neighbours.setBlockStateId_marks.
  eapply stays_trans; [|apply markAll_stays].
  apply (broadcast_stays k (MsgBlockUpdate pos sid)). reflexivity.
Qed.

Lemma removeColumn_stays k x z s :
  k ∉ keyOf <$> column_positions x z ->
  stays_marked k s (removeColumn x z s).
Proof.
  intros Hk. rewrite removeColumn_fold.
  eapply stays_trans; [|apply stays_fold].
  - eapply stays_trans;
      [|apply (broadcast_stays k (MsgUnloadChunk x z)); reflexivity].
    by apply stays_same.
  - intros s' y Hy.
    destruct (unload_step_marks x z s' y) as (_ & Hw & _ & Hp).
    eapply stays_trans; [|by apply stays_same].
    apply unmark_stays. intros Hkey. apply Hk.
    unfold column_positions. rewrite <- list_fmap_compose.
    apply list_elem_of_fmap. by exists y.
Qed.

Lemma waitForChunksToRender_stays k s :
  stays_marked k s (waitForChunksToRender s).2.
Proof.
  unfold waitForChunksToRender. cbv zeta. fields.
  destruct (_ =? _)%nat; by apply stays_same.
Qed.

Lemma textureLoaded_stays k texture s :
  stays_marked k s (textureLoaded texture s).
Proof.
  unfold textureLoaded.
  destruct (currentTexture s); fields; destruct (material s);
    by apply stays_same.
Qed.

(** Every event that takes no mark of [k] away, [dispose] apart. *)
Lemma handle_stays k s e :
  keeps_marked k e = true -> e <> EvDispose -> stays_marked k s (handle s e).
Proof.
  intros Hkeep Hne.
  destruct e as [data|v| | |x z chunk|x z|pos sid|pos value| |texture|json|];
    cbn [handle].
  - apply onmessage_stays.
  - apply setVersion_stays.
  - apply resetWorld_stays.
  - done.
  - apply addColumn_stays.
  - apply removeColumn_stays. by apply bool_decide_eq_true in Hkeep.
  - apply setBlockStateId_stays.
  - destruct value; [apply mark_stays|].
    apply unmark_stays. by apply bool_decide_eq_true in Hkeep.
  - done.
  - apply textureLoaded_stays.
  - apply (broadcast_stays k (MsgBlockStates json)). reflexivity.
  - apply waitForChunksToRender_stays.
Qed.

(** [dispose] terminates the workers, and their inboxes go with them. *)
Lemma dispose_marked k s :
  k ∈ pendingDirtySections s ->
  k ∈ pendingDirtySections (dispose s) /\ dispatches k (dispose s) = 0%nat.
Proof.
  intros Hk. destruct (dispose_shape s) as (sc & g & ->). by split.
Qed.

Lemma run_marked k evs s :
  Forall (fun e => keeps_marked k e = true) evs ->
  k ∈ pendingDirtySections s ->
  k ∈ pendingDirtySections (run s evs)
  /\ (dispatches k (run s evs) <= dispatches k s)%nat
  /\ (EvDispose ∉ evs -> dispatches k (run s evs) = dispatches k s).
Proof.
  revert s. induction evs as [|e evs IH]; intros s Hkeep Hk.
  - by repeat split.
  - apply Forall_cons in Hkeep as [He Hkeep].
    change (run s (e :: evs)) with (run (handle s e) evs).
    assert (He' : e = EvDispose \/ e <> EvDispose)
      by (destruct e; try (right; discriminate); by left).
    destruct He' as [->|Hne].
    + destruct (dispose_marked k s Hk) as [Hk' Hd'].
      destruct (IH (handle s EvDispose) Hkeep Hk') as (Hk'' & Hle & _).
      split; [done|]. split.
      * cbn [handle] in *. lia.
      * intros Hnot. exfalso. apply Hnot. left.
    + destruct (handle_stays k s e He Hne Hk) as [Hk' Hd'].
      destruct (IH (handle s e) Hkeep Hk') as (Hk'' & Hle & Heq).
      split; [done|]. split; [lia|].
      intros Hnot. rewrite Heq, Hd'; [done|].
      intros Hin. apply Hnot. by right.
Qed.

(** C5.  In a frame that starts with section [k] not pending, a first
    mark [setSectionDirty (p1, true)] in [k] sends one [dirty] message
    for [k], to the worker that [k] is routed to.  Whatever happens then
    to the renderer, as long as it is neither
    [clearPendingDirtySections] nor an unmark of [k] (by
    [setSectionDirty (pos, false)] in [k], or by [removeColumn] of a
    column that has the section), a second mark
    [setSectionDirty (p2, true)] in [k] changes nothing, and no further
    [dirty] message for [k] is sent: the inboxes hold one such message
    more than before the first mark ([dispose] terminates the workers,
    and their inboxes go with them).  [clearPendingDirtySections]
    empties the pending set, and [Viewer.update] calls it once per
    frame. *)
Theorem same_section_marked_twice_dispatched_once
  (s : t) (p1 p2 : Vec3.t) (between : list Event) :
  active s = true -> workers s <> [] ->
  keyOf p1 = keyOf p2 ->
  keyOf p1 ∉ pendingDirtySections s ->
  Forall (fun e => keeps_marked (keyOf p1) e = true) between ->
  let s1 := setSectionDirty p1 true s in
  let s2 := run s1 between in
  let s3 := setSectionDirty p2 true s2 in
  let i := Z.to_nat (hashOf p1 (length (workers s))) in
  dispatches (keyOf p1) s1 = S (dispatches (keyOf p1) s)
  /\ workers s1 !! i = (fun inbox => inbox ++ [dirtyMsg p1 true]) <$> workers s !! i
  /\ (forall j, j <> i -> workers s1 !! j = workers s !! j)
  /\ s3 = s2
  /\ (EvDispose ∉ between ->
      dispatches (keyOf p1) s3 = S (dispatches (keyOf p1) s))
  /\ (dispatches (keyOf p1) s3 <= S (dispatches (keyOf p1) s))%nat
  /\ pendingDirtySections (clearPendingDirtySections s3) = ∅
  /\ Viewer.update s3 = clearPendingDirtySections s3.
Proof.
  intros Ha Hw Hk Hfresh Hkeep s1 s2 s3 i.
  assert (Hg : guard_passes s) by done.
  assert (Hp1 : keyOf p1 ∈ pendingDirtySections s1).
  { subst s1. rewrite setSectionDirty_pending by done. set_solver. }
  assert (Hd1 : dispatches (keyOf p1) s1 = S (dispatches (keyOf p1) s)).
  { subst s1. rewrite dispatches_setSectionDirty by done.
    rewrite bool_decide_eq_true_2 by done. lia. }
  destruct (run_marked (keyOf p1) between s1 Hkeep Hp1) as (Hp2 & Hle & Heq).
  fold s2 in Hp2, Hle, Heq.
  assert (H32 : s3 = s2).
  { subst s3. destruct (guard_dec s2) as [Hg2|Hg2].
    - apply setSectionDirty_deduped; [done|]. by rewrite <- Hk.
    - by apply setSectionDirty_blocked. }
  split; [done|]. split; [|split; [|split; [done|]]].
  - subst s1 i. rewrite setSectionDirty_marked by done. simpl.
    apply list_lookup_alter_eq.
  - intros j Hj. subst s1 i. rewrite setSectionDirty_marked by done. simpl.
    by apply list_lookup_alter_ne.
  - rewrite H32. split; [|split; [lia|done]].
    intros Hnot. rewrite Heq by done. exact Hd1.
Qed.

Lemma same_section_marked_twice_dispatched_once_witness :
  let s := set_active true (new 4) in
  dispatches (keyOf (Vec3.mk 3 64 (-5)))
    (setSectionDirty (Vec3.mk 12 79 (-16)) true
       (run (setSectionDirty (Vec3.mk 3 64 (-5)) true s)
            [EvSetSectionDirty (Vec3.mk 40 0 0) true;
             EvSetBlockStateId (Vec3.mk 3 70 (-1)) 1;
             EvSetSectionDirty (Vec3.mk 3 64 11) false;
             EvMessage (MsgSectionFinished "0,64,-16")]))
  = 1%nat.
Proof.
  intros s.
  destruct (same_section_marked_twice_dispatched_once s
              (Vec3.mk 3 64 (-5)) (Vec3.mk 12 79 (-16))
              [EvSetSectionDirty (Vec3.mk 40 0 0) true;
               EvSetBlockStateId (Vec3.mk 3 70 (-1)) 1;
               EvSetSectionDirty (Vec3.mk 3 64 11) false;
               EvMessage (MsgSectionFinished "0,64,-16")])
    as (_ & _ & _ & _ & H & _).
  - reflexivity.
  - discriminate.
  - reflexivity.
  - vm_compute. set_solver.
  - repeat constructor.
  - apply H. intros Hin.
    repeat (apply elem_of_cons in Hin as [Hin|Hin]; [discriminate|]).
    by apply elem_of_nil in Hin.
Defined.

(** C5 as stated fails: with no [clearPendingDirtySections] in between,
    a section that is marked, unmarked by the unloading of its column and
    marked again is dispatched twice. *)
Lemma section_marked_again_after_unload_dispatched_twice :
  let p := Vec3.mk 0 0 0 in
  let evs := [EvSetSectionDirty p true; EvRemoveColumn 0 0;
              EvSetSectionDirty p true] in
  (EvClearPendingDirtySections ∉ evs)
  /\ dispatches (keyOf p) started = 0%nat
  /\ dispatches (keyOf p) (run started evs) = 2%nat
  /\ dispatches (keyOf p) (run started evs)
     <> S (dispatches (keyOf p) started)
  /\ concat (workers (run started evs))
     = [MsgReset; MsgVersion "1.16.4"; MsgDirty 0 0 0 true;
        MsgUnloadChunk 0 0; MsgDirty 0 0 0 false; MsgDirty 0 16 0 false;
        MsgDirty 0 32 0 false; MsgDirty 0 48 0 false; MsgDirty 0 64 0 false;
        MsgDirty 0 80 0 false; MsgDirty 0 96 0 false; MsgDirty 0 112 0 false;
        MsgDirty 0 128 0 false; MsgDirty 0 144 0 false; MsgDirty 0 160 0 false;
        MsgDirty 0 176 0 false; MsgDirty 0 192 0 false; MsgDirty 0 208 0 false;
        MsgDirty 0 224 0 false; MsgDirty 0 240 0 false; MsgDirty 0 0 0 true].
Proof.
  intros p evs. split.
  - intros Hin.
    repeat (apply elem_of_cons in Hin as [Hin|Hin]; [discriminate|]).
    by apply elem_of_nil in Hin.
  - split; [vm_compute; reflexivity|]. split; [vm_compute; reflexivity|].
    split; [vm_compute; discriminate|vm_compute; reflexivity].
Qed.

End FrameDedup.

(** ** The coordinator: what the cleanup of a mesh releases *)
Module CleanupFacts.
Import Protocol Dispose WorldRenderer Routes Releases Timeline Trees Meshes.
Import Columns Cleanup SharedFacts MeshFacts LifecycleFacts ColumnFacts.

(** *** One mesh *)

Lemma removeAndDispose_calls m mesh s :
  section_mesh m mesh -> uid (object mesh) ∈ scene s ->
  trace (gpu (removeAndDispose mesh s))
  = trace (gpu s) ++ cleanup_calls m mesh.
Proof.
  intros (u & geo & Hobj) Hin. unfold removeAndDispose, sceneRemove, cleanup_calls.
  rewrite Hobj in *. cbn [uid] in *. rewrite bool_decide_eq_true_2 by done.
  cbn. by rewrite <- app_assoc.
Qed.

Lemma get_elem (l : list (string * Mesh)) key mesh :
  JS.dict_get l key = Some mesh -> (key, mesh) ∈ l.
Proof.
  induction l as [|[k v] l IH]; [done|]. cbn [JS.dict_get].
  destruct (decide (k = key)) as [->|Hne].
  - intros [= ->]. left.
  - intros Hget. right. by apply IH.
Qed.

Lemma entry_in_scene s key mesh :
  consistent s -> (key, mesh) ∈ sectionMeshs s -> uid (object mesh) ∈ scene s.
Proof.
  intros Hc Hin. rewrite (scene_is_table s Hc). unfold uids.
  apply list_elem_of_fmap. by exists (key, mesh).
Qed.

(** *** A loop that removes and disposes meshes *)

Lemma removals_calls m (f : t -> string * Mesh -> t) l s :
  (forall s e, gpu (f s e) = gpu (removeAndDispose e.2 s)
               /\ scene (f s e) = scene (removeAndDispose e.2 s)) ->
  Forall (fun e => section_mesh m e.2) l ->
  NoDup (uids l) ->
  (forall u, u ∈ uids l -> u ∈ scene s) ->
  trace (gpu (fold_left f l s))
  = trace (gpu s) ++ flat_map (cleanup_calls m) l.*2.
Proof.
  intros Hf. revert s. induction l as [|[key mesh] l IH]; intros s Hall Hnd Hin.
  - simpl. by rewrite app_nil_r.
  - apply Forall_cons in Hall as [Hmesh Hall].
    cbn [uids fmap list_fmap] in Hnd. apply NoDup_cons in Hnd as [Hfresh Hnd].
    destruct (Hf s (key, mesh)) as [Hg Hs]. cbn [snd] in Hg, Hs, Hmesh.
    cbn [fold_left]. rewrite IH; [|done|done|].
    + rewrite Hg, (removeAndDispose_calls m) by (done || apply Hin; left).
      cbn [fmap list_fmap flat_map snd]. by rewrite <- app_assoc.
    + intros u Hu. rewrite Hs.
      destruct (removeAndDispose_effect mesh s) as (_ & -> & _).
      apply list_elem_of_filter. split.
      * intros ->. by apply Hfresh.
      * apply Hin. by right.
Qed.

Lemma resetWorld_calls s :
  installed s ->
  trace (gpu (resetWorld s))
  = trace (gpu s) ++ flat_map (cleanup_calls 0) (sectionMeshs s).*2.
Proof.
  intros (Hc & Hall & _).
  transitivity
    (trace (gpu (fold_left
       (fun s '(key, mesh) =>
          let s := removeAndDispose mesh s in
          set_sectionMeshs (JS.dict_delete (sectionMeshs s) key) s)
       (sectionMeshs s) (set_active false s)))); [reflexivity|].
  rewrite (removals_calls 0); [reflexivity| |done| |].
  - by intros s' [key mesh].
  - rewrite <- (scene_is_table s Hc). apply (scene_unique s Hc).
  - intros u Hu. change (u ∈ scene s). by rewrite (scene_is_table s Hc).
Qed.

(** *** A geometry that arrives *)

Lemma handleGeometry_calls key geometry s :
  installed s ->
  trace (gpu (handleGeometry key geometry s))
  = trace (gpu s)
    ++ match JS.dict_get (sectionMeshs s) key with
       | Some mesh => cleanup_calls 0 mesh
       | None => []
       end.
Proof.
  intros (Hc & Hall & _). unfold handleGeometry.
  set (s1 := match JS.dict_get (sectionMeshs s) key with
             | Some _ => _ | None => s end).
  assert (H1 : trace (gpu s1)
               = trace (gpu s)
                 ++ match JS.dict_get (sectionMeshs s) key with
                    | Some mesh => cleanup_calls 0 mesh
                    | None => []
                    end).
  { subst s1. destruct (JS.dict_get _ _) as [mesh|] eqn:Hget.
    - apply get_elem in Hget.
      change (trace (gpu (removeAndDispose mesh s))
              = trace (gpu s) ++ cleanup_calls 0 mesh).
      apply removeAndDispose_calls.
      + by apply (proj1 (Forall_forall _ _) Hall (key, mesh)).
      + by apply (entry_in_scene s key).
    - by rewrite app_nil_r. }
  clearbody s1. by destruct (negb _).
Qed.

(** *** The loop of [removeColumn] *)

Lemma setSectionDirty_gpu pos value s :
  gpu (setSectionDirty pos value s) = gpu s.
Proof.
  unfold setSectionDirty.
  destruct (negb (active s) || _); [done|].
  destruct (value && _); [done|]. by destruct value.
Qed.

Lemma unload_step_table x z s y :
  sectionMeshs (unload_step x z s y)
  = JS.dict_delete (sectionMeshs s) (sectionKey x y z).
Proof.
  by destruct (unload_step_shape x z s y) as (sc & g & ->).
Qed.

Lemma delete_Forall (P : string * Mesh -> Prop) l key :
  Forall P l -> Forall P (JS.dict_delete l key).
Proof.
  intros Hall. apply Forall_forall. intros e He.
  apply list_elem_of_filter in He as [_ He].
  by apply (proj1 (Forall_forall _ _) Hall).
Qed.

Lemma unload_fold_Forall (P : string * Mesh -> Prop) x z ys s :
  Forall P (sectionMeshs s) ->
  Forall P (sectionMeshs (fold_left (unload_step x z) ys s)).
Proof.
  revert s. induction ys as [|y ys IH]; intros s Hall; [done|].
  cbn [fold_left]. apply IH. rewrite unload_step_table. by apply delete_Forall.
Qed.

(** One turn: the mesh under the key, if there is one, is cleaned up. *)
Lemma unload_step_calls x z s y :
  consistent s -> Forall (fun e => section_mesh 0 e.2) (sectionMeshs s) ->
  consistent (unload_step x z s y)
  /\ trace (gpu (unload_step x z s y))
     = trace (gpu s)
       ++ match JS.dict_get (sectionMeshs s) (sectionKey x y z) with
          | Some mesh => cleanup_calls 0 mesh
          | None => []
          end.
Proof.
  intros Hc Hall. unfold unload_step. cbv zeta.
  pose proof (setSectionDirty_same (Vec3.mk x y z) false s) as Hsame.
  pose proof (setSectionDirty_gpu (Vec3.mk x y z) false s) as Hgpu.
  pose proof (same_consistent _ _ Hsame Hc) as Hc1.
  set (s1 := setSectionDirty (Vec3.mk x y z) false s) in *. clearbody s1.
  destruct Hsame as (Htable & Hscene & _).
  rewrite Htable.
  destruct (JS.dict_get (sectionMeshs s) (sectionKey x y z)) as [mesh|] eqn:Hget.
  - split.
    + apply remove_entry; [done|by rewrite Htable].
    + fields. rewrite <- Hgpu. apply removeAndDispose_calls.
      * apply get_elem in Hget.
        by apply (proj1 (Forall_forall _ _) Hall (sectionKey x y z, mesh)).
      * apply (entry_in_scene s1 (sectionKey x y z)); [done|].
        rewrite Htable. by apply get_elem.
  - split.
    + apply (same_consistent s1); [|done].
      repeat split. fields. apply get_none_delete. by rewrite Htable.
    + fields. by rewrite Hgpu, app_nil_r.
Qed.

Lemma omap_ext_in {A B} (f g : A -> option B) (l : list A) :
  (forall a, a ∈ l -> f a = g a) -> omap f l = omap g l.
Proof.
  induction l as [|a l IH]; intros Hfg; [done|].
  cbn [omap list_omap]. rewrite (Hfg a) by left.
  rewrite IH; [done|]. intros a' Ha'. apply Hfg. by right.
Qed.

Lemma unload_fold_calls x z ys s :
  NoDup ys ->
  consistent s -> Forall (fun e => section_mesh 0 e.2) (sectionMeshs s) ->
  trace (gpu (fold_left (unload_step x z) ys s))
  = trace (gpu s)
    ++ flat_map (cleanup_calls 0)
         (omap (fun key => JS.dict_get (sectionMeshs s) key)
               ((fun y => sectionKey x y z) <$> ys)).
Proof.
  revert s. induction ys as [|y ys IH]; intros s Hnd Hc Hall.
  - simpl. by rewrite app_nil_r.
  - apply NoDup_cons in Hnd as [Hfresh Hnd].
    destruct (unload_step_calls x z s y Hc Hall) as [Hc1 Htrace].
    cbn [fold_left]. rewrite IH; [|done|done|].
    2:{ rewrite unload_step_table. by apply delete_Forall. }
    rewrite Htrace, <- app_assoc. f_equal.
    cbn [fmap list_fmap omap list_omap].
    assert (Hrest :
      omap (fun key => JS.dict_get (sectionMeshs (unload_step x z s y)) key)
           ((fun y => sectionKey x y z) <$> ys)
      = omap (fun key => JS.dict_get (sectionMeshs s) key)
             ((fun y => sectionKey x y z) <$> ys)).
    { apply omap_ext_in. intros key Hkey.
      apply list_elem_of_fmap in Hkey as (y' & -> & Hy').
      rewrite unload_step_table, LRUContentsFacts.get_delete.
      rewrite decide_False; [done|]. intros Heq.
      apply JSFacts.sectionKey_inj in Heq as (_ & -> & _). done. }
    rewrite Hrest.
    by destruct (JS.dict_get (sectionMeshs s) (sectionKey x y z)).
Qed.

Lemma section_ys_NoDup : NoDup section_ys.
Proof.
  rewrite section_ys_list.
  apply (bool_decide_unpack (NoDup [0; 16; 32; 48; 64; 80; 96; 112; 128; 144;
                                    160; 176; 192; 208; 224; 240])).
  vm_compute. exact I.
Qed.

Lemma removeColumn_calls x z s :
  installed s ->
  trace (gpu (removeColumn x z s))
  = trace (gpu s) ++ flat_map (cleanup_calls 0) (column_meshes x z s).
Proof.
  intros (Hc & Hall & _). rewrite removeColumn_fold.
  rewrite unload_fold_calls; [reflexivity|apply section_ys_NoDup| |done].
  apply (same_consistent s); [|done]. by repeat split.
Qed.

(** *** The renderer stays installed *)

Lemma installed_new n : installed (new n).
Proof. split; [apply new_consistent|]. split; [constructor|by left]. Qed.

Lemma set_Forall (P : string * Mesh -> Prop) l key mesh :
  Forall P l -> P (key, mesh) -> Forall P (JS.dict_set l key mesh).
Proof.
  intros Hall Hp. induction l as [|[k v] l IH]; cbn [JS.dict_set].
  - by constructor.
  - apply Forall_cons in Hall as [Hkv Hall].
    destruct (decide (k = key)) as [->|Hne]; constructor; auto.
Qed.

Lemma handleGeometry_table key geometry s :
  WorldRenderer.material s = Some 0%nat ->
  Forall (fun e => section_mesh 0 e.2) (sectionMeshs s) ->
  Forall (fun e => section_mesh 0 e.2)
         (sectionMeshs (handleGeometry key geometry s)).
Proof.
  intros Hm Hall. unfold handleGeometry.
  set (s1 := match JS.dict_get (sectionMeshs s) key with
             | Some _ => _ | None => s end).
  assert (H1 : Forall (fun e => section_mesh 0 e.2) (sectionMeshs s1)
               /\ WorldRenderer.material s1 = Some 0%nat).
  { subst s1. destruct (JS.dict_get _ _) as [mesh|]; [|done].
    destruct (removeAndDispose_shape mesh s) as (sc & g & ->). fields.
    split; [by apply delete_Forall|done]. }
  clearbody s1. destruct H1 as [Hall1 Hm1].
  destruct (negb _); [done|].
  cbv zeta. unfold sceneAdd. fields. rewrite Hm1.
  apply set_Forall; [done|]. cbn [snd object with_parent].
  by eexists _, _.
Qed.

Lemma handle_material s e :
  e <> EvDispose ->
  WorldRenderer.material (handle s e) = WorldRenderer.material s.
Proof.
  intros Hne.
  assert (He : (exists texture, e = EvTextureLoaded texture)
               \/ (forall texture, e <> EvTextureLoaded texture)).
  { destruct e; try (right; discriminate). left. by eexists. }
  destruct He as [[texture ->]|He].
  - cbn [handle]. unfold textureLoaded.
    destruct (currentTexture s); fields;
      destruct (WorldRenderer.material s) eqn:Hm; fields; by rewrite ?Hm.
  - by destruct (handle_keeps s e Hne He) as [Hm _].
Qed.

Lemma handlers_active L s :
  workersActive (fold_left (fun s p => updateHandler p s) L s)
  = workersActive s.
Proof.
  revert s. induction L as [|p L IH]; intros s; [done|].
  cbn [fold_left]. rewrite IH. unfold updateHandler.
  by destruct (_ =? _)%nat.
Qed.

Lemma handle_active s e :
  e <> EvDispose -> workersActive (handle s e) = workersActive s.
Proof.
  intros Hne.
  destruct e as [data|v| | |x z chunk|x z|pos sid|pos value| |texture|json|];
    cbn [handle].
  - unfold onmessage. destruct (negb (workersActive s)); [done|].
    destruct data as [key geometry|key|key message].
    + by destruct (WaitFacts.handleGeometry_sync key geometry s)
        as (_ & _ & _ & ->).
    + unfold emitUpdate. by rewrite handlers_active.
    + done.
  - by destruct (WaitFacts.setVersion_sync v s) as (_ & _ & _ & ->).
  - by destruct (WaitFacts.resetWorld_sync s) as (_ & _ & _ & ->).
  - done.
  - by destruct (WaitFacts.addColumn_sync x z chunk s) as (_ & _ & _ & ->).
  - by destruct (WaitFacts.removeColumn_sync x z s) as (_ & _ & _ & ->).
  - by destruct (WaitFacts.setBlockStateId_sync pos sid s) as (_ & _ & _ & ->).
  - by destruct (WaitFacts.setSectionDirty_sync pos value s)
      as (_ & _ & _ & ->).
  - done.
  - by destruct (WaitFacts.textureLoaded_sync texture s) as (_ & _ & _ & ->).
  - done.
  - unfold waitForChunksToRender. cbv zeta. fields.
    by destruct (_ =? _)%nat.
Qed.

(** The table after an event: the same, emptied, a part of it, or with
    the one mesh of a geometry that arrived. *)
Lemma handle_table s e :
  Forall (fun e => section_mesh 0 e.2) (sectionMeshs s) ->
  (workersActive s = true -> WorldRenderer.material s = Some 0%nat) ->
  Forall (fun e => section_mesh 0 e.2) (sectionMeshs (handle s e)).
Proof.
  intros Hall Hm.
  destruct e as [data|v| | |x z chunk|x z|pos sid|pos value| |texture|json|];
    cbn [handle].
  - unfold onmessage. destruct (workersActive s) eqn:Ha; cbn [negb]; [|done].
    destruct data as [key geometry|key|key message]; [|
      by destruct (emitUpdate_same
           (set_sectionsOutstanding (sectionsOutstanding s ∖ {[key]}) s))
        as (-> & _)|done].
    apply handleGeometry_table; auto.
  - assert (Ht : sectionMeshs (setVersion v s) = []).
    { unfold setVersion, updateTexturesData. cbv zeta. fields.
      by destruct (resetWorld_effect (set_version (Some v) s)) as (-> & _). }
    rewrite Ht. constructor.
  - destruct (resetWorld_effect s) as (-> & _). constructor.
  - destruct (dispose_effect s) as (-> & _). constructor.
  - by destruct (addColumn_same x z chunk s) as (-> & _).
  - rewrite removeColumn_fold. by apply unload_fold_Forall.
  - by destruct (setBlockStateId_same pos sid s) as (-> & _).
  - by destruct (setSectionDirty_same pos value s) as (-> & _).
  - done.
  - by destruct (textureLoaded_same texture s) as (-> & _).
  - done.
  - by destruct (waitForChunksToRender_same s) as (-> & _).
Qed.

Lemma empty_Forall (l : list (string * Mesh)) :
  Forall (fun _ => False) l -> l = [].
Proof. by destruct 1. Qed.

Lemma inactive_table s e :
  workersActive s = false -> sectionMeshs s = [] ->
  sectionMeshs (handle s e) = [].
Proof.
  intros Ha Ht.
  destruct e as [data|v| | |x z chunk|x z|pos sid|pos value| |texture|json|];
    cbn [handle].
  - unfold onmessage. by rewrite Ha.
  - unfold setVersion, updateTexturesData. cbv zeta. fields.
    by destruct (resetWorld_effect (set_version (Some v) s)) as (-> & _).
  - by destruct (resetWorld_effect s) as (-> & _).
  - by destruct (dispose_effect s) as (-> & _).
  - by destruct (addColumn_same x z chunk s) as (-> & _).
  - apply empty_Forall. rewrite removeColumn_fold.
    apply unload_fold_Forall. fields. rewrite Ht. constructor.
  - by destruct (setBlockStateId_same pos sid s) as (-> & _).
  - by destruct (setSectionDirty_same pos value s) as (-> & _).
  - done.
  - by destruct (textureLoaded_same texture s) as (-> & _).
  - done.
  - by destruct (waitForChunksToRender_same s) as (-> & _).
Qed.

Lemma installed_handle s e : installed s -> installed (handle s e).
Proof.
  intros (Hc & Hall & Hown).
  split; [by apply handle_consistent|]. split.
  - apply handle_table; [done|]. intros Ha.
    destruct Hown as [Hm|[Hi _]]; [done|congruence].
  - destruct Hown as [Hm|[Hi Ht]].
    + assert (He : e = EvDispose \/ e <> EvDispose)
        by (destruct e; try (right; discriminate); by left).
      destruct He as [->|Hne].
      * right. cbn [handle]. destruct (dispose_shape s) as (sc & g & ->).
        by split.
      * left. by rewrite handle_material.
    + right. split; [by apply WaitFacts.inactive_step|by apply inactive_table].
Qed.

Lemma installed_run n evs : installed (run (new n) evs).
Proof.
  unfold run. apply FrameFacts.fold_left_invariant.
  - intros s e. apply installed_handle.
  - apply installed_new.
Qed.

Lemma installed_mesh s key mesh :
  installed s -> JS.dict_get (sectionMeshs s) key = Some mesh ->
  WorldRenderer.material s = Some 0%nat
  /\ Dispose.material (object mesh) = OneMaterial 0.
Proof.
  intros (Hc & Hall & Hown) Hget. apply get_elem in Hget. split.
  - destruct Hown as [Hm|[_ Ht]]; [done|].
    rewrite Ht in Hget. by apply elem_of_nil in Hget.
  - destruct (proj1 (Forall_forall _ _) Hall (key, mesh) Hget)
      as (u & geo & Hobj).
    cbn [snd] in Hobj. by rewrite Hobj.
Qed.

(** C1, as the code has it.  On each per-mesh cleanup path (a mesh
    replaced when geometry arrives, the meshes of an unloaded column, all
    meshes on a world reset) no texture is disposed or installed, the
    texture properties of every material stay as they are, and the
    coordinator keeps its material and its current texture; the same
    holds of everything that happens to the coordinator except [dispose]
    and the arrival of a new texture.  The shared material does receive
    [dispose ()] from [dispose3], once for each mesh that is cleaned up:
    in a renderer whose meshes are those that [_handleGeometry]
    installed, each of the three paths makes, for every mesh it cleans up
    and in the order of its loop, the call [dispose ()] on the geometry
    of the mesh and then the call [dispose ()] on the shared material,
    and no other call.  Every renderer is such a renderer, whatever
    happened to it since its construction. *)
Theorem per_mesh_cleanup_spares_shared_texture (s : t) :
  (forall key geometry, keeps_shared s (handleGeometry key geometry s))
  /\ (forall x z, keeps_shared s (removeColumn x z s))
  /\ keeps_shared s (resetWorld s)
  /\ (forall e, e <> EvDispose -> (forall texture, e <> EvTextureLoaded texture) ->
                keeps_shared s (handle s e))
  /\ (installed s ->
      (forall key mesh,
         JS.dict_get (sectionMeshs s) key = Some mesh ->
         WorldRenderer.material s = Some 0%nat
         /\ Dispose.material (object mesh) = OneMaterial 0)
      /\ (forall key geometry,
            trace (gpu (handleGeometry key geometry s))
            = trace (gpu s)
              ++ match JS.dict_get (sectionMeshs s) key with
                 | Some mesh => cleanup_calls 0 mesh
                 | None => []
                 end)
      /\ (forall x z,
            trace (gpu (removeColumn x z s))
            = trace (gpu s)
              ++ flat_map (cleanup_calls 0) (column_meshes x z s))
      /\ trace (gpu (resetWorld s))
         = trace (gpu s) ++ flat_map (cleanup_calls 0) (sectionMeshs s).*2)
  /\ (forall numWorkers evs, installed (run (new numWorkers) evs)).
Proof.
  split; [intros; apply handleGeometry_keeps|].
  split; [intros; apply removeColumn_keeps|].
  split; [apply resetWorld_keeps|].
  split; [intros; by apply handle_keeps|].
  split; [|apply installed_run].
  intros Hi.
  split; [intros key mesh; by apply installed_mesh|].
  split; [intros; by apply handleGeometry_calls|].
  split; [intros; by apply removeColumn_calls|].
  by apply resetWorld_calls.
Qed.

(** A renderer with one worker, after the version is set, the column
    (0, 0) is loaded and the mesh of the section (0, 0, 0) has arrived:
    each path disposes the geometry of the mesh and the shared material,
    and nothing else. *)
Lemma per_mesh_cleanup_spares_shared_texture_witness :
  installed
    (run (new 1)
          [EvSetVersion "1.16.4"; EvAddColumn 0 0 "{}";
           EvMessage (MsgGeometry "0,0,0" (mkGeometry [] [] [] [] [] 0 0 0))])
  /\ trace (gpu (handleGeometry "0,0,0" (mkGeometry [] [] [] [] [] 0 0 0)
       (run (new 1)
          [EvSetVersion "1.16.4"; EvAddColumn 0 0 "{}";
           EvMessage (MsgGeometry "0,0,0" (mkGeometry [] [] [] [] [] 0 0 0))])))
     = [GeometryDispose 1; MaterialDispose 0]
  /\ trace (gpu (removeColumn 0 0
       (run (new 1)
          [EvSetVersion "1.16.4"; EvAddColumn 0 0 "{}";
           EvMessage (MsgGeometry "0,0,0" (mkGeometry [] [] [] [] [] 0 0 0))])))
     = [GeometryDispose 1; MaterialDispose 0]
  /\ trace (gpu (resetWorld
       (run (new 1)
          [EvSetVersion "1.16.4"; EvAddColumn 0 0 "{}";
           EvMessage (MsgGeometry "0,0,0" (mkGeometry [] [] [] [] [] 0 0 0))])))
     = [GeometryDispose 1; MaterialDispose 0].
Proof.
  destruct (per_mesh_cleanup_spares_shared_texture
       (run (new 1)
          [EvSetVersion "1.16.4"; EvAddColumn 0 0 "{}";
           EvMessage (MsgGeometry "0,0,0" (mkGeometry [] [] [] [] [] 0 0 0))]))
    as (_ & _ & _ & _ & H & Hrun).
  pose proof (Hrun 1%nat
                [EvSetVersion "1.16.4"; EvAddColumn 0 0 "{}";
                 EvMessage (MsgGeometry "0,0,0"
                              (mkGeometry [] [] [] [] [] 0 0 0))]) as Hi.
  destruct (H Hi) as (_ & Hg & Hc & Hr).
  split; [exact Hi|].
  rewrite Hg, Hc, Hr. repeat split; vm_compute; reflexivity.
Defined.

End CleanupFacts.
